(** * Skematix blueprint-to-3D pipeline: a shallow embedding of the stages

    The development follows the Python sources under [pipeline/]:
    one module per class or stage, functions under the names they have in
    the source.  Conventions of the embedding:

    - Python [int]s are [Z] (or [nat] where the source only counts);
      Python [float]s are exact rationals ([Qc]): rounding of binary
      floating point is not modelled, except in the module [Binary64],
      which embeds the mesh construction of stage 6 over binary64 floats
      for the facts that depend on rounding;
    - a function that may raise returns in the monad [exn]; a function
      that returns [None] on failure returns an [option];
    - a two-dimensional [numpy] array is a shape and an indexing function;
    - a [dict] keyed by a running counter is the list of its values in
      insertion order (which is the order Python iterates it in);
    - [logging] calls are dropped: they do not influence any result. *)

From Stdlib Require Import ZArith QArith Qcanon Qround Lia.
From Stdlib Require Floats.
From Stdlib.Strings Require Import Byte.
From Equations Require Import Equations.
From stdpp Require Import gmap strings list sets pretty numbers.

Local Open Scope Z_scope.

(** ** Exceptions

    The outcome of a call that may raise: the value returned, or the
    exception that propagates to the caller. *)

Inductive exception :=
  | ValueError | KeyError | IndexError | ZeroDivisionError
  | OverflowError | TypeError | OSError
  | StructError.      (* struct.error *)

Inductive exn (A : Type) : Type :=
  | Ret (a : A)
  | Raise (e : exception).
Arguments Ret {A} a.
Arguments Raise {A} e.

#[export] Instance exn_ret : MRet exn := λ A a, Ret a.
#[export] Instance exn_bind : MBind exn := λ A B f m,
  match m with
  | Ret a => f a
  | Raise e => Raise e
  end.

(** [try: m except Exception: h]. *)
Definition try_except {A} (m : exn A) (h : A) : A :=
  match m with
  | Ret a => a
  | Raise _ => h
  end.

(** ** numpy arrays *)

Module np.

(** A 2-D array: [shape = (shape0, shape1)], entry [item y x] at row [y],
    column [x]. *)
Record ndarray := mk_ndarray {
  shape0 : nat;
  shape1 : nat;
  item : nat → nat → Z
}.

(** [a.astype(np.uint8)]: entries wrap modulo 256. *)
Definition astype_uint8 (a : ndarray) : ndarray :=
  {| shape0 := shape0 a; shape1 := shape1 a;
     item := λ y x, item a y x `mod` 256 |}.

(** [np.zeros(shape)]. *)
Definition zeros (h w : nat) : ndarray :=
  {| shape0 := h; shape1 := w; item := λ _ _, 0 |}.

(** One bound [i] of a slice [a:b] over an axis of length [n]: a negative
    bound counts from the end, and both ends are clamped to [0..n]. *)
Definition slice_bound (i : Z) (n : nat) : nat :=
  if bool_decide (i < 0) then Z.to_nat (Z.max (i + Z.of_nat n) 0)
  else Z.to_nat (Z.min i (Z.of_nat n)).

(** The indices selected by the slice [a:b] over an axis of length [n]. *)
Definition slice_range (a b : Z) (n : nat) : list nat :=
  seq (slice_bound a n) (slice_bound b n - slice_bound a n).

Definition sum_list (l : list Z) : Z := foldr Z.add 0 l.

(** [m[y0:y1, x0:x1].sum()] (the accumulator is wider than the entries,
    so the sum does not wrap). *)
Definition slice_sum (m : ndarray) (y0 y1 x0 x1 : Z) : Z :=
  sum_list
    (map (λ y, sum_list (map (λ x, item m y x) (slice_range x0 x1 (shape1 m))))
         (slice_range y0 y1 (shape0 m))).

(** [m.sum()] and [m.size]. *)
Definition sum (m : ndarray) : Z :=
  sum_list
    (map (λ y, sum_list (map (λ x, item m y x) (seq 0 (shape1 m))))
         (seq 0 (shape0 m))).

Definition size (m : ndarray) : Z := Z.of_nat (shape0 m) * Z.of_nat (shape1 m).

(** [np.mean] of a list of numbers already converted to floats. *)
Definition mean (l : list Qc) : Qc :=
  (foldr Qcplus (Q2Qc 0) l / Q2Qc (inject_Z (Z.of_nat (length l))))%Qc.

End np.

(** Python's [int -> float] conversion, and [int(x)] on a float
    (truncation towards zero). *)
Definition float_of_int (z : Z) : Qc := Q2Qc (inject_Z z).
Definition int_of_float (q : Qc) : Z := Z.quot (Qnum q) (Zpos (Qden q)).

(** Float division, which raises on a zero divisor. *)
Definition py_div (a b : Qc) : exn Qc :=
  if bool_decide (b = Q2Qc 0) then Raise ZeroDivisionError else Ret (a / b)%Qc.

(** Remember the equation of a case analysis. *)
Definition inspect {A} (a : A) : {b | a = b} := exist _ a eq_refl.

(** ** Coordinates

    [Room] and [RoomSet] are used with integer pixel coordinates (stage 4)
    and with float metric coordinates (stage 5).  The operations the code
    applies to a coordinate are collected in a class. *)

Class Coord (K : Type) `{Countable K} := {
  (** conversion to float, as [np.mean] does *)
  to_float : K → Qc;
  (** [a <= b] *)
  coord_le : K → K → bool;
  (** [a + d] for a small integer [d] *)
  coord_shift : K → Z → K
}.

#[export] Instance Coord_Z : Coord Z := {|
  to_float := float_of_int;
  coord_le := Z.leb;
  coord_shift := Z.add
|}.

#[export] Instance Coord_Qc : Coord Qc := {|
  to_float := λ q, q;
  coord_le := λ a b, bool_decide (a ≤ b)%Qc;
  coord_shift := λ q d, (q + float_of_int d)%Qc
|}.

(** Python's [min] and [max] over a list, which raise [ValueError] on an
    empty list. *)
Definition py_min `{Coord K} (l : list K) : exn K :=
  match l with
  | [] => Raise ValueError
  | x :: l' => Ret (foldl (λ m y, if coord_le m y then m else y) x l')
  end.

Definition py_max `{Coord K} (l : list K) : exn K :=
  match l with
  | [] => Raise ValueError
  | x :: l' => Ret (foldl (λ m y, if coord_le y m then m else y) x l')
  end.

(** ** Stage 1: the classifier's output ([pipeline/stage1_semantic_segmentation.py])

    The classifier itself is outside the model; its output container is
    what the later stages read. *)

Module SemanticClass.
Definition BACKGROUND : Z := 0.
Definition WALL : Z := 1.
Definition DOOR : Z := 2.
Definition WINDOW : Z := 3.
End SemanticClass.

Module SemanticMaskOutput.

Record t := mk {
  mask : np.ndarray;     (* per-pixel class labels *)
  height : nat;
  width : nat
}.

(** [(self.mask == class_id).astype(np.uint8)] *)
Definition get_class_mask (self : t) (class_id : Z) : np.ndarray :=
  np.astype_uint8
    {| np.shape0 := np.shape0 (mask self);
       np.shape1 := np.shape1 (mask self);
       np.item := λ y x, if bool_decide (np.item (mask self) y x = class_id) then 1 else 0 |}.

Definition get_wall_mask (self : t) : np.ndarray := get_class_mask self SemanticClass.WALL.
Definition get_door_mask (self : t) : np.ndarray := get_class_mask self SemanticClass.DOOR.
Definition get_window_mask (self : t) : np.ndarray := get_class_mask self SemanticClass.WINDOW.

End SemanticMaskOutput.

(** ** Stage 2: wall mask refinement ([pipeline/stage2_wall_refinement.py]) *)

Module cv2.
(** Constants of OpenCV the code passes on. *)
Definition MORPH_ELLIPSE : Z := 2.
Definition MORPH_OPEN : Z := 2.
Definition MORPH_CLOSE : Z := 3.

(** The OpenCV functions the pipeline calls.  They are outside the
    repository: the stages are parameterised by them. *)
Record api := mk_api {
  getStructuringElement : Z → nat * nat → np.ndarray;
  dilate : np.ndarray → np.ndarray → nat → np.ndarray;
  morphologyEx : np.ndarray → Z → np.ndarray → np.ndarray;
  connectedComponents : np.ndarray → nat * np.ndarray;
  thinning : np.ndarray → np.ndarray     (* cv2.ximgproc.thinning *)
}.
End cv2.

Module WallMaskRefinement.

Record t := mk {
  wall_mask : np.ndarray;
  door_mask : np.ndarray;
  window_mask : np.ndarray;
  min_wall_thickness : Z;
  refined_mask : option np.ndarray;
  log_info : list string
}.

(** [WallMaskRefinement(wall_mask, door_mask, window_mask, min_wall_thickness_px)] *)
Definition init (wall_mask door_mask window_mask : np.ndarray)
    (min_wall_thickness_px : Z) : t :=
  {| wall_mask := np.astype_uint8 wall_mask;
     door_mask := np.astype_uint8 door_mask;
     window_mask := np.astype_uint8 window_mask;
     min_wall_thickness := min_wall_thickness_px;
     refined_mask := None;
     log_info := [] |}.

Definition append_log (self : t) (msg : string) : t :=
  {| wall_mask := wall_mask self; door_mask := door_mask self;
     window_mask := window_mask self;
     min_wall_thickness := min_wall_thickness self;
     refined_mask := refined_mask self;
     log_info := log_info self ++ [msg] |}.

(** [result[selector > 0] = 0] on a copy of [mask]. *)
Definition zero_where_positive (mask selector : np.ndarray) : np.ndarray :=
  {| np.shape0 := np.shape0 mask; np.shape1 := np.shape1 mask;
     np.item := λ y x, if bool_decide (np.item selector y x > 0) then 0
                       else np.item mask y x |}.

(** [result[labels == label_id] = 0] *)
Definition zero_where_label (mask labels : np.ndarray) (label_id : nat) : np.ndarray :=
  {| np.shape0 := np.shape0 mask; np.shape1 := np.shape1 mask;
     np.item := λ y x, if bool_decide (np.item labels y x = Z.of_nat label_id) then 0
                       else np.item mask y x |}.

(** [(labels == label_id).sum()] *)
Definition component_size (labels : np.ndarray) (label_id : nat) : Z :=
  np.sum {| np.shape0 := np.shape0 labels; np.shape1 := np.shape1 labels;
            np.item := λ y x, if bool_decide (np.item labels y x = Z.of_nat label_id)
                              then 1 else 0 |}.

Section refine.
Variable cv : cv2.api.

(** [_remove_openings_preserve_continuity]: the new mask and the updated
    object (its [log_info] grows). *)
Definition _remove_openings_preserve_continuity (self : t)
    (wall_mask opening_mask : np.ndarray) (opening_type : string) : np.ndarray * t :=
  let count_before := np.sum wall_mask in
  let kernel := cv2.getStructuringElement cv cv2.MORPH_ELLIPSE (3, 3)%nat in
  let dilated_openings := cv2.dilate cv opening_mask kernel 1 in
  let result := zero_where_positive wall_mask dilated_openings in
  let count_after := np.sum result in
  let removed := count_before - count_after in
  (result, append_log self ("Removed " +:+ opening_type +:+ ": "
                              +:+ pretty removed +:+ " pixels")).

(** [_morphological_cleanup]: closing with a 5x5 ellipse, then opening
    with a 3x3 ellipse. *)
Definition _morphological_cleanup (mask : np.ndarray) : np.ndarray :=
  let kernel_close := cv2.getStructuringElement cv cv2.MORPH_ELLIPSE (5, 5)%nat in
  let result := cv2.morphologyEx cv mask cv2.MORPH_CLOSE kernel_close in
  let kernel_open := cv2.getStructuringElement cv cv2.MORPH_ELLIPSE (3, 3)%nat in
  cv2.morphologyEx cv result cv2.MORPH_OPEN kernel_open.

(** [_remove_small_components] *)
Definition _remove_small_components (self : t) (mask : np.ndarray) (min_size : Z)
    : np.ndarray * t :=
  let '(num_labels, labels) := cv2.connectedComponents cv mask in
  let '(result, removed_count) :=
    foldl (λ '(result, removed_count) label_id,
             if bool_decide (component_size labels label_id < min_size)
             then (zero_where_label result labels label_id, S removed_count)
             else (result, removed_count))
          (mask, 0%nat) (seq 1 (num_labels - 1)) in
  (result,
   if bool_decide (0 < removed_count)%nat
   then append_log self ("Removed " +:+ pretty removed_count +:+ " small components")
   else self).

(** [refine()]: the refined mask and the updated object. *)
Definition refine (self : t) : np.ndarray * t :=
  let self := append_log self "Starting wall mask refinement" in
  let refined := wall_mask self in
  let '(refined, self) :=
    _remove_openings_preserve_continuity self refined (door_mask self) "doors" in
  let '(refined, self) :=
    _remove_openings_preserve_continuity self refined (window_mask self) "windows" in
  let refined := _morphological_cleanup refined in
  let '(refined, self) := _remove_small_components self refined 20 in
  (refined,
   {| wall_mask := wall_mask self; door_mask := door_mask self;
      window_mask := window_mask self;
      min_wall_thickness := min_wall_thickness self;
      refined_mask := Some refined;
      log_info := log_info self |}).

End refine.

(** [validate()] *)
Definition validate (self : t) : bool * string :=
  match refined_mask self with
  | None => (false, "Refinement not yet executed")
  | Some refined_mask =>
      let wall_pixels := np.sum refined_mask in
      let total_pixels := np.size refined_mask in
      if bool_decide (wall_pixels < 100)
      then (false, "Too few wall pixels remaining after refinement")
      else if bool_decide (Q2Qc (95 # 100) * float_of_int total_pixels
                           < float_of_int wall_pixels)%Qc
      then (false, "Too many wall pixels (refinement likely failed)")
      else (true, "Refined wall mask valid")
  end.

End WallMaskRefinement.

(** [stage2_wall_mask_refinement(semantic_output, min_wall_thickness_px)] *)
Definition stage2_wall_mask_refinement (cv : cv2.api)
    (semantic_output : option SemanticMaskOutput.t)
    (min_wall_thickness_px : Z) : option np.ndarray :=
  match semantic_output with
  | None => None
  | Some semantic_output =>
      let wall_mask := SemanticMaskOutput.get_wall_mask semantic_output in
      let door_mask := SemanticMaskOutput.get_door_mask semantic_output in
      let window_mask := SemanticMaskOutput.get_window_mask semantic_output in
      let refiner := WallMaskRefinement.init wall_mask door_mask window_mask
                                             min_wall_thickness_px in
      let '(refined_mask, refiner) := WallMaskRefinement.refine cv refiner in
      let '(is_valid, message) := WallMaskRefinement.validate refiner in
      if negb is_valid then None else Some refined_mask
  end.

(** ** Stage 3: topology extraction ([pipeline/stage3_topology_extraction.py]) *)

Module WallVertex.
Record t := mk {
  id : nat;
  position : Qc * Qc;
  is_junction : bool;
  is_corner : bool;
  degree : nat
}.

(** [vertex.degree += 1] *)
Definition incr_degree (v : t) : t :=
  {| id := id v; position := position v; is_junction := is_junction v;
     is_corner := is_corner v; degree := S (degree v) |}.
End WallVertex.

Module WallEdge.
(** An edge holds references to its two vertex objects, which are the
    objects stored in the graph's [vertices]: the model keeps the objects
    in the graph and the edge refers to them by id. *)
Record t := mk {
  id : nat;
  vertex_a : nat;
  vertex_b : nat;
  length_px : Qc;
  points : list (Qc * Qc)
}.
End WallEdge.

Module WallTopologyGraph.

Record t := mk {
  vertices : gmap nat WallVertex.t;
  edges : gmap nat WallEdge.t;
  vertex_counter : nat;
  edge_counter : nat;
  adjacency : gmap nat (gset nat)
}.

(** [WallTopologyGraph()] *)
Definition init : t :=
  {| vertices := ∅; edges := ∅; vertex_counter := 0; edge_counter := 0;
     adjacency := ∅ |}.

(** [add_vertex(position, is_junction, is_corner)] *)
Definition add_vertex (self : t) (position : Qc * Qc)
    (is_junction is_corner : bool) : WallVertex.t * t :=
  let vertex := {| WallVertex.id := vertex_counter self;
                   WallVertex.position := position;
                   WallVertex.is_junction := is_junction;
                   WallVertex.is_corner := is_corner;
                   WallVertex.degree := 0 |} in
  (vertex,
   {| vertices := <[WallVertex.id vertex := vertex]> (vertices self);
      edges := edges self;
      vertex_counter := S (vertex_counter self);
      edge_counter := edge_counter self;
      adjacency := <[WallVertex.id vertex := ∅]> (adjacency self) |}).

(** [self.adjacency[k]], which raises [KeyError] on a missing key. *)
Definition adjacency_at (adjacency : gmap nat (gset nat)) (k : nat) : exn (gset nat) :=
  match adjacency !! k with
  | Some s => Ret s
  | None => Raise KeyError
  end.

(** [add_edge(vertex_a, vertex_b, length_px, points)], the two vertices
    given by their ids. *)
Definition add_edge (self : t) (vertex_a vertex_b : nat)
    (length_px : Qc) (points : list (Qc * Qc)) : exn (WallEdge.t * t) :=
  let edge := {| WallEdge.id := edge_counter self;
                 WallEdge.vertex_a := vertex_a;
                 WallEdge.vertex_b := vertex_b;
                 WallEdge.length_px := length_px;
                 WallEdge.points := points |} in
  let edges := <[WallEdge.id edge := edge]> (edges self) in
  adj_a ← adjacency_at (adjacency self) vertex_a;
  let adjacency := <[vertex_a := {[vertex_b]} ∪ adj_a]> (adjacency self) in
  adj_b ← adjacency_at adjacency vertex_b;
  let adjacency := <[vertex_b := {[vertex_a]} ∪ adj_b]> adjacency in
  let vertices := alter WallVertex.incr_degree vertex_b
                    (alter WallVertex.incr_degree vertex_a (vertices self)) in
  Ret (edge,
       {| vertices := vertices;
          edges := edges;
          vertex_counter := vertex_counter self;
          edge_counter := S (edge_counter self);
          adjacency := adjacency |}).

(** The keys of [self.vertices] in the order Python iterates them: the
    keys are values of the running counter, inserted in increasing order. *)
Definition vertex_ids (self : t) : list nat :=
  filter (λ k, is_Some (vertices self !! k)) (seq 0 (vertex_counter self)).

(** [self.vertices.items()], [self.vertices.values()] and
    [self.edges.values()], in iteration order. *)
Definition vertex_items (self : t) : list (nat * WallVertex.t) :=
  omap (λ k, (λ v, (k, v)) <$> vertices self !! k) (seq 0 (vertex_counter self)).

Definition vertex_values (self : t) : list WallVertex.t :=
  omap (λ k, vertices self !! k) (seq 0 (vertex_counter self)).

Definition edge_values (self : t) : list WallEdge.t :=
  omap (λ k, edges self !! k) (seq 0 (edge_counter self)).

(** The number of vertices the traversal has left to visit. *)
Definition unvisited (adj : gmap nat (gset nat)) (visited : gset nat) : nat :=
  size (dom adj ∖ visited).

(** The [while queue:] loop of [_is_connected]: pop the first vertex; skip
    it if visited; otherwise mark it and append its unvisited neighbours. *)
Equations? bfs_loop (adj : gmap nat (gset nat)) (visited : gset nat)
    (queue : list nat) : exn (gset nat)
    by wf (unvisited adj visited, length queue)
          (Equations.Prop.Subterm.lexprod _ _ lt lt) :=
  bfs_loop adj visited [] := Ret visited;
  bfs_loop adj visited (vid :: queue) with decide (vid ∈ visited) => {
    | left _ := bfs_loop adj visited queue;
    | right _ with inspect (adj !! vid) => {
        | exist _ None _ := Raise KeyError;
        | exist _ (Some neighbours) _ :=
            bfs_loop adj ({[vid]} ∪ visited)
              (queue ++ filter (λ n, n ∉ {[vid]} ∪ visited) (elements neighbours)) } }.
Proof.
  - constructor 2. simpl. lia.
  - constructor 1. unfold unvisited. apply subset_size.
    assert (vid ∈ dom adj) by (apply elem_of_dom; eauto).
    split.
    + intros x [Hx Hnx]%elem_of_difference. apply elem_of_difference.
      split; [done|]. intros Hv. apply Hnx, elem_of_union. by right.
    + intros Hsub. specialize (Hsub vid).
      rewrite !elem_of_difference in Hsub.
      destruct Hsub as [_ Hv]; [done|].
      apply Hv, elem_of_union. left. by apply elem_of_singleton.
Defined.

(** The traversal of [_is_connected] from a given start vertex. *)
Definition bfs (self : t) (start_vertex_id : nat) : exn (gset nat) :=
  bfs_loop (adjacency self) ∅ [start_vertex_id].

(** [_is_connected()] *)
Definition _is_connected (self : t) : exn bool :=
  match vertex_ids self with
  | [] => Ret false
  | start_vertex_id :: _ =>
      visited ← bfs self start_vertex_id;
      Ret (bool_decide (size visited = size (vertices self)))
  end.

(** [validate()] *)
Definition validate (self : t) : exn (bool * string) :=
  if bool_decide (size (vertices self) < 2)%nat
  then Ret (false, "Graph has fewer than 2 vertices")
  else if bool_decide (size (edges self) < 1)%nat
  then Ret (false, "Graph has no edges")
  else
    connected ← _is_connected self;
    if negb connected
    then Ret (false, "Graph is not connected (broken wall topology)")
    else Ret (true, "Graph structure valid").

(** [self.vertices[vid]], which raises [KeyError] on a missing key. *)
Definition vertex_at (self : t) (vid : nat) : exn WallVertex.t :=
  match vertices self !! vid with
  | Some v => Ret v
  | None => Raise KeyError
  end.

(** [get_neighbors(vertex)]: the vertices of the neighbour ids.  The order
    in which Python iterates the set of ids is not fixed by the language;
    the order of [elements] stands for it. *)
Definition get_neighbors (self : t) (vertex : WallVertex.t) : exn (list WallVertex.t) :=
  neighbor_ids ← adjacency_at (adjacency self) (WallVertex.id vertex);
  mapM (vertex_at self) (elements neighbor_ids).

(** [summary()]: the values under the keys [vertex_count], [edge_count],
    [total_edge_length], [junction_count] and [corner_count]. *)
Record summary_t := mk_summary {
  vertex_count : nat;
  edge_count : nat;
  total_edge_length : Qc;
  junction_count : nat;
  corner_count : nat
}.

Definition summary (self : t) : summary_t :=
  {| vertex_count := size (vertices self);
     edge_count := size (edges self);
     total_edge_length :=
       foldl Qcplus (Q2Qc 0) (WallEdge.length_px <$> edge_values self);
     junction_count := length (filter (λ v, WallVertex.is_junction v = true) (vertex_values self));
     corner_count := length (filter (λ v, WallVertex.is_corner v = true) (vertex_values self)) |}.

(** Graphs as the class builds them: from the empty graph by [add_vertex]
    and [add_edge]. *)
Inductive constructed : t → Prop :=
  | constructed_init : constructed init
  | constructed_add_vertex self position is_junction is_corner :
      constructed self →
      constructed (add_vertex self position is_junction is_corner).2
  | constructed_add_edge self vertex_a vertex_b length_px points edge self' :
      constructed self →
      add_edge self vertex_a vertex_b length_px points = Ret (edge, self') →
      constructed self'.

End WallTopologyGraph.

Module TopologyExtractor.

Record t := mk {
  wall_mask : np.ndarray;
  skeleton : option np.ndarray;
  graph : option WallTopologyGraph.t
}.

Definition init (wall_mask : np.ndarray) : t :=
  {| wall_mask := np.astype_uint8 wall_mask; skeleton := None; graph := None |}.

Section extract.
Variable cv : cv2.api.
(** [np.sqrt] *)
Variable sqrt : Qc → Qc.

(** [_skeletonize_wall_mask()]: the distance transform computed first is
    overwritten by the thinning. *)
Definition _skeletonize_wall_mask (self : t) : np.ndarray :=
  np.astype_uint8 (cv2.thinning cv (wall_mask self)).

(** [_get_neighbor_directions(skeleton, x, y)] *)
Definition _get_neighbor_directions (skeleton : np.ndarray) (x y : Z) : list (Z * Z) :=
  dy ← [-1; 0; 1];
  dx ← [-1; 0; 1];
  if bool_decide (dx = 0 ∧ dy = 0) then []
  else
    let nx := x + dx in
    let ny := y + dy in
    if bool_decide (0 ≤ nx < Z.of_nat (np.shape1 skeleton)
                    ∧ 0 ≤ ny < Z.of_nat (np.shape0 skeleton))
    then if bool_decide (np.item skeleton (Z.to_nat ny) (Z.to_nat nx) > 0)
         then [(dx, dy)] else []
    else [].

(** [_is_corner(directions)]: the dot product of two integer directions is
    below 0.5 in absolute value exactly when it is zero. *)
Definition _is_corner (directions : list (Z * Z)) : bool :=
  match directions with
  | [(dx1, dy1); (dx2, dy2)] =>
      let dot := dx1 * dx2 + dy1 * dy2 in
      bool_decide (float_of_int (Z.abs dot) < Q2Qc (1 # 2))%Qc
  | _ => false
  end.

(** [np.argwhere(skeleton > 0)]: the [(y, x)] of the positive entries in
    row-major order. *)
Definition argwhere_positive (a : np.ndarray) : list (nat * nat) :=
  y ← seq 0 (np.shape0 a);
  x ← seq 0 (np.shape1 a);
  if bool_decide (np.item a y x > 0) then [(y, x)] else [].

(** [_detect_key_points()]: [(junctions, corners, endpoints)] *)
Definition _detect_key_points (skeleton : np.ndarray)
    : list (Z * Z) * list (Z * Z) * list (Z * Z) :=
  foldl (λ '(junctions, corners, endpoints) '(y, x),
           let y := Z.of_nat y in
           let x := Z.of_nat x in
           let neighbor_count :=
             np.slice_sum skeleton (Z.max 0 (y - 1)) (y + 2) (Z.max 0 (x - 1)) (x + 2) - 1 in
           if bool_decide (neighbor_count = 1)
           then (junctions, corners, endpoints ++ [(x, y)])
           else if bool_decide (neighbor_count = 2)
           then if _is_corner (_get_neighbor_directions skeleton x y)
                then (junctions, corners ++ [(x, y)], endpoints)
                else (junctions, corners, endpoints)
           else if bool_decide (neighbor_count >= 3)
           then (junctions ++ [(x, y)], corners, endpoints)
           else (junctions, corners, endpoints))
        ([], [], []) (argwhere_positive skeleton).

(** [_trace_skeleton_path(start, end)]: the placeholder of the source,
    which never returns [None]. *)
Definition _trace_skeleton_path (start end_ : Z * Z) : option (list (Qc * Qc)) :=
  Some [(float_of_int start.1, float_of_int start.2);
        (float_of_int end_.1, float_of_int end_.2)].

(** The body of the inner loop of [_build_graph] for the pair [(v1, v2)]. *)
Definition connect_pair (graph : WallTopologyGraph.t) (v1 v2 : WallVertex.t)
    : exn WallTopologyGraph.t :=
  let p1 := WallVertex.position v1 in
  let p2 := WallVertex.position v2 in
  let dist := sqrt ((p1.1 - p2.1) * (p1.1 - p2.1) + (p1.2 - p2.2) * (p1.2 - p2.2))%Qc in
  if bool_decide (dist < float_of_int 50)%Qc
  then match _trace_skeleton_path (int_of_float p1.1, int_of_float p1.2)
                                   (int_of_float p2.1, int_of_float p2.2) with
       | Some path =>
           '(_, graph') ← WallTopologyGraph.add_edge graph (WallVertex.id v1)
                             (WallVertex.id v2) dist path;
           Ret graph'
       | None => Ret graph
       end
  else Ret graph.

(** The double loop of [_build_graph] over the pairs [v1] before [v2]. *)
Fixpoint connect_pairs (graph : WallTopologyGraph.t) (vs : list WallVertex.t)
    : exn WallTopologyGraph.t :=
  match vs with
  | [] => Ret graph
  | v1 :: rest =>
      graph' ← foldl (λ acc v2, g ← acc; connect_pair g v1 v2) (Ret graph) rest;
      connect_pairs graph' rest
  end.

(** [_build_graph(junctions, corners, endpoints)] *)
Definition _build_graph (junctions corners endpoints : list (Z * Z))
    : exn WallTopologyGraph.t :=
  let all_points := junctions ++ corners ++ endpoints in
  let graph :=
    foldl (λ graph '(x, y),
             (WallTopologyGraph.add_vertex graph (float_of_int x, float_of_int y)
                (bool_decide ((x, y) ∈ junctions))
                (bool_decide ((x, y) ∈ corners))).2)
          WallTopologyGraph.init all_points in
  connect_pairs graph (WallTopologyGraph.vertex_values graph).

(** [extract()]: the updated extractor and the graph returned. *)
Definition extract (self : t) : exn (t * option WallTopologyGraph.t) :=
  let skeleton := _skeletonize_wall_mask self in
  let '(junctions, corners, endpoints) := _detect_key_points skeleton in
  graph ← _build_graph junctions corners endpoints;
  Ret ({| wall_mask := wall_mask self; skeleton := Some skeleton;
          graph := Some graph |},
       Some graph).

End extract.
End TopologyExtractor.

(** [stage3_topology_extraction(refined_wall_mask)] *)
Definition stage3_topology_extraction (cv : cv2.api) (sqrt : Qc → Qc)
    (refined_wall_mask : option np.ndarray) : exn (option WallTopologyGraph.t) :=
  match refined_wall_mask with
  | None => Ret None
  | Some mask =>
      '(_, graph) ← TopologyExtractor.extract cv sqrt (TopologyExtractor.init mask);
      match graph with
      | None => Ret None
      | Some graph =>
          '(is_valid, message) ← WallTopologyGraph.validate graph;
          if negb is_valid then Ret None else Ret (Some graph)
      end
  end.

(** ** Stage 4: room detection ([pipeline/stage4_room_detection.py]) *)

Module Room.
Section Room.
Context {K : Type} `{Coord K}.

Record t := mk {
  id : nat;
  pixels : gset (K * K);
  centroid : Qc * Qc;
  area_px : nat;
  perimeter_px : nat;
  bounds : K * K * K * K   (* (x_min, y_min, x_max, y_max) *)
}.

End Room.
Arguments t K {_ _}.
End Room.

Module RoomSet.
Section RoomSet.
Context {K : Type} `{Coord K}.

Record t := mk {
  rooms : list (Room.t K);   (* dict id -> Room, ids 0, 1, 2, ... in order *)
  room_counter : nat;
  height : nat;
  width : nat
}.

(** [RoomSet(image_shape)] *)
Definition init (image_shape : nat * nat) : t :=
  {| rooms := []; room_counter := 0;
     height := image_shape.1; width := image_shape.2 |}.

(** The eight neighbour offsets [(dx, dy)], [dx] outermost. *)
Definition neighbour_offsets : list (Z * Z) :=
  [(-1,-1); (-1,0); (-1,1); (0,-1); (0,1); (1,-1); (1,0); (1,1)].

(** A pixel counts towards the perimeter when one of its eight neighbours
    is outside the room. *)
Definition on_perimeter (pixels : gset (K * K)) (p : K * K) : bool :=
  existsb (λ d : Z * Z,
             bool_decide ((coord_shift p.1 d.1, coord_shift p.2 d.2) ∉ pixels))
          neighbour_offsets.

(** [add_room(pixels)]: the new room and the updated set; [min] raises on
    an empty pixel set. *)
Definition add_room (self : t) (pixels : gset (K * K)) : exn (Room.t K * t) :=
  let area := size pixels in
  let xs := (elements pixels).*1 in
  let ys := (elements pixels).*2 in
  let centroid := (np.mean (to_float <$> xs), np.mean (to_float <$> ys)) in
  x_min ← py_min xs; x_max ← py_max xs;
  y_min ← py_min ys; y_max ← py_max ys;
  let perimeter := length (filter (λ p, on_perimeter pixels p = true) (elements pixels)) in
  let room := {| Room.id := room_counter self;
                 Room.pixels := pixels;
                 Room.centroid := centroid;
                 Room.area_px := area;
                 Room.perimeter_px := perimeter;
                 Room.bounds := (x_min, y_min, x_max, y_max) |} in
  Ret (room, {| rooms := rooms self ++ [room];
                 room_counter := S (room_counter self);
                 height := height self; width := width self |}).

(** [room1.pixels & room2.pixels] is non-empty. *)
Definition overlap (room1 room2 : Room.t K) : gset (K * K) :=
  Room.pixels room1 ∩ Room.pixels room2.

(** The first pair [(room1, room2)], [room1] before [room2], that overlaps:
    the nested loops of [check_overlap] up to their early return. *)
Fixpoint first_overlap (l : list (Room.t K)) : option (Room.t K * Room.t K) :=
  match l with
  | [] => None
  | room1 :: rest =>
      match List.find (λ room2, bool_decide (overlap room1 room2 ≠ ∅)) rest with
      | Some room2 => Some (room1, room2)
      | None => first_overlap rest
      end
  end.

Definition check_overlap (self : t) : bool * string :=
  match first_overlap (rooms self) with
  | Some (room1, room2) =>
      (false, "Rooms " +:+ pretty (Room.id room1) +:+ " and "
                +:+ pretty (Room.id room2) +:+ " overlap ("
                +:+ pretty (size (overlap room1 room2)) +:+ " pixels)")
  | None => (true, "No room overlaps detected")
  end.

Definition list_min (l : list nat) : nat := foldr Nat.min (hd 0%nat l) l.
Definition list_max (l : list nat) : nat := foldr Nat.max 0%nat l.

(** [validate()] *)
Definition validate (self : t) : bool * string :=
  if bool_decide (length (rooms self) < 1)%nat then (false, "No rooms detected")
  else
    let '(no_overlap, msg) := check_overlap self in
    if negb no_overlap then (false, msg)
    else
      let areas := Room.area_px <$> rooms self in
      let min_area := list_min areas in
      let max_area := list_max areas in
      if bool_decide (min_area < 20)%nat
      then (false, "Room too small (" +:+ pretty min_area +:+ " pixels)")
      else if bool_decide (float_of_int 100 < float_of_int (Z.of_nat max_area)
                                  / float_of_int (Z.of_nat min_area))%Qc
      then (false, "Room size ratio too large (" +:+ pretty max_area +:+ "/"
                     +:+ pretty min_area +:+ ")")
      else (true, "Valid room configuration (" +:+ pretty (length (rooms self))
                    +:+ " rooms)").

End RoomSet.
Arguments t K {_ _}.
End RoomSet.

Module RoomDetector.

(** The detector's state.  The optional [wall_graph] argument is stored by
    the constructor and never read: it is left out. *)
Record t := mk {
  wall_mask : np.ndarray;
  rooms : option (RoomSet.t Z);
  room_mask : option np.ndarray
}.

(** [RoomDetector(wall_mask, wall_graph)] *)
Definition init (wall_mask : np.ndarray) : t :=
  {| wall_mask := np.astype_uint8 wall_mask; rooms := None; room_mask := None |}.

(** [np.argwhere(labeled == label_id)[:, [1, 0]]]: one row [[x, y]] for
    each entry that carries the label, in row-major order. *)
Definition region_rows (labeled : np.ndarray) (label_id : nat) : list (Z * Z) :=
  y ← seq 0 (np.shape0 labeled);
  x ← seq 0 (np.shape1 labeled);
  if bool_decide (np.item labeled y x = Z.of_nat label_id)
  then [(Z.of_nat x, Z.of_nat y)] else [].

(** [zip] applied to the starred rows of an array of two columns: the
    star passes every row to [zip] as an argument of its own, so that
    [zip] yields the tuple of the first entries of all rows, then the tuple
    of their second entries; without a row it yields nothing. *)
Definition zip_rows (rows : list (Z * Z)) : list (list Z) :=
  match rows with
  | [] => []
  | _ => [rows.*1; rows.*2]
  end.

(** The set [pixels_in_region] of [detect]: [set] of the [zip] of the
    starred rows [np.argwhere(region_mask)[:, [1, 0]]], a set of at most two
    tuples. *)
Definition pixels_in_region (labeled : np.ndarray) (label_id : nat) : gset (list Z) :=
  list_to_set (zip_rows (region_rows labeled label_id)).

(** [x, y = t] *)
Definition unpack_pair (t : list Z) : exn (Z * Z) :=
  match t with
  | [x; y] => Ret (x, y)
  | _ => Raise ValueError
  end.

(** The loop [for x, y in pixels_in_region] that sets [touches_boundary]
    and leaves at the first pixel within two pixels of the image border. *)
Fixpoint touches_boundary (self : t) (tuples : list (list Z)) : exn bool :=
  match tuples with
  | [] => Ret false
  | t :: rest =>
      '(x, y) ← unpack_pair t;
      if bool_decide (x ≤ 1) || bool_decide (x >= Z.of_nat (np.shape1 (wall_mask self)) - 2)
         || bool_decide (y ≤ 1) || bool_decide (y >= Z.of_nat (np.shape0 (wall_mask self)) - 2)
      then Ret true
      else touches_boundary self rest
  end.

(** The tuples of a set as pixels [(x, y)]: where the loop above ran to
    its end, every tuple of the set was unpacked as a pair. *)
Definition as_pixels (tuples : gset (list Z)) : gset (Z * Z) :=
  list_to_set (omap (λ t, match t with [x; y] => Some (x, y) | _ => None end)
                    (elements tuples)).

Section detect.
(** [cv2.connectedComponents] gives the number of labels and the label
    image (label 0 is the background). *)
Variable cv : cv2.api.

(** One iteration of the loop over [label_id]. *)
Definition detect_region (self : t) (labeled : np.ndarray)
    (room_set : RoomSet.t Z) (label_id : nat) : exn (RoomSet.t Z) :=
  let pixels_in_region := pixels_in_region labeled label_id in
  let area := size pixels_in_region in
  if bool_decide (area < 20)%nat then Ret room_set
  else
    touches ← touches_boundary self (elements pixels_in_region);
    if touches : bool then Ret room_set
    else '(_, room_set') ← RoomSet.add_room room_set (as_pixels pixels_in_region);
         Ret room_set'.

(** The labelled room mask built for visualisation: [room.id + 1] on the
    pixels of each room (as a [uint8]), [0] elsewhere. *)
Definition build_room_mask (self : t) (room_set : RoomSet.t Z) : np.ndarray :=
  {| np.shape0 := np.shape0 (wall_mask self);
     np.shape1 := np.shape1 (wall_mask self);
     np.item := λ y x,
       foldl (λ v room,
                if bool_decide ((Z.of_nat x, Z.of_nat y) ∈ Room.pixels room)
                then (Z.of_nat (Room.id room) + 1) `mod` 256 else v)
             0 (RoomSet.rooms room_set) |}.

(** [detect()]: the updated detector and the room set returned. *)
Definition detect (self : t) : exn (t * option (RoomSet.t Z)) :=
  let non_wall_mask :=
    {| np.shape0 := np.shape0 (wall_mask self);
       np.shape1 := np.shape1 (wall_mask self);
       np.item := λ y x, (1 - np.item (wall_mask self) y x) `mod` 256 |} in
  let '(num_labels, labeled) := cv2.connectedComponents cv non_wall_mask in
  room_set ← foldl (λ acc label_id, rs ← acc; detect_region self labeled rs label_id)
                   (Ret (RoomSet.init (np.shape0 (wall_mask self), np.shape1 (wall_mask self))))
                   (seq 1 (num_labels - 1));
  Ret ({| wall_mask := wall_mask self;
          rooms := Some room_set;
          room_mask := Some (build_room_mask self room_set) |},
       Some room_set).

End detect.

(** A wall pixel lies in the gap between the two bounding boxes: to the
    right of [room1] and left of [room2], or below [room1] and above
    [room2]. *)
Definition gap_exists (self : t) (room1 room2 : Room.t Z) : bool :=
  let '(x1_min, y1_min, x1_max, y1_max) := Room.bounds room1 in
  let '(x2_min, y2_min, x2_max, y2_max) := Room.bounds room2 in
  (bool_decide (x1_max < x2_min)
   && bool_decide (np.slice_sum (wall_mask self) y1_min y1_max x1_max x2_min > 0))
  || (bool_decide (y1_max < y2_min)
      && bool_decide (np.slice_sum (wall_mask self) y1_max y2_min x1_min x1_max > 0)).

(** The first pair [(room1, room2)], [room1] before [room2], with no gap:
    the nested loops of [validate_room_separation] up to their early
    return. *)
Fixpoint first_unseparated (self : t) (l : list (Room.t Z)) : option (Room.t Z * Room.t Z) :=
  match l with
  | [] => None
  | room1 :: rest =>
      match List.find (λ room2, negb (gap_exists self room1 room2)) rest with
      | Some room2 => Some (room1, room2)
      | None => first_unseparated self rest
      end
  end.

(** [validate_room_separation()] *)
Definition validate_room_separation (self : t) : bool * string :=
  match rooms self with
  | None => (false, "Rooms not yet detected")
  | Some room_set =>
      let '(is_valid, message) := RoomSet.check_overlap room_set in
      if negb is_valid then (false, message)
      else match first_unseparated self (RoomSet.rooms room_set) with
           | Some (room1, room2) =>
               (false, "Rooms " +:+ pretty (Room.id room1) +:+ " and "
                         +:+ pretty (Room.id room2)
                         +:+ " not properly separated by walls")
           | None => (true, "All rooms properly separated by walls")
           end
  end.

End RoomDetector.

(** The body of [stage4_room_detection] after [rooms = detector.detect()]:
    the fail-fast gates on the detected rooms. *)
Definition stage4_gates (detector : RoomDetector.t) (rooms : option (RoomSet.t Z))
    : option (RoomSet.t Z) :=
  match rooms with
  | None => None
  | Some rooms =>
      if bool_decide (length (RoomSet.rooms rooms) < 1)%nat then None
      else if negb (RoomSet.check_overlap rooms).1 then None
      else if negb (RoomDetector.validate_room_separation detector).1 then None
      else if negb (RoomSet.validate rooms).1 then None
      else Some rooms
  end.
Arguments stage4_gates : simpl never.

(** [stage4_room_detection(refined_wall_mask, wall_graph)] *)
Definition stage4_room_detection (cv : cv2.api)
    (refined_wall_mask : option np.ndarray) : exn (option (RoomSet.t Z)) :=
  match refined_wall_mask with
  | None => Ret None
  | Some mask =>
      '(detector, rooms) ← RoomDetector.detect cv (RoomDetector.init mask);
      Ret (stage4_gates detector rooms)
  end.
(** ** Stage 5: metric normalization ([pipeline/stage5_metric_normalization.py]) *)

Definition REFERENCE_BUILDING_WIDTH : Qc := Q2Qc 12.
Definition REFERENCE_WIDTH_MIN : Qc := Q2Qc (105 # 10).
Definition REFERENCE_WIDTH_MAX : Qc := Q2Qc (135 # 10).
Definition ASPECT_RATIO_MIN : Qc := Q2Qc (4 # 10).
Definition ASPECT_RATIO_MAX : Qc := Q2Qc (25 # 10).

Module NormalizationContext.
Record t := mk {
  image_width_px : Z;
  image_height_px : Z;
  detected_width_px : Qc;
  detected_height_px : Qc;
  scale_factor : Qc;       (* pixels per meter *)
  target_width_m : Qc
}.

(** The property [image_aspect_ratio]. *)
Definition image_aspect_ratio (self : t) : Qc :=
  if bool_decide (image_height_px self > 0)
  then (float_of_int (image_width_px self) / float_of_int (image_height_px self))%Qc
  else Q2Qc 1.
End NormalizationContext.

Module MetricNormalizer.

Record t := mk {
  image_height : Z;
  image_width : Z;
  wall_graph : option WallTopologyGraph.t;
  room_set : option (RoomSet.t Z);
  context : option NormalizationContext.t;
  normalized_wall_graph : option WallTopologyGraph.t;
  normalized_room_set : option (RoomSet.t Qc)
}.

(** [MetricNormalizer(image_shape, wall_graph, room_set)] *)
Definition init (image_shape : Z * Z) (wall_graph : option WallTopologyGraph.t)
    (room_set : option (RoomSet.t Z)) : t :=
  {| image_height := image_shape.1; image_width := image_shape.2;
     wall_graph := wall_graph; room_set := room_set;
     context := None; normalized_wall_graph := None;
     normalized_room_set := None |}.

(** Python's [min] and [max] over a non-empty list of floats. *)
Definition min_list (x : Qc) (l : list Qc) : Qc :=
  foldl (λ m y, if bool_decide (m ≤ y)%Qc then m else y) x l.
Definition max_list (x : Qc) (l : list Qc) : Qc :=
  foldl (λ m y, if bool_decide (y ≤ m)%Qc then m else y) x l.

(** [max(a, b)] on two floats: [b] only when it is larger. *)
Definition max2 (a b : Qc) : Qc := if bool_decide (a < b)%Qc then b else a.

(** The x and the y coordinates of the vertices, in iteration order. *)
Definition vertex_xs (g : WallTopologyGraph.t) : list Qc :=
  (λ v, (WallVertex.position v).1) <$> WallTopologyGraph.vertex_values g.
Definition vertex_ys (g : WallTopologyGraph.t) : list Qc :=
  (λ v, (WallVertex.position v).2) <$> WallTopologyGraph.vertex_values g.

(** [_estimate_building_width()] *)
Definition _estimate_building_width (self : t) : Qc :=
  match wall_graph self with
  | None => float_of_int (image_width self)
  | Some g =>
      match vertex_xs g, vertex_ys g with
      | x :: xs, y :: ys =>
          let x_min := min_list x xs in
          let x_max := max_list x xs in
          let y_min := min_list y ys in
          let y_max := max_list y ys in
          let width := (x_max - x_min)%Qc in
          let height := (y_max - y_min)%Qc in
          max2 width height
      | _, _ => float_of_int (image_width self)
      end
  end.

(** [_estimate_building_height()] *)
Definition _estimate_building_height (self : t) : Qc :=
  match wall_graph self with
  | None => float_of_int (image_height self)
  | Some g =>
      match vertex_ys g with
      | y :: ys => (max_list y ys - min_list y ys)%Qc
      | [] => float_of_int (image_height self)
      end
  end.

(** [_validate_context()]; the two warnings it may log are dropped. *)
Definition _validate_context (self : t) : bool * string :=
  match context self with
  | None => (false, "Context not created")
  | Some ctx =>
      let s := NormalizationContext.scale_factor ctx in
      if bool_decide (s < Q2Qc (1 # 10))%Qc || bool_decide (Q2Qc 100 < s)%Qc
      then (false, "Scale factor out of range")
      else (true, "Context valid")
  end.

(** One vertex of [_transform_wall_graph]: the new graph and the mapping
    from old ids to new vertices (kept by their ids). *)
Definition transform_vertex (scale_factor : Qc)
    (acc : exn (WallTopologyGraph.t * gmap nat nat)) (item : nat * WallVertex.t)
    : exn (WallTopologyGraph.t * gmap nat nat) :=
  let '(old_id, old_vertex) := item in
  '(new_graph, vertex_mapping) ← acc;
  x_m ← py_div (WallVertex.position old_vertex).1 scale_factor;
  y_m ← py_div (WallVertex.position old_vertex).2 scale_factor;
  let '(new_vertex, new_graph) :=
    WallTopologyGraph.add_vertex new_graph (x_m, y_m)
      (WallVertex.is_junction old_vertex) (WallVertex.is_corner old_vertex) in
  Ret (new_graph, <[old_id := WallVertex.id new_vertex]> vertex_mapping).

(** [vertex_mapping[k]] *)
Definition mapping_at (vertex_mapping : gmap nat nat) (k : nat) : exn nat :=
  match vertex_mapping !! k with
  | Some v => Ret v
  | None => Raise KeyError
  end.

(** The list comprehension that rescales the points of an edge. *)
Fixpoint transform_points (scale_factor : Qc) (points : list (Qc * Qc))
    : exn (list (Qc * Qc)) :=
  match points with
  | [] => Ret []
  | p :: rest =>
      x ← py_div p.1 scale_factor;
      y ← py_div p.2 scale_factor;
      rest' ← transform_points scale_factor rest;
      Ret ((x, y) :: rest')
  end.

(** One edge of [_transform_wall_graph]. *)
Definition transform_edge (scale_factor : Qc) (vertex_mapping : gmap nat nat)
    (acc : exn WallTopologyGraph.t) (old_edge : WallEdge.t) : exn WallTopologyGraph.t :=
  new_graph ← acc;
  new_va ← mapping_at vertex_mapping (WallEdge.vertex_a old_edge);
  new_vb ← mapping_at vertex_mapping (WallEdge.vertex_b old_edge);
  new_length_m ← py_div (WallEdge.length_px old_edge) scale_factor;
  new_points ← transform_points scale_factor (WallEdge.points old_edge);
  '(_, new_graph) ← WallTopologyGraph.add_edge new_graph new_va new_vb new_length_m new_points;
  Ret new_graph.

(** [_transform_wall_graph()], for the graph and the scale factor of the
    context. *)
Definition _transform_wall_graph (wall_graph : WallTopologyGraph.t) (scale_factor : Qc)
    : exn WallTopologyGraph.t :=
  '(new_graph, vertex_mapping) ←
    foldl (transform_vertex scale_factor) (Ret (WallTopologyGraph.init, ∅))
          (WallTopologyGraph.vertex_items wall_graph);
  foldl (transform_edge scale_factor vertex_mapping) (Ret new_graph)
        (WallTopologyGraph.edge_values wall_graph).

(** The pixel set of a room in metric coordinates. *)
Fixpoint transform_pixels (scale_factor : Qc) (pixels : list (Z * Z))
    : exn (gset (Qc * Qc)) :=
  match pixels with
  | [] => Ret ∅
  | (x_px, y_px) :: rest =>
      x_m ← py_div (float_of_int x_px) scale_factor;
      y_m ← py_div (float_of_int y_px) scale_factor;
      rest' ← transform_pixels scale_factor rest;
      Ret ({[(x_m, y_m)]} ∪ rest')
  end.

(** One room of [_transform_room_set]: the room is added, then its
    centroid, bounds and area are assigned again on the stored object (the
    last one of the set). *)
Definition transform_room (scale_factor : Qc)
    (acc : exn (RoomSet.t Qc)) (old_room : Room.t Z) : exn (RoomSet.t Qc) :=
  new_room_set ← acc;
  new_pixels ← transform_pixels scale_factor (elements (Room.pixels old_room));
  '(new_room, new_room_set) ← RoomSet.add_room new_room_set new_pixels;
  let xs := (elements new_pixels).*1 in
  let ys := (elements new_pixels).*2 in
  x_min ← py_min xs; y_min ← py_min ys;
  x_max ← py_max xs; y_max ← py_max ys;
  let new_room' :=
    {| Room.id := Room.id new_room;
       Room.pixels := Room.pixels new_room;
       Room.centroid := (np.mean xs, np.mean ys);
       Room.area_px := size new_pixels;
       Room.perimeter_px := Room.perimeter_px new_room;
       Room.bounds := (x_min, y_min, x_max, y_max) |} in
  let rooms := RoomSet.rooms new_room_set in
  Ret {| RoomSet.rooms := take (length rooms - 1) rooms ++ [new_room'];
         RoomSet.room_counter := RoomSet.room_counter new_room_set;
         RoomSet.height := RoomSet.height new_room_set;
         RoomSet.width := RoomSet.width new_room_set |}.

(** [_transform_room_set()] *)
Definition _transform_room_set (room_set : RoomSet.t Z) (scale_factor : Qc)
    : exn (RoomSet.t Qc) :=
  foldl (transform_room scale_factor)
        (Ret (RoomSet.init (RoomSet.height room_set, RoomSet.width room_set)))
        (RoomSet.rooms room_set).

(** The result of [normalize()]:
    [(success, context, normalized_wall_graph, normalized_room_set)], the
    empty dict and the [None]s of a failure being [None]. *)
Definition result : Type :=
  bool * option NormalizationContext.t * option WallTopologyGraph.t
  * option (RoomSet.t Qc).

(** [normalize()] *)
Definition normalize (self : t) : exn result :=
  match wall_graph self, room_set self with
  | Some g, Some rs =>
      let detected_width_px := _estimate_building_width self in
      let detected_height_px := _estimate_building_height self in
      if bool_decide (detected_width_px ≤ Q2Qc 0)%Qc
         || bool_decide (detected_height_px ≤ Q2Qc 0)%Qc
      then Ret (false, None, None, None)
      else
        scale_factor ← py_div detected_width_px REFERENCE_BUILDING_WIDTH;
        let ctx :=
          {| NormalizationContext.image_width_px := image_width self;
             NormalizationContext.image_height_px := image_height self;
             NormalizationContext.detected_width_px := detected_width_px;
             NormalizationContext.detected_height_px := detected_height_px;
             NormalizationContext.scale_factor := scale_factor;
             NormalizationContext.target_width_m := REFERENCE_BUILDING_WIDTH |} in
        let self := {| image_height := image_height self;
                       image_width := image_width self;
                       wall_graph := wall_graph self; room_set := room_set self;
                       context := Some ctx;
                       normalized_wall_graph := None;
                       normalized_room_set := None |} in
        let '(valid, msg) := _validate_context self in
        if negb valid then Ret (false, None, None, None)
        else
          normalized_wall_graph ← _transform_wall_graph g scale_factor;
          normalized_room_set ← _transform_room_set rs scale_factor;
          Ret (true, Some ctx, Some normalized_wall_graph, Some normalized_room_set)
  | _, _ => Ret (false, None, None, None)
  end.

End MetricNormalizer.

(** [scale_coordinate] and [scale_length] *)
Definition scale_coordinate (pixel_coord : Qc * Qc) (scale_factor : Qc) : exn (Qc * Qc) :=
  x ← py_div pixel_coord.1 scale_factor;
  y ← py_div pixel_coord.2 scale_factor;
  Ret (x, y).

Definition scale_length (pixel_length scale_factor : Qc) : exn Qc :=
  py_div pixel_length scale_factor.

(** ** Stage 6: 3D cutaway construction ([pipeline/stage6_3d_construction.py]) *)

Definition WALL_THICKNESS : Qc := Q2Qc (22 # 100).
Definition WALL_HEIGHT : Qc := Q2Qc (13 # 10).
Definition FLOOR_SLAB_THICKNESS : Qc := Q2Qc (12 # 100).

(** The mesh classes are stated over the type [F] of the array entries:
    the construction works with exact rationals, the validator only needs
    to recognise the special values of [F]. *)

Module Vertex.
Section Vertex.
Context {F : Type}.
Record t := mk {
  position : F * F * F;
  normal : F * F * F
}.
End Vertex.
Arguments t F : clear implicits.
End Vertex.

Module Face.
Section Face.
Context {F : Type}.
Record t := mk {
  vertex_indices : nat * nat * nat;
  normal : option (F * F * F)
}.
End Face.
Arguments t F : clear implicits.
End Face.

Module Mesh.
Section Mesh.
Context {F : Type} `{Countable F}.

Record t := mk {
  name : string;
  vertices : list (Vertex.t F);
  faces : list (Face.t F);
  vertex_hash_map : gmap (F * F * F) nat   (* rounded position -> index *)
}.

(** [Mesh(name)] *)
Definition init (name : string) : t :=
  {| name := name; vertices := []; faces := []; vertex_hash_map := ∅ |}.

(** [add_face(vi0, vi1, vi2, normal)]: the index of the face and the
    updated mesh. *)
Definition add_face (self : t) (vi0 vi1 vi2 : nat) (normal : option (F * F * F))
    : nat * t :=
  let face := {| Face.vertex_indices := (vi0, vi1, vi2); Face.normal := normal |} in
  (length (faces self),
   {| name := name self; vertices := vertices self;
      faces := faces self ++ [face];
      vertex_hash_map := vertex_hash_map self |}).

(** [tuple(sorted([a, b]))] *)
Definition sorted_pair (a b : nat) : nat * nat :=
  if bool_decide (a ≤ b)%nat then (a, b) else (b, a).

(** The three undirected edges of a face. *)
Definition face_edges (face : Face.t F) : list (nat * nat) :=
  let '(vi0, vi1, vi2) := Face.vertex_indices face in
  [sorted_pair vi0 vi1; sorted_pair vi1 vi2; sorted_pair vi2 vi0].

(** The dict [edge_count] of [validate_manifold]. *)
Definition edge_count (self : t) : gmap (nat * nat) nat :=
  foldl (λ (m : gmap (nat * nat) nat) edge, <[edge := (default 0 (m !! edge) + 1)%nat]> m)
        ∅ (faces self ≫= face_edges).

(** [validate_manifold()] *)
Definition validate_manifold (self : t) : bool * string :=
  let non_manifold_edges :=
    length (filter (λ kv : (nat * nat) * nat, kv.2 ≠ 2%nat) (map_to_list (edge_count self))) in
  if bool_decide (0 < non_manifold_edges)%nat
  then (false, "Non-manifold edges: " +:+ pretty non_manifold_edges)
  else (true, "Mesh is manifold").

End Mesh.
Arguments t F {_ _}.
End Mesh.

(** *** The mesh over exact rationals *)

Abbreviation vec3 := (Qc * Qc * Qc)%type.

(** Round half to even, as [np.rint]. *)
Definition rint (q : Qc) : Z :=
  let f := Qfloor q in
  let r := (q - float_of_int f)%Qc in
  if bool_decide (r < Q2Qc (1 # 2))%Qc then f
  else if bool_decide (Q2Qc (1 # 2) < r)%Qc then f + 1
  else if Z.even f then f else f + 1.

(** [np.round(x, decimals=6)] on one entry. *)
Definition round6 (q : Qc) : Qc :=
  (float_of_int (rint (q * float_of_int 1000000)) / float_of_int 1000000)%Qc.

(** [tuple(np.round(position, decimals=6))] *)
Definition position_key (p : vec3) : vec3 :=
  (round6 p.1.1, round6 p.1.2, round6 p.2).

Definition vsub (a b : vec3) : vec3 :=
  (a.1.1 - b.1.1, a.1.2 - b.1.2, a.2 - b.2)%Qc.
Definition vadd (a b : vec3) : vec3 :=
  (a.1.1 + b.1.1, a.1.2 + b.1.2, a.2 + b.2)%Qc.
Definition vscale (a : vec3) (k : Qc) : vec3 :=
  (a.1.1 / k, a.1.2 / k, a.2 / k)%Qc.
Definition dot (a b : vec3) : Qc :=
  (a.1.1 * b.1.1 + a.1.2 * b.1.2 + a.2 * b.2)%Qc.
Definition cross (a b : vec3) : vec3 :=
  (a.1.2 * b.2 - a.2 * b.1.2,
   a.2 * b.1.1 - a.1.1 * b.2,
   a.1.1 * b.1.2 - a.1.2 * b.1.1)%Qc.

(** The default normal of a [Vertex]. *)
Definition default_normal : vec3 := (Q2Qc 0, Q2Qc 0, Q2Qc 1).

(** [Mesh.add_vertex(position, normal)]: the index of the vertex, which is
    an existing one when the rounded position is already known, and the
    updated mesh. *)
Definition add_vertex (self : Mesh.t Qc) (position : vec3) (normal : option vec3)
    : nat * Mesh.t Qc :=
  let key := position_key position in
  match Mesh.vertex_hash_map self !! key with
  | Some idx => (idx, self)
  | None =>
      let idx := length (Mesh.vertices self) in
      let vertex := {| Vertex.position := position;
                       Vertex.normal := default default_normal normal |} in
      (idx,
       {| Mesh.name := Mesh.name self;
          Mesh.vertices := Mesh.vertices self ++ [vertex];
          Mesh.faces := Mesh.faces self;
          Mesh.vertex_hash_map := <[key := idx]> (Mesh.vertex_hash_map self) |})
  end.

Section normals.
(** [np.sqrt] *)
Variable sqrt : Qc → Qc.

Definition EPS12 : Qc := Q2Qc (1 # 1000000000000).

(** [np.cross(edge1, edge2, dtype=np.float32)]: [np.cross] takes no
    [dtype] argument, so that the call raises [TypeError]. *)
Definition np_cross_dtype (a b : vec3) : exn vec3 := Raise TypeError.

(** [self.vertices[vi].position], which raises on an index out of range. *)
Definition vertex_position (vertices : list (Vertex.t Qc)) (vi : nat) : exn vec3 :=
  match vertices !! vi with
  | Some v => Ret (Vertex.position v)
  | None => Raise IndexError
  end.

(** The [try] block of the loop over the faces in [recalculate_normals]:
    the face with its normal, and the vertex normals with the face normal
    added. *)
Definition face_normal_step (vertices : list (Vertex.t Qc))
    (vertex_normals : gmap nat vec3) (face : Face.t Qc)
    : exn (Face.t Qc * gmap nat vec3) :=
  let '(vi0, vi1, vi2) := Face.vertex_indices face in
  v0 ← vertex_position vertices vi0;
  v1 ← vertex_position vertices vi1;
  v2 ← vertex_position vertices vi2;
  let edge1 := vsub v1 v0 in
  let edge2 := vsub v2 v0 in
  face_normal ← np_cross_dtype edge1 edge2;
  let norm_sq := dot face_normal face_normal in
  if bool_decide (EPS12 < norm_sq)%Qc
  then
    let face_normal := vscale face_normal (sqrt norm_sq) in
    let bump := λ n : vec3, vadd n face_normal in
    Ret ({| Face.vertex_indices := Face.vertex_indices face;
            Face.normal := Some face_normal |},
         alter bump vi2 (alter bump vi1 (alter bump vi0 vertex_normals)))
  else Ret (face, vertex_normals).

(** One iteration of the loop over the faces: [except Exception: continue]
    leaves the face and the vertex normals as they are. *)
Definition accumulate_face (vertices : list (Vertex.t Qc))
    (acc : list (Face.t Qc) * gmap nat vec3) (face : Face.t Qc)
    : list (Face.t Qc) * gmap nat vec3 :=
  let '(done, vertex_normals) := acc in
  match face_normal_step vertices vertex_normals face with
  | Ret (face, vertex_normals) => (done ++ [face], vertex_normals)
  | Raise _ => (done ++ [face], vertex_normals)
  end.

(** [Mesh.recalculate_normals()] *)
Definition recalculate_normals (self : Mesh.t Qc) : Mesh.t Qc :=
  match Mesh.faces self with
  | [] => self
  | _ =>
      let zero : vec3 := (Q2Qc 0, Q2Qc 0, Q2Qc 0) in
      let vertex_normals : gmap nat vec3 :=
        list_to_map ((λ i, (i, zero)) <$> seq 0 (length (Mesh.vertices self))) in
      let '(faces, vertex_normals) :=
        foldl (accumulate_face (Mesh.vertices self)) ([], vertex_normals)
              (Mesh.faces self) in
      let vertices :=
        imap (λ i v,
                let normal := default zero (vertex_normals !! i) in
                let norm_sq := dot normal normal in
                if bool_decide (EPS12 < norm_sq)%Qc
                then {| Vertex.position := Vertex.position v;
                        Vertex.normal := vscale normal (sqrt norm_sq) |}
                else v)
             (Mesh.vertices self) in
      {| Mesh.name := Mesh.name self; Mesh.vertices := vertices;
         Mesh.faces := faces; Mesh.vertex_hash_map := Mesh.vertex_hash_map self |}
  end.

(** The twelve triangles of a box over bottom corners [b] and top corners
    [t], in the order both the floor slab and the wall extrusion add them. *)
Definition box_faces (b0 b1 b2 b3 t0 t1 t2 t3 : nat) : list (nat * nat * nat) :=
  [ (b0, b2, b1); (b0, b3, b2);          (* bottom *)
    (t0, t1, t2); (t0, t2, t3);          (* top *)
    (b0, b1, t0); (b1, t1, t0);          (* sides *)
    (b1, b2, t1); (b2, t2, t1);
    (b2, b3, t2); (b3, t3, t2);
    (b3, b0, t3); (b0, t0, t3) ].

Definition add_faces (mesh : Mesh.t Qc) (fs : list (nat * nat * nat)) : Mesh.t Qc :=
  foldl (λ m '(a, b, c), (Mesh.add_face m a b c None).2) mesh fs.

(** [[mesh.add_vertex(p) for p in ps]] *)
Fixpoint add_vertices (mesh : Mesh.t Qc) (ps : list vec3) : list nat * Mesh.t Qc :=
  match ps with
  | [] => ([], mesh)
  | p :: rest =>
      let '(i, mesh) := add_vertex mesh p None in
      let '(rest_idx, mesh) := add_vertices mesh rest in
      (i :: rest_idx, mesh)
  end.

(** Add the eight corners of a box, bottom then top, and its faces. *)
Definition add_box (mesh : Mesh.t Qc) (corners : list vec3) : list nat * Mesh.t Qc :=
  let '(vi, mesh) := add_vertices mesh corners in
  match vi with
  | [b0; b1; b2; b3; t0; t1; t2; t3] =>
      (vi, add_faces mesh (box_faces b0 b1 b2 b3 t0 t1 t2 t3))
  | _ => (vi, mesh)
  end.

(** [WallExtrusion.extrude_wall_edge(p_start, p_end, thickness, height, mesh)] *)
Definition extrude_wall_edge (p_start p_end : Qc * Qc) (thickness height : Qc)
    (mesh : Mesh.t Qc) : list nat * Mesh.t Qc :=
  let wall_vec := (p_end.1 - p_start.1, p_end.2 - p_start.2)%Qc in
  let wall_len := sqrt (wall_vec.1 * wall_vec.1 + wall_vec.2 * wall_vec.2)%Qc in
  if bool_decide (wall_len < Q2Qc (1 # 1000000))%Qc then ([], mesh)
  else
    let wall_dir := (wall_vec.1 / wall_len, wall_vec.2 / wall_len)%Qc in
    let perp_dir := ((- wall_dir.2)%Qc, wall_dir.1) in
    let half_thick := (thickness / Q2Qc 2)%Qc in
    let perp_offset := (perp_dir.1 * half_thick, perp_dir.2 * half_thick)%Qc in
    let corner (p : Qc * Qc) (sign : Qc) (z : Qc) : vec3 :=
      (p.1 + sign * perp_offset.1, p.2 + sign * perp_offset.2, z)%Qc in
    let m1 := Q2Qc (-1) in
    let p1 := Q2Qc 1 in
    add_box mesh
      [ corner p_start m1 (Q2Qc 0); corner p_start p1 (Q2Qc 0);
        corner p_end p1 (Q2Qc 0); corner p_end m1 (Q2Qc 0);
        corner p_start m1 height; corner p_start p1 height;
        corner p_end p1 height; corner p_end m1 height ].

End normals.

Module CutawayBuilder.

(** The builder's state; the normalization context is stored and never
    read, and the room set is only stored. *)
Record t := mk {
  wall_graph : option WallTopologyGraph.t;
  room_set : option (RoomSet.t Qc);
  complete_mesh : option (Mesh.t Qc)
}.

Definition init (wall_graph : option WallTopologyGraph.t)
    (room_set : option (RoomSet.t Qc)) : t :=
  {| wall_graph := wall_graph; room_set := room_set; complete_mesh := None |}.

Section build.
Variable sqrt : Qc → Qc.

(** [_build_floor_slab(mesh)], with the padding added in exact rationals;
    [Binary64._build_floor_slab] is the same function over binary64
    floats, where the padding can be absorbed. *)
Definition _build_floor_slab (self : t) (mesh : Mesh.t Qc) : Mesh.t Qc :=
  match wall_graph self with
  | None => mesh
  | Some g =>
      match MetricNormalizer.vertex_xs g, MetricNormalizer.vertex_ys g with
      | x :: xs, y :: ys =>
          let padding := Q2Qc (1 # 2) in
          let x_min := (MetricNormalizer.min_list x xs - padding)%Qc in
          let x_max := (MetricNormalizer.max_list x xs + padding)%Qc in
          let y_min := (MetricNormalizer.min_list y ys - padding)%Qc in
          let y_max := (MetricNormalizer.max_list y ys + padding)%Qc in
          let z_top := Q2Qc 0 in
          let z_bottom := (- FLOOR_SLAB_THICKNESS)%Qc in
          (add_box mesh
             [ (x_min, y_min, z_bottom); (x_max, y_min, z_bottom);
               (x_max, y_max, z_bottom); (x_min, y_max, z_bottom);
               (x_min, y_min, z_top); (x_max, y_min, z_top);
               (x_max, y_max, z_top); (x_min, y_max, z_top) ]).2
      | _, _ => mesh
      end
  end.

(** The position of the vertex object an edge refers to. *)
Definition endpoint (g : WallTopologyGraph.t) (vid : nat) : exn (Qc * Qc) :=
  match WallTopologyGraph.vertices g !! vid with
  | Some v => Ret (WallVertex.position v)
  | None => Raise KeyError
  end.

(** [_build_walls(mesh)]: [None] when there is no edge to extrude. *)
Definition _build_walls (self : t) (mesh : Mesh.t Qc) : exn (option (Mesh.t Qc)) :=
  match wall_graph self with
  | None => Ret None
  | Some g =>
      if bool_decide (WallTopologyGraph.edges g = ∅) then Ret None
      else
        mesh' ← foldl (λ acc edge,
                         mesh ← acc;
                         p_start ← endpoint g (WallEdge.vertex_a edge);
                         p_end ← endpoint g (WallEdge.vertex_b edge);
                         Ret (extrude_wall_edge sqrt p_start p_end
                                WALL_THICKNESS WALL_HEIGHT mesh).2)
                      (Ret mesh) (WallTopologyGraph.edge_values g);
        Ret (Some mesh')
  end.

(** [build()]: the mesh, or [None]; any exception is caught and gives
    [None] too. *)
Definition build (self : t) : option (Mesh.t Qc) * t :=
  let combined_mesh := Mesh.init "cutaway_model" in
  let combined_mesh := _build_floor_slab self combined_mesh in
  match _build_walls self combined_mesh with
  | Raise _ => (None, self)
  | Ret None => (None, self)
  | Ret (Some combined_mesh) =>
      let combined_mesh := recalculate_normals sqrt combined_mesh in
      (Some combined_mesh,
       {| wall_graph := wall_graph self; room_set := room_set self;
          complete_mesh := Some combined_mesh |})
  end.

End build.
End CutawayBuilder.

(** [create_cutaway_mesh(wall_graph, room_set, normalization_context)] *)
Definition create_cutaway_mesh (sqrt : Qc → Qc)
    (wall_graph : option WallTopologyGraph.t) (room_set : option (RoomSet.t Qc))
    : option (Mesh.t Qc) :=
  (CutawayBuilder.build sqrt (CutawayBuilder.init wall_graph room_set)).1.

(** ** Stage 6 over binary64 floats

    How many vertices a mesh has depends on which rounded positions
    coincide, and with it on the rounding of floating-point arithmetic.
    The functions that build the mesh are therefore embedded a second time,
    over the binary64 floats of the kernel: [PrimFloat.add], [sub], [mul],
    [div] and [sqrt] round to nearest, ties to even, as the arithmetic of
    Python and numpy does, and [ltb] and [eqb] are the comparisons [<] and
    [==] of floats. *)

Module Binary64.
Import PrimFloat.
Set Warnings "-inexact-float".

Abbreviation vec2 := (float * float)%type.
Abbreviation vec3 := (float * float * float)%type.

Definition WALL_THICKNESS : float := 0.22%float.
Definition WALL_HEIGHT : float := 1.3%float.
Definition FLOOR_SLAB_THICKNESS : float := 0.12%float.

(** [np.rint]: the nearest integer, ties to even.  Below [2 ^ 52] in
    absolute value, adding and subtracting [2 ^ 52] rounds to it (up to
    the sign of a zero, which [==] does not see); from there on every
    float is an integer. *)
Definition two52 : float := 4503599627370496%float.
Definition rint (x : float) : float :=
  if ltb (abs x) two52
  then if ltb x 0%float then add (sub x two52) two52 else sub (add x two52) two52
  else x.

(** [np.round(x, decimals=6)] on one entry: numpy multiplies by [10 ^ 6],
    rounds to an integer and divides by [10 ^ 6]. *)
Definition round6 (x : float) : float :=
  div (rint (mul x 1000000%float)) 1000000%float.

(** [tuple(np.round(position, decimals=6))] *)
Definition position_key (p : vec3) : vec3 :=
  (round6 p.1.1, round6 p.1.2, round6 p.2).

(** Two keys are the same key of a dict when their entries are equal as
    floats. *)
Definition key_eqb (a b : vec3) : bool :=
  eqb a.1.1 b.1.1 && eqb a.1.2 b.1.2 && eqb a.2 b.2.

(** The mesh; the dict [vertex_hash_map] as the list of its entries in
    the order they were added. *)
Record mesh := mk_mesh {
  name : string;
  vertices : list (Vertex.t float);
  faces : list (Face.t float);
  vertex_hash_map : list (vec3 * nat)
}.

(** [Mesh(name)] *)
Definition init (name : string) : mesh :=
  {| name := name; vertices := []; faces := []; vertex_hash_map := [] |}.

Definition default_normal : vec3 := (0%float, 0%float, 1%float).

(** [Mesh.add_vertex(position, normal)] *)
Definition add_vertex (self : mesh) (position : vec3) (normal : option vec3)
    : nat * mesh :=
  let key := position_key position in
  match List.find (λ entry : vec3 * nat, key_eqb entry.1 key) (vertex_hash_map self) with
  | Some (_, idx) => (idx, self)
  | None =>
      let idx := length (vertices self) in
      let vertex := {| Vertex.position := position;
                       Vertex.normal := default default_normal normal |} in
      (idx,
       {| name := name self;
          vertices := vertices self ++ [vertex];
          faces := faces self;
          vertex_hash_map := vertex_hash_map self ++ [(key, idx)] |})
  end.

(** [Mesh.add_face(vi0, vi1, vi2, normal)] *)
Definition add_face (self : mesh) (vi0 vi1 vi2 : nat) (normal : option vec3)
    : nat * mesh :=
  let face := {| Face.vertex_indices := (vi0, vi1, vi2); Face.normal := normal |} in
  (length (faces self),
   {| name := name self; vertices := vertices self;
      faces := faces self ++ [face];
      vertex_hash_map := vertex_hash_map self |}).

Definition vsub (a b : vec3) : vec3 :=
  (sub a.1.1 b.1.1, sub a.1.2 b.1.2, sub a.2 b.2).
Definition vadd (a b : vec3) : vec3 :=
  (add a.1.1 b.1.1, add a.1.2 b.1.2, add a.2 b.2).
Definition vscale (a : vec3) (k : float) : vec3 :=
  (div a.1.1 k, div a.1.2 k, div a.2 k).
Definition dot (a b : vec3) : float :=
  add (add (mul a.1.1 b.1.1) (mul a.1.2 b.1.2)) (mul a.2 b.2).

(** [np.cross(edge1, edge2, dtype=np.float32)]: [np.cross] takes no
    [dtype] argument, so that the call raises [TypeError]. *)
Definition np_cross_dtype (a b : vec3) : exn vec3 := Raise TypeError.

Definition vertex_position (vertices : list (Vertex.t float)) (vi : nat) : exn vec3 :=
  match vertices !! vi with
  | Some v => Ret (Vertex.position v)
  | None => Raise IndexError
  end.

Definition EPS12 : float := 1e-12%float.

(** The [try] block of the loop over the faces in [recalculate_normals].
    The accumulated vertex normals are [float32] arrays in the source: only
    their initial zeros are ever read. *)
Definition face_normal_step (vertices : list (Vertex.t float))
    (vertex_normals : gmap nat vec3) (face : Face.t float)
    : exn (Face.t float * gmap nat vec3) :=
  let '(vi0, vi1, vi2) := Face.vertex_indices face in
  v0 ← vertex_position vertices vi0;
  v1 ← vertex_position vertices vi1;
  v2 ← vertex_position vertices vi2;
  let edge1 := vsub v1 v0 in
  let edge2 := vsub v2 v0 in
  face_normal ← np_cross_dtype edge1 edge2;
  let norm_sq := dot face_normal face_normal in
  if ltb EPS12 norm_sq
  then
    let face_normal := vscale face_normal (sqrt norm_sq) in
    let bump := λ n : vec3, vadd n face_normal in
    Ret ({| Face.vertex_indices := Face.vertex_indices face;
            Face.normal := Some face_normal |},
         alter bump vi2 (alter bump vi1 (alter bump vi0 vertex_normals)))
  else Ret (face, vertex_normals).

Definition accumulate_face (vertices : list (Vertex.t float))
    (acc : list (Face.t float) * gmap nat vec3) (face : Face.t float)
    : list (Face.t float) * gmap nat vec3 :=
  let '(done, vertex_normals) := acc in
  match face_normal_step vertices vertex_normals face with
  | Ret (face, vertex_normals) => (done ++ [face], vertex_normals)
  | Raise _ => (done ++ [face], vertex_normals)
  end.

(** [Mesh.recalculate_normals()] *)
Definition recalculate_normals (self : mesh) : mesh :=
  match faces self with
  | [] => self
  | _ =>
      let zero : vec3 := (0%float, 0%float, 0%float) in
      let vertex_normals : gmap nat vec3 :=
        list_to_map ((λ i, (i, zero)) <$> seq 0 (length (vertices self))) in
      let '(faces, vertex_normals) :=
        foldl (accumulate_face (vertices self)) ([], vertex_normals) (faces self) in
      let vertices :=
        imap (λ i v,
                let normal := default zero (vertex_normals !! i) in
                let norm_sq := dot normal normal in
                if ltb EPS12 norm_sq
                then {| Vertex.position := Vertex.position v;
                        Vertex.normal := vscale normal (sqrt norm_sq) |}
                else v)
             (vertices self) in
      {| name := name self; vertices := vertices; faces := faces;
         vertex_hash_map := vertex_hash_map self |}
  end.

(** The dict [edge_count] of [validate_manifold]. *)
Definition edge_count (self : mesh) : gmap (nat * nat) nat :=
  foldl (λ (m : gmap (nat * nat) nat) edge, <[edge := (default 0 (m !! edge) + 1)%nat]> m)
        ∅ (faces self ≫= Mesh.face_edges).

(** [validate_manifold()] *)
Definition validate_manifold (self : mesh) : bool * string :=
  let non_manifold_edges :=
    length (filter (λ kv : (nat * nat) * nat, kv.2 ≠ 2%nat) (map_to_list (edge_count self))) in
  if bool_decide (0 < non_manifold_edges)%nat
  then (false, "Non-manifold edges: " +:+ pretty non_manifold_edges)
  else (true, "Mesh is manifold").

Definition add_faces (m : mesh) (fs : list (nat * nat * nat)) : mesh :=
  foldl (λ m '(a, b, c), (add_face m a b c None).2) m fs.

(** [[mesh.add_vertex(p) for p in ps]] *)
Fixpoint add_vertices (m : mesh) (ps : list vec3) : list nat * mesh :=
  match ps with
  | [] => ([], m)
  | p :: rest =>
      let '(i, m) := add_vertex m p None in
      let '(rest_idx, m) := add_vertices m rest in
      (i :: rest_idx, m)
  end.

(** Add the eight corners of a box, bottom then top, and its twelve
    triangles. *)
Definition add_box (m : mesh) (corners : list vec3) : list nat * mesh :=
  let '(vi, m) := add_vertices m corners in
  match vi with
  | [b0; b1; b2; b3; t0; t1; t2; t3] =>
      (vi, add_faces m (box_faces b0 b1 b2 b3 t0 t1 t2 t3))
  | _ => (vi, m)
  end.

(** [np.linalg.norm] of a vector of two entries: the square root of its
    dot product with itself. *)
Definition norm2 (v : vec2) : float := sqrt (add (mul v.1 v.1) (mul v.2 v.2)).

(** The eight corners of the box of a wall. *)
Definition wall_corners (p_start p_end : vec2) (thickness height : float) : list vec3 :=
  let wall_vec := (sub p_end.1 p_start.1, sub p_end.2 p_start.2) in
  let wall_len := norm2 wall_vec in
  let wall_dir := (div wall_vec.1 wall_len, div wall_vec.2 wall_len) in
  let perp_dir := (opp wall_dir.2, wall_dir.1) in
  let half_thick := div thickness 2%float in
  let perp_offset := (mul perp_dir.1 half_thick, mul perp_dir.2 half_thick) in
  [ (sub p_start.1 perp_offset.1, sub p_start.2 perp_offset.2, 0%float);
    (add p_start.1 perp_offset.1, add p_start.2 perp_offset.2, 0%float);
    (add p_end.1 perp_offset.1, add p_end.2 perp_offset.2, 0%float);
    (sub p_end.1 perp_offset.1, sub p_end.2 perp_offset.2, 0%float);
    (sub p_start.1 perp_offset.1, sub p_start.2 perp_offset.2, height);
    (add p_start.1 perp_offset.1, add p_start.2 perp_offset.2, height);
    (add p_end.1 perp_offset.1, add p_end.2 perp_offset.2, height);
    (sub p_end.1 perp_offset.1, sub p_end.2 perp_offset.2, height) ].

(** [WallExtrusion.extrude_wall_edge(p_start, p_end, thickness, height, mesh)] *)
Definition extrude_wall_edge (p_start p_end : vec2) (thickness height : float)
    (m : mesh) : list nat * mesh :=
  let wall_vec := (sub p_end.1 p_start.1, sub p_end.2 p_start.2) in
  let wall_len := norm2 wall_vec in
  if ltb wall_len 1e-6%float then ([], m)
  else add_box m (wall_corners p_start p_end thickness height).

(** What the builder reads of a wall graph: the positions of its
    vertices, in the order of the dict, and for every edge the positions of
    the two vertices it joins. *)
Record wall_graph := mk_wall_graph {
  vertex_positions : list vec2;
  edge_ends : list (vec2 * vec2)
}.

(** [min] and [max] of a list with first entry [x]. *)
Definition py_min (x : float) (l : list float) : float :=
  foldl (λ m y, if ltb y m then y else m) x l.
Definition py_max (x : float) (l : list float) : float :=
  foldl (λ m y, if ltb m y then y else m) x l.

(** The eight corners of the floor slab: the bounding box of the vertices
    with the padding added, at the bottom and at the top of the slab. *)
Definition slab_corners (x : float) (xs : list float) (y : float) (ys : list float)
    : list vec3 :=
  let padding := 0.5%float in
  let x_min := sub (py_min x xs) padding in
  let x_max := add (py_max x xs) padding in
  let y_min := sub (py_min y ys) padding in
  let y_max := add (py_max y ys) padding in
  let z_top := 0%float in
  let z_bottom := opp FLOOR_SLAB_THICKNESS in
  [ (x_min, y_min, z_bottom); (x_max, y_min, z_bottom);
    (x_max, y_max, z_bottom); (x_min, y_max, z_bottom);
    (x_min, y_min, z_top); (x_max, y_min, z_top);
    (x_max, y_max, z_top); (x_min, y_max, z_top) ].

(** [_build_floor_slab(mesh)] *)
Definition _build_floor_slab (g : option wall_graph) (m : mesh) : mesh :=
  match g with
  | None => m
  | Some g =>
      match (vertex_positions g).*1, (vertex_positions g).*2 with
      | x :: xs, y :: ys => (add_box m (slab_corners x xs y ys)).2
      | _, _ => m
      end
  end.

(** [_build_walls(mesh)]: [None] when there is no edge to extrude. *)
Definition _build_walls (g : option wall_graph) (m : mesh) : option mesh :=
  match g with
  | None => None
  | Some g =>
      match edge_ends g with
      | [] => None
      | _ =>
          Some (foldl (λ m '(p_start, p_end),
                         (extrude_wall_edge p_start p_end WALL_THICKNESS WALL_HEIGHT m).2)
                      m (edge_ends g))
      end
  end.

(** [build()] *)
Definition build (g : option wall_graph) : option mesh :=
  let combined_mesh := init "cutaway_model" in
  let combined_mesh := _build_floor_slab g combined_mesh in
  match _build_walls g combined_mesh with
  | None => None
  | Some combined_mesh => Some (recalculate_normals combined_mesh)
  end.

Set Warnings "inexact-float".
End Binary64.

(** ** Stage 7: openings ([pipeline/stage7_openings.py]) *)

Module DoorSpec.
Record t := mk { width : Qc; height : Qc; z_bottom : Qc }.
End DoorSpec.

Module WindowSpec.
Record t := mk { width : Qc; height : Qc; sill_height : Qc }.
End WindowSpec.

Definition DEFAULT_DOOR_SPEC : DoorSpec.t :=
  {| DoorSpec.width := Q2Qc (9 # 10); DoorSpec.height := Q2Qc (11 # 10);
     DoorSpec.z_bottom := Q2Qc 0 |}.
Definition DEFAULT_WINDOW_SPEC : WindowSpec.t :=
  {| WindowSpec.width := Q2Qc (8 # 10); WindowSpec.height := Q2Qc (5 # 10);
     WindowSpec.sill_height := Q2Qc (65 # 100) |}.

(** An entry of the lists [OpeningDetector.detect] returns. *)
Module Opening.
Record t := mk {
  position : Qc * Qc;
  size : Qc * Qc;
  bounds_px : Z * Z * Z * Z;
  area_px : nat
}.
End Opening.

Module OpeningDetector.

Record t := mk {
  door_mask : np.ndarray;
  window_mask : np.ndarray;
  wall_mask : np.ndarray;
  scale_factor : Qc;
  doors : list Opening.t;
  windows : list Opening.t
}.

Definition init (door_mask window_mask wall_mask : np.ndarray) (scale_factor : Qc) : t :=
  {| door_mask := np.astype_uint8 door_mask;
     window_mask := np.astype_uint8 window_mask;
     wall_mask := np.astype_uint8 wall_mask;
     scale_factor := scale_factor; doors := []; windows := [] |}.

Section detect.
Variable cv : cv2.api.

(** [np.where(labels == label_id)]: the [(x, y)] of the component, in
    row-major order. *)
Definition component_coords (labels : np.ndarray) (label_id : nat) : list (Z * Z) :=
  y ← seq 0 (np.shape0 labels);
  x ← seq 0 (np.shape1 labels);
  if bool_decide (np.item labels y x = Z.of_nat label_id)
  then [(Z.of_nat x, Z.of_nat y)] else [].

Definition zmin_list (x : Z) (l : list Z) : Z := foldl Z.min x l.
Definition zmax_list (x : Z) (l : list Z) : Z := foldl Z.max x l.

(** [_extract_openings(mask, opening_type)].  The scale factor divides
    numpy floats, which does not raise: for a scale factor of zero numpy
    yields [inf] or [nan], which the rationals do not have.  The embedding
    is for a scale factor other than zero (in [Qc], [x / 0] is [0]), and
    what is proved of the metric position of an opening assumes one. *)
Definition _extract_openings (self : t) (mask : np.ndarray) : list Opening.t :=
  let '(num_labels, labels) := cv2.connectedComponents cv mask in
  label_id ← seq 1 (num_labels - 1);
  let coords := component_coords labels label_id in
  match coords.*1, coords.*2 with
  | x :: xs, y :: ys =>
      let x_min := zmin_list x xs in
      let x_max := zmax_list x xs in
      let y_min := zmin_list y ys in
      let y_max := zmax_list y ys in
      let x_center := (float_of_int (x_min + x_max) / Q2Qc 2)%Qc in
      let y_center := (float_of_int (y_min + y_max) / Q2Qc 2)%Qc in
      let width_px := x_max - x_min in
      let height_px := y_max - y_min in
      let s := scale_factor self in
      [ {| Opening.position := (x_center / s, y_center / s)%Qc;
           Opening.size := (float_of_int width_px / s, float_of_int height_px / s)%Qc;
           Opening.bounds_px := (x_min, y_min, x_max, y_max);
           Opening.area_px := length coords |} ]
  | _, _ => []
  end.

(** [detect()] *)
Definition detect (self : t) : list Opening.t * list Opening.t * t :=
  let doors := _extract_openings self (door_mask self) in
  let windows := _extract_openings self (window_mask self) in
  (doors, windows,
   {| door_mask := door_mask self; window_mask := window_mask self;
      wall_mask := wall_mask self; scale_factor := scale_factor self;
      doors := doors; windows := windows |}).

End detect.
End OpeningDetector.

Module ManifoldBoolean.

(** The cutting volume: [(x_min, x_max)], [(y_min, y_max)],
    [(z_bottom, z_top)]. *)
Record volume := mk_volume {
  x_min : Qc; x_max : Qc;
  y_min : Qc; y_max : Qc;
  z_bottom : Qc; z_top : Qc
}.

Definition cut_volume (center_x center_y width height z_bottom z_top : Qc) : volume :=
  let hw := (width / Q2Qc 2)%Qc in
  let hh := (height / Q2Qc 2)%Qc in
  {| x_min := (center_x - hw)%Qc; x_max := (center_x + hw)%Qc;
     y_min := (center_y - hh)%Qc; y_max := (center_y + hh)%Qc;
     z_bottom := z_bottom; z_top := z_top |}.

(** [a <= x <= b] *)
Definition between (a x b : Qc) : bool :=
  bool_decide (a ≤ x)%Qc && bool_decide (x ≤ b)%Qc.

(** The three tests on the vertices of a face: all of them within the x,
    the y and the z range of the volume. *)
Definition all_in_volume (vol : volume) (v0 v1 v2 : vec3) : bool :=
  let in_x_range := forallb (λ v : vec3, between (x_min vol) v.1.1 (x_max vol)) [v0; v1; v2] in
  let in_y_range := forallb (λ v : vec3, between (y_min vol) v.1.2 (y_max vol)) [v0; v1; v2] in
  let in_z_range := forallb (λ v : vec3, between (z_bottom vol) v.2 (z_top vol)) [v0; v1; v2] in
  in_x_range && in_y_range && in_z_range.

(** [mesh.vertices[vi].position], which raises on an index out of range. *)
Definition position_at (vertices : list (Vertex.t Qc)) (vi : nat) : exn vec3 :=
  match vertices !! vi with
  | Some v => Ret (Vertex.position v)
  | None => Raise IndexError
  end.

(** The loop that collects [faces_to_remove], from face index [face_idx]
    on. *)
Fixpoint faces_to_remove (vertices : list (Vertex.t Qc)) (vol : volume)
    (face_idx : nat) (faces : list (Face.t Qc)) : exn (list nat) :=
  match faces with
  | [] => Ret []
  | face :: rest =>
      let '(vi0, vi1, vi2) := Face.vertex_indices face in
      v0 ← position_at vertices vi0;
      v1 ← position_at vertices vi1;
      v2 ← position_at vertices vi2;
      later ← faces_to_remove vertices vol (S face_idx) rest;
      Ret (if all_in_volume vol v0 v1 v2 then face_idx :: later else later)
  end.

(** [l.pop(idx)] for an index in range. *)
Definition pop {A} (idx : nat) (l : list A) : list A := take idx l ++ drop (S idx) l.

(** [cut_rectangular_hole(mesh, center_x, center_y, width, height,
    z_bottom, z_top)]: the flag returned and the mesh after the call.  The
    indices to remove are collected in increasing order, so that sorting
    them in reverse is reversing the list. *)
Definition cut_rectangular_hole (mesh : Mesh.t Qc)
    (center_x center_y width height z_bottom z_top : Qc) : exn (bool * Mesh.t Qc) :=
  let vol := cut_volume center_x center_y width height z_bottom z_top in
  to_remove ← faces_to_remove (Mesh.vertices mesh) vol 0 (Mesh.faces mesh);
  let faces := foldl (λ faces idx, pop idx faces) (Mesh.faces mesh) (rev to_remove) in
  Ret (true,
       {| Mesh.name := Mesh.name mesh; Mesh.vertices := Mesh.vertices mesh;
          Mesh.faces := faces; Mesh.vertex_hash_map := Mesh.vertex_hash_map mesh |}).

End ManifoldBoolean.

Module OpeningGenerator.

(** The generator holds the mesh it cuts; the wall graph and the scale
    factor are stored and never read. *)
Record t := mk { mesh : Mesh.t Qc }.

(** [generate_doors(door_list)] *)
Definition generate_doors (self : t) (door_list : list Opening.t) : exn (bool * t) :=
  self ← foldl (λ acc door_info,
                  self ← acc;
                  let '(x, y) := Opening.position door_info in
                  let spec := DEFAULT_DOOR_SPEC in
                  '(_, mesh) ← ManifoldBoolean.cut_rectangular_hole (mesh self) x y
                                  (DoorSpec.width spec) (DoorSpec.height spec)
                                  (DoorSpec.z_bottom spec) (DoorSpec.height spec);
                  Ret {| mesh := mesh |})
               (Ret self) door_list;
  Ret (true, self).

(** [generate_windows(window_list)] *)
Definition generate_windows (self : t) (window_list : list Opening.t) : exn (bool * t) :=
  self ← foldl (λ acc window_info,
                  self ← acc;
                  let '(x, y) := Opening.position window_info in
                  let spec := DEFAULT_WINDOW_SPEC in
                  '(_, mesh) ← ManifoldBoolean.cut_rectangular_hole (mesh self) x y
                                  (WindowSpec.width spec) (WindowSpec.height spec)
                                  (WindowSpec.sill_height spec)
                                  (WindowSpec.sill_height spec + WindowSpec.height spec)%Qc;
                  Ret {| mesh := mesh |})
               (Ret self) window_list;
  Ret (true, self).

(** [generate_all(doors, windows)] *)
Definition generate_all (sqrt : Qc → Qc) (self : t)
    (doors windows : list Opening.t) : exn (bool * t) :=
  '(success1, self) ← match doors with
                      | [] => Ret (true, self)
                      | _ => generate_doors self doors
                      end;
  '(success2, self) ← match windows with
                      | [] => Ret (true, self)
                      | _ => generate_windows self windows
                      end;
  Ret (success1 && success2, {| mesh := recalculate_normals sqrt (mesh self) |}).

End OpeningGenerator.

(** [stage7_openings_generation(mesh, door_mask, window_mask, wall_mask,
    wall_graph, scale_factor)]: an exception is caught and gives
    [(False, None)]. *)
Definition stage7_openings_generation (cv : cv2.api) (sqrt : Qc → Qc)
    (mesh : Mesh.t Qc) (door_mask window_mask wall_mask : np.ndarray)
    (scale_factor : Qc) : bool * option (Mesh.t Qc) :=
  let detector := OpeningDetector.init door_mask window_mask wall_mask scale_factor in
  let '(doors, windows, _) := OpeningDetector.detect cv detector in
  match OpeningGenerator.generate_all sqrt {| OpeningGenerator.mesh := mesh |}
                                      doors windows with
  | Ret (true, generator) => (true, Some (OpeningGenerator.mesh generator))
  | Ret (false, _) => (false, None)
  | Raise _ => (false, None)
  end.

(** ** Stage 8: validation ([pipeline/stage8_validation.py]) *)

Definition MIN_WALL_COUNT : Z := 1.
Definition MIN_ROOM_COUNT : nat := 1.
Definition MIN_VERTEX_COUNT : nat := 8.
Definition MIN_FACE_COUNT : nat := 12.
Definition MIN_MESH_HEIGHT : Qc := Q2Qc (1 # 2).

Module ValidationResult.

Record t := mk {
  passed : bool;
  checks : list (string * bool * string);   (* (check_name, passed, message) *)
  warnings : list string;
  errors : list string
}.

(** [ValidationResult()] *)
Definition init : t :=
  {| passed := true; checks := []; warnings := []; errors := [] |}.

(** [add_check(name, passed, message)] *)
Definition add_check (self : t) (name : string) (passed_ : bool) (message : string) : t :=
  let checks := checks self ++ [(name, passed_, message)] in
  if negb passed_
  then {| passed := false; checks := checks; warnings := warnings self;
          errors := errors self ++ [message] |}
  else {| passed := passed self; checks := checks; warnings := warnings self;
          errors := errors self |}.

(** [add_warning(message)] *)
Definition add_warning (self : t) (message : string) : t :=
  {| passed := passed self; checks := checks self;
     warnings := warnings self ++ [message]; errors := errors self |}.

End ValidationResult.

(** What the validator asks of numpy about the entries of the arrays it
    builds: the tests for the special values, and the reductions and
    comparisons on floats. *)
Record float_ops (F : Type) := mk_float_ops {
  isnan : F → bool;            (* np.isnan *)
  isinf : F → bool;            (* np.isinf *)
  fmax : list F → F;           (* np.max *)
  fptp : list F → F;           (* np.ptp *)
  fabs : F → F;                (* np.abs *)
  flt : F → Qc → bool;         (* x < c *)
  fgt : F → Qc → bool;         (* x > c *)
  fge : F → Qc → bool;         (* x >= c *)
  fmt_2f : F → string          (* format with two decimals *)
}.
Arguments isnan {F}. Arguments isinf {F}. Arguments fmax {F}.
Arguments fptp {F}. Arguments fabs {F}. Arguments flt {F}.
Arguments fgt {F}. Arguments fge {F}. Arguments fmt_2f {F}.

Definition coords {F} (p : F * F * F) : list F := [p.1.1; p.1.2; p.2].

Module MeshValidator.
Section MeshValidator.
Context {F : Type} `{Countable F}.
Variable ops : float_ops F.

(** The validator threads its [result]; the mesh is only read. *)
Definition positions (mesh : Mesh.t F) : list (F * F * F) :=
  Vertex.position <$> Mesh.vertices mesh.

(** [_check_geometry_count()] *)
Definition _check_geometry_count (mesh : Mesh.t F) (result : ValidationResult.t)
    : ValidationResult.t :=
  let vertex_count := length (Mesh.vertices mesh) in
  let face_count := length (Mesh.faces mesh) in
  let passed := bool_decide (MIN_VERTEX_COUNT ≤ vertex_count)%nat
                && bool_decide (MIN_FACE_COUNT ≤ face_count)%nat in
  ValidationResult.add_check result "Geometry Count" passed
    (pretty vertex_count +:+ " vertices, " +:+ pretty face_count +:+ " faces").

(** [_check_manifold()] *)
Definition _check_manifold (mesh : Mesh.t F) (result : ValidationResult.t)
    : ValidationResult.t :=
  let '(is_manifold, msg) := Mesh.validate_manifold mesh in
  ValidationResult.add_check result "Manifold Topology" is_manifold msg.

(** [_check_dimensions()] *)
Definition _check_dimensions (mesh : Mesh.t F) (result : ValidationResult.t)
    : ValidationResult.t :=
  match Mesh.vertices mesh with
  | [] => ValidationResult.add_check result "Dimensions" false "No vertices"
  | _ =>
      let x_range := fptp ops ((λ p : F * F * F, p.1.1) <$> positions mesh) in
      let y_range := fptp ops ((λ p : F * F * F, p.1.2) <$> positions mesh) in
      let z_range := fptp ops ((λ p : F * F * F, p.2) <$> positions mesh) in
      let height_ok := fge ops z_range MIN_MESH_HEIGHT in
      let xy_ok := fgt ops x_range (Q2Qc 0) && fgt ops y_range (Q2Qc 0) in
      let passed := height_ok && xy_ok in
      let result :=
        ValidationResult.add_check result "Dimensions" passed
          ("X range " +:+ fmt_2f ops x_range +:+ "m, Y range " +:+ fmt_2f ops y_range
             +:+ "m, Z range " +:+ fmt_2f ops z_range +:+ "m") in
      if flt ops z_range MIN_MESH_HEIGHT
      then ValidationResult.add_warning result
             ("Model height " +:+ fmt_2f ops z_range +:+ "m is very low")
      else result
  end.

(** [_check_vertex_positions()] *)
Definition _check_vertex_positions (mesh : Mesh.t F) (result : ValidationResult.t)
    : ValidationResult.t :=
  let has_nan := existsb (λ p, existsb (isnan ops) (coords p)) (positions mesh) in
  let has_inf := existsb (λ p, existsb (isinf ops) (coords p)) (positions mesh) in
  let passed := negb (has_nan || has_inf) in
  let msg := (if has_nan then "NaN values found; " else "")
               +:+ (if has_inf then "Infinity values found; " else "") in
  let msg := if bool_decide (msg = "") then "All vertex positions valid" else msg in
  ValidationResult.add_check result "Vertex Validity" passed msg.

(** The test on one vertex in [_check_numerical_validity]. *)
Definition invalid_normal (vertex : Vertex.t F) : bool :=
  existsb (isnan ops) (coords (Vertex.normal vertex))
  || existsb (isinf ops) (coords (Vertex.normal vertex)).

(** The loop of [_check_numerical_validity]: a warning for the first
    vertex with an invalid normal, then [break]. *)
Fixpoint warn_first_invalid (i : nat) (vertices : list (Vertex.t F))
    (result : ValidationResult.t) : ValidationResult.t :=
  match vertices with
  | [] => result
  | vertex :: rest =>
      if invalid_normal vertex
      then ValidationResult.add_warning result
             ("Vertex " +:+ pretty i +:+ " has invalid normal")
      else warn_first_invalid (S i) rest result
  end.

(** [_check_numerical_validity()] *)
Definition _check_numerical_validity (mesh : Mesh.t F) (result : ValidationResult.t)
    : ValidationResult.t :=
  let result := warn_first_invalid 0 (Mesh.vertices mesh) result in
  ValidationResult.add_check result "Numerical Validity" true
    "No critical numerical errors".

(** [MeshValidator(mesh).validate()] *)
Definition validate (mesh : Mesh.t F) : ValidationResult.t :=
  let result := ValidationResult.init in
  let result := _check_geometry_count mesh result in
  let result := _check_manifold mesh result in
  let result := _check_dimensions mesh result in
  let result := _check_vertex_positions mesh result in
  _check_numerical_validity mesh result.

End MeshValidator.
End MeshValidator.

Module ArchitectureValidator.

Record t := mk {
  wall_graph : option WallTopologyGraph.t;
  room_set : option (RoomSet.t Qc);
  explicit_wall_count : option Z
}.

(** [_check_wall_count()] *)
Definition _check_wall_count (self : t) (result : ValidationResult.t)
    : ValidationResult.t :=
  let wall_count :=
    match wall_graph self with
    | Some g => Z.of_nat (size (WallTopologyGraph.edges g))
    | None => 0
    end in
  let wall_count := default wall_count (explicit_wall_count self) in
  let passed := bool_decide (MIN_WALL_COUNT ≤ wall_count) in
  ValidationResult.add_check result "Wall Count" passed
    ("Found " +:+ pretty wall_count +:+ " walls (minimum: "
       +:+ pretty MIN_WALL_COUNT +:+ ")").

(** [_check_room_count()] *)
Definition _check_room_count (self : t) (result : ValidationResult.t)
    : ValidationResult.t :=
  let room_count :=
    match room_set self with
    | Some rs => length (RoomSet.rooms rs)
    | None => 0%nat
    end in
  let passed := bool_decide (MIN_ROOM_COUNT ≤ room_count)%nat in
  ValidationResult.add_check result "Room Count" passed
    ("Found " +:+ pretty room_count +:+ " rooms (minimum: "
       +:+ pretty MIN_ROOM_COUNT +:+ ")").

(** [_check_room_separation()] *)
Definition _check_room_separation (self : t) (result : ValidationResult.t)
    : ValidationResult.t :=
  match room_set self with
  | None => ValidationResult.add_check result "Room Separation" true "No rooms to check"
  | Some rs =>
      let '(no_overlap, msg) := RoomSet.check_overlap rs in
      ValidationResult.add_check result "Room Separation" no_overlap msg
  end.

(** [_check_graph_connectivity()] *)
Definition _check_graph_connectivity (self : t) (result : ValidationResult.t)
    : exn ValidationResult.t :=
  match wall_graph self with
  | None => Ret (ValidationResult.add_check result "Graph Connectivity" false "No wall graph")
  | Some g =>
      '(is_connected, msg) ← WallTopologyGraph.validate g;
      Ret (ValidationResult.add_check result "Graph Connectivity" is_connected msg)
  end.

(** [validate()] *)
Definition validate (self : t) : exn ValidationResult.t :=
  let result := ValidationResult.init in
  let result := _check_wall_count self result in
  let result := _check_room_count self result in
  let result := _check_room_separation self result in
  _check_graph_connectivity self result.

End ArchitectureValidator.

Module CutawayValidator.
Section CutawayValidator.
Context {F : Type} `{Countable F}.
Variable ops : float_ops F.

Definition z_values (mesh : Mesh.t F) : list F :=
  (λ p : F * F * F, p.2) <$> MeshValidator.positions mesh.

(** [_check_no_roof()] *)
Definition _check_no_roof (mesh : Mesh.t F) (result : ValidationResult.t)
    : ValidationResult.t :=
  match Mesh.vertices mesh with
  | [] => ValidationResult.add_check result "No Roof" false "No vertices"
  | _ =>
      let max_z := fmax ops (z_values mesh) in
      let passed := flt ops max_z (Q2Qc 3) in
      ValidationResult.add_check result "No Roof" passed
        ("Max Z coordinate: " +:+ fmt_2f ops max_z +:+ "m (should be <3.0m)")
  end.

(** [_check_open_top()] *)
Definition _check_open_top (mesh : Mesh.t F) (result : ValidationResult.t)
    : ValidationResult.t :=
  if bool_decide (length (Mesh.vertices mesh) < 8)%nat
  then ValidationResult.add_check result "Open-Top Visibility" false "Insufficient geometry"
  else
    let has_floor := existsb (λ z, flt ops z (Q2Qc 0)) (z_values mesh) in
    let has_walls := existsb (λ z, fgt ops z (Q2Qc 0)) (z_values mesh) in
    let passed := has_floor && has_walls in
    ValidationResult.add_check result "Open-Top Visibility" passed
      (if passed then "Model has both floor and walls" else "Missing floor or walls").

(** [_check_floor_exists()] *)
Definition _check_floor_exists (mesh : Mesh.t F) (result : ValidationResult.t)
    : ValidationResult.t :=
  match Mesh.vertices mesh with
  | [] => ValidationResult.add_check result "Floor Exists" false "No vertices"
  | _ =>
      let near_floor := existsb (λ z, flt ops (fabs ops z) (Q2Qc (1 # 2))) (z_values mesh) in
      let below_floor := existsb (λ z, flt ops z (Q2Qc (-5 # 100))) (z_values mesh) in
      let passed := near_floor && below_floor in
      ValidationResult.add_check result "Floor Exists" passed
        (if passed then "Floor slab detected" else "Floor slab not found")
  end.

(** [validate()] *)
Definition validate (mesh : Mesh.t F) : ValidationResult.t :=
  let result := ValidationResult.init in
  let result := _check_no_roof mesh result in
  let result := _check_open_top mesh result in
  _check_floor_exists mesh result.

End CutawayValidator.
End CutawayValidator.

Module ComprehensiveValidator.
Section ComprehensiveValidator.
Context {F : Type} `{Countable F}.
Variable ops : float_ops F.

(** The two loops that copy the checks and the warnings of a stage result
    into the combined result, under a prefix. *)
Definition merge (prefix : string) (combined stage : ValidationResult.t)
    : ValidationResult.t :=
  let combined :=
    foldl (λ r '(name, passed, msg), ValidationResult.add_check r (prefix +:+ name) passed msg)
          combined (ValidationResult.checks stage) in
  foldl (λ r w, ValidationResult.add_warning r (prefix +:+ w))
        combined (ValidationResult.warnings stage).

(** [validate_all()]: [(passed, combined_result)] *)
Definition validate_all (mesh : Mesh.t F) (wall_graph : option WallTopologyGraph.t)
    (room_set : option (RoomSet.t Qc)) (wall_count : option Z)
    : exn (bool * ValidationResult.t) :=
  let combined_result := ValidationResult.init in
  let mesh_result := MeshValidator.validate ops mesh in
  let combined_result := merge "Mesh: " combined_result mesh_result in
  arch_result ← ArchitectureValidator.validate
                  {| ArchitectureValidator.wall_graph := wall_graph;
                     ArchitectureValidator.room_set := room_set;
                     ArchitectureValidator.explicit_wall_count := wall_count |};
  let combined_result := merge "Architecture: " combined_result arch_result in
  let cutaway_result := CutawayValidator.validate ops mesh in
  let combined_result := merge "Cutaway: " combined_result cutaway_result in
  Ret (ValidationResult.passed combined_result, combined_result).

(** [stage8_validation(mesh, wall_graph, room_set, wall_count)]: an
    exception is caught and reported as a failed result. *)
Definition stage8_validation (str_of_exception : exception → string)
    (mesh : Mesh.t F) (wall_graph : option WallTopologyGraph.t)
    (room_set : option (RoomSet.t Qc)) (wall_count : option Z)
    : bool * ValidationResult.t :=
  match validate_all mesh wall_graph room_set wall_count with
  | Ret r => r
  | Raise e =>
      (false, {| ValidationResult.passed := false;
                 ValidationResult.checks := [];
                 ValidationResult.warnings := [];
                 ValidationResult.errors := [str_of_exception e] |})
  end.

End ComprehensiveValidator.
End ComprehensiveValidator.

(** ** Stage 9: GLB export ([pipeline/stage9_export.py]) *)

Definition GLTF_MAGIC : Z := 0x46546C67.   (* "glTF" *)
Definition GLTF_VERSION : Z := 2.
Definition ARRAY_BUFFER : Z := 34962.
Definition ELEMENT_ARRAY_BUFFER : Z := 34963.
Definition FLOAT : Z := 5126.
Definition UNSIGNED_INT : Z := 5125.

Definition COLORS_wall : list Qc := [Q2Qc (92 # 100); Q2Qc (85 # 100); Q2Qc (74 # 100)].
Definition COLORS_floor : list Qc := [Q2Qc (45 # 100); Q2Qc (45 # 100); Q2Qc (48 # 100)].

Module GLTFAccessor.
Record t := mk {
  bufferView : nat;
  componentType : Z;
  count : nat;
  type : string;
  min : option (list Qc);
  max : option (list Qc)
}.
End GLTFAccessor.

Module GLTFBufferView.
Record t := mk {
  buffer : nat;
  byteOffset : nat;
  byteLength : nat;
  target : Z;
  byteStride : option nat
}.
End GLTFBufferView.

Module GLTFMaterial.
Record t := mk { name : string; color : list Qc }.
End GLTFMaterial.

Module GLTFPrimitive.
Record t := mk {
  POSITION : nat;
  NORMAL : nat;
  indices : nat;
  material : option nat;
  mode : Z
}.
End GLTFPrimitive.

Module GLTFMesh.
Record t := mk { name : string; primitives : list GLTFPrimitive.t }.
End GLTFMesh.

Module GLTFNode.
Record t := mk { name : string; mesh : option nat }.
End GLTFNode.

(** The byte of a value in [0, 256). *)
Definition byte_of_Z (z : Z) : byte :=
  default Byte.x00 (Byte.of_N (Z.to_N (z `mod` 256))).
Definition Z_of_byte (b : byte) : Z := Z.of_N (Byte.to_N b).

(** An unsigned 32-bit integer in little-endian order, and its reading. *)
Definition le32 (n : Z) : list byte :=
  [byte_of_Z n; byte_of_Z (n ≫ 8); byte_of_Z (n ≫ 16); byte_of_Z (n ≫ 24)].

Definition le32_decode (bs : list byte) : Z :=
  match bs with
  | [b0; b1; b2; b3] =>
      Z_of_byte b0 + Z_of_byte b1 ≪ 8 + Z_of_byte b2 ≪ 16 + Z_of_byte b3 ≪ 24
  | _ => 0
  end.

(** [struct.pack('<' + 'I' * n, *values)]: [struct.error] when a value is
    not an unsigned 32-bit integer. *)
Fixpoint struct_pack_I (values : list Z) : exn (list byte) :=
  match values with
  | [] => Ret []
  | v :: rest =>
      if bool_decide (0 ≤ v < 2 ^ 32)
      then bs ← struct_pack_I rest; Ret (le32 v ++ bs)
      else Raise StructError
  end.

(** The padding of a chunk to a multiple of four bytes. *)
Definition padding (len : nat) : nat := ((4 - len `mod` 4) `mod` 4)%nat.

Module GLBExporter.

(** The document [_build_gltf_dict] assembles. *)
Record gltf (Metadata : Type) := mk_gltf {
  nodes : list GLTFNode.t;
  meshes : list GLTFMesh.t;
  materials : list GLTFMaterial.t;
  accessors : list GLTFAccessor.t;
  bufferViews : list GLTFBufferView.t;
  buffers_byteLength : nat;
  extensions_Skematix : option Metadata
}.
Arguments mk_gltf {Metadata}.

Section GLBExporter.
(** The free-form metadata dict, and whether it is empty. *)
Context {Metadata : Type}.
Variable metadata_nonempty : Metadata → bool.
(** [json.dumps(gltf_dict).encode('utf-8')] *)
Variable json_dumps : gltf Metadata → list byte.
(** [array.tobytes()] of a float32 array of 3-vectors. *)
Variable float32_tobytes : list vec3 → list byte.
(** The file system: writing a file at a path, [None] when the operating
    system refuses (the directory cannot be made, the file not opened or
    not written). *)
Context {FS : Type}.
Variable write_file : string → list byte → FS → option FS.

Record t := mk {
  mesh : Mesh.t Qc;
  metadata : option Metadata;
  buffer_data : list byte;
  buffer_views : list GLTFBufferView.t;
  accessors_ : list GLTFAccessor.t;
  materials_ : list GLTFMaterial.t;
  primitives : list GLTFPrimitive.t;
  meshes_ : list GLTFMesh.t;
  nodes_ : list GLTFNode.t
}.

(** [GLBExporter(mesh, metadata)]: an empty metadata dict counts as none. *)
Definition init (mesh : Mesh.t Qc) (metadata : option Metadata) : t :=
  {| mesh := mesh;
     metadata := match metadata with
                 | Some m => if metadata_nonempty m then Some m else None
                 | None => None
                 end;
     buffer_data := []; buffer_views := []; accessors_ := [];
     materials_ := []; primitives := []; meshes_ := []; nodes_ := [] |}.

(** [_prepare_materials()] *)
Definition _prepare_materials (self : t) : t :=
  {| mesh := mesh self; metadata := metadata self;
     buffer_data := buffer_data self; buffer_views := buffer_views self;
     accessors_ := accessors_ self;
     materials_ := materials_ self
                   ++ [ {| GLTFMaterial.name := "Wall"; GLTFMaterial.color := COLORS_wall |};
                        {| GLTFMaterial.name := "Floor"; GLTFMaterial.color := COLORS_floor |} ];
     primitives := primitives self; meshes_ := meshes_ self; nodes_ := nodes_ self |}.

(** The arrays [_prepare_geometry] extracts from the mesh. *)
Definition positions (m : Mesh.t Qc) : list vec3 := Vertex.position <$> Mesh.vertices m.
Definition normals (m : Mesh.t Qc) : list vec3 := Vertex.normal <$> Mesh.vertices m.
Definition indices_list (m : Mesh.t Qc) : list nat :=
  f ← Mesh.faces m;
  let '(a, b, c) := Face.vertex_indices f in [a; b; c].

(** [np.array(indices_list, dtype=np.uint32).tobytes()] *)
Fixpoint uint32_tobytes (l : list nat) : exn (list byte) :=
  match l with
  | [] => Ret []
  | i :: rest =>
      if bool_decide (Z.of_nat i < 2 ^ 32)
      then bs ← uint32_tobytes rest; Ret (le32 (Z.of_nat i) ++ bs)
      else Raise OverflowError
  end.

(** [positions.min(axis=0).tolist()] and [max]. *)
Definition column_min (ps : list vec3) : option (list Qc) :=
  match ps with
  | [] => None
  | p :: rest =>
      Some [ MetricNormalizer.min_list p.1.1 ((λ q : vec3, q.1.1) <$> rest);
             MetricNormalizer.min_list p.1.2 ((λ q : vec3, q.1.2) <$> rest);
             MetricNormalizer.min_list p.2 ((λ q : vec3, q.2) <$> rest) ]
  end.
Definition column_max (ps : list vec3) : option (list Qc) :=
  match ps with
  | [] => None
  | p :: rest =>
      Some [ MetricNormalizer.max_list p.1.1 ((λ q : vec3, q.1.1) <$> rest);
             MetricNormalizer.max_list p.1.2 ((λ q : vec3, q.1.2) <$> rest);
             MetricNormalizer.max_list p.2 ((λ q : vec3, q.2) <$> rest) ]
  end.

(** [_prepare_geometry()] *)
Definition _prepare_geometry (self : t) : exn t :=
  match Mesh.vertices (mesh self), Mesh.faces (mesh self) with
  | [], _ | _, [] => Ret self
  | _, _ =>
      let positions := positions (mesh self) in
      let normals := normals (mesh self) in
      idx_bytes ← uint32_tobytes (indices_list (mesh self));
      let pos_byte_offset := length (buffer_data self) in
      let pos_bytes := float32_tobytes positions in
      let buffer_data := buffer_data self ++ pos_bytes in
      let pos_accessor :=
        {| GLTFAccessor.bufferView := length (buffer_views self);
           GLTFAccessor.componentType := FLOAT;
           GLTFAccessor.count := length positions;
           GLTFAccessor.type := "VEC3";
           GLTFAccessor.min := column_min positions;
           GLTFAccessor.max := column_max positions |} in
      let accessors := accessors_ self ++ [pos_accessor] in
      let buffer_views :=
        buffer_views self
        ++ [ {| GLTFBufferView.buffer := 0; GLTFBufferView.byteOffset := pos_byte_offset;
                GLTFBufferView.byteLength := length pos_bytes;
                GLTFBufferView.target := ARRAY_BUFFER;
                GLTFBufferView.byteStride := None |} ] in
      let norm_byte_offset := length buffer_data in
      let norm_bytes := float32_tobytes normals in
      let buffer_data := buffer_data ++ norm_bytes in
      let norm_accessor :=
        {| GLTFAccessor.bufferView := length buffer_views;
           GLTFAccessor.componentType := FLOAT;
           GLTFAccessor.count := length normals;
           GLTFAccessor.type := "VEC3";
           GLTFAccessor.min := None; GLTFAccessor.max := None |} in
      let accessors := accessors ++ [norm_accessor] in
      let buffer_views :=
        buffer_views
        ++ [ {| GLTFBufferView.buffer := 0; GLTFBufferView.byteOffset := norm_byte_offset;
                GLTFBufferView.byteLength := length norm_bytes;
                GLTFBufferView.target := ARRAY_BUFFER;
                GLTFBufferView.byteStride := None |} ] in
      let idx_byte_offset := length buffer_data in
      let buffer_data := buffer_data ++ idx_bytes in
      let idx_accessor :=
        {| GLTFAccessor.bufferView := length buffer_views;
           GLTFAccessor.componentType := UNSIGNED_INT;
           GLTFAccessor.count := length (indices_list (mesh self));
           GLTFAccessor.type := "SCALAR";
           GLTFAccessor.min := None; GLTFAccessor.max := None |} in
      let accessors := accessors ++ [idx_accessor] in
      let buffer_views :=
        buffer_views
        ++ [ {| GLTFBufferView.buffer := 0; GLTFBufferView.byteOffset := idx_byte_offset;
                GLTFBufferView.byteLength := length idx_bytes;
                GLTFBufferView.target := ELEMENT_ARRAY_BUFFER;
                GLTFBufferView.byteStride := None |} ] in
      let primitive :=
        {| GLTFPrimitive.POSITION := 0; GLTFPrimitive.NORMAL := 1;
           GLTFPrimitive.indices := (length accessors - 1)%nat;
           GLTFPrimitive.material :=
             if bool_decide (0 < length (materials_ self))%nat then Some 0%nat else None;
           GLTFPrimitive.mode := 4 |} in
      let mesh_obj :=
        {| GLTFMesh.name := if bool_decide (Mesh.name (mesh self) = "") then "mesh"
                            else Mesh.name (mesh self);
           GLTFMesh.primitives := [primitive] |} in
      Ret {| mesh := mesh self; metadata := metadata self;
             buffer_data := buffer_data; buffer_views := buffer_views;
             accessors_ := accessors; materials_ := materials_ self;
             primitives := primitives self ++ [primitive];
             meshes_ := meshes_ self ++ [mesh_obj];
             nodes_ := nodes_ self
                       ++ [ {| GLTFNode.name := "root"; GLTFNode.mesh := Some 0%nat |} ] |}
  end.

(** [_build_gltf_dict()] *)
Definition _build_gltf_dict (self : t) : gltf Metadata :=
  {| nodes := nodes_ self; meshes := meshes_ self; materials := materials_ self;
     accessors := accessors_ self; bufferViews := buffer_views self;
     buffers_byteLength := length (buffer_data self);
     extensions_Skematix := metadata self |}.

(** The three pieces [_write_glb_file] writes one after the other: the
    header, the JSON chunk and the binary chunk. *)
Definition glb_chunks (self : t) (gltf_dict : gltf Metadata)
    : exn (list byte * list byte * list byte) :=
  let gltf_json_bytes := json_dumps gltf_dict in
  let json_padding := padding (length gltf_json_bytes) in
  let gltf_json_bytes := gltf_json_bytes ++ replicate json_padding Byte.x20 in
  let json_chunk_type := 0x4E4F534A in
  let json_chunk_data := gltf_json_bytes in
  json_head ← struct_pack_I [Z.of_nat (length json_chunk_data); json_chunk_type];
  let json_chunk := json_head ++ json_chunk_data in
  let bin_chunk_type := 0x004E4942 in
  let bin_chunk_data := buffer_data self in
  let bin_padding := padding (length bin_chunk_data) in
  let bin_chunk_data := bin_chunk_data ++ replicate bin_padding Byte.x00 in
  bin_head ← struct_pack_I [Z.of_nat (length bin_chunk_data); bin_chunk_type];
  let bin_chunk := bin_head ++ bin_chunk_data in
  let file_size := (12 + length json_chunk + length bin_chunk)%nat in
  glb_header ← struct_pack_I [GLTF_MAGIC; GLTF_VERSION; Z.of_nat file_size];
  Ret (glb_header, json_chunk, bin_chunk).

(** [_write_glb_file(output_path, gltf_dict)]: the flag returned and the
    file system after the call. *)
Definition _write_glb_file (self : t) (output_path : string)
    (gltf_dict : gltf Metadata) (fs : FS) : exn (bool * FS) :=
  '(glb_header, json_chunk, bin_chunk) ← glb_chunks self gltf_dict;
  match write_file output_path (glb_header ++ json_chunk ++ bin_chunk) fs with
  | Some fs' => Ret (true, fs')
  | None => Ret (false, fs)
  end.

(** [export(output_path)]: any exception is caught and gives [False]. *)
Definition export (self : t) (output_path : string) (fs : FS) : bool * FS :=
  let self := _prepare_materials self in
  try_except
    (self ← _prepare_geometry self;
     let gltf_dict := _build_gltf_dict self in
     _write_glb_file self output_path gltf_dict fs)
    (false, fs).

(** [stage9_export(mesh, output_path, metadata)] *)
Definition stage9_export (mesh : Mesh.t Qc) (output_path : string)
    (metadata : option Metadata) (fs : FS) : bool * string * FS :=
  let exporter := init mesh metadata in
  let '(success, fs) := export exporter output_path fs in
  if success then (true, output_path, fs) else (false, "Export failed", fs).

End GLBExporter.
End GLBExporter.

(** ** The orchestrator ([pipeline/orchestrator.py])

    The orchestrator imports the stage functions: the model takes them as
    parameters, together with the types of what they exchange, so that it
    can be instantiated with the stages modelled above. *)

Module BlueprintPipeline.
Section BlueprintPipeline.
Context {Image Sem Mask Graph Rooms NGraph NRooms Ctx MeshT VResult Metadata : Type}.

(** The imported stages and the library calls of the orchestrator. *)
Record env := mk_env {
  path_exists : string → bool;                       (* os.path.exists *)
  imread : string → option Image;                    (* cv2.imread *)
  shape : Image → nat * nat * nat;
  stage1_semantic_segmentation : string → string → exn (option Sem);
  stage2_wall_mask_refinement : option Sem → exn (option Mask);
  stage3_topology_extraction : option Mask → exn (option Graph);
  stage4_room_detection : option Mask → option Graph → exn (option Rooms);
  (** [MetricNormalizer(image_shape, wall_graph, room_set).normalize()] *)
  normalize : nat * nat * nat → option Graph → option Rooms
              → exn (bool * option Ctx * option NGraph * option NRooms);
  create_cutaway_mesh : option NGraph → option NRooms → Qc → exn (option MeshT);
  (** the [masks] attribute of the semantic output, when it has one that
      is a dict *)
  masks : Sem → option (Z → option Mask);
  zeros : nat * nat → Mask;                          (* np.zeros *)
  stage7_openings_generation : option MeshT → Mask → Mask → Mask → option NGraph → Qc
                               → exn (bool * option MeshT);
  stage8_validation : option MeshT → option NGraph → option NRooms → Z
                      → exn (bool * VResult);
  checks : VResult → list (string * bool * string);
  make_metadata : string → Qc → Qc → nat → nat → Metadata;
  makedirs : string → exn unit;                      (* os.makedirs(.., exist_ok=True) *)
  stage9_export : option MeshT → string → Metadata → exn (bool * string);
  (** lengths and fields read for the log *)
  len_rooms : Rooms → nat;
  len_edges : Graph → nat;
  len_vertices : MeshT → nat;
  len_faces : MeshT → nat;
  scale_factor : Ctx → Qc;
  target_width_m : Ctx → Qc;
  (** formatting *)
  fmt_f : nat → Qc → string;                         (* "{:.Nf}" *)
  str_exception : exception → string;
  basename_without_ext : string → string;
  elapsed : Qc                                       (* the seconds a run takes *)
}.

Variable E : env.

Record t := mk {
  image_path : string;
  device : string;
  verbose : bool;
  image : option Image;
  image_shape : option (nat * nat * nat);
  semantic_output : option Sem;
  refined_wall_mask : option Mask;
  wall_graph : option Graph;
  room_set : option Rooms;
  normalized_wall_graph : option NGraph;
  normalized_room_set : option NRooms;
  normalization_context : option Ctx;
  blender_model : option MeshT;
  model_with_openings : option MeshT;
  validation_results : option VResult;
  glb_path : option string;
  execution_log : list string;
  errors : list string
}.

(** [BlueprintPipeline(image_path, device, verbose)] *)
Definition init (image_path device : string) (verbose : bool) : t :=
  {| image_path := image_path; device := device; verbose := verbose;
     image := None; image_shape := None; semantic_output := None;
     refined_wall_mask := None; wall_graph := None; room_set := None;
     normalized_wall_graph := None; normalized_room_set := None;
     normalization_context := None; blender_model := None;
     model_with_openings := None; validation_results := None;
     glb_path := None; execution_log := []; errors := [] |}.

(** Methods read and update the object: a state monad over [t]. *)
Definition M (A : Type) : Type := t → A * t.
Definition ret {A} (a : A) : M A := λ s, (a, s).
Definition bind {A B} (m : M A) (k : A → M B) : M B :=
  λ s, let '(a, s') := m s in k a s'.
Definition get : M t := λ s, (s, s).
Definition modify (f : t → t) : M unit := λ s, (tt, f s).

Notation "'let*' x := m 'in' k" := (bind m (λ x, k))
  (at level 10, x name, k at level 200).
Notation "m ;; k" := (bind m (λ _, k))
  (at level 100, right associativity).

(** One setter per attribute the stages assign. *)
Definition set_log (l : list string) (s : t) : t :=
  mk (image_path s) (device s) (verbose s) (image s) (image_shape s)
     (semantic_output s) (refined_wall_mask s) (wall_graph s) (room_set s)
     (normalized_wall_graph s) (normalized_room_set s) (normalization_context s)
     (blender_model s) (model_with_openings s) (validation_results s) (glb_path s)
     l (errors s).
Definition set_image (i : option Image) (sh : option (nat * nat * nat)) (s : t) : t :=
  mk (image_path s) (device s) (verbose s) i sh
     (semantic_output s) (refined_wall_mask s) (wall_graph s) (room_set s)
     (normalized_wall_graph s) (normalized_room_set s) (normalization_context s)
     (blender_model s) (model_with_openings s) (validation_results s) (glb_path s)
     (execution_log s) (errors s).
Definition set_semantic_output (v : option Sem) (s : t) : t :=
  mk (image_path s) (device s) (verbose s) (image s) (image_shape s)
     v (refined_wall_mask s) (wall_graph s) (room_set s)
     (normalized_wall_graph s) (normalized_room_set s) (normalization_context s)
     (blender_model s) (model_with_openings s) (validation_results s) (glb_path s)
     (execution_log s) (errors s).
Definition set_refined_wall_mask (v : option Mask) (s : t) : t :=
  mk (image_path s) (device s) (verbose s) (image s) (image_shape s)
     (semantic_output s) v (wall_graph s) (room_set s)
     (normalized_wall_graph s) (normalized_room_set s) (normalization_context s)
     (blender_model s) (model_with_openings s) (validation_results s) (glb_path s)
     (execution_log s) (errors s).
Definition set_wall_graph (v : option Graph) (s : t) : t :=
  mk (image_path s) (device s) (verbose s) (image s) (image_shape s)
     (semantic_output s) (refined_wall_mask s) v (room_set s)
     (normalized_wall_graph s) (normalized_room_set s) (normalization_context s)
     (blender_model s) (model_with_openings s) (validation_results s) (glb_path s)
     (execution_log s) (errors s).
Definition set_room_set (v : option Rooms) (s : t) : t :=
  mk (image_path s) (device s) (verbose s) (image s) (image_shape s)
     (semantic_output s) (refined_wall_mask s) (wall_graph s) v
     (normalized_wall_graph s) (normalized_room_set s) (normalization_context s)
     (blender_model s) (model_with_openings s) (validation_results s) (glb_path s)
     (execution_log s) (errors s).
Definition set_normalized (g : option NGraph) (r : option NRooms) (c : option Ctx)
    (s : t) : t :=
  mk (image_path s) (device s) (verbose s) (image s) (image_shape s)
     (semantic_output s) (refined_wall_mask s) (wall_graph s) (room_set s)
     g r c
     (blender_model s) (model_with_openings s) (validation_results s) (glb_path s)
     (execution_log s) (errors s).
Definition set_blender_model (v : option MeshT) (s : t) : t :=
  mk (image_path s) (device s) (verbose s) (image s) (image_shape s)
     (semantic_output s) (refined_wall_mask s) (wall_graph s) (room_set s)
     (normalized_wall_graph s) (normalized_room_set s) (normalization_context s)
     v (model_with_openings s) (validation_results s) (glb_path s)
     (execution_log s) (errors s).
Definition set_model_with_openings (v : option MeshT) (s : t) : t :=
  mk (image_path s) (device s) (verbose s) (image s) (image_shape s)
     (semantic_output s) (refined_wall_mask s) (wall_graph s) (room_set s)
     (normalized_wall_graph s) (normalized_room_set s) (normalization_context s)
     (blender_model s) v (validation_results s) (glb_path s)
     (execution_log s) (errors s).
Definition set_validation_results (v : option VResult) (s : t) : t :=
  mk (image_path s) (device s) (verbose s) (image s) (image_shape s)
     (semantic_output s) (refined_wall_mask s) (wall_graph s) (room_set s)
     (normalized_wall_graph s) (normalized_room_set s) (normalization_context s)
     (blender_model s) (model_with_openings s) v (glb_path s)
     (execution_log s) (errors s).
Definition set_glb_path (v : option string) (s : t) : t :=
  mk (image_path s) (device s) (verbose s) (image s) (image_shape s)
     (semantic_output s) (refined_wall_mask s) (wall_graph s) (room_set s)
     (normalized_wall_graph s) (normalized_room_set s) (normalization_context s)
     (blender_model s) (model_with_openings s) (validation_results s) v
     (execution_log s) (errors s).
Definition set_errors (v : list string) (s : t) : t :=
  mk (image_path s) (device s) (verbose s) (image s) (image_shape s)
     (semantic_output s) (refined_wall_mask s) (wall_graph s) (room_set s)
     (normalized_wall_graph s) (normalized_room_set s) (normalization_context s)
     (blender_model s) (model_with_openings s) (validation_results s) (glb_path s)
     (execution_log s) v.

(** [_log(message)]: the message is printed when verbose, and recorded. *)
Definition _log (message : string) : M unit :=
  modify (λ s, set_log (execution_log s ++ [message]) s).

Definition rule (n : nat) : string := String.concat "" (replicate n "=").
Definition newline : string := String (Ascii.ascii_of_nat 10) "".

(** [_log_stage(stage_name)] *)
Definition _log_stage (stage_name : string) : M unit :=
  _log (newline +:+ "[Pipeline] " +:+ rule 60) ;;
  _log ("[Pipeline] STAGE " +:+ stage_name) ;;
  _log ("[Pipeline] " +:+ rule 60).

(** [try: body except Exception as e: log; return False], for the stage
    wrappers: [body] is the call that may raise and [k] what follows. *)
Definition guarded {A} (stage : string) (call : exn A) (k : A → M bool) : M bool :=
  match call with
  | Ret a => k a
  | Raise e => _log ("[" +:+ stage +:+ "] Exception: " +:+ str_exception E e) ;; ret false
  end.

(** [str] of the shape of an image: a tuple of three numbers. *)
Definition str_shape (sh : nat * nat * nat) : string :=
  "(" +:+ pretty sh.1.1 +:+ ", " +:+ pretty sh.1.2 +:+ ", " +:+ pretty sh.2 +:+ ")".

(** [_load_image()] *)
Definition _load_image : M bool :=
  let* self := get in
  _log "[Pipeline] Loading image" ;;
  if negb (path_exists E (image_path self))
  then _log ("[Pipeline] Image not found: " +:+ image_path self) ;; ret false
  else match imread E (image_path self) with
       | None => _log "[Pipeline] Failed to load image" ;; ret false
       | Some img =>
           modify (set_image (Some img) (Some (shape E img))) ;;
           _log ("[Pipeline] Image loaded: " +:+ str_shape (shape E img)) ;;
           ret true
       end.

(** [_stage1_semantic_understanding()] *)
Definition _stage1_semantic_understanding : M bool :=
  let* self := get in
  _log_stage "1: Semantic Understanding" ;;
  guarded "Stage1" (stage1_semantic_segmentation E (image_path self) (device self))
    (λ out,
       modify (set_semantic_output out) ;;
       match out with
       | None => _log "[Stage1] ✗ Semantic segmentation failed" ;; ret false
       | Some _ => _log "[Stage1] ✓ Complete" ;; ret true
       end).

(** [_stage2_wall_refinement()] *)
Definition _stage2_wall_refinement : M bool :=
  let* self := get in
  _log_stage "2: Wall Mask Refinement" ;;
  guarded "Stage2" (stage2_wall_mask_refinement E (semantic_output self))
    (λ out,
       modify (set_refined_wall_mask out) ;;
       match out with
       | None => _log "[Stage2] ✗ Wall refinement failed" ;; ret false
       | Some _ => _log "[Stage2] ✓ Complete" ;; ret true
       end).

(** [_stage3_topology()] *)
Definition _stage3_topology : M bool :=
  let* self := get in
  _log_stage "3: Topology Extraction" ;;
  guarded "Stage3" (stage3_topology_extraction E (refined_wall_mask self))
    (λ out,
       modify (set_wall_graph out) ;;
       match out with
       | None => _log "[Stage3] ✗ Topology extraction failed" ;; ret false
       | Some _ => _log "[Stage3] ✓ Complete" ;; ret true
       end).

(** [_stage4_room_detection()] *)
Definition _stage4_room_detection : M bool :=
  let* self := get in
  _log_stage "4: Room Detection (FAIL FAST)" ;;
  guarded "Stage4" (stage4_room_detection E (refined_wall_mask self) (wall_graph self))
    (λ out,
       modify (set_room_set out) ;;
       match out with
       | None =>
           _log "[Stage4] ✗ Room detection failed or rooms merged" ;;
           _log "[Stage4] FAIL FAST: Pipeline halted" ;;
           ret false
       | Some rooms =>
           _log ("[Stage4] Rooms detected: " +:+ pretty (len_rooms E rooms)) ;;
           _log "[Stage4] ✓ Complete (No merging detected)" ;;
           ret true
       end).

(** [_stage5_metric_normalization()]: an image shape that was never set
    makes the call raise. *)
Definition _stage5_metric_normalization : M bool :=
  let* self := get in
  _log_stage "5: Metric Normalization" ;;
  guarded "Stage5"
    (match image_shape self with
     | Some sh => normalize E sh (wall_graph self) (room_set self)
     | None => Raise TypeError
     end)
    (λ '(success, context_dict, normalized_wall_graph, normalized_room_set),
       if negb success
       then _log "[Stage5] ✗ Metric normalization failed" ;; ret false
       else
         modify (set_normalized normalized_wall_graph normalized_room_set context_dict) ;;
         match context_dict with
         | None =>
             _log ("[Stage5] Exception: " +:+ str_exception E KeyError) ;; ret false
         | Some ctx =>
             _log ("[Stage5] Scale factor: " +:+ fmt_f E 2 (scale_factor E ctx) +:+ " px/m") ;;
             _log ("[Stage5] Normalized width: " +:+ fmt_f E 2 (target_width_m E ctx) +:+ "m") ;;
             _log "[Stage5] ✓ Complete" ;;
             ret true
         end).

(** [_stage6_3d_construction()] *)
Definition _stage6_3d_construction : M bool :=
  let* self := get in
  _log_stage "6: 3D Cutaway Construction" ;;
  guarded "Stage6"
    (match normalization_context self with
     | Some ctx => create_cutaway_mesh E (normalized_wall_graph self)
                     (normalized_room_set self) (scale_factor E ctx)
     | None => Raise KeyError
     end)
    (λ mesh,
       match mesh with
       | None => _log "[Stage6] ✗ 3D construction failed" ;; ret false
       | Some m =>
           modify (set_blender_model (Some m)) ;;
           _log ("[Stage6] Created mesh: " +:+ pretty (len_vertices E m) +:+ " vertices, "
                   +:+ pretty (len_faces E m) +:+ " faces") ;;
           _log "[Stage6] Wall height: 1.3m (open-top)" ;;
           _log "[Stage6] ✓ Complete" ;;
           ret true
       end).

(** [_stage7_openings()]: the default of [masks.get] and the empty masks
    are built from the image shape, which raises when it was never set. *)
Definition _stage7_openings : M bool :=
  let* self := get in
  _log_stage "7: Openings Generation" ;;
  let dict := match semantic_output self with
              | Some sem => masks E sem
              | None => None
              end in
  (match dict with
   | Some _ => ret tt
   | None => _log "[Stage7] Warning: Semantic output structure unexpected, using empty masks"
   end) ;;
  match image_shape self with
  | None => _log ("[Stage7] Exception: " +:+ str_exception E TypeError) ;; ret false
  | Some (h, w, _) =>
      let empty := zeros E (h, w) in
      let mask_of k := match dict with
                       | Some d => default empty (d k)
                       | None => empty
                       end in
      guarded "Stage7"
        (match normalization_context self with
         | Some ctx =>
             stage7_openings_generation E (blender_model self)
               (mask_of 2) (mask_of 3) (mask_of 1)
               (normalized_wall_graph self) (scale_factor E ctx)
         | None => Raise KeyError
         end)
        (λ '(success, mesh_with_openings),
           match success, mesh_with_openings with
           | true, Some m =>
               modify (set_model_with_openings (Some m)) ;;
               _log "[Stage7] Generating door openings (0.9m × 1.1m)" ;;
               _log "[Stage7] Generating window openings (0.8m × 0.5m)" ;;
               _log "[Stage7] ✓ Complete" ;;
               ret true
           | _, _ => _log "[Stage7] ✗ Openings generation failed" ;; ret false
           end)
  end.

(** [_stage8_validation()] *)
Definition _stage8_validation : M bool :=
  let* self := get in
  _log_stage "8: Validation (FAIL FAST)" ;;
  let wall_count := match wall_graph self with
                    | Some g => Z.of_nat (len_edges E g)
                    | None => 0
                    end in
  guarded "Stage8"
    (stage8_validation E (model_with_openings self) (normalized_wall_graph self)
       (normalized_room_set self) wall_count)
    (λ '(passed, validation_result),
       foldr (λ '(check_name, check_passed, message) rest,
                _log ("[Stage8] [" +:+ (if check_passed : bool then "✓" else "✗") +:+ "] "
                        +:+ check_name +:+ ": " +:+ message) ;; rest)
             (ret tt) (checks E validation_result) ;;
       if negb passed
       then _log "[Stage8] ✗ VALIDATION FAILED - Pipeline halting" ;;
            _log "[Stage8] FAIL FAST: Unable to continue" ;;
            ret false
       else modify (set_validation_results (Some validation_result)) ;;
            _log "[Stage8] ✓ All validation checks passed" ;;
            ret true).

(** [_stage9_export()] *)
Definition _stage9_export : M bool :=
  let* self := get in
  _log_stage "9: Export" ;;
  guarded "Stage9" (makedirs E "output")
    (λ _,
       let input_basename := basename_without_ext E (image_path self) in
       let output_path := "output/" +:+ input_basename +:+ "_cutaway.glb" in
       match normalization_context self with
       | None => _log ("[Stage9] Exception: " +:+ str_exception E KeyError) ;; ret false
       | Some ctx =>
           let metadata :=
             make_metadata E (image_path self) (scale_factor E ctx) (target_width_m E ctx)
               (match room_set self with Some r => len_rooms E r | None => 0%nat end)
               (match wall_graph self with Some g => len_edges E g | None => 0%nat end) in
           guarded "Stage9" (stage9_export E (model_with_openings self) output_path metadata)
             (λ '(success, result),
                if negb success
                then _log "[Stage9] ✗ Export failed" ;; ret false
                else modify (set_glb_path (Some result)) ;;
                     _log "[Stage9] Exported to GLB format" ;;
                     _log ("[Stage9] Output: " +:+ result) ;;
                     _log "[Stage9] ✓ Complete" ;;
                     ret true)
       end).

(** [if not stage(): return False, message], then the rest. *)
Definition or_fail (stage : M bool) (message : string) (k : M (bool * string))
    : M (bool * string) :=
  let* ok := stage in if ok : bool then k else ret (false, message).

(** The opening lines of the log of [run_full_pipeline]. *)
Definition banner : M unit :=
  let* self := get in
  _log (rule 80) ;;
  _log "BLUEPRINT-TO-3D PIPELINE - FULL EXECUTION" ;;
  _log ("Input: " +:+ image_path self) ;;
  _log ("Device: " +:+ device self) ;;
  _log (rule 80).

(** [run_full_pipeline()]: [(success, message)].  The stage wrappers catch
    their own exceptions, so that the outer handler has nothing to catch. *)
Definition run_full_pipeline : M (bool * string) :=
  banner ;;
  or_fail _load_image "Failed to load image" (
  or_fail _stage1_semantic_understanding "Stage 1 failed (Semantic Understanding)" (
  or_fail _stage2_wall_refinement "Stage 2 failed (Wall Mask Refinement)" (
  or_fail _stage3_topology "Stage 3 failed (Topology Extraction)" (
  or_fail _stage4_room_detection "Stage 4 failed (Room Detection - FAIL FAST)" (
  or_fail _stage5_metric_normalization "Stage 5 failed (Metric Normalization)" (
  or_fail _stage6_3d_construction "Stage 6 failed (3D Cutaway Construction)" (
  or_fail _stage7_openings "Stage 7 failed (Openings Generation)" (
  or_fail _stage8_validation "Stage 8 failed (Validation)" (
  or_fail _stage9_export "Stage 9 failed (Export)" (
    let* self := get in
    _log (newline +:+ "✓ PIPELINE COMPLETE in " +:+ fmt_f E 1 (elapsed E) +:+ "s") ;;
    _log ("Output: " +:+ default "None" (glb_path self)) ;;
    ret (true, "Pipeline complete: " +:+ default "None" (glb_path self)))))))))))).

End BlueprintPipeline.
Arguments env : clear implicits.
Arguments t : clear implicits.
End BlueprintPipeline.

(** * Properties *)

(** ** Stage 4: the fail-fast gates on rooms *)

Section Stage4Facts.

(** No two rooms of the list share a pixel. *)
Definition pairwise_disjoint (l : list (Room.t Z)) : Prop :=
  ∀ i j room1 room2, i ≠ j → l !! i = Some room1 → l !! j = Some room2 →
    Room.pixels room1 ∩ Room.pixels room2 = ∅.

Lemma find_None_Forall {A} (f : A → bool) (l : list A) :
  List.find f l = None ↔ Forall (λ x, f x = false) l.
Proof.
  induction l as [|x l IH]; simpl.
  - split; [constructor | done].
  - destruct (f x) eqn:Hx.
    + split; [done|]. inversion 1; congruence.
    + rewrite IH. split; [by constructor | by inversion 1].
Qed.

Lemma find_Some_elem {A} (f : A → bool) (l : list A) x :
  List.find f l = Some x → x ∈ l ∧ f x = true.
Proof.
  induction l as [|y l IH]; simpl; [done|].
  destruct (f y) eqn:Hy.
  - intros [= <-]. split; [left | done].
  - intros [? ?]%IH. split; [by right | done].
Qed.

(** A scan over the ordered pairs of a list that stops at the first pair
    satisfying [bad] finds nothing exactly when no ordered pair does. *)
Lemma ordered_scan_None {A} (bad : A → A → bool)
    (scan : list A → option (A * A))
    (Hnil : scan [] = None)
    (Hcons : ∀ x rest, scan (x :: rest) =
                        match List.find (bad x) rest with
                        | Some y => Some (x, y)
                        | None => scan rest
                        end)
    (l : list A) :
  scan l = None ↔
  ∀ i j x y, (i < j)%nat → l !! i = Some x → l !! j = Some y → bad x y = false.
Proof.
  induction l as [|a l IH].
  - split; [|done]. intros _ i j x y _ Hi. by rewrite lookup_nil in Hi.
  - rewrite Hcons. destruct (List.find (bad a) l) as [b|] eqn:Hfind.
    + split; [done|]. intros Hall.
      apply find_Some_elem in Hfind as [[k Hk]%list_elem_of_lookup Hbad].
      rewrite (Hall 0%nat (S k) a b) in Hbad; [done | lia | done | done].
    + rewrite IH. apply find_None_Forall in Hfind.
      rewrite Forall_lookup in Hfind. split.
      * intros Hall [|i] [|j] x y Hlt Hi Hj; simpl in *; try lia.
        -- injection Hi as <-. by eapply Hfind.
        -- eapply (Hall i j); [lia | done | done].
      * intros Hall i j x y Hlt Hi Hj.
        apply (Hall (S i) (S j)); [lia | done | done].
Qed.

Lemma first_overlap_None (l : list (Room.t Z)) :
  RoomSet.first_overlap l = None ↔ pairwise_disjoint l.
Proof.
  rewrite (ordered_scan_None
             (λ room1 room2, bool_decide (RoomSet.overlap room1 room2 ≠ ∅))
             RoomSet.first_overlap); [|done|done].
  unfold pairwise_disjoint, RoomSet.overlap. split.
  - intros Hall i j room1 room2 Hne Hi Hj.
    destruct (decide (i < j)%nat) as [Hlt|Hge].
    + specialize (Hall i j room1 room2 Hlt Hi Hj).
      apply bool_decide_eq_false in Hall. by apply dec_stable.
    + assert (j < i)%nat as Hlt by lia.
      specialize (Hall j i room2 room1 Hlt Hj Hi).
      apply bool_decide_eq_false in Hall. apply dec_stable in Hall.
      set_solver.
  - intros Hall i j room1 room2 Hlt Hi Hj.
    apply bool_decide_eq_false. intros Hne. apply Hne.
    apply (Hall i j); [lia | done | done].
Qed.

Lemma check_overlap_true (rs : RoomSet.t Z) :
  (RoomSet.check_overlap rs).1 = true ↔ pairwise_disjoint (RoomSet.rooms rs).
Proof.
  rewrite <- first_overlap_None. unfold RoomSet.check_overlap.
  destruct (RoomSet.first_overlap (RoomSet.rooms rs)) as [[room1 room2]|]; simpl;
    split; congruence.
Qed.






End Stage4Facts.

(** ** The orchestrator halts at the first failing stage *)

Section OrchestratorFacts.
Context {Image Sem Mask Graph Rooms NGraph NRooms Ctx MeshT VResult Metadata : Type}.
Let env := BlueprintPipeline.env Image Sem Mask Graph Rooms NGraph NRooms Ctx MeshT
                                 VResult Metadata.
Let state := BlueprintPipeline.t Image Sem Mask Graph Rooms NGraph NRooms Ctx MeshT VResult.
Variable E : env.

(** The state in which stage 2 is entered from the start state [s0]: the
    image was loaded and stage 1 succeeded. *)
Definition enters_stage2 (s0 s2 : state) : Prop :=
  ∃ s_banner s1,
    BlueprintPipeline.banner s0 = (tt, s_banner)
    ∧ BlueprintPipeline._load_image E s_banner = (true, s1)
    ∧ BlueprintPipeline._stage1_semantic_understanding E s1 = (true, s2).


Lemma stage2_wrapper_failure (s2 : state) :
  BlueprintPipeline.stage2_wall_mask_refinement E (BlueprintPipeline.semantic_output s2)
    = Ret None →
  ∃ s', BlueprintPipeline._stage2_wall_refinement E s2 = (false, s')
    ∧ list.last (BlueprintPipeline.execution_log s') = Some "[Stage2] ✗ Wall refinement failed"
    ∧ BlueprintPipeline.refined_wall_mask s' = None
    ∧ BlueprintPipeline.wall_graph s' = BlueprintPipeline.wall_graph s2.
Proof.
  intros Hcall. eexists. split.
  - unfold BlueprintPipeline._stage2_wall_refinement, BlueprintPipeline.bind,
      BlueprintPipeline.get, BlueprintPipeline.guarded. simpl.
    rewrite Hcall. reflexivity.
  - simpl. rewrite last_snoc. done.
Qed.


(** A run that enters stage 2 and whose stage 2 wrapper fails stops there. *)
Lemma run_stops_at_stage2 (s0 s2 s' : state) :
  enters_stage2 s0 s2 →
  BlueprintPipeline._stage2_wall_refinement E s2 = (false, s') →
  BlueprintPipeline.run_full_pipeline E s0
  = ((false, "Stage 2 failed (Wall Mask Refinement)"), s').
Proof.
  intros (sb & s1 & Hb & Hload & H1) H2.
  unfold BlueprintPipeline.run_full_pipeline, BlueprintPipeline.or_fail.
  unfold BlueprintPipeline.bind at 1. rewrite Hb.
  unfold BlueprintPipeline.bind at 1. rewrite Hload.
  unfold BlueprintPipeline.bind at 1. rewrite H1.
  unfold BlueprintPipeline.bind at 1. rewrite H2.
  reflexivity.
Qed.


End OrchestratorFacts.

(** ** Example data: small masks and a scripted environment *)

Section Examples.

(** The pixels of the rectangle [x0..x1] x [y0..y1]. *)
Definition in_rect (x0 x1 y0 y1 : nat) (y x : nat) : bool :=
  bool_decide (x0 ≤ x ≤ x1)%nat && bool_decide (y0 ≤ y ≤ y1)%nat.


(** An OpenCV that labels with a given label image and leaves masks as
    they are otherwise. *)
Definition scripted_cv (num_labels : nat) (labels : np.ndarray) : cv2.api :=
  {| cv2.getStructuringElement := λ _ ksize, np.zeros ksize.1 ksize.2;
     cv2.dilate := λ m _ _, m;
     cv2.morphologyEx := λ m _ _, m;
     cv2.connectedComponents := λ _, (num_labels, labels);
     cv2.thinning := λ m, m |}.

(** A room with given pixels. *)
Definition room_of (id : nat) (pixels : gset (Z * Z)) : Room.t Z :=
  {| Room.id := id; Room.pixels := pixels; Room.centroid := (Q2Qc 0, Q2Qc 0);
     Room.area_px := size pixels; Room.perimeter_px := 0; Room.bounds := (0, 0, 0, 0) |}.
(** An orchestrator environment whose stages 2 and 4 are given and whose
    other stages succeed with fixed results. *)
Definition scripted_env {Sem : Type} (sem : Sem)
    (stage2 : option Sem → exn (option np.ndarray))
    (stage4 : option np.ndarray → option unit → exn (option (RoomSet.t Z)))
    : BlueprintPipeline.env unit Sem np.ndarray unit (RoomSet.t Z) unit unit unit unit
                            unit unit :=
  {| BlueprintPipeline.path_exists := λ _, true;
     BlueprintPipeline.imread := λ _, Some tt;
     BlueprintPipeline.shape := λ _, (9, 15, 3)%nat;
     BlueprintPipeline.stage1_semantic_segmentation := λ _ _, Ret (Some sem);
     BlueprintPipeline.stage2_wall_mask_refinement := stage2;
     BlueprintPipeline.stage3_topology_extraction := λ _, Ret (Some tt);
     BlueprintPipeline.stage4_room_detection := stage4;
     BlueprintPipeline.normalize := λ _ _ _, Ret (true, Some tt, Some tt, Some tt);
     BlueprintPipeline.create_cutaway_mesh := λ _ _ _, Ret (Some tt);
     BlueprintPipeline.masks := λ _, None;
     BlueprintPipeline.zeros := λ sh, np.zeros sh.1 sh.2;
     BlueprintPipeline.stage7_openings_generation := λ m _ _ _ _ _, Ret (true, m);
     BlueprintPipeline.stage8_validation := λ _ _ _ _, Ret (true, tt);
     BlueprintPipeline.checks := λ _, [];
     BlueprintPipeline.make_metadata := λ _ _ _ _ _, tt;
     BlueprintPipeline.makedirs := λ _, Ret tt;
     BlueprintPipeline.stage9_export := λ _ path _, Ret (true, path);
     BlueprintPipeline.len_rooms := λ rs, length (RoomSet.rooms rs);
     BlueprintPipeline.len_edges := λ _, 0%nat;
     BlueprintPipeline.len_vertices := λ _, 0%nat;
     BlueprintPipeline.len_faces := λ _, 0%nat;
     BlueprintPipeline.scale_factor := λ _, Q2Qc 1;
     BlueprintPipeline.target_width_m := λ _, Q2Qc 12;
     BlueprintPipeline.fmt_f := λ _ _, "?";
     BlueprintPipeline.str_exception := λ _, "error";
     BlueprintPipeline.basename_without_ext := λ p, p;
     BlueprintPipeline.elapsed := Q2Qc 0 |}.

(** Whether a stage returned a result, and the first component of a
    pair once it is known. *)
Definition accepted {A} (r : exn (option A)) : bool :=
  match r with Ret (Some _) => true | _ => false end.

Lemma pair_of_fst {A B} (r : A * B) (a : A) : r.1 = a → r = (a, r.2).
Proof. destruct r. simpl. by intros ->. Qed.

End Examples.

(** ** Claims on stage 4 *)

(** The pixels that carry a label, one [(x, y)] for each. *)
Definition labelled_pixels (labeled : np.ndarray) (label_id : nat) : gset (Z * Z) :=
  list_to_set (RoomDetector.region_rows labeled label_id).

(** A region of the kind the two filters of [detect] are written to
    keep: 20 pixels or more, none of them within two pixels of the image
    border. *)
Definition keepable (labeled : np.ndarray) (label_id : nat) : Prop :=
  (20 ≤ size (labelled_pixels labeled label_id))%nat
  ∧ set_Forall (λ p : Z * Z, 1 < p.1 < Z.of_nat (np.shape1 labeled) - 2
                            ∧ 1 < p.2 < Z.of_nat (np.shape0 labeled) - 2)
               (labelled_pixels labeled label_id).

#[global] Instance keepable_dec labeled label_id : Decision (keepable labeled label_id).
Proof. unfold keepable. apply _. Defined.

(** The label image is the one of the non-wall regions of the mask: the
    wall pixels carry the background label 0, every other pixel a label
    from 1 on. *)
Definition labels_regions_of (labeled mask : np.ndarray) : Prop :=
  np.shape0 labeled = np.shape0 mask ∧ np.shape1 labeled = np.shape1 mask
  ∧ Forall (λ y, Forall (λ x, np.item labeled y x = 0 ↔ np.item mask y x ≠ 0)
                        (seq 0 (np.shape1 mask)))
           (seq 0 (np.shape0 mask)).

#[global] Instance labels_regions_of_dec labeled mask : Decision (labels_regions_of labeled mask).
Proof. unfold labels_regions_of. apply _. Defined.


(** A wall pixel between the bounding extents of two regions along the x
    axis: to the right of every pixel of the first region and to the left
    of every pixel of the second, in a row that both regions reach. *)
Definition wall_pixel_between (mask : np.ndarray) (region1 region2 : gset (Z * Z))
    (x y : nat) : Prop :=
  np.item mask y x ≠ 0
  ∧ set_Forall (λ p : Z * Z, p.1 < Z.of_nat x) region1
  ∧ set_Forall (λ p : Z * Z, Z.of_nat x < p.1) region2
  ∧ set_Exists (λ p : Z * Z, p.2 = Z.of_nat y) region1
  ∧ set_Exists (λ p : Z * Z, p.2 = Z.of_nat y) region2.

#[global] Instance wall_pixel_between_dec mask region1 region2 x y :
  Decision (wall_pixel_between mask region1 region2 x y).
Proof. unfold wall_pixel_between. apply _. Defined.


(** ** Stage 2: when the refinement fails *)

Section Stage2Facts.
Variable cv : cv2.api.

(** Every entry of the mask is zero: no wall pixel. *)
Definition all_zero (m : np.ndarray) : Prop :=
  ∀ y x, (y < np.shape0 m)%nat → (x < np.shape1 m)%nat → np.item m y x = 0.

Lemma sum_list_zero (l : list Z) : Forall (λ v, v = 0) l → np.sum_list l = 0.
Proof. induction 1 as [|v l -> _ IH]; simpl; [done | by rewrite IH]. Qed.

Lemma sum_all_zero (m : np.ndarray) : all_zero m → np.sum m = 0.
Proof.
  intros Hz. unfold np.sum. apply sum_list_zero, list.Forall_forall.
  intros v (y & -> & Hy%elem_of_seq)%list_elem_of_fmap.
  apply sum_list_zero, list.Forall_forall.
  intros w (x & -> & Hx%elem_of_seq)%list_elem_of_fmap.
  apply Hz; lia.
Qed.

Lemma zero_where_positive_all_zero (mask selector : np.ndarray) :
  all_zero mask → all_zero (WallMaskRefinement.zero_where_positive mask selector).
Proof. intros Hz y x Hy Hx. simpl in *. case_bool_decide; [done | by apply Hz]. Qed.

Lemma zero_where_label_all_zero (mask labels : np.ndarray) (label_id : nat) :
  all_zero mask → all_zero (WallMaskRefinement.zero_where_label mask labels label_id).
Proof. intros Hz y x Hy Hx. simpl in *. case_bool_decide; [done | by apply Hz]. Qed.

Lemma remove_openings_all_zero self wall_mask opening_mask opening_type :
  all_zero wall_mask →
  all_zero (WallMaskRefinement._remove_openings_preserve_continuity
              cv self wall_mask opening_mask opening_type).1.
Proof. intros Hz. by apply zero_where_positive_all_zero. Qed.

Lemma remove_small_components_all_zero self mask min_size :
  all_zero mask →
  all_zero (WallMaskRefinement._remove_small_components cv self mask min_size).1.
Proof.
  intros Hz. unfold WallMaskRefinement._remove_small_components.
  destruct (cv2.connectedComponents cv mask) as [num_labels labels].
  generalize (seq 1 (num_labels - 1)). intros ids.
  assert (∀ acc : np.ndarray * nat, all_zero acc.1 →
            all_zero (foldl (λ '(result, removed_count) label_id,
                               if bool_decide
                                    (WallMaskRefinement.component_size labels label_id < min_size)
                               then (WallMaskRefinement.zero_where_label result labels label_id,
                                     S removed_count)
                               else (result, removed_count)) acc ids).1) as Hfold.
  { induction ids as [|i ids IH]; intros [result n] Hacc; simpl; [done|].
    apply IH. case_bool_decide; simpl; [|done].
    by apply zero_where_label_all_zero. }
  specialize (Hfold (mask, 0%nat) Hz).
  destruct (foldl _ _ ids) as [result removed_count]. done.
Qed.

(** [refine] stores the mask it returns. *)
Lemma refine_refined_mask (self : WallMaskRefinement.t) :
  WallMaskRefinement.refined_mask (WallMaskRefinement.refine cv self).2
  = Some (WallMaskRefinement.refine cv self).1.
Proof.
  unfold WallMaskRefinement.refine.
  repeat match goal with
         | |- context [let '(_, _) := ?p in _] => destruct p
         end.
  done.
Qed.

(** The refiner of [stage2_wall_mask_refinement] for a semantic output,
    and the mask its [refine] returns. *)
Definition stage2_refiner (sem : SemanticMaskOutput.t) (thickness : Z)
    : WallMaskRefinement.t :=
  WallMaskRefinement.init (SemanticMaskOutput.get_wall_mask sem)
    (SemanticMaskOutput.get_door_mask sem) (SemanticMaskOutput.get_window_mask sem)
    thickness.

Definition stage2_refined (sem : SemanticMaskOutput.t) (thickness : Z) : np.ndarray :=
  (WallMaskRefinement.refine cv (stage2_refiner sem thickness)).1.

(** The two conditions under which [validate] rejects the refined mask. *)
Definition too_few (refined : np.ndarray) : Prop := np.sum refined < 100.
Definition too_many (refined : np.ndarray) : Prop :=
  (Q2Qc (95 # 100) * float_of_int (np.size refined) < float_of_int (np.sum refined))%Qc.

Lemma validate_after_refine (self : WallMaskRefinement.t) :
  let refined := (WallMaskRefinement.refine cv self).1 in
  WallMaskRefinement.validate (WallMaskRefinement.refine cv self).2
  = if bool_decide (too_few refined)
    then (false, "Too few wall pixels remaining after refinement")
    else if bool_decide (too_many refined)
    then (false, "Too many wall pixels (refinement likely failed)")
    else (true, "Refined wall mask valid").
Proof.
  intros refined. unfold WallMaskRefinement.validate.
  rewrite refine_refined_mask. fold refined. done.
Qed.

Lemma stage2_result (sem : SemanticMaskOutput.t) (thickness : Z) :
  stage2_wall_mask_refinement cv (Some sem) thickness
  = if bool_decide (too_few (stage2_refined sem thickness))
       || bool_decide (too_many (stage2_refined sem thickness))
    then None else Some (stage2_refined sem thickness).
Proof.
  unfold stage2_wall_mask_refinement, stage2_refined.
  fold (stage2_refiner sem thickness).
  pose proof (validate_after_refine (stage2_refiner sem thickness)) as Hval.
  simpl in Hval.
  destruct (WallMaskRefinement.refine cv (stage2_refiner sem thickness))
    as [refined refiner]. simpl in *. rewrite Hval.
  repeat case_bool_decide; done.
Qed.

(** The refinement of a mask with no wall pixel has no wall pixel, when
    the morphological operations of OpenCV keep an empty mask empty. *)
Lemma refine_all_zero (self : WallMaskRefinement.t) :
  (∀ m op kernel, all_zero m → all_zero (cv2.morphologyEx cv m op kernel)) →
  all_zero (WallMaskRefinement.wall_mask self) →
  all_zero (WallMaskRefinement.refine cv self).1.
Proof.
  intros Hmorph Hz. unfold WallMaskRefinement.refine.
  set (self0 := WallMaskRefinement.append_log self _).
  pose proof (remove_openings_all_zero self0 (WallMaskRefinement.wall_mask self0)
                (WallMaskRefinement.door_mask self0) "doors" Hz) as H1.
  destruct (WallMaskRefinement._remove_openings_preserve_continuity cv self0 _ _ "doors")
    as [refined1 self1]. simpl in H1.
  pose proof (remove_openings_all_zero self1 refined1
                (WallMaskRefinement.window_mask self1) "windows" H1) as H2.
  destruct (WallMaskRefinement._remove_openings_preserve_continuity cv self1 _ _ "windows")
    as [refined2 self2]. simpl in H2.
  assert (all_zero (WallMaskRefinement._morphological_cleanup cv refined2)) as H3.
  { unfold WallMaskRefinement._morphological_cleanup. by apply Hmorph, Hmorph. }
  pose proof (remove_small_components_all_zero self2 _ 20 H3) as H4.
  destruct (WallMaskRefinement._remove_small_components cv self2 _ 20)
    as [refined4 self4]. done.
Qed.

End Stage2Facts.

(** C5.  After refining, [stage2_wall_mask_refinement] returns failure
    exactly when the sum of the refined mask (its wall pixel count) is
    below 100 or above 95% of the image area, and the refined mask
    otherwise; a semantic output with no wall pixel fails with the
    too-few-pixels message, provided OpenCV's morphology keeps an empty
    mask empty; and a run of the orchestrator in which stage 2 fails ends
    there, before anything of topology extraction. *)
Theorem stage2_fails_exactly_outside_bounds (cv : cv2.api) :
  (∀ sem thickness,
      (stage2_wall_mask_refinement cv (Some sem) thickness = None
       ↔ too_few (stage2_refined cv sem thickness)
         ∨ too_many (stage2_refined cv sem thickness))
      ∧ (stage2_wall_mask_refinement cv (Some sem) thickness ≠ None →
         stage2_wall_mask_refinement cv (Some sem) thickness
         = Some (stage2_refined cv sem thickness)))
  ∧ (∀ sem thickness,
        (∀ m op kernel, all_zero m → all_zero (cv2.morphologyEx cv m op kernel)) →
        all_zero (SemanticMaskOutput.get_wall_mask sem) →
        WallMaskRefinement.validate
          (WallMaskRefinement.refine cv (stage2_refiner sem thickness)).2
        = (false, "Too few wall pixels remaining after refinement")
        ∧ stage2_wall_mask_refinement cv (Some sem) thickness = None)
  ∧ (∀ {Image Graph Rooms NGraph NRooms Ctx MeshT VResult Metadata : Type}
       (E : BlueprintPipeline.env Image SemanticMaskOutput.t np.ndarray Graph Rooms
                                  NGraph NRooms Ctx MeshT VResult Metadata)
       s0 s2,
        (∀ sem, BlueprintPipeline.stage2_wall_mask_refinement E sem
                = Ret (stage2_wall_mask_refinement cv sem 2)) →
        enters_stage2 E s0 s2 →
        stage2_wall_mask_refinement cv (BlueprintPipeline.semantic_output s2) 2 = None →
        ∃ s', BlueprintPipeline.run_full_pipeline E s0
              = ((false, "Stage 2 failed (Wall Mask Refinement)"), s')
              ∧ list.last (BlueprintPipeline.execution_log s')
                = Some "[Stage2] ✗ Wall refinement failed"
              ∧ BlueprintPipeline.refined_wall_mask s' = None
              ∧ BlueprintPipeline.wall_graph s' = BlueprintPipeline.wall_graph s2).
Proof.
  split; [|split].
  - intros sem thickness. rewrite stage2_result.
    destruct (decide (too_few (stage2_refined cv sem thickness))) as [Hfew|Hfew];
      [rewrite (bool_decide_eq_true_2 _ Hfew) | rewrite (bool_decide_eq_false_2 _ Hfew)];
      (destruct (decide (too_many (stage2_refined cv sem thickness))) as [Hmany|Hmany];
       [rewrite (bool_decide_eq_true_2 _ Hmany) | rewrite (bool_decide_eq_false_2 _ Hmany)]);
      simpl.
    + split; [split; [by left | done] | done].
    + split; [split; [by left | done] | done].
    + split; [split; [by right | done] | done].
    + split; [split; [done | by intros [?|?]] | done].
  - intros sem thickness Hmorph Hblack.
    assert (too_few (stage2_refined cv sem thickness)) as Hfew.
    { unfold too_few, stage2_refined. rewrite sum_all_zero; [lia|].
      apply refine_all_zero; [done|]. simpl.
      intros y x Hy Hx. specialize (Hblack y x Hy Hx). simpl in *.
      rewrite Hblack. done. }
    split.
    + rewrite validate_after_refine. fold (stage2_refined cv sem thickness).
      by rewrite bool_decide_eq_true_2.
    + rewrite stage2_result. by rewrite bool_decide_eq_true_2.
  - intros Image Graph Rooms NGraph NRooms Ctx MeshT VResult Metadata E s0 s2
      Hmodel Henter Hfail.
    destruct (stage2_wrapper_failure E s2) as (s' & Hwrap & Hrest).
    { by rewrite Hmodel, Hfail. }
    exists s'. split; [|done]. by apply run_stops_at_stage2 with s2.
Qed.

(** An all-black classification (every pixel background), and a 20 x 12
    plan with the two rooms of the examples, walls elsewhere. *)
Definition black_semantic_output : SemanticMaskOutput.t :=
  {| SemanticMaskOutput.mask := np.zeros 9 15;
     SemanticMaskOutput.height := 9; SemanticMaskOutput.width := 15 |}.
Definition walled_semantic_output : SemanticMaskOutput.t :=
  {| SemanticMaskOutput.mask :=
       {| np.shape0 := 12; np.shape1 := 20;
          np.item := λ y x, if in_rect 2 6 2 5 y x || in_rect 8 12 2 5 y x
                            then SemanticClass.BACKGROUND else SemanticClass.WALL |};
     SemanticMaskOutput.height := 12; SemanticMaskOutput.width := 20 |}.

Definition black_env :=
  scripted_env black_semantic_output
    (λ sem, Ret (stage2_wall_mask_refinement (scripted_cv 1 (np.zeros 9 15)) sem 2))
    (λ _ _, Ret None).

Lemma stage2_fails_exactly_outside_bounds_witness :
  stage2_wall_mask_refinement (scripted_cv 1 (np.zeros 12 20))
    (Some walled_semantic_output) 2
  = Some (stage2_refined (scripted_cv 1 (np.zeros 12 20)) walled_semantic_output 2)
  ∧ (too_few (stage2_refined (scripted_cv 1 (np.zeros 9 15)) black_semantic_output 2)
     ∨ too_many (stage2_refined (scripted_cv 1 (np.zeros 9 15)) black_semantic_output 2))
  ∧ WallMaskRefinement.validate
      (WallMaskRefinement.refine (scripted_cv 1 (np.zeros 9 15))
         (stage2_refiner black_semantic_output 2)).2
    = (false, "Too few wall pixels remaining after refinement")
  ∧ (∃ s', BlueprintPipeline.run_full_pipeline black_env
             (BlueprintPipeline.init "black.png" "cpu" false)
           = ((false, "Stage 2 failed (Wall Mask Refinement)"), s')
           ∧ list.last (BlueprintPipeline.execution_log s')
             = Some "[Stage2] ✗ Wall refinement failed"
           ∧ BlueprintPipeline.wall_graph s' = None).
Proof.
  assert (∀ m (op : Z) (kernel : np.ndarray), all_zero m → all_zero m) as Hid by done.
  assert (all_zero (SemanticMaskOutput.get_wall_mask black_semantic_output)) as Hblack.
  { intros y x _ _. reflexivity. }
  pose proof (stage2_fails_exactly_outside_bounds (scripted_cv 1 (np.zeros 9 15)))
    as (Hiff & Hzero & Hrun).
  destruct (Hzero black_semantic_output 2 Hid Hblack) as [Hval Hnone].
  split; [|split; [|split]].
  - pose proof (stage2_fails_exactly_outside_bounds (scripted_cv 1 (np.zeros 12 20)))
      as (Hiff' & _ & _).
    apply (Hiff' walled_semantic_output 2).
    assert (match stage2_wall_mask_refinement (scripted_cv 1 (np.zeros 12 20))
                    (Some walled_semantic_output) 2 with
            | Some _ => true
            | None => false
            end = true) as Hacc by (vm_compute; reflexivity).
    intros Heq. rewrite Heq in Hacc. discriminate Hacc.
  - apply (Hiff black_semantic_output 2). exact Hnone.
  - exact Hval.
  - set (s0 := BlueprintPipeline.init (Image:=unit) (Sem:=SemanticMaskOutput.t)
                 (Mask:=np.ndarray) (Graph:=unit) (Rooms:=RoomSet.t Z) (NGraph:=unit)
                 (NRooms:=unit) (Ctx:=unit) (MeshT:=unit) (VResult:=unit)
                 "black.png" "cpu" false).
    set (sb := (BlueprintPipeline.banner s0).2).
    set (s1 := (BlueprintPipeline._load_image black_env sb).2).
    set (s2 := (BlueprintPipeline._stage1_semantic_understanding black_env s1).2).
    destruct (Hrun unit unit (RoomSet.t Z) unit unit unit unit unit unit black_env s0 s2)
      as (s' & Hres & Hlast & _ & Hgraph).
    + reflexivity.
    + exists sb, s1. split; [|split]; apply pair_of_fst; vm_compute; reflexivity.
    + exact Hnone.
    + exists s'. split; [exact Hres|]. split; [exact Hlast|]. rewrite Hgraph.
      vm_compute. reflexivity.
Defined.

(** ** Stage 3: validated wall graphs are connected *)

Section GraphFacts.

(** [v] is a neighbour of [u] in the adjacency mapping. *)
Definition neighbour (adj : gmap nat (gset nat)) (u v : nat) : Prop :=
  ∃ ns, adj !! u = Some ns ∧ v ∈ ns.

(** The neighbours of every key are keys, and the relation is symmetric. *)
Definition adj_closed (adj : gmap nat (gset nat)) : Prop :=
  ∀ u v, neighbour adj u v → v ∈ dom adj.
Definition adj_symmetric (adj : gmap nat (gset nat)) : Prop :=
  ∀ u v, neighbour adj u v → neighbour adj v u.

(** What the methods of [WallTopologyGraph] maintain. *)
Record graph_invariant (g : WallTopologyGraph.t) : Prop := {
  inv_vertices_dom : ∀ k, k ∈ dom (WallTopologyGraph.vertices g)
                          ↔ (k < WallTopologyGraph.vertex_counter g)%nat;
  inv_adjacency_dom : dom (WallTopologyGraph.adjacency g)
                      = dom (WallTopologyGraph.vertices g);
  inv_edges_dom : ∀ k, k ∈ dom (WallTopologyGraph.edges g)
                       ↔ (k < WallTopologyGraph.edge_counter g)%nat;
  inv_vertex_id : ∀ k v, WallTopologyGraph.vertices g !! k = Some v → WallVertex.id v = k;
  inv_endpoints : ∀ k e, WallTopologyGraph.edges g !! k = Some e →
                    WallEdge.vertex_a e ∈ dom (WallTopologyGraph.vertices g)
                    ∧ WallEdge.vertex_b e ∈ dom (WallTopologyGraph.vertices g);
  inv_closed : adj_closed (WallTopologyGraph.adjacency g);
  inv_symmetric : adj_symmetric (WallTopologyGraph.adjacency g)
}.

Lemma init_invariant : graph_invariant WallTopologyGraph.init.
Proof.
  split; simpl.
  - intros k. rewrite dom_empty_L. split; [set_solver | lia].
  - by rewrite !dom_empty_L.
  - intros k. rewrite dom_empty_L. split; [set_solver | lia].
  - intros k v. by rewrite lookup_empty.
  - intros k e. by rewrite lookup_empty.
  - intros u v (ns & Hu & _). by rewrite lookup_empty in Hu.
  - intros u v (ns & Hu & _). by rewrite lookup_empty in Hu.
Qed.

Lemma add_vertex_invariant g position is_junction is_corner :
  graph_invariant g →
  graph_invariant (WallTopologyGraph.add_vertex g position is_junction is_corner).2.
Proof.
  intros [Hv Ha He Hid Hend Hcl Hsym].
  assert (WallTopologyGraph.vertex_counter g ∉ dom (WallTopologyGraph.adjacency g)) as Hfresh.
  { rewrite Ha, Hv. lia. }
  split; simpl.
  - intros k. rewrite dom_insert_L, elem_of_union, elem_of_singleton, Hv. lia.
  - rewrite !dom_insert_L. by rewrite Ha.
  - done.
  - intros k v. rewrite lookup_insert. case_decide as Hk.
    + intros [= <-]. done.
    + apply Hid.
  - intros k e Hk. destruct (Hend k e Hk) as [H1 H2].
    rewrite dom_insert_L. set_solver.
  - intros u v (ns & Hu & Hin). rewrite lookup_insert in Hu.
    case_decide as Hk.
    + injection Hu as <-. set_solver.
    + rewrite dom_insert_L. apply elem_of_union. right. apply Hcl with u. by exists ns.
  - intros u v (ns & Hu & Hin). rewrite lookup_insert in Hu.
    case_decide as Hk.
    + injection Hu as <-. set_solver.
    + destruct (Hsym u v) as (ns' & Hv' & Hin'); [by exists ns|].
      exists ns'. split; [|done]. rewrite lookup_insert_ne; [done|].
      intros <-. apply Hfresh. apply elem_of_dom. eauto.
Qed.

(** The adjacency mapping after [add_edge a b]: the old neighbours, and
    [a] and [b] neighbours of each other. *)
Lemma add_edge_neighbour g a b len pts e g' :
  WallTopologyGraph.add_edge g a b len pts = Ret (e, g') →
  a ∈ dom (WallTopologyGraph.adjacency g)
  ∧ b ∈ dom (WallTopologyGraph.adjacency g)
  ∧ dom (WallTopologyGraph.adjacency g') = dom (WallTopologyGraph.adjacency g)
  ∧ ∀ u v, neighbour (WallTopologyGraph.adjacency g') u v
           ↔ neighbour (WallTopologyGraph.adjacency g) u v
             ∨ (u = a ∧ v = b) ∨ (u = b ∧ v = a).
Proof.
  unfold WallTopologyGraph.add_edge, WallTopologyGraph.adjacency_at.
  destruct (WallTopologyGraph.adjacency g !! a) as [adj_a|] eqn:Ha; simpl; [|done].
  destruct (<[a:={[b]} ∪ adj_a]> (WallTopologyGraph.adjacency g) !! b) as [adj_b|] eqn:Hb;
    simpl; [|done].
  intros [= <- <-]. simpl.
  assert (a ∈ dom (WallTopologyGraph.adjacency g)) as Hda by (apply elem_of_dom; eauto).
  assert (b ∈ dom (WallTopologyGraph.adjacency g)) as Hdb.
  { rewrite lookup_insert in Hb. case_decide as Hab; [by subst|].
    apply elem_of_dom; eauto. }
  split; [done|]. split; [done|]. split.
  { rewrite !dom_insert_L. set_solver. }
  intros u v. unfold neighbour. split.
  - intros (ns & Hu & Hin). rewrite lookup_insert in Hu. case_decide as Hub.
    + injection Hu as <-. subst u. apply elem_of_union in Hin as [Hin|Hin].
      * apply elem_of_singleton in Hin as ->. right. by right.
      * rewrite lookup_insert in Hb. case_decide as Hab.
        -- injection Hb as <-. subst a. apply elem_of_union in Hin as [Hin|Hin].
           ++ apply elem_of_singleton in Hin as ->. right. by left.
           ++ left. by exists adj_a.
        -- left. by exists adj_b.
    + rewrite lookup_insert in Hu. case_decide as Hua.
      * injection Hu as <-. subst u. apply elem_of_union in Hin as [Hin|Hin].
        -- apply elem_of_singleton in Hin as ->. right. by left.
        -- left. by exists adj_a.
      * left. by exists ns.
  - intros [(ns & Hu & Hin) | [[-> ->] | [-> ->]]].
    + rewrite lookup_insert. case_decide as Hub.
      * subst u. eexists. split; [done|]. apply elem_of_union. right.
        rewrite lookup_insert in Hb. case_decide as Hab.
        -- injection Hb as <-. subst a. apply elem_of_union. right. congruence.
        -- congruence.
      * rewrite lookup_insert. case_decide as Hua.
        -- subst u. eexists. split; [done|]. apply elem_of_union. right. congruence.
        -- by exists ns.
    + rewrite lookup_insert. case_decide as Hab.
      * eexists. split; [done|]. apply elem_of_union. left. by apply elem_of_singleton.
      * rewrite lookup_insert_eq. eexists. split; [done|].
        apply elem_of_union. left. by apply elem_of_singleton.
    + rewrite lookup_insert_eq. eexists. split; [done|].
      apply elem_of_union. left. by apply elem_of_singleton.
Qed.

Lemma add_edge_fields g a b len pts e g' :
  WallTopologyGraph.add_edge g a b len pts = Ret (e, g') →
  WallTopologyGraph.vertex_counter g' = WallTopologyGraph.vertex_counter g
  ∧ WallTopologyGraph.edge_counter g' = S (WallTopologyGraph.edge_counter g)
  ∧ WallTopologyGraph.vertices g'
    = alter WallVertex.incr_degree b
        (alter WallVertex.incr_degree a (WallTopologyGraph.vertices g))
  ∧ WallTopologyGraph.edges g'
    = <[WallTopologyGraph.edge_counter g :=
          {| WallEdge.id := WallTopologyGraph.edge_counter g;
             WallEdge.vertex_a := a; WallEdge.vertex_b := b;
             WallEdge.length_px := len; WallEdge.points := pts |}]>
        (WallTopologyGraph.edges g).
Proof.
  unfold WallTopologyGraph.add_edge, WallTopologyGraph.adjacency_at.
  destruct (WallTopologyGraph.adjacency g !! a) as [adj_a|]; simpl; [|done].
  destruct (<[a:=_]> (WallTopologyGraph.adjacency g) !! b) as [adj_b|]; simpl; [|done].
  intros [= <- <-]. done.
Qed.

Lemma add_edge_invariant g a b len pts e g' :
  graph_invariant g →
  WallTopologyGraph.add_edge g a b len pts = Ret (e, g') →
  graph_invariant g'.
Proof.
  intros [Hv Ha He Hid Hend Hcl Hsym] Hadd.
  destruct (add_edge_neighbour _ _ _ _ _ _ _ Hadd) as (Hda & Hdb & Hdom & Hnb).
  destruct (add_edge_fields _ _ _ _ _ _ _ Hadd) as (Hvc & Hec & Hvs & Hes).
  assert (dom (WallTopologyGraph.vertices g') = dom (WallTopologyGraph.vertices g)) as Hdv.
  { rewrite Hvs. by rewrite !dom_alter_L. }
  split.
  - intros k. rewrite Hdv, Hvc. apply Hv.
  - by rewrite Hdom, Hdv.
  - intros k. rewrite Hes, Hec, dom_insert_L, elem_of_union, elem_of_singleton, He. lia.
  - intros k v. rewrite Hvs. rewrite !lookup_alter.
    repeat case_decide; subst;
      destruct (WallTopologyGraph.vertices g !! _) as [w|] eqn:Hw; simpl; try done;
      intros [= <-]; simpl; by eapply Hid.
  - intros k e0. rewrite Hes, Hdv, lookup_insert. case_decide as Hk.
    + intros [= <-]. simpl. by rewrite <- Ha.
    + apply Hend.
  - intros u v [Hold | [[-> ->] | [-> ->]]]%Hnb; rewrite Hdom; [by eapply Hcl|done..].
  - intros u v [Hold | [[-> ->] | [-> ->]]]%Hnb; apply Hnb.
    + left. by apply Hsym.
    + right. by right.
    + right. by left.
Qed.

Lemma constructed_invariant g : WallTopologyGraph.constructed g → graph_invariant g.
Proof.
  induction 1 as [| | ]; eauto using init_invariant, add_vertex_invariant, add_edge_invariant.
Qed.

End GraphFacts.

Section BfsFacts.
Variable adj : gmap nat (gset nat).
Hypothesis Hclosed : adj_closed adj.

(** Reachability along the adjacency mapping. *)
Definition reachable (u v : nat) : Prop := rtc (neighbour adj) u v.

(** Every neighbour of a visited vertex is visited or queued. *)
Definition frontier_covered (visited : gset nat) (queue : list nat) : Prop :=
  ∀ u v, u ∈ visited → neighbour adj u v → v ∈ visited ∨ v ∈ queue.

(** What the loop returns from a state [(visited, queue)]. *)
Definition loop_result (visited : gset nat) (queue : list nat) (r : exn (gset nat)) : Prop :=
  ∃ R, r = Ret R
    ∧ visited ⊆ R
    ∧ (∀ q, q ∈ queue → q ∈ R)
    ∧ (∀ u v, u ∈ R → neighbour adj u v → v ∈ R)
    ∧ (∀ x, x ∈ R → x ∈ visited ∨ ∃ q, q ∈ queue ∧ reachable q x).

Lemma bfs_loop_correct (visited : gset nat) (queue : list nat) :
  (∀ q, q ∈ queue → q ∈ dom adj) →
  frontier_covered visited queue →
  loop_result visited queue (WallTopologyGraph.bfs_loop adj visited queue).
Proof.
  funelim (WallTopologyGraph.bfs_loop adj visited queue); intros Hq Hcov.
  - (* the queue is empty *)
    exists visited. split; [done|]. split; [done|]. split; [intros q []%elem_of_nil|].
    split; [|by left].
    intros u v Hu Hn. destruct (Hcov u v Hu Hn) as [?|[]%elem_of_nil]. done.
  - (* the first of the queue was visited already *)
    clear Heqcall.
    destruct H as (R & -> & Hvis & Hqueue & Hcl & Hsound).
    + intros q Hin. apply Hq. by right.
    + intros u v Hu Hn. destruct (Hcov u v Hu Hn) as [?|[->|?]%elem_of_cons]; auto.
    + exists R. split; [done|]. split; [done|]. split.
      * intros q [->|?]%elem_of_cons; [by apply Hvis | by apply Hqueue].
      * split; [done|]. intros x Hx. destruct (Hsound x Hx) as [?|(q & Hin & Hr)]; [by left|].
        right. exists q. split; [by right | done].
  - (* the first of the queue is new: mark it, queue its neighbours *)
    clear Heqcall.
    destruct H as (R & -> & Hvis & Hqueue & Hcl & Hsound).
    + intros q [Hin|Hin]%elem_of_app.
      * apply Hq. by right.
      * apply list_elem_of_filter in Hin as [_ Hin]. apply elem_of_elements in Hin.
        apply Hclosed with vid. by exists neighbours.
    + intros u v Hu Hn. apply elem_of_union in Hu as [->%elem_of_singleton|Hu].
      * destruct Hn as (ns & Hns & Hin). assert (ns = neighbours) as -> by congruence.
        destruct (decide (v ∈ {[vid]} ∪ visited)) as [?|Hnew]; [by left|].
        right. apply elem_of_app. right. apply list_elem_of_filter. split; [done|].
        by apply elem_of_elements.
      * destruct (Hcov u v Hu Hn) as [?|[->|?]%elem_of_cons].
        -- left. apply elem_of_union. by right.
        -- left. apply elem_of_union. left. by apply elem_of_singleton.
        -- right. apply elem_of_app. by left.
    + exists R. split; [done|]. split; [|split; [|split; [done|]]].
      * intros x Hx. apply Hvis, elem_of_union. by right.
      * intros q [->|Hin]%elem_of_cons.
        -- apply Hvis, elem_of_union. left. by apply elem_of_singleton.
        -- apply Hqueue, elem_of_app. by left.
      * intros x Hx. destruct (Hsound x Hx) as [Hin|(q & Hin & Hr)].
        -- apply elem_of_union in Hin as [->%elem_of_singleton|Hin]; [|by left].
           right. exists vid. split; [left | apply rtc_refl].
        -- right. apply elem_of_app in Hin as [Hin|Hin].
           ++ exists q. split; [by right | done].
           ++ apply list_elem_of_filter in Hin as [_ Hin]. apply elem_of_elements in Hin.
              exists vid. split; [left|]. eapply rtc_l; [|exact Hr]. by exists neighbours.
  - (* a missing key cannot be queued *)
    exfalso. assert (vid ∈ dom adj) as Hin by (apply Hq; left).
    apply elem_of_dom in Hin as [ns Hns]. congruence.
Qed.

(** The traversal from a key returns the set of the vertices reachable
    from it. *)
Lemma bfs_loop_reachable (start : nat) :
  start ∈ dom adj →
  ∃ R, WallTopologyGraph.bfs_loop adj ∅ [start] = Ret R
       ∧ ∀ x, x ∈ R ↔ reachable start x.
Proof.
  intros Hstart.
  destruct (bfs_loop_correct ∅ [start]) as (R & HR & _ & Hqueue & Hcl & Hsound).
  - intros q ->%list_elem_of_singleton. done.
  - intros u v []%elem_of_empty.
  - exists R. split; [done|]. intros x. split.
    + intros Hx. destruct (Hsound x Hx) as [[]%elem_of_empty|(q & Hin & Hr)].
      by apply list_elem_of_singleton in Hin as ->.
    + revert x. apply rtc_ind_r.
      * apply Hqueue. by apply list_elem_of_singleton.
      * intros y z _ Hn IH. by apply Hcl with y.
Qed.

Lemma reachable_in_dom (u v : nat) : u ∈ dom adj → reachable u v → v ∈ dom adj.
Proof.
  intros Hu. induction 1 as [|x y z Hn _ IH]; [done|].
  apply IH. by apply Hclosed with x.
Qed.

Lemma reachable_sym (u v : nat) : adj_symmetric adj → reachable u v → reachable v u.
Proof.
  intros Hsym. induction 1 as [|x y z Hn _ IH]; [apply rtc_refl|].
  eapply rtc_r; [exact IH|]. by apply Hsym.
Qed.

End BfsFacts.

Section ValidatedGraphs.

Lemma filter_all {A} (P : A → Prop) `{∀ x, Decision (P x)} (l : list A) :
  Forall P l → filter P l = l.
Proof.
  induction 1 as [|x l Hx _ IH]; [done|].
  rewrite filter_cons, decide_True by done. by rewrite IH.
Qed.

Lemma vertex_ids_all (g : WallTopologyGraph.t) :
  graph_invariant g →
  WallTopologyGraph.vertex_ids g = seq 0 (WallTopologyGraph.vertex_counter g).
Proof.
  intros Hinv. unfold WallTopologyGraph.vertex_ids.
  apply filter_all, list.Forall_forall. intros k Hk%elem_of_seq.
  apply elem_of_dom, (inv_vertices_dom g Hinv). lia.
Qed.

(** The traversal from a vertex of the graph returns the vertices
    reachable from it. *)
Lemma bfs_reachable (g : WallTopologyGraph.t) (u : nat) :
  graph_invariant g →
  u ∈ dom (WallTopologyGraph.vertices g) →
  ∃ visited, WallTopologyGraph.bfs g u = Ret visited
             ∧ ∀ x, x ∈ visited ↔ reachable (WallTopologyGraph.adjacency g) u x.
Proof.
  intros Hinv Hu. apply bfs_loop_reachable.
  - apply (inv_closed g Hinv).
  - by rewrite (inv_adjacency_dom g Hinv).
Qed.

(** [_is_connected] answers [True] only if every vertex is reachable
    from the first one. *)
Lemma is_connected_true (g : WallTopologyGraph.t) :
  graph_invariant g →
  WallTopologyGraph._is_connected g = Ret true →
  (0 < WallTopologyGraph.vertex_counter g)%nat
  ∧ ∀ x, x ∈ dom (WallTopologyGraph.vertices g) →
         reachable (WallTopologyGraph.adjacency g) 0%nat x.
Proof.
  intros Hinv. unfold WallTopologyGraph._is_connected.
  rewrite vertex_ids_all by done.
  destruct (WallTopologyGraph.vertex_counter g) as [|n] eqn:Hn; simpl; [done|].
  assert (0%nat ∈ dom (WallTopologyGraph.vertices g)) as H0.
  { apply (inv_vertices_dom g Hinv). lia. }
  destruct (bfs_reachable g 0%nat Hinv H0) as (visited & -> & Hvis). simpl.
  intros [= Hsize%bool_decide_eq_true]. split; [lia|].
  assert (visited ⊆ dom (WallTopologyGraph.vertices g)) as Hsub.
  { intros x Hx%Hvis. rewrite <- (inv_adjacency_dom g Hinv).
    eapply reachable_in_dom; [apply (inv_closed g Hinv) | | exact Hx].
    by rewrite (inv_adjacency_dom g Hinv). }
  assert (visited ≡ dom (WallTopologyGraph.vertices g)) as Heq.
  { apply set_subseteq_size_equiv; [done|]. rewrite size_dom. lia. }
  intros x Hx. apply Hvis. by apply Heq.
Qed.

Lemma validate_true (g : WallTopologyGraph.t) (msg : string) :
  WallTopologyGraph.validate g = Ret (true, msg) →
  (2 ≤ size (WallTopologyGraph.vertices g))%nat
  ∧ (1 ≤ size (WallTopologyGraph.edges g))%nat
  ∧ WallTopologyGraph._is_connected g = Ret true.
Proof.
  unfold WallTopologyGraph.validate. repeat case_bool_decide; try done.
  destruct (WallTopologyGraph._is_connected g) as [[]|]; simpl; try done.
  intros _. repeat split; lia.
Qed.

(** At least two vertices, at least one edge, and the traversal from any
    vertex reaches every vertex. *)
Definition well_connected (g : WallTopologyGraph.t) : Prop :=
  (2 ≤ size (WallTopologyGraph.vertices g))%nat
  ∧ (1 ≤ size (WallTopologyGraph.edges g))%nat
  ∧ ∀ u v, u ∈ dom (WallTopologyGraph.vertices g) →
           v ∈ dom (WallTopologyGraph.vertices g) →
           ∃ visited, WallTopologyGraph.bfs g u = Ret visited ∧ v ∈ visited.

Lemma validated_well_connected (g : WallTopologyGraph.t) (msg : string) :
  graph_invariant g →
  WallTopologyGraph.validate g = Ret (true, msg) →
  well_connected g.
Proof.
  intros Hinv (Hv & He & Hconn)%validate_true.
  apply is_connected_true in Hconn as [_ Hreach]; [|done].
  split; [done|]. split; [done|]. intros u v Hu Hv'.
  destruct (bfs_reachable g u Hinv Hu) as (visited & Hbfs & Hvis).
  exists visited. split; [done|]. apply Hvis.
  unfold reachable. etrans.
  - apply reachable_sym; [apply (inv_symmetric g Hinv) | by apply Hreach].
  - by apply Hreach.
Qed.

(** The graphs [_build_graph] returns are built by the methods of the
    class. *)
Lemma connect_pair_constructed sqrt g v1 v2 g' :
  WallTopologyGraph.constructed g →
  TopologyExtractor.connect_pair sqrt g v1 v2 = Ret g' →
  WallTopologyGraph.constructed g'.
Proof.
  intros Hg. unfold TopologyExtractor.connect_pair.
  case_bool_decide; [|by intros [= <-]]. simpl.
  destruct (WallTopologyGraph.add_edge g _ _ _ _) as [[e g'']|] eqn:Hadd; simpl; [|done].
  intros [= <-]. by eapply WallTopologyGraph.constructed_add_edge.
Qed.

Lemma connect_row_constructed sqrt v1 rest acc g' :
  (∀ g, acc = Ret g → WallTopologyGraph.constructed g) →
  foldl (λ acc v2, g ← acc; TopologyExtractor.connect_pair sqrt g v1 v2) acc rest = Ret g' →
  WallTopologyGraph.constructed g'.
Proof.
  revert acc. induction rest as [|v2 rest IH]; intros acc Hacc; simpl.
  - apply Hacc.
  - apply IH. intros g. destruct acc as [g0|]; simpl; [|done].
    apply connect_pair_constructed. by apply Hacc.
Qed.

Lemma connect_pairs_constructed sqrt vs g g' :
  WallTopologyGraph.constructed g →
  TopologyExtractor.connect_pairs sqrt g vs = Ret g' →
  WallTopologyGraph.constructed g'.
Proof.
  revert g. induction vs as [|v1 rest IH]; intros g Hg; simpl.
  - by intros [= <-].
  - destruct (foldl _ (Ret g) rest) as [g1|] eqn:Hrow; simpl; [|done].
    apply IH. eapply connect_row_constructed; [|exact Hrow].
    by intros ? [= <-].
Qed.

Lemma build_graph_constructed sqrt junctions corners endpoints g :
  TopologyExtractor._build_graph sqrt junctions corners endpoints = Ret g →
  WallTopologyGraph.constructed g.
Proof.
  unfold TopologyExtractor._build_graph. apply connect_pairs_constructed.
  generalize (junctions ++ corners ++ endpoints). intros points.
  assert (∀ g0, WallTopologyGraph.constructed g0 →
            WallTopologyGraph.constructed
              (foldl (λ graph '(x, y),
                        (WallTopologyGraph.add_vertex graph (float_of_int x, float_of_int y)
                           (bool_decide ((x, y) ∈ junctions))
                           (bool_decide ((x, y) ∈ corners))).2) g0 points)) as Hfold.
  { induction points as [|[x y] points IH]; intros g0 Hg0; simpl; [done|].
    apply IH. by apply WallTopologyGraph.constructed_add_vertex. }
  apply Hfold. constructor.
Qed.

Lemma stage3_returns_validated cv sqrt mask g :
  stage3_topology_extraction cv sqrt mask = Ret (Some g) →
  WallTopologyGraph.constructed g
  ∧ ∃ msg, WallTopologyGraph.validate g = Ret (true, msg).
Proof.
  unfold stage3_topology_extraction. destruct mask as [m|]; [|done].
  unfold TopologyExtractor.extract.
  destruct (TopologyExtractor._detect_key_points _) as [[junctions corners] endpoints].
  destruct (TopologyExtractor._build_graph sqrt junctions corners endpoints)
    as [g0|] eqn:Hbuild; simpl; [|done].
  destruct (WallTopologyGraph.validate g0) as [[[] msg]|] eqn:Hval; simpl; try done.
  intros [= <-]. split; [by eapply build_graph_constructed | by exists msg].
Qed.

End ValidatedGraphs.

(** C4.  A wall graph built by the methods of [WallTopologyGraph] that
    [validate] accepts, and so every graph [stage3_topology_extraction]
    returns, has at least two vertices and one edge, and the breadth-first
    traversal of [_is_connected] started from any of its vertices visits
    every vertex. *)
Theorem validated_wall_graph_is_connected :
  (∀ g msg, WallTopologyGraph.constructed g →
            WallTopologyGraph.validate g = Ret (true, msg) →
            well_connected g)
  ∧ (∀ cv sqrt refined_wall_mask g,
        stage3_topology_extraction cv sqrt refined_wall_mask = Ret (Some g) →
        well_connected g).
Proof.
  split.
  - intros g msg Hg Hval.
    apply validated_well_connected with msg; [by apply constructed_invariant | done].
  - intros cv sqrt mask g (Hg & msg & Hval)%stage3_returns_validated.
    apply validated_well_connected with msg; [by apply constructed_invariant | done].
Qed.

(** A wall of three key points in a row, and a skeleton of two pixels. *)
Definition three_vertex_graph : exn WallTopologyGraph.t :=
  let g := WallTopologyGraph.init in
  let '(_, g) := WallTopologyGraph.add_vertex g (Q2Qc 0, Q2Qc 0) false false in
  let '(_, g) := WallTopologyGraph.add_vertex g (Q2Qc 10, Q2Qc 0) false true in
  let '(_, g) := WallTopologyGraph.add_vertex g (Q2Qc 10, Q2Qc 8) false false in
  '(_, g) ← WallTopologyGraph.add_edge g 0 1 (Q2Qc 10) [];
  '(_, g) ← WallTopologyGraph.add_edge g 1 2 (Q2Qc 8) [];
  Ret g.

Definition two_pixel_skeleton : np.ndarray :=
  {| np.shape0 := 3; np.shape1 := 4;
     np.item := λ y x, if bool_decide (y = 1%nat ∧ (x = 1 ∨ x = 2)%nat) then 1 else 0 |}.

Definition validates (r : exn WallTopologyGraph.t) : bool :=
  match r with
  | Ret g => match WallTopologyGraph.validate g with
             | Ret (true, _) => true
             | _ => false
             end
  | Raise _ => false
  end.

Lemma three_vertex_graph_constructed g :
  three_vertex_graph = Ret g → WallTopologyGraph.constructed g.
Proof.
  unfold three_vertex_graph.
  set (g3 := (WallTopologyGraph.add_vertex
                (WallTopologyGraph.add_vertex
                   (WallTopologyGraph.add_vertex WallTopologyGraph.init
                      (Q2Qc 0, Q2Qc 0) false false).2
                   (Q2Qc 10, Q2Qc 0) false true).2
                (Q2Qc 10, Q2Qc 8) false false).2).
  assert (WallTopologyGraph.constructed g3) as Hg3 by (repeat constructor).
  change (('(_, g) ← WallTopologyGraph.add_edge g3 0 1 (Q2Qc 10) [];
           '(_, g) ← WallTopologyGraph.add_edge g 1 2 (Q2Qc 8) []; Ret g) = Ret g
          → WallTopologyGraph.constructed g).
  destruct (WallTopologyGraph.add_edge g3 0 1 (Q2Qc 10) []) as [[e1 g4]|] eqn:H1;
    simpl; [|done].
  destruct (WallTopologyGraph.add_edge g4 1 2 (Q2Qc 8) []) as [[e2 g5]|] eqn:H2;
    simpl; [|done].
  intros [= <-]. eapply WallTopologyGraph.constructed_add_edge; [|exact H2].
  eapply WallTopologyGraph.constructed_add_edge; [exact Hg3|exact H1].
Qed.

Lemma validated_wall_graph_is_connected_witness :
  (∃ g, three_vertex_graph = Ret g ∧ well_connected g)
  ∧ (∃ g, stage3_topology_extraction (scripted_cv 0 (np.zeros 3 4)) (λ q, q)
            (Some two_pixel_skeleton) = Ret (Some g)
          ∧ well_connected g).
Proof.
  destruct validated_wall_graph_is_connected as [Hvalid Hstage].
  split.
  - assert (validates three_vertex_graph = true) as Hacc by (vm_compute; reflexivity).
    pose proof three_vertex_graph_constructed as Hcons.
    destruct three_vertex_graph as [g|]; [|discriminate Hacc].
    exists g. split; [reflexivity|]. unfold validates in Hacc.
    destruct (WallTopologyGraph.validate g) as [[[] msg]|] eqn:Hval;
      try discriminate Hacc.
    apply Hvalid with msg; [by apply Hcons | exact Hval].
  - assert (accepted (stage3_topology_extraction (scripted_cv 0 (np.zeros 3 4)) (λ q, q)
                        (Some two_pixel_skeleton)) = true) as Hacc
      by (vm_compute; reflexivity).
    destruct (stage3_topology_extraction (scripted_cv 0 (np.zeros 3 4)) (λ q, q)
                (Some two_pixel_skeleton)) as [[g|]|] eqn:Hrun; try discriminate Hacc.
    exists g. split; [reflexivity|]. by eapply Hstage.
Defined.
(** ** Facts on stage 5 *)

Section NormalizerFacts.

Variable scale_factor : Qc.
Hypothesis scale_nonzero : scale_factor ≠ Q2Qc 0.

Lemma py_div_nonzero (a : Qc) : py_div a scale_factor = Ret (a / scale_factor)%Qc.
Proof. unfold py_div. by rewrite bool_decide_eq_false_2. Qed.

Lemma transform_points_nonzero (points : list (Qc * Qc)) :
  ∃ points', MetricNormalizer.transform_points scale_factor points = Ret points'.
Proof.
  induction points as [|p rest [rest' IH]]; simpl; [by eexists|].
  rewrite !py_div_nonzero. simpl. rewrite IH. simpl. by eexists.
Qed.

Lemma add_edge_succeeds g a b len pts :
  a ∈ dom (WallTopologyGraph.adjacency g) →
  b ∈ dom (WallTopologyGraph.adjacency g) →
  ∃ e g', WallTopologyGraph.add_edge g a b len pts = Ret (e, g').
Proof.
  intros [adj_a Ha]%elem_of_dom [adj_b Hb]%elem_of_dom.
  unfold WallTopologyGraph.add_edge, WallTopologyGraph.adjacency_at.
  rewrite Ha. simpl.
  destruct (decide (a = b)) as [<-|Hne].
  - rewrite lookup_insert_eq. simpl. by do 2 eexists.
  - rewrite lookup_insert_ne, Hb by done. simpl. by do 2 eexists.
Qed.

(** The position of a vertex, which [add_edge] never changes. *)
Definition position_at (g : WallTopologyGraph.t) (k : nat) : option (Qc * Qc) :=
  WallVertex.position <$> WallTopologyGraph.vertices g !! k.

Lemma add_edge_position g a b len pts e g' k :
  WallTopologyGraph.add_edge g a b len pts = Ret (e, g') →
  position_at g' k = position_at g k.
Proof.
  intros (_ & _ & Hvs & _)%add_edge_fields. unfold position_at.
  rewrite Hvs, !lookup_alter.
  repeat case_decide; subst;
    match goal with
    | |- context [WallTopologyGraph.vertices g !! ?x] =>
        by destruct (WallTopologyGraph.vertices g !! x) as [[]|]
    end.
Qed.

(** The vertices with a key below [n], as [vertices.items()] lists them. *)
Definition items_upto (g : WallTopologyGraph.t) (n : nat) : list (nat * WallVertex.t) :=
  omap (λ k, (λ v, (k, v)) <$> WallTopologyGraph.vertices g !! k) (seq 0 n).

Definition scaled (p : Qc * Qc) : Qc * Qc :=
  (p.1 / scale_factor, p.2 / scale_factor)%Qc.

Lemma transform_vertices_upto (g : WallTopologyGraph.t) (n : nat) :
  graph_invariant g →
  (n ≤ WallTopologyGraph.vertex_counter g)%nat →
  ∃ ng m,
    foldl (MetricNormalizer.transform_vertex scale_factor)
          (Ret (WallTopologyGraph.init, ∅)) (items_upto g n) = Ret (ng, m)
    ∧ WallTopologyGraph.constructed ng
    ∧ WallTopologyGraph.vertex_counter ng = n
    ∧ (∀ k, (k < n)%nat → m !! k = Some k)
    ∧ (∀ k, (k < n)%nat → position_at ng k = scaled <$> position_at g k).
Proof.
  intros Hinv. induction n as [|n IH]; intros Hn.
  - exists WallTopologyGraph.init, ∅. simpl.
    repeat split; [constructor | intros; lia | intros; lia].
  - destruct IH as (ng & m & Hfold & Hcons & Hcount & Hm & Hpos); [lia|].
    assert (n ∈ dom (WallTopologyGraph.vertices g)) as [v Hv]%elem_of_dom.
    { apply (inv_vertices_dom g Hinv). lia. }
    unfold items_upto in *. rewrite seq_S, omap_app, foldl_app, Hfold. simpl.
    rewrite Hv. simpl. rewrite !py_div_nonzero. simpl.
    eexists _, _. split; [reflexivity|].
    split; [exact (WallTopologyGraph.constructed_add_vertex ng _ _ _ Hcons)|].
    simpl. rewrite Hcount. split; [done|]. split.
    + intros k Hk. destruct (decide (k = n)) as [->|Hne].
      * by rewrite lookup_insert_eq.
      * rewrite lookup_insert_ne by done. apply Hm. lia.
    + intros k Hk. unfold position_at in *. simpl.
      destruct (decide (k = n)) as [->|Hne].
      * by rewrite lookup_insert_eq, Hv.
      * rewrite lookup_insert_ne by done. apply Hpos. lia.
Qed.

Lemma transform_edges_ok (m : gmap nat nat) (es : list WallEdge.t) :
  ∀ ng,
    WallTopologyGraph.constructed ng →
    Forall (λ e, m !! WallEdge.vertex_a e = Some (WallEdge.vertex_a e)
                 ∧ m !! WallEdge.vertex_b e = Some (WallEdge.vertex_b e)
                 ∧ (WallEdge.vertex_a e < WallTopologyGraph.vertex_counter ng)%nat
                 ∧ (WallEdge.vertex_b e < WallTopologyGraph.vertex_counter ng)%nat) es →
    ∃ ng',
      foldl (MetricNormalizer.transform_edge scale_factor m) (Ret ng) es = Ret ng'
      ∧ WallTopologyGraph.constructed ng'
      ∧ WallTopologyGraph.vertex_counter ng' = WallTopologyGraph.vertex_counter ng
      ∧ ∀ k, position_at ng' k = position_at ng k.
Proof.
  induction es as [|e es IH]; intros ng Hcons Hes; simpl.
  - by exists ng.
  - apply list.Forall_cons in Hes as [(Hma & Hmb & Ha & Hb) Hes].
    pose proof (constructed_invariant ng Hcons) as Hinv.
    unfold MetricNormalizer.mapping_at.
    rewrite Hma, Hmb. simpl. rewrite py_div_nonzero. simpl.
    destruct (transform_points_nonzero (WallEdge.points e)) as [pts ->]. simpl.
    destruct (add_edge_succeeds ng (WallEdge.vertex_a e) (WallEdge.vertex_b e)
                (WallEdge.length_px e / scale_factor)%Qc pts) as (e' & ng1 & Hadd).
    { rewrite (inv_adjacency_dom ng Hinv). by apply (inv_vertices_dom ng Hinv). }
    { rewrite (inv_adjacency_dom ng Hinv). by apply (inv_vertices_dom ng Hinv). }
    rewrite Hadd. simpl.
    pose proof (add_edge_fields _ _ _ _ _ _ _ Hadd) as (Hcount & _).
    destruct (IH ng1) as (ng' & Hfold & Hcons' & Hcount' & Hpos).
    + by eapply WallTopologyGraph.constructed_add_edge.
    + rewrite Hcount. eapply list.Forall_impl; [exact Hes|]. simpl. tauto.
    + exists ng'. split; [done|]. split; [done|]. split; [congruence|].
      intros k. rewrite Hpos. by eapply add_edge_position.
Qed.

(** [_transform_wall_graph] returns a graph with the same vertex ids and
    every position divided by the scale factor. *)
Lemma transform_wall_graph_positions (g : WallTopologyGraph.t) :
  graph_invariant g →
  ∃ ng,
    MetricNormalizer._transform_wall_graph g scale_factor = Ret ng
    ∧ WallTopologyGraph.constructed ng
    ∧ WallTopologyGraph.vertex_counter ng = WallTopologyGraph.vertex_counter g
    ∧ ∀ k, position_at ng k = scaled <$> position_at g k.
Proof.
  intros Hinv.
  destruct (transform_vertices_upto g (WallTopologyGraph.vertex_counter g) Hinv)
    as (ng & m & Hfold & Hcons & Hcount & Hm & Hpos); [lia|].
  unfold MetricNormalizer._transform_wall_graph.
  change (WallTopologyGraph.vertex_items g)
    with (items_upto g (WallTopologyGraph.vertex_counter g)).
  rewrite Hfold. simpl.
  destruct (transform_edges_ok m (WallTopologyGraph.edge_values g) ng Hcons)
    as (ng' & Hfold' & Hcons' & Hcount' & Hpos').
  { apply list.Forall_forall. intros e He.
    unfold WallTopologyGraph.edge_values in He.
    apply list_elem_of_omap in He as (k & _ & Hk).
    destruct (inv_endpoints g Hinv k e Hk) as
      [Ha%(inv_vertices_dom g Hinv) Hb%(inv_vertices_dom g Hinv)].
    rewrite Hcount. repeat split; auto. }
  exists ng'. split; [done|]. split; [done|]. split; [congruence|].
  intros k. rewrite Hpos'.
  destruct (decide (k < WallTopologyGraph.vertex_counter g)%nat) as [Hlt|Hge].
  - by apply Hpos.
  - pose proof (constructed_invariant ng Hcons) as Hinv'.
    unfold position_at.
    assert (WallTopologyGraph.vertices ng !! k = None) as ->.
    { apply not_elem_of_dom. rewrite (inv_vertices_dom ng Hinv'). lia. }
    assert (WallTopologyGraph.vertices g !! k = None) as ->; [|done].
    apply not_elem_of_dom. rewrite (inv_vertices_dom g Hinv). lia.
Qed.

End NormalizerFacts.

(** ** Claim on stage 5 *)

Section NormalizerScale.

(** The bounding box of the vertices of a wall graph, its larger side, and
    that side divided by the reference width. *)
Definition bounding_box_width (g : WallTopologyGraph.t) : Qc :=
  match MetricNormalizer.vertex_xs g with
  | x :: xs => MetricNormalizer.max_list x xs - MetricNormalizer.min_list x xs
  | [] => Q2Qc 0
  end.

Definition bounding_box_height (g : WallTopologyGraph.t) : Qc :=
  match MetricNormalizer.vertex_ys g with
  | y :: ys => MetricNormalizer.max_list y ys - MetricNormalizer.min_list y ys
  | [] => Q2Qc 0
  end.

Definition detected_dimension (g : WallTopologyGraph.t) : Qc :=
  MetricNormalizer.max2 (bounding_box_width g) (bounding_box_height g).

Definition metric_scale (g : WallTopologyGraph.t) : Qc :=
  (detected_dimension g / Q2Qc 12)%Qc.

(** The guards of [normalize]: a positive height and a scale factor in the
    range [_validate_context] accepts. *)
Definition normalizable (g : WallTopologyGraph.t) : Prop :=
  (Q2Qc 0 < bounding_box_height g)%Qc
  ∧ (Q2Qc (1 # 10) ≤ metric_scale g)%Qc
  ∧ (metric_scale g ≤ Q2Qc 100)%Qc.

(** The context [normalize] creates. *)
Definition metric_context (self : MetricNormalizer.t) (g : WallTopologyGraph.t)
    : NormalizationContext.t :=
  {| NormalizationContext.image_width_px := MetricNormalizer.image_width self;
     NormalizationContext.image_height_px := MetricNormalizer.image_height self;
     NormalizationContext.detected_width_px := detected_dimension g;
     NormalizationContext.detected_height_px := bounding_box_height g;
     NormalizationContext.scale_factor := metric_scale g;
     NormalizationContext.target_width_m := REFERENCE_BUILDING_WIDTH |}.

Lemma max2_ge_r (a b : Qc) : (b ≤ MetricNormalizer.max2 a b)%Qc.
Proof.
  unfold MetricNormalizer.max2. case_bool_decide as H.
  - apply Qcle_refl.
  - by apply Qcnot_lt_le.
Qed.

Lemma vertex_values_nonempty (g : WallTopologyGraph.t) :
  graph_invariant g →
  WallTopologyGraph.vertices g ≠ ∅ →
  ∃ v vs, WallTopologyGraph.vertex_values g = v :: vs.
Proof.
  intros Hinv Hne. unfold WallTopologyGraph.vertex_values.
  destruct (WallTopologyGraph.vertex_counter g) as [|n] eqn:Hn.
  - destruct Hne. apply map_empty. intros k. apply not_elem_of_dom.
    rewrite (inv_vertices_dom g Hinv). lia.
  - assert (0%nat ∈ dom (WallTopologyGraph.vertices g)) as [v Hv]%elem_of_dom.
    { apply (inv_vertices_dom g Hinv). lia. }
    simpl. rewrite Hv. by eexists _, _.
Qed.

Lemma estimates_of_bounding_box (self : MetricNormalizer.t) (g : WallTopologyGraph.t) :
  MetricNormalizer.wall_graph self = Some g →
  graph_invariant g →
  WallTopologyGraph.vertices g ≠ ∅ →
  MetricNormalizer._estimate_building_width self = detected_dimension g
  ∧ MetricNormalizer._estimate_building_height self = bounding_box_height g.
Proof.
  intros Hg Hinv Hne.
  destruct (vertex_values_nonempty g Hinv Hne) as (v & vs & Hvs).
  unfold MetricNormalizer._estimate_building_width,
    MetricNormalizer._estimate_building_height, detected_dimension,
    bounding_box_width, bounding_box_height,
    MetricNormalizer.vertex_xs, MetricNormalizer.vertex_ys.
  rewrite Hg, Hvs. done.
Qed.

Lemma normalizable_scale_nonzero (g : WallTopologyGraph.t) :
  normalizable g → metric_scale g ≠ Q2Qc 0.
Proof.
  intros (_ & Hlo & _) Hz. rewrite Hz in Hlo. by apply Hlo.
Qed.

Lemma normalizable_width_positive (g : WallTopologyGraph.t) :
  (Q2Qc 0 < bounding_box_height g)%Qc → (Q2Qc 0 < detected_dimension g)%Qc.
Proof.
  intros Hh. eapply Qclt_le_trans; [exact Hh | apply max2_ge_r].
Qed.

(** [normalize] on a graph with vertices, up to the room set. *)
Lemma normalize_unfold (self : MetricNormalizer.t) g rs :
  MetricNormalizer.wall_graph self = Some g →
  MetricNormalizer.room_set self = Some rs →
  graph_invariant g →
  WallTopologyGraph.vertices g ≠ ∅ →
  MetricNormalizer.normalize self =
    if bool_decide (normalizable g)
    then normalized_wall_graph ← MetricNormalizer._transform_wall_graph g (metric_scale g);
         normalized_room_set ← MetricNormalizer._transform_room_set rs (metric_scale g);
         Ret (true, Some (metric_context self g), Some normalized_wall_graph,
              Some normalized_room_set)
    else Ret (false, None, None, None).
Proof.
  intros Hg Hrs Hinv Hne.
  destruct (estimates_of_bounding_box self g Hg Hinv Hne) as [Hw Hh].
  unfold MetricNormalizer.normalize. rewrite Hg, Hrs, Hw, Hh.
  destruct (decide (Q2Qc 0 < bounding_box_height g)%Qc) as [Hpos|Hnpos].
  - rewrite (bool_decide_eq_false_2 (detected_dimension g ≤ Q2Qc 0)%Qc)
      by (apply Qclt_not_le; by apply normalizable_width_positive).
    rewrite (bool_decide_eq_false_2 (bounding_box_height g ≤ Q2Qc 0)%Qc)
      by (by apply Qclt_not_le).
    simpl.
    unfold MetricNormalizer._validate_context. simpl.
    change (detected_dimension g / REFERENCE_BUILDING_WIDTH)%Qc with (metric_scale g).
    destruct (decide (metric_scale g < Q2Qc (1 # 10))%Qc) as [Hlo|Hlo].
    { rewrite (bool_decide_eq_true_2 _ Hlo). simpl.
      rewrite bool_decide_eq_false_2; [done|].
      intros (_ & Hge & _). by apply (Qcle_not_lt _ _ Hge). }
    rewrite (bool_decide_eq_false_2 _ Hlo). simpl.
    destruct (decide (Q2Qc 100 < metric_scale g)%Qc) as [Hhi|Hhi].
    { rewrite (bool_decide_eq_true_2 _ Hhi). simpl.
      rewrite bool_decide_eq_false_2; [done|].
      intros (_ & _ & Hle). by apply (Qcle_not_lt _ _ Hle). }
    rewrite (bool_decide_eq_false_2 _ Hhi). simpl.
    rewrite bool_decide_eq_true_2; [done|].
    split; [done|]. split; by apply Qcnot_lt_le.
  - rewrite (bool_decide_eq_true_2 (bounding_box_height g ≤ Q2Qc 0)%Qc)
      by (by apply Qcnot_lt_le).
    rewrite orb_true_r.
    rewrite bool_decide_eq_false_2; [done|]. by intros (Hpos & _).
Qed.

End NormalizerScale.

(** C3.  For a wall graph with a non-empty vertex set, [normalize]
    succeeds exactly when the bounding box has a positive height and the
    larger side of the box divided by the reference width of 12 m lies
    in the accepted range; it then records that quotient as the scale
    factor and returns a graph with the same vertex ids in which both
    coordinates of every vertex are divided by it, and otherwise it
    returns the failure tuple.  A box of 1000 by 800 pixels passes the
    guards with scale factor 1000/12, and the vertex at (500, 400) moves
    to (6, 4.8). *)
Theorem normalizer_scale_and_vertex_positions
    (self : MetricNormalizer.t) (g : WallTopologyGraph.t) (rs : RoomSet.t Z) :
  MetricNormalizer.wall_graph self = Some g →
  MetricNormalizer.room_set self = Some rs →
  WallTopologyGraph.constructed g →
  WallTopologyGraph.vertices g ≠ ∅ →
  (normalizable g →
     ∃ ng,
       MetricNormalizer._transform_wall_graph g (metric_scale g) = Ret ng
       ∧ MetricNormalizer.normalize self =
           (nrs ← MetricNormalizer._transform_room_set rs (metric_scale g);
            Ret (true, Some (metric_context self g), Some ng, Some nrs))
       ∧ NormalizationContext.scale_factor (metric_context self g)
         = (MetricNormalizer.max2 (bounding_box_width g) (bounding_box_height g)
            / REFERENCE_BUILDING_WIDTH)%Qc
       ∧ WallTopologyGraph.vertex_counter ng = WallTopologyGraph.vertex_counter g
       ∧ ∀ k v, WallTopologyGraph.vertices g !! k = Some v →
           ∃ v', WallTopologyGraph.vertices ng !! k = Some v'
                 ∧ WallVertex.position v'
                   = ((WallVertex.position v).1 / metric_scale g,
                      (WallVertex.position v).2 / metric_scale g)%Qc)
  ∧ (¬ normalizable g →
     MetricNormalizer.normalize self = Ret (false, None, None, None))
  ∧ (bounding_box_width g = Q2Qc 1000 →
     bounding_box_height g = Q2Qc 800 →
     normalizable g
     ∧ metric_scale g = Q2Qc (1000 # 12)
     ∧ ∀ ng k v,
         MetricNormalizer._transform_wall_graph g (metric_scale g) = Ret ng →
         WallTopologyGraph.vertices g !! k = Some v →
         WallVertex.position v = (Q2Qc 500, Q2Qc 400) →
         ∃ v', WallTopologyGraph.vertices ng !! k = Some v'
               ∧ WallVertex.position v' = (Q2Qc 6, Q2Qc (48 # 10))).
Proof.
  intros Hg Hrs Hcons Hne.
  pose proof (constructed_invariant g Hcons) as Hinv.
  pose proof (normalize_unfold self g rs Hg Hrs Hinv Hne) as Hnorm.
  assert (∀ ng k v,
            normalizable g →
            MetricNormalizer._transform_wall_graph g (metric_scale g) = Ret ng →
            WallTopologyGraph.vertices g !! k = Some v →
            ∃ v', WallTopologyGraph.vertices ng !! k = Some v'
                  ∧ WallVertex.position v'
                    = ((WallVertex.position v).1 / metric_scale g,
                       (WallVertex.position v).2 / metric_scale g)%Qc) as Hmoved.
  { intros ng k v Hok Hng Hv.
    destruct (transform_wall_graph_positions (metric_scale g)
                (normalizable_scale_nonzero g Hok) g Hinv)
      as (ng' & Hng' & _ & _ & Hpos).
    rewrite Hng in Hng'. injection Hng' as <-.
    specialize (Hpos k). unfold position_at in Hpos. rewrite Hv in Hpos.
    destruct (WallTopologyGraph.vertices ng !! k) as [v'|]; [|discriminate Hpos].
    exists v'. split; [done|]. simpl in Hpos. by injection Hpos. }
  split; [|split].
  - intros Hok.
    destruct (transform_wall_graph_positions (metric_scale g)
                (normalizable_scale_nonzero g Hok) g Hinv)
      as (ng & Hng & _ & Hcount & _).
    exists ng. split; [done|]. split.
    { rewrite Hnorm, (bool_decide_eq_true_2 _ Hok), Hng. done. }
    split; [done|]. split; [done|].
    intros k v Hv. by apply Hmoved.
  - intros Hbad. by rewrite Hnorm, (bool_decide_eq_false_2 _ Hbad).
  - intros Hw Hh.
    assert (metric_scale g = Q2Qc (1000 # 12)) as Hscale.
    { unfold metric_scale, detected_dimension. rewrite Hw, Hh.
      apply Qc_is_canon. vm_compute. reflexivity. }
    assert (normalizable g) as Hok.
    { unfold normalizable. rewrite Hh, Hscale. repeat split; by vm_compute. }
    split; [done|]. split; [done|].
    intros ng k v Hng Hv Hposv.
    destruct (Hmoved ng k v Hok Hng Hv) as (v' & Hv' & Hposv').
    exists v'. split; [done|]. rewrite Hposv', Hposv, Hscale. simpl.
    f_equal; apply Qc_is_canon; vm_compute; reflexivity.
Qed.

(** Graphs given by the positions and flags of their vertices and by
    the endpoints and lengths of their edges. *)
Definition with_vertices (ps : list (Qc * Qc * bool * bool)) : WallTopologyGraph.t :=
  foldl (λ g '(p, is_junction, is_corner),
           (WallTopologyGraph.add_vertex g p is_junction is_corner).2)
        WallTopologyGraph.init ps.

Definition with_edges (es : list (nat * nat * Qc)) (g : WallTopologyGraph.t)
    : exn WallTopologyGraph.t :=
  foldl (λ acc '(a, b, len),
           g ← acc; '(_, g') ← WallTopologyGraph.add_edge g a b len []; Ret g')
        (Ret g) es.

Lemma with_vertices_constructed ps :
  WallTopologyGraph.constructed (with_vertices ps).
Proof.
  unfold with_vertices. generalize WallTopologyGraph.constructed_init.
  generalize WallTopologyGraph.init.
  induction ps as [|[[p j] c] ps IH]; intros g Hg; simpl; [done|].
  apply IH. by constructor.
Qed.

Lemma with_edges_constructed es g g' :
  WallTopologyGraph.constructed g →
  with_edges es g = Ret g' →
  WallTopologyGraph.constructed g'.
Proof.
  unfold with_edges.
  assert (∀ acc, (∀ g0, acc = Ret g0 → WallTopologyGraph.constructed g0) →
            foldl (λ acc '(a, b, len),
                     g ← acc; '(_, g') ← WallTopologyGraph.add_edge g a b len []; Ret g')
                  acc es = Ret g' →
            WallTopologyGraph.constructed g') as Hfold.
  { induction es as [|[[a b] len] es IH]; intros acc Hacc; simpl; [by apply Hacc|].
    apply IH. intros g0. destruct acc as [g1|]; simpl; [|done].
    destruct (WallTopologyGraph.add_edge g1 a b len []) as [[e g2]|] eqn:Hadd;
      simpl; [|done].
    intros [= <-]. eapply WallTopologyGraph.constructed_add_edge; [|exact Hadd].
    by apply Hacc. }
  intros Hg. apply Hfold. by intros g0 [= <-].
Qed.

(** A rectangle of 1000 by 800 pixels with a key point at (500, 400), and
    a single horizontal wall. *)
Definition scenario_d_graph : exn WallTopologyGraph.t :=
  with_edges [(0, 1, Q2Qc 1000); (1, 2, Q2Qc 800); (2, 3, Q2Qc 1000);
              (3, 0, Q2Qc 800); (0, 4, Q2Qc 640)]%nat
    (with_vertices [(Q2Qc 0, Q2Qc 0, false, true); (Q2Qc 1000, Q2Qc 0, false, true);
                    (Q2Qc 1000, Q2Qc 800, false, true); (Q2Qc 0, Q2Qc 800, false, true);
                    (Q2Qc 500, Q2Qc 400, false, false)]).

Definition horizontal_wall_graph : exn WallTopologyGraph.t :=
  with_edges [(0, 1, Q2Qc 100)]%nat
    (with_vertices [(Q2Qc 0, Q2Qc 0, false, false); (Q2Qc 100, Q2Qc 0, false, false)]).

(** [MetricNormalizer(image_shape, wall_graph, room_set)] with a room set
    that has no rooms. *)
Definition normalizer_for (image_shape : nat * nat) (g : WallTopologyGraph.t)
    : MetricNormalizer.t :=
  MetricNormalizer.init (Z.of_nat image_shape.1, Z.of_nat image_shape.2)
    (Some g) (Some (RoomSet.init image_shape)).

(** What the examples are checked for: the sides of the bounding box and
    the position of one vertex; a failed normalization. *)
Definition has_box (r : exn WallTopologyGraph.t) (w h : Qc)
    (k : nat) (p : Qc * Qc) : bool :=
  match r with
  | Ret g => bool_decide (bounding_box_width g = w)
             && bool_decide (bounding_box_height g = h)
             && bool_decide (position_at g k = Some p)
  | Raise _ => false
  end.

Definition fails (r : exn MetricNormalizer.result) : bool :=
  match r with
  | Ret (false, None, None, None) => true
  | _ => false
  end.

Definition normalizer_rejects (r : exn WallTopologyGraph.t) (dimension : Qc) : bool :=
  match r with
  | Ret g => bool_decide (size (WallTopologyGraph.vertices g) = 2%nat)
             && bool_decide (detected_dimension g = dimension)
             && fails (MetricNormalizer.normalize (normalizer_for (600, 800)%nat g))
  | Raise _ => false
  end.

Lemma normalizer_scale_and_vertex_positions_witness :
  ∃ g ng v',
    scenario_d_graph = Ret g
    ∧ MetricNormalizer.normalize (normalizer_for (800, 1000)%nat g)
      = Ret (true, Some (metric_context (normalizer_for (800, 1000)%nat g) g),
             Some ng, Some (RoomSet.init (800, 1000)%nat))
    ∧ metric_scale g = Q2Qc (1000 # 12)
    ∧ WallTopologyGraph.vertices ng !! 4%nat = Some v'
    ∧ WallVertex.position v' = (Q2Qc 6, Q2Qc (48 # 10)).
Proof.
  assert (has_box scenario_d_graph (Q2Qc 1000) (Q2Qc 800) 4 (Q2Qc 500, Q2Qc 400) = true)
    as Hbox by (vm_compute; reflexivity).
  pose proof (λ g, with_edges_constructed _ _ g (with_vertices_constructed _)
              : scenario_d_graph = Ret g → WallTopologyGraph.constructed g) as Hcons.
  destruct scenario_d_graph as [g|]; [|discriminate Hbox].
  unfold has_box in Hbox.
  apply andb_prop in Hbox as [[Hw%bool_decide_eq_true Hh%bool_decide_eq_true]%andb_prop
                              Hp%bool_decide_eq_true].
  unfold position_at in Hp.
  destruct (WallTopologyGraph.vertices g !! 4%nat) as [v|] eqn:Hv; [|discriminate Hp].
  injection Hp as Hp.
  assert (WallTopologyGraph.vertices g ≠ ∅) as Hne.
  { intros Hempty. rewrite Hempty, lookup_empty in Hv. discriminate Hv. }
  destruct (normalizer_scale_and_vertex_positions
              (normalizer_for (800, 1000)%nat g) g (RoomSet.init (800, 1000)%nat)
              eq_refl eq_refl (Hcons g eq_refl) Hne) as (Hsucc & _ & Hscenario).
  destruct (Hscenario Hw Hh) as (Hok & Hscale & Hmoved).
  destruct (Hsucc Hok) as (ng & Hng & Hnorm & _).
  destruct (Hmoved ng 4%nat v Hng Hv Hp) as (v' & Hv' & Hpos').
  exists g, ng, v'. repeat split; try done.
Defined.

Lemma normalizer_rejects_horizontal_wall :
  ∃ g,
    horizontal_wall_graph = Ret g
    ∧ size (WallTopologyGraph.vertices g) = 2%nat
    ∧ detected_dimension g = Q2Qc 100
    ∧ MetricNormalizer.normalize (normalizer_for (600, 800)%nat g)
      = Ret (false, None, None, None).
Proof.
  assert (normalizer_rejects horizontal_wall_graph (Q2Qc 100) = true)
    as Hrej by (vm_compute; reflexivity).
  destruct horizontal_wall_graph as [g|]; [|discriminate Hrej].
  unfold normalizer_rejects in Hrej.
  apply andb_prop in Hrej as [[Hsize%bool_decide_eq_true Hdim%bool_decide_eq_true]%andb_prop
                              Hfail].
  exists g. repeat split; try done.
  unfold fails in Hfail.
  destruct (MetricNormalizer.normalize (normalizer_for (600, 800)%nat g))
    as [[[[[] [ctx|]] [ng|]] [nrs|]]|]; by try discriminate Hfail.
Defined.
(** ** Facts on stage 6 *)

Section Rounding.

Lemma rint_bounds (q : Qc) : Qfloor q ≤ rint q ≤ Qfloor q + 1.
Proof.
  unfold rint. repeat case_bool_decide; try destruct (Z.even _); lia.
Qed.

Lemma floor_gap (x y : Qc) :
  (x + Q2Qc 2 ≤ y)%Qc → Qfloor x + 2 ≤ Qfloor y.
Proof.
  intros Hle.
  assert (this x + 2 <= this y)%Q as Hq.
  { unfold Qcle in Hle. simpl in Hle. by rewrite !Qred_correct in Hle. }
  pose proof (Qfloor_le x) as Hx. pose proof (Qlt_floor y) as Hy.
  assert (inject_Z (Qfloor x + 2) < inject_Z (Qfloor y + 1))%Q as Hlt.
  { rewrite inject_Z_plus.
    eapply Qle_lt_trans; [|exact Hy].
    eapply Qle_trans; [|exact Hq].
    apply Qplus_le_compat; [exact Hx | apply Qle_refl]. }
  rewrite <- Zlt_Qlt in Hlt. lia.
Qed.

Lemma float_of_int_inj (a b : Z) : float_of_int a = float_of_int b → a = b.
Proof.
  unfold float_of_int. rewrite Q2Qc_eq_iff. unfold Qeq. simpl. lia.
Qed.

Definition million : Qc := float_of_int 1000000.

Lemma million_nonzero : million ≠ Q2Qc 0.
Proof. intros H. apply (f_equal this) in H. discriminate H. Qed.

(** Positions at least one unit apart have different rounded keys. *)
Lemma round6_separates (a b : Qc) :
  (a + Q2Qc 1 ≤ b)%Qc → round6 a ≠ round6 b.
Proof.
  intros Hab Heq.
  assert (a * million + Q2Qc 2 ≤ b * million)%Qc as Hgap.
  { apply Qcle_trans with (a * million + million)%Qc.
    - apply Qcplus_le_compat; [apply Qcle_refl | by vm_compute].
    - replace (a * million + million)%Qc with ((a + Q2Qc 1) * million)%Qc by ring.
      apply Qcmult_le_compat_r; [exact Hab | by vm_compute]. }
  apply floor_gap in Hgap.
  pose proof (rint_bounds (a * million)) as Ha.
  pose proof (rint_bounds (b * million)) as Hb.
  unfold round6 in Heq. fold million in Heq.
  assert (rint (a * million) = rint (b * million)) as Hr; [|lia].
  apply float_of_int_inj.
  rewrite <- (Qcmult_div_r (float_of_int (rint (a * million))) million million_nonzero).
  rewrite Heq. apply Qcmult_div_r, million_nonzero.
Qed.

Lemma min_list_le (m : Qc) (l : list Qc) : (MetricNormalizer.min_list m l ≤ m)%Qc.
Proof.
  unfold MetricNormalizer.min_list. revert m.
  induction l as [|y l IH]; intros m; simpl; [apply Qcle_refl|].
  eapply Qcle_trans; [apply IH|]. case_bool_decide as H; [apply Qcle_refl|].
  by apply Qclt_le_weak, Qcnot_le_lt.
Qed.

Lemma max_list_ge (m : Qc) (l : list Qc) : (m ≤ MetricNormalizer.max_list m l)%Qc.
Proof.
  unfold MetricNormalizer.max_list. revert m.
  induction l as [|y l IH]; intros m; simpl; [apply Qcle_refl|].
  eapply Qcle_trans; [|apply IH]. case_bool_decide as H; [apply Qcle_refl|].
  by apply Qclt_le_weak, Qcnot_le_lt.
Qed.

(** The two sides of the padded floor are at least one unit apart. *)
Lemma padded_sides_apart (m : Qc) (l : list Qc) :
  (MetricNormalizer.min_list m l - Q2Qc (1 # 2) + Q2Qc 1
   ≤ MetricNormalizer.max_list m l + Q2Qc (1 # 2))%Qc.
Proof.
  replace (MetricNormalizer.min_list m l - Q2Qc (1 # 2) + Q2Qc 1)%Qc
    with (MetricNormalizer.min_list m l + (Q2Qc 1 - Q2Qc (1 # 2)))%Qc by ring.
  apply Qcplus_le_compat; [|by vm_compute].
  eapply Qcle_trans; [apply min_list_le | apply max_list_ge].
Qed.

End Rounding.

Section MeshFacts.

Variable sqrt : Qc → Qc.

(** A mesh [m'] that has at least the vertices and the faces of [m] in number. *)
Definition grows (m m' : Mesh.t Qc) : Prop :=
  (length (Mesh.vertices m) ≤ length (Mesh.vertices m'))%nat
  ∧ (length (Mesh.faces m) ≤ length (Mesh.faces m'))%nat.

Lemma grows_refl m : grows m m.
Proof. by split. Qed.

Lemma grows_trans m1 m2 m3 : grows m1 m2 → grows m2 m3 → grows m1 m3.
Proof. intros [] []. split; lia. Qed.

Lemma add_vertex_faces m p n : Mesh.faces (add_vertex m p n).2 = Mesh.faces m.
Proof. unfold add_vertex. by destruct (Mesh.vertex_hash_map m !! _). Qed.

Lemma add_vertex_grows m p n : grows m (add_vertex m p n).2.
Proof.
  unfold grows, add_vertex.
  destruct (Mesh.vertex_hash_map m !! _); simpl; [done|].
  rewrite length_app. simpl. lia.
Qed.

Lemma add_vertices_faces ps : ∀ m, Mesh.faces (add_vertices m ps).2 = Mesh.faces m.
Proof.
  induction ps as [|p ps IH]; intros m; simpl; [done|].
  pose proof (add_vertex_faces m p None) as H1.
  destruct (add_vertex m p None) as [i m1].
  specialize (IH m1). destruct (add_vertices m1 ps) as [rest m2]. simpl in *.
  congruence.
Qed.

Lemma add_vertices_indices ps : ∀ m, length (add_vertices m ps).1 = length ps.
Proof.
  induction ps as [|p ps IH]; intros m; simpl; [done|].
  destruct (add_vertex m p None) as [i m1].
  specialize (IH m1). destruct (add_vertices m1 ps) as [rest m2]. simpl in *. lia.
Qed.

Lemma add_vertices_grows ps : ∀ m, grows m (add_vertices m ps).2.
Proof.
  induction ps as [|p ps IH]; intros m; simpl; [apply grows_refl|].
  pose proof (add_vertex_grows m p None) as H1.
  destruct (add_vertex m p None) as [i m1].
  specialize (IH m1). destruct (add_vertices m1 ps) as [rest m2]. simpl in *.
  by eapply grows_trans.
Qed.

(** Positions with pairwise different keys, none of them known to the
    mesh, are all added. *)
Lemma add_vertices_fresh ps :
  ∀ m,
    NoDup (position_key <$> ps) →
    (∀ p, p ∈ ps → Mesh.vertex_hash_map m !! position_key p = None) →
    length (Mesh.vertices (add_vertices m ps).2)
    = (length (Mesh.vertices m) + length ps)%nat.
Proof.
  induction ps as [|p ps IH]; intros m Hnd Hfresh; simpl; [lia|].
  rewrite fmap_cons in Hnd. apply list.NoDup_cons in Hnd as [Hp Hnd].
  unfold add_vertex. rewrite (Hfresh p) by left.
  match goal with
  | |- context [add_vertices ?m1 ps] =>
      specialize (IH m1 Hnd); destruct (add_vertices m1 ps) as [rest m2]
  end.
  simpl in *. rewrite IH.
  - rewrite length_app. simpl. lia.
  - intros q Hq. rewrite lookup_insert_ne.
    + apply Hfresh. by right.
    + intros Heq. apply Hp. rewrite Heq. by apply list_elem_of_fmap_2.
Qed.

Lemma add_faces_vertices fs : ∀ m, Mesh.vertices (add_faces m fs) = Mesh.vertices m.
Proof.
  unfold add_faces. induction fs as [|[[a b] c] fs IH]; intros m; simpl; [done|].
  by rewrite IH.
Qed.

Lemma add_faces_length fs :
  ∀ m, length (Mesh.faces (add_faces m fs)) = (length (Mesh.faces m) + length fs)%nat.
Proof.
  unfold add_faces. induction fs as [|[[a b] c] fs IH]; intros m; simpl; [lia|].
  rewrite IH. simpl. rewrite length_app. simpl. lia.
Qed.

(** A box of eight corners always adds twelve faces; its vertices are
    those [add_vertices] leaves. *)
Lemma add_box_eight m corners :
  length corners = 8%nat →
  Mesh.vertices (add_box m corners).2 = Mesh.vertices (add_vertices m corners).2
  ∧ length (Mesh.faces (add_box m corners).2) = (length (Mesh.faces m) + 12)%nat.
Proof.
  intros Hlen. unfold add_box.
  pose proof (add_vertices_indices corners m) as Hvi.
  pose proof (add_vertices_faces corners m) as Hfaces.
  destruct (add_vertices m corners) as [vi m1]. simpl in *. rewrite Hlen in Hvi.
  do 9 (destruct vi as [|? vi]; try discriminate Hvi).
  simpl. rewrite !length_app, Hfaces. simpl. split; [done|lia].
Qed.

Lemma add_box_grows m corners : grows m (add_box m corners).2.
Proof.
  unfold add_box.
  pose proof (add_vertices_grows corners m) as Hgrow.
  pose proof (add_vertices_faces corners m) as Hfaces.
  destruct (add_vertices m corners) as [vi m1]. cbn [snd] in *.
  assert (∀ fs, grows m (add_faces m1 fs)) as Hfs.
  { intros fs. destruct Hgrow as [Hv Hf]. split.
    - by rewrite add_faces_vertices.
    - rewrite add_faces_length. lia. }
  do 8 (destruct vi as [|? vi]; [exact Hgrow|]).
  destruct vi; [apply Hfs | exact Hgrow].
Qed.

Lemma extrude_wall_edge_grows p_start p_end thickness height m :
  grows m (extrude_wall_edge sqrt p_start p_end thickness height m).2.
Proof.
  unfold extrude_wall_edge. case_bool_decide; [apply grows_refl | apply add_box_grows].
Qed.

(** The [try] block of [recalculate_normals] never gets past its call of
    [np.cross]: every face is skipped. *)
Lemma face_normal_step_raises vs vn f : ∃ e, face_normal_step sqrt vs vn f = Raise e.
Proof.
  unfold face_normal_step, vertex_position, np_cross_dtype.
  destruct (Face.vertex_indices f) as [[vi0 vi1] vi2].
  destruct (vs !! vi0), (vs !! vi1), (vs !! vi2); cbn [mbind exn_bind]; by eexists.
Qed.

Lemma accumulate_face_skips vs done vn f :
  accumulate_face sqrt vs (done, vn) f = (done ++ [f], vn).
Proof.
  unfold accumulate_face. by destruct (face_normal_step_raises vs vn f) as [e ->].
Qed.

Lemma accumulate_faces_skip vs fs :
  ∀ done vn, foldl (accumulate_face sqrt vs) (done, vn) fs = (done ++ fs, vn).
Proof.
  induction fs as [|f fs IH]; intros done vn; cbn [foldl]; [by rewrite app_nil_r|].
  by rewrite accumulate_face_skips, IH, <- (assoc_L (++)).
Qed.

Lemma zero_normals_lookup (l : list nat) (i : nat) :
  default (Q2Qc 0, Q2Qc 0, Q2Qc 0)
          ((list_to_map ((λ i, (i, (Q2Qc 0, Q2Qc 0, Q2Qc 0))) <$> l) : gmap nat vec3) !! i)
  = (Q2Qc 0, Q2Qc 0, Q2Qc 0).
Proof.
  destruct (_ !! i) as [n|] eqn:Hn; [|done].
  apply elem_of_list_to_map_2, list_elem_of_fmap in Hn as (k & [= _ ->] & _). done.
Qed.

(** So that no face normal is set, the accumulated vertex normals stay
    zero, and the mesh is left as it is. *)
Lemma recalculate_normals_unchanged m : recalculate_normals sqrt m = m.
Proof.
  unfold recalculate_normals. destruct (Mesh.faces m) as [|f fs] eqn:Hfs; [done|].
  rewrite accumulate_faces_skip. cbn [app]. cbv beta iota zeta.
  match goal with
  | |- context [imap ?g ?l] => assert (imap g l = l) as ->
  end.
  { apply list_eq. intros i. rewrite list_lookup_imap.
    destruct (Mesh.vertices m !! i) as [v|]; cbn [fmap option_fmap option_map]; [|done].
    f_equal. rewrite zero_normals_lookup.
    assert (bool_decide (EPS12 < dot (Q2Qc 0, Q2Qc 0, Q2Qc 0) (Q2Qc 0, Q2Qc 0, Q2Qc 0))%Qc
            = false) as -> by (vm_compute; reflexivity).
    done. }
  rewrite <- Hfs. by destruct m.
Qed.

Lemma accumulate_faces_length vs fs :
  ∀ acc, length (foldl (accumulate_face sqrt vs) acc fs).1
         = (length acc.1 + length fs)%nat.
Proof.
  intros [done vn]. rewrite accumulate_faces_skip. cbn [fst]. by rewrite length_app.
Qed.

Lemma recalculate_normals_lengths m :
  length (Mesh.vertices (recalculate_normals sqrt m)) = length (Mesh.vertices m)
  ∧ length (Mesh.faces (recalculate_normals sqrt m)) = length (Mesh.faces m).
Proof. by rewrite recalculate_normals_unchanged. Qed.

End MeshFacts.

(** ** Stage 6 over binary64: counting vertices and faces *)

Section Binary64Facts.
Import PrimFloat.

(** The rounded positions of a list are pairwise different keys of a
    dict: none of them equals, as a tuple of floats, one before it. *)
Fixpoint keys_apart (ps : list Binary64.vec3) : Prop :=
  match ps with
  | [] => True
  | p :: rest =>
      Forall (λ q, Binary64.key_eqb (Binary64.position_key p) (Binary64.position_key q)
                   = false) rest
      ∧ keys_apart rest
  end.

#[global] Instance keys_apart_dec ps : Decision (keys_apart ps).
Proof. induction ps; cbn [keys_apart]; apply _. Defined.

(** The second mesh has the vertices and faces of the first, and maybe
    more. *)
Definition extends (m m' : Binary64.mesh) : Prop :=
  (length (Binary64.vertices m) ≤ length (Binary64.vertices m'))%nat
  ∧ (length (Binary64.faces m) ≤ length (Binary64.faces m'))%nat.

Lemma float_extends_refl m : extends m m.
Proof. split; lia. Qed.

Lemma float_extends_trans m1 m2 m3 : extends m1 m2 → extends m2 m3 → extends m1 m3.
Proof. intros [? ?] [? ?]. split; lia. Qed.

Lemma float_add_vertex_faces m p n :
  Binary64.faces (Binary64.add_vertex m p n).2 = Binary64.faces m.
Proof.
  unfold Binary64.add_vertex. by destruct (List.find _ _) as [[? ?]|].
Qed.

Lemma float_add_vertex_extends m p n : extends m (Binary64.add_vertex m p n).2.
Proof.
  unfold Binary64.add_vertex, extends.
  destruct (List.find _ _) as [[? ?]|]; cbn [snd Binary64.vertices Binary64.faces].
  - lia.
  - rewrite length_app. cbn [length]. lia.
Qed.

(** A position whose key is no key of the dict yet becomes a new
    vertex. *)
Lemma float_add_vertex_new m p n :
  Forall (λ entry : Binary64.vec3 * nat,
            Binary64.key_eqb entry.1 (Binary64.position_key p) = false)
         (Binary64.vertex_hash_map m) →
  Binary64.add_vertex m p n
  = (length (Binary64.vertices m),
     {| Binary64.name := Binary64.name m;
        Binary64.vertices :=
          Binary64.vertices m
          ++ [{| Vertex.position := p;
                 Vertex.normal := default Binary64.default_normal n |}];
        Binary64.faces := Binary64.faces m;
        Binary64.vertex_hash_map :=
          Binary64.vertex_hash_map m
          ++ [(Binary64.position_key p, length (Binary64.vertices m))] |}).
Proof.
  intros Hnew. unfold Binary64.add_vertex.
  by rewrite (proj2 (find_None_Forall _ _) Hnew).
Qed.

Lemma float_add_vertices_faces ps :
  ∀ m, Binary64.faces (Binary64.add_vertices m ps).2 = Binary64.faces m.
Proof.
  induction ps as [|p ps IH]; intros m; cbn [Binary64.add_vertices]; [done|].
  pose proof (float_add_vertex_faces m p None) as Hp.
  destruct (Binary64.add_vertex m p None) as [i m1]. specialize (IH m1).
  destruct (Binary64.add_vertices m1 ps) as [rest m2]. cbn [snd] in *. congruence.
Qed.

Lemma float_add_vertices_indices ps :
  ∀ m, length (Binary64.add_vertices m ps).1 = length ps.
Proof.
  induction ps as [|p ps IH]; intros m; cbn [Binary64.add_vertices]; [done|].
  destruct (Binary64.add_vertex m p None) as [i m1]. specialize (IH m1).
  destruct (Binary64.add_vertices m1 ps) as [rest m2]. cbn [fst length] in *. lia.
Qed.

Lemma float_add_vertices_extends ps :
  ∀ m, extends m (Binary64.add_vertices m ps).2.
Proof.
  induction ps as [|p ps IH]; intros m; cbn [Binary64.add_vertices];
    [apply float_extends_refl|].
  pose proof (float_add_vertex_extends m p None) as Hp.
  destruct (Binary64.add_vertex m p None) as [i m1]. specialize (IH m1).
  destruct (Binary64.add_vertices m1 ps) as [rest m2]. cbn [snd] in *.
  by eapply float_extends_trans.
Qed.

(** Positions with pairwise different keys, none of them in the dict,
    become as many new vertices, numbered in their order. *)
Lemma float_add_vertices_apart ps :
  ∀ m,
    keys_apart ps →
    Forall (λ entry : Binary64.vec3 * nat,
              Forall (λ p, Binary64.key_eqb entry.1 (Binary64.position_key p) = false) ps)
           (Binary64.vertex_hash_map m) →
    (Binary64.add_vertices m ps).1 = seq (length (Binary64.vertices m)) (length ps)
    ∧ length (Binary64.vertices (Binary64.add_vertices m ps).2)
      = (length (Binary64.vertices m) + length ps)%nat.
Proof.
  induction ps as [|p ps IH]; intros m Hapart Hnew; cbn [Binary64.add_vertices].
  - cbn [fst snd length seq]. split; [done | lia].
  - destruct Hapart as [Hp Hapart].
    rewrite float_add_vertex_new.
    2:{ eapply list.Forall_impl; [exact Hnew|]. intros entry He.
        by apply list.Forall_cons in He as [? _]. }
    match goal with
    | |- context [Binary64.add_vertices ?m1 ps] =>
        specialize (IH m1 Hapart); destruct (Binary64.add_vertices m1 ps) as [rest m2]
    end.
    cbn [fst snd Binary64.vertices Binary64.vertex_hash_map length seq] in *.
    destruct IH as [-> ->].
    + apply Forall_app. split.
      * eapply list.Forall_impl; [exact Hnew|]. intros entry He.
        by apply list.Forall_cons in He as [_ ?].
      * apply Forall_singleton. exact Hp.
    + rewrite length_app. cbn [length]. split; [f_equal; f_equal; lia | lia].
Qed.

Lemma float_add_faces_vertices fs :
  ∀ m, Binary64.vertices (Binary64.add_faces m fs) = Binary64.vertices m.
Proof.
  unfold Binary64.add_faces. induction fs as [|[[a b] c] fs IH]; intros m; cbn [foldl];
    [done|]. by rewrite IH.
Qed.

Lemma float_add_faces_faces fs :
  ∀ m, Binary64.faces (Binary64.add_faces m fs)
       = Binary64.faces m
         ++ ((λ t, {| Face.vertex_indices := t; Face.normal := None |}) <$> fs).
Proof.
  unfold Binary64.add_faces. induction fs as [|[[a b] c] fs IH]; intros m; cbn [foldl].
  - by rewrite app_nil_r.
  - rewrite IH. cbn [snd Binary64.add_face Binary64.faces].
    by rewrite <- (assoc_L (++)).
Qed.

(** A box of eight corners adds twelve faces, whether its corners become
    new vertices or not. *)
Lemma float_add_box_eight m corners :
  length corners = 8%nat →
  Binary64.vertices (Binary64.add_box m corners).2
  = Binary64.vertices (Binary64.add_vertices m corners).2
  ∧ length (Binary64.faces (Binary64.add_box m corners).2)
    = (length (Binary64.faces m) + 12)%nat.
Proof.
  intros Hlen. unfold Binary64.add_box.
  pose proof (float_add_vertices_indices corners m) as Hidx.
  pose proof (float_add_vertices_faces corners m) as Hfaces.
  destruct (Binary64.add_vertices m corners) as [vi m1]. cbn [fst snd] in *.
  rewrite Hlen in Hidx.
  do 8 (destruct vi as [|? vi]; [discriminate Hidx|]).
  destruct vi; [|discriminate Hidx]. cbn [snd].
  rewrite float_add_faces_vertices, float_add_faces_faces, length_app, length_fmap, Hfaces.
  done.
Qed.

Lemma float_add_box_extends m corners : extends m (Binary64.add_box m corners).2.
Proof.
  unfold Binary64.add_box.
  pose proof (float_add_vertices_extends corners m) as [Hv Hf].
  destruct (Binary64.add_vertices m corners) as [vi m1]. cbn [snd] in *.
  assert (extends m m1) as Hgrow by (by split).
  do 8 (destruct vi as [|? vi]; [exact Hgrow|]).
  destruct vi; [|exact Hgrow]. cbn [snd]. split.
  - by rewrite float_add_faces_vertices.
  - rewrite float_add_faces_faces, length_app. lia.
Qed.

Lemma float_extrude_wall_edge_extends p_start p_end thickness height m :
  extends m (Binary64.extrude_wall_edge p_start p_end thickness height m).2.
Proof.
  unfold Binary64.extrude_wall_edge.
  destruct (PrimFloat.ltb _ _); [apply float_extends_refl | apply float_add_box_extends].
Qed.

Lemma float_walls_extend (es : list (Binary64.vec2 * Binary64.vec2)) :
  ∀ m, extends m
         (foldl (λ m '(p_start, p_end),
                   (Binary64.extrude_wall_edge p_start p_end Binary64.WALL_THICKNESS
                      Binary64.WALL_HEIGHT m).2) m es).
Proof.
  induction es as [|[p_start p_end] es IH]; intros m; cbn [foldl];
    [apply float_extends_refl|].
  eapply float_extends_trans; [apply float_extrude_wall_edge_extends | apply IH].
Qed.

(** The [try] block of [recalculate_normals] never gets past its call of
    [np.cross], so that the mesh is left as it is. *)
Lemma float_face_normal_step_raises vs vn f :
  ∃ e, Binary64.face_normal_step vs vn f = Raise e.
Proof.
  unfold Binary64.face_normal_step, Binary64.vertex_position, Binary64.np_cross_dtype.
  destruct (Face.vertex_indices f) as [[vi0 vi1] vi2].
  destruct (vs !! vi0), (vs !! vi1), (vs !! vi2); cbn [mbind exn_bind]; by eexists.
Qed.

Lemma float_accumulate_faces_skip vs fs :
  ∀ done vn, foldl (Binary64.accumulate_face vs) (done, vn) fs = (done ++ fs, vn).
Proof.
  induction fs as [|f fs IH]; intros done vn; cbn [foldl]; [by rewrite app_nil_r|].
  unfold Binary64.accumulate_face at 2.
  destruct (float_face_normal_step_raises vs vn f) as [e ->].
  by rewrite IH, <- (assoc_L (++)).
Qed.

Lemma zero_float_normals_lookup (l : list nat) (i : nat) :
  default (0%float, 0%float, 0%float)
          ((list_to_map ((λ i, (i, (0%float, 0%float, 0%float))) <$> l)
            : gmap nat Binary64.vec3) !! i)
  = (0%float, 0%float, 0%float).
Proof.
  destruct (_ !! i) as [n|] eqn:Hn; [|done].
  apply elem_of_list_to_map_2, list_elem_of_fmap in Hn as (k & [= _ ->] & _). done.
Qed.

Lemma float_recalculate_normals_unchanged m : Binary64.recalculate_normals m = m.
Proof.
  unfold Binary64.recalculate_normals.
  destruct (Binary64.faces m) as [|f fs] eqn:Hfs; [done|].
  rewrite float_accumulate_faces_skip. cbn [app]. cbv beta iota zeta.
  match goal with
  | |- context [imap ?g ?l] => assert (imap g l = l) as ->
  end.
  { apply list_eq. intros i. rewrite list_lookup_imap.
    destruct (Binary64.vertices m !! i) as [v|]; cbn [fmap option_fmap option_map];
      [|done].
    f_equal. rewrite zero_float_normals_lookup.
    assert (PrimFloat.ltb Binary64.EPS12
              (Binary64.dot (0%float, 0%float, 0%float) (0%float, 0%float, 0%float))
            = false) as -> by (vm_compute; reflexivity).
    done. }
  rewrite <- Hfs. by destruct m.
Qed.

(** The corners of the floor slab of a graph, when it has a vertex. *)
Definition floor_corners (g : Binary64.wall_graph) : list Binary64.vec3 :=
  match (Binary64.vertex_positions g).*1, (Binary64.vertex_positions g).*2 with
  | x :: xs, y :: ys => Binary64.slab_corners x xs y ys
  | _, _ => []
  end.

(** The floor slab of a graph with a vertex, built into the empty mesh:
    twelve faces, and eight vertices when the corners have different
    keys. *)
Lemma float_floor_slab_counts (g : Binary64.wall_graph) name :
  Binary64.vertex_positions g ≠ [] →
  let slab := Binary64._build_floor_slab (Some g) (Binary64.init name) in
  length (Binary64.faces slab) = 12%nat
  ∧ (keys_apart (floor_corners g) → length (Binary64.vertices slab) = 8%nat)
  ∧ (keys_apart (floor_corners g) →
     Binary64.faces slab
     = (λ t, {| Face.vertex_indices := t; Face.normal := None |})
         <$> box_faces 0 1 2 3 4 5 6 7).
Proof.
  intros Hne. unfold Binary64._build_floor_slab, floor_corners.
  destruct (Binary64.vertex_positions g) as [|[x y] ps]; [done|].
  cbn [fmap list_fmap fst snd]. cbv zeta.
  set (corners := Binary64.slab_corners x ps.*1 y ps.*2).
  destruct (float_add_box_eight (Binary64.init name) corners eq_refl) as [Hverts Hfaces].
  split; [by rewrite Hfaces|].
  assert (keys_apart corners →
          (Binary64.add_vertices (Binary64.init name) corners).1 = seq 0 8
          ∧ length (Binary64.vertices
                      (Binary64.add_vertices (Binary64.init name) corners).2) = 8%nat)
    as Hnew.
  { intros Hapart.
    destruct (float_add_vertices_apart corners (Binary64.init name) Hapart) as [Hidx Hlen];
      [constructor|].
    split; [exact Hidx | exact Hlen]. }
  split.
  - intros Hapart. rewrite Hverts. by apply Hnew.
  - intros Hapart. destruct (Hnew Hapart) as [Hidx _].
    unfold Binary64.add_box.
    pose proof (float_add_vertices_faces corners (Binary64.init name)) as Hf.
    destruct (Binary64.add_vertices (Binary64.init name) corners) as [vi m1].
    cbn [fst snd] in *. rewrite Hidx. cbn [seq snd].
    rewrite float_add_faces_faces, Hf. done.
Qed.

End Binary64Facts.
Lemma eight_keys_distinct (x0 x1 y0 y1 z0 z1 : Qc) :
  x0 ≠ x1 → y0 ≠ y1 → z0 ≠ z1 →
  NoDup [ (x0, y0, z0); (x1, y0, z0); (x1, y1, z0); (x0, y1, z0);
          (x0, y0, z1); (x1, y0, z1); (x1, y1, z1); (x0, y1, z1) ].
Proof.
  intros Hx Hy Hz.
  repeat (apply list.NoDup_cons; split;
          [rewrite ?elem_of_cons, elem_of_nil; naive_solver|]).
  apply NoDup_nil_2.
Qed.

Lemma slab_heights_apart : round6 (- FLOOR_SLAB_THICKNESS) ≠ round6 (Q2Qc 0).
Proof. intros H. apply (f_equal this) in H. vm_compute in H. discriminate H. Qed.

(** The floor slab of a graph with vertices, built into the empty mesh,
    has eight vertices and twelve faces. *)
Lemma floor_slab_counts (self : CutawayBuilder.t) (g : WallTopologyGraph.t) name :
  CutawayBuilder.wall_graph self = Some g →
  graph_invariant g →
  WallTopologyGraph.vertices g ≠ ∅ →
  length (Mesh.vertices (CutawayBuilder._build_floor_slab self (Mesh.init name))) = 8%nat
  ∧ length (Mesh.faces (CutawayBuilder._build_floor_slab self (Mesh.init name))) = 12%nat.
Proof.
  intros Hg Hinv Hne.
  destruct (vertex_values_nonempty g Hinv Hne) as (v & vs & Hvs).
  unfold CutawayBuilder._build_floor_slab, MetricNormalizer.vertex_xs,
    MetricNormalizer.vertex_ys.
  rewrite Hg, Hvs. rewrite !fmap_cons.
  set (xs := (λ v, (WallVertex.position v).1) <$> vs).
  set (ys := (λ v, (WallVertex.position v).2) <$> vs).
  set (x := (WallVertex.position v).1). set (y := (WallVertex.position v).2).
  match goal with
  | |- context [add_box ?m ?cs] =>
      destruct (add_box_eight m cs eq_refl) as [Hverts Hfaces];
      rewrite Hverts, Hfaces;
      rewrite (add_vertices_fresh cs m)
  end.
  - done.
  - apply eight_keys_distinct.
    + apply round6_separates, padded_sides_apart.
    + apply round6_separates, padded_sides_apart.
    + apply slab_heights_apart.
  - intros p _. apply lookup_empty.
Qed.

Lemma endpoint_of_vertex (g : WallTopologyGraph.t) (vid : nat) :
  vid ∈ dom (WallTopologyGraph.vertices g) →
  ∃ p, CutawayBuilder.endpoint g vid = Ret p.
Proof.
  intros [v Hv]%elem_of_dom. unfold CutawayBuilder.endpoint. rewrite Hv. by eexists.
Qed.

Lemma walls_grow (sqrt : Qc → Qc) (g : WallTopologyGraph.t) (es : list WallEdge.t) :
  Forall (λ e, WallEdge.vertex_a e ∈ dom (WallTopologyGraph.vertices g)
               ∧ WallEdge.vertex_b e ∈ dom (WallTopologyGraph.vertices g)) es →
  ∀ m, ∃ m',
    foldl (λ acc edge,
             mesh ← acc;
             p_start ← CutawayBuilder.endpoint g (WallEdge.vertex_a edge);
             p_end ← CutawayBuilder.endpoint g (WallEdge.vertex_b edge);
             Ret (extrude_wall_edge sqrt p_start p_end WALL_THICKNESS WALL_HEIGHT mesh).2)
          (Ret m) es = Ret m'
    ∧ grows m m'.
Proof.
  induction 1 as [|e es [Ha Hb] _ IH]; intros m; simpl.
  - exists m. split; [done | apply grows_refl].
  - destruct (endpoint_of_vertex g _ Ha) as [pa ->].
    destruct (endpoint_of_vertex g _ Hb) as [pb ->]. simpl.
    destruct (IH (extrude_wall_edge sqrt pa pb WALL_THICKNESS WALL_HEIGHT m).2)
      as (m' & -> & Hgrow).
    exists m'. split; [done|].
    eapply grows_trans; [apply extrude_wall_edge_grows | exact Hgrow].
Qed.

Lemma edges_have_endpoints (g : WallTopologyGraph.t) :
  graph_invariant g →
  Forall (λ e, WallEdge.vertex_a e ∈ dom (WallTopologyGraph.vertices g)
               ∧ WallEdge.vertex_b e ∈ dom (WallTopologyGraph.vertices g))
         (WallTopologyGraph.edge_values g).
Proof.
  intros Hinv. apply list.Forall_forall. intros e He.
  apply list_elem_of_omap in He as (k & _ & Hk).
  by apply (inv_endpoints g Hinv k e).
Qed.

Lemma edges_need_vertices (g : WallTopologyGraph.t) :
  graph_invariant g →
  WallTopologyGraph.edges g ≠ ∅ →
  WallTopologyGraph.vertices g ≠ ∅.
Proof.
  intros Hinv Hedges Hempty. apply Hedges, map_empty. intros k.
  destruct (WallTopologyGraph.edges g !! k) as [e|] eqn:He; [|done].
  destruct (inv_endpoints g Hinv k e He) as [Ha _].
  rewrite Hempty, dom_empty_L in Ha. by apply not_elem_of_empty in Ha.
Qed.

Definition counts_at_least (r : option (Mesh.t Qc)) (nv nf : nat) : bool :=
  match r with
  | Some mesh => bool_decide (nv ≤ length (Mesh.vertices mesh))%nat
                 && bool_decide (nf ≤ length (Mesh.faces mesh))%nat
  | None => false
  end.

Definition has_edges (r : exn WallTopologyGraph.t) (n : nat) : bool :=
  match r with
  | Ret g => bool_decide (size (WallTopologyGraph.edges g) = n)
  | Raise _ => false
  end.

Section FloorSlabBinary64.
Import PrimFloat.

(** The edges of the graph join vertices of the graph. *)
Definition ends_are_vertices (g : Binary64.wall_graph) : Prop :=
  Forall (λ e : Binary64.vec2 * Binary64.vec2,
            e.1 ∈ Binary64.vertex_positions g ∧ e.2 ∈ Binary64.vertex_positions g)
         (Binary64.edge_ends g).

Lemma edge_needs_vertex (g : Binary64.wall_graph) :
  Binary64.edge_ends g ≠ [] → ends_are_vertices g → Binary64.vertex_positions g ≠ [].
Proof.
  unfold ends_are_vertices. destruct (Binary64.edge_ends g) as [|e es]; [done|].
  intros _ [[Hin _] _]%list.Forall_cons Hnil. rewrite Hnil in Hin.
  by apply elem_of_nil in Hin.
Qed.

(** A wall of 12 by 9 metres around the origin of the plan. *)
Definition rectangle_graph : Binary64.wall_graph :=
  {| Binary64.vertex_positions :=
       [(0%float, 0%float); (12%float, 0%float); (12%float, 9%float); (0%float, 9%float)];
     Binary64.edge_ends :=
       [((0%float, 0%float), (12%float, 0%float));
        ((12%float, 0%float), (12%float, 9%float));
        ((12%float, 9%float), (0%float, 9%float));
        ((0%float, 9%float), (0%float, 0%float))] |}.

(** One wall of 12 metres, [2 ^ 54] metres away from the origin of the
    plan in both directions.  Floats are four apart there, so that the
    padding of the slab and half the thickness of the wall are absorbed.
    With a scale factor of 1 the graph is its own normalization. *)
Definition remote_graph : Binary64.wall_graph :=
  {| Binary64.vertex_positions :=
       [(18014398509481984%float, 18014398509481984%float);
        (18014398509481984%float, 18014398509481996%float)];
     Binary64.edge_ends :=
       [((18014398509481984%float, 18014398509481984%float),
         (18014398509481984%float, 18014398509481996%float))] |}.

(** One wall of 16 metres, [10 ^ 17] metres away from the origin. *)
Definition far_graph : Binary64.wall_graph :=
  {| Binary64.vertex_positions :=
       [(100000000000000000%float, 100000000000000000%float);
        (100000000000000016%float, 100000000000000000%float)];
     Binary64.edge_ends :=
       [((100000000000000000%float, 100000000000000000%float),
         (100000000000000016%float, 100000000000000000%float))] |}.

(** The numbers of vertices and faces of a mesh that was built. *)
Definition mesh_counts (r : option Binary64.mesh) : option (nat * nat) :=
  match r with
  | Some mesh => Some (length (Binary64.vertices mesh), length (Binary64.faces mesh))
  | None => None
  end.

End FloorSlabBinary64.

(** C6.  In binary64 arithmetic, for a wall graph with at least one
    edge, whose edges join vertices of the graph, [CutawayBuilder.build]
    returns a mesh with at least 12 faces, and with at least 8 vertices
    when the eight corners of the floor slab have pairwise different
    positions after rounding to six decimals; for a graph without edges it
    returns [None]. *)
Theorem build_has_floor_slab_while_corners_stay_apart (g : Binary64.wall_graph) :
  (Binary64.edge_ends g = [] → Binary64.build (Some g) = None)
  ∧ (Binary64.edge_ends g ≠ [] →
     ends_are_vertices g →
     ∃ mesh,
       Binary64.build (Some g) = Some mesh
       ∧ (12 ≤ length (Binary64.faces mesh))%nat
       ∧ (keys_apart (floor_corners g) → (8 ≤ length (Binary64.vertices mesh))%nat)).
Proof.
  split.
  - intros Hnone. unfold Binary64.build, Binary64._build_walls. by rewrite Hnone.
  - intros Hedges Hends.
    pose proof (edge_needs_vertex g Hedges Hends) as Hvertex.
    destruct (float_floor_slab_counts g "cutaway_model" Hvertex) as (Hfaces & Hverts & _).
    unfold Binary64.build, Binary64._build_walls.
    destruct (Binary64.edge_ends g) as [|e es] eqn:Hes; [done|].
    rewrite <- Hes. eexists. split; [reflexivity|].
    rewrite float_recalculate_normals_unchanged.
    destruct (float_walls_extend (Binary64.edge_ends g)
                (Binary64._build_floor_slab (Some g) (Binary64.init "cutaway_model")))
      as [Hv Hf].
    split; [lia|]. intros Hapart. rewrite (Hverts Hapart) in Hv. exact Hv.
Qed.

Lemma build_has_floor_slab_while_corners_stay_apart_witness :
  ∃ mesh,
    Binary64.build (Some rectangle_graph) = Some mesh
    ∧ (12 ≤ length (Binary64.faces mesh))%nat
    ∧ (8 ≤ length (Binary64.vertices mesh))%nat.
Proof.
  destruct (build_has_floor_slab_while_corners_stay_apart rectangle_graph) as [_ Hbuilt].
  destruct Hbuilt as (mesh & Hmesh & Hfaces & Hverts).
  - discriminate.
  - repeat constructor.
  - exists mesh. split; [exact Hmesh|]. split; [exact Hfaces|]. apply Hverts.
    apply (bool_decide_unpack _). vm_compute. reflexivity.
Defined.

(** Far from the origin the mesh has fewer than 8 vertices: for
    [remote_graph], whose wall is 12 metres long, the padding of the slab
    is absorbed in both directions of x, the corners of the slab coincide
    in pairs and are merged by [add_vertex], and the mesh has 6 vertices;
    the same happens for [far_graph]. *)
Lemma build_merges_the_slab_corners_of_a_remote_wall :
  (Binary64.edge_ends remote_graph ≠ []
   ∧ ends_are_vertices remote_graph
   ∧ ¬ keys_apart (floor_corners remote_graph)
   ∧ ∃ mesh, Binary64.build (Some remote_graph) = Some mesh
             ∧ length (Binary64.vertices mesh) = 6%nat)
  ∧ (Binary64.edge_ends far_graph ≠ []
     ∧ ends_are_vertices far_graph
     ∧ ¬ keys_apart (floor_corners far_graph)
     ∧ ∃ mesh, Binary64.build (Some far_graph) = Some mesh
               ∧ length (Binary64.vertices mesh) = 6%nat).
Proof.
  assert (mesh_counts (Binary64.build (Some remote_graph)) = Some (6, 24)%nat) as Hremote
    by (vm_compute; reflexivity).
  assert (mesh_counts (Binary64.build (Some far_graph)) = Some (6, 24)%nat) as Hfar
    by (vm_compute; reflexivity).
  split.
  - split; [discriminate|]. split; [repeat constructor|]. split.
    + apply (bool_decide_unpack _). vm_compute. reflexivity.
    + destruct (Binary64.build (Some remote_graph)) as [mesh|]; [|discriminate Hremote].
      exists mesh. split; [reflexivity|]. by injection Hremote as -> _.
  - split; [discriminate|]. split; [repeat constructor|]. split.
    + apply (bool_decide_unpack _). vm_compute. reflexivity.
    + destruct (Binary64.build (Some far_graph)) as [mesh|]; [|discriminate Hfar].
      exists mesh. split; [reflexivity|]. by injection Hfar as -> _.
Qed.

(** ** Facts on stage 7 *)

Section CutFacts.

Import ManifoldBoolean.

(** A point within the bounds of the volume, the bounds included. *)
Definition inside (vol : volume) (p : vec3) : Prop :=
  ((x_min vol ≤ p.1.1)%Qc ∧ (p.1.1 ≤ x_max vol)%Qc)
  ∧ ((y_min vol ≤ p.1.2)%Qc ∧ (p.1.2 ≤ y_max vol)%Qc)
  ∧ ((z_bottom vol ≤ p.2)%Qc ∧ (p.2 ≤ z_top vol)%Qc).

(** A face whose three vertices are all within the bounds. *)
Definition within_bounds (vs : list (Vertex.t Qc)) (vol : volume) (f : Face.t Qc) : Prop :=
  let '(vi0, vi1, vi2) := Face.vertex_indices f in
  match vs !! vi0, vs !! vi1, vs !! vi2 with
  | Some v0, Some v1, Some v2 =>
      Forall (inside vol) [Vertex.position v0; Vertex.position v1; Vertex.position v2]
  | _, _, _ => False
  end.

#[global] Instance inside_dec vol p : Decision (inside vol p).
Proof. unfold inside. apply _. Defined.

#[global] Instance within_bounds_dec vs vol f : Decision (within_bounds vs vol f).
Proof.
  unfold within_bounds. destruct (Face.vertex_indices f) as [[vi0 vi1] vi2].
  destruct (vs !! vi0), (vs !! vi1), (vs !! vi2); apply _.
Defined.

(** Every index of every face is an index of a vertex. *)
Definition well_indexed (mesh : Mesh.t Qc) : Prop :=
  Forall (λ f, let '(vi0, vi1, vi2) := Face.vertex_indices f in
               (vi0 < length (Mesh.vertices mesh))%nat
               ∧ (vi1 < length (Mesh.vertices mesh))%nat
               ∧ (vi2 < length (Mesh.vertices mesh))%nat)
         (Mesh.faces mesh).

Lemma all_in_volume_inside vol v0 v1 v2 :
  all_in_volume vol v0 v1 v2 = true ↔ Forall (inside vol) [v0; v1; v2].
Proof.
  unfold all_in_volume, between, inside. simpl.
  rewrite !andb_true_iff, !bool_decide_eq_true, !list.Forall_cons, list.Forall_nil.
  tauto.
Qed.

(** The indices, counted from [k], of the faces within the bounds. *)
Fixpoint marked (vs : list (Vertex.t Qc)) (vol : volume) (k : nat)
    (faces : list (Face.t Qc)) : list nat :=
  match faces with
  | [] => []
  | f :: rest =>
      if decide (within_bounds vs vol f) then k :: marked vs vol (S k) rest
      else marked vs vol (S k) rest
  end.

Lemma faces_to_remove_marked vs vol faces :
  Forall (λ f, let '(vi0, vi1, vi2) := Face.vertex_indices f in
               (vi0 < length vs)%nat ∧ (vi1 < length vs)%nat ∧ (vi2 < length vs)%nat)
         faces →
  ∀ k, faces_to_remove vs vol k faces = Ret (marked vs vol k faces).
Proof.
  induction 1 as [|[[[vi0 vi1] vi2] normal] rest Hf _ IH]; intros k; simpl; [done|].
  simpl in Hf. destruct Hf as (H0 & H1 & H2).
  apply lookup_lt_is_Some_2 in H0 as [v0 Hv0].
  apply lookup_lt_is_Some_2 in H1 as [v1 Hv1].
  apply lookup_lt_is_Some_2 in H2 as [v2 Hv2].
  assert (within_bounds vs vol
            {| Face.vertex_indices := (vi0, vi1, vi2); Face.normal := normal |}
          ↔ Forall (inside vol)
              [Vertex.position v0; Vertex.position v1; Vertex.position v2]) as Hwb.
  { unfold within_bounds. simpl. by rewrite Hv0, Hv1, Hv2. }
  unfold position_at. rewrite Hv0, Hv1, Hv2. simpl. rewrite IH. simpl.
  destruct (all_in_volume vol _ _ _) eqn:Hall.
  - apply all_in_volume_inside, Hwb in Hall. by rewrite decide_True.
  - rewrite decide_False; [done|].
    intros Hin%Hwb%all_in_volume_inside. congruence.
Qed.

Lemma pop_middle {A} (pre post : list A) (x : A) :
  pop (length pre) (pre ++ x :: post) = pre ++ post.
Proof.
  unfold pop. rewrite take_app_length, drop_app_ge by lia.
  replace (S (length pre) - length pre)%nat with 1%nat by lia. done.
Qed.

(** Popping the marked indices from the last to the first leaves the
    faces that are not within the bounds, in their order. *)
Lemma pop_marked vs vol faces :
  ∀ pre,
    foldl (λ faces idx, pop idx faces) (pre ++ faces)
          (rev (marked vs vol (length pre) faces))
    = pre ++ filter (λ f, ¬ within_bounds vs vol f) faces.
Proof.
  induction faces as [|f rest IH]; intros pre; simpl; [done|].
  specialize (IH (pre ++ [f])).
  rewrite length_app in IH. simpl in IH.
  replace (length pre + 1)%nat with (S (length pre)) in IH by lia.
  rewrite <- !(assoc_L (++)) in IH. simpl in IH.
  rewrite filter_cons. destruct (decide (within_bounds vs vol f)) as [Hin|Hout].
  - rewrite decide_False by tauto.
    simpl. rewrite foldl_app, IH. simpl. apply pop_middle.
  - rewrite decide_True by done. exact IH.
Qed.

(** [cut_rectangular_hole] on a mesh with valid indices: the faces kept
    are those not within the bounds; nothing else of the mesh changes. *)
Lemma cut_rectangular_hole_filter mesh center_x center_y width height z_bottom z_top :
  well_indexed mesh →
  cut_rectangular_hole mesh center_x center_y width height z_bottom z_top
  = Ret (true,
         {| Mesh.name := Mesh.name mesh; Mesh.vertices := Mesh.vertices mesh;
            Mesh.faces :=
              filter (λ f, ¬ within_bounds (Mesh.vertices mesh)
                               (cut_volume center_x center_y width height z_bottom z_top) f)
                     (Mesh.faces mesh);
            Mesh.vertex_hash_map := Mesh.vertex_hash_map mesh |}).
Proof.
  intros Hidx. unfold cut_rectangular_hole.
  rewrite (faces_to_remove_marked _ _ _ Hidx). simpl.
  by rewrite (pop_marked _ _ (Mesh.faces mesh) []).
Qed.

(** Whatever the mesh, a cut that returns has changed the faces only. *)
Lemma cut_rectangular_hole_frame mesh center_x center_y width height z_bottom z_top r :
  cut_rectangular_hole mesh center_x center_y width height z_bottom z_top = Ret r →
  r.1 = true
  ∧ Mesh.vertices r.2 = Mesh.vertices mesh
  ∧ Mesh.vertex_hash_map r.2 = Mesh.vertex_hash_map mesh
  ∧ Mesh.name r.2 = Mesh.name mesh.
Proof.
  unfold cut_rectangular_hole.
  destruct (faces_to_remove _ _ _ _) as [to_remove|]; simpl; [|done].
  by intros [= <-].
Qed.

End CutFacts.

(** ** Claims on stage 7 *)

(** C7.  On a mesh whose faces refer to existing vertices,
    [cut_rectangular_hole] returns [True] and keeps, in their order,
    exactly the faces that do not have all three vertices within the x, y
    and z bounds of the cut volume, the bounds themselves included; it adds
    no face. *)
Theorem cut_removes_faces_within_inclusive_bounds
    (mesh : Mesh.t Qc) (center_x center_y width height z_bottom z_top : Qc) :
  well_indexed mesh →
  let vol := ManifoldBoolean.cut_volume center_x center_y width height z_bottom z_top in
  ∃ mesh',
    ManifoldBoolean.cut_rectangular_hole mesh center_x center_y width height
      z_bottom z_top = Ret (true, mesh')
    ∧ Mesh.faces mesh'
      = filter (λ f, ¬ within_bounds (Mesh.vertices mesh) vol f) (Mesh.faces mesh)
    ∧ (∀ f, f ∈ Mesh.faces mesh'
            ↔ f ∈ Mesh.faces mesh ∧ ¬ within_bounds (Mesh.vertices mesh) vol f)
    ∧ Mesh.faces mesh' `sublist_of` Mesh.faces mesh.
Proof.
  intros Hidx vol. eexists. split.
  - by apply cut_rectangular_hole_filter.
  - simpl. fold vol. split; [done|]. split.
    + intros f. rewrite list_elem_of_filter. tauto.
    + apply sublist_filter.
Qed.

(** One triangle with a corner on the side [x = 1] and on the bottom
    [z = 0] of the volume cut below. *)
Definition boundary_mesh : Mesh.t Qc :=
  let m := Mesh.init "wall" in
  let '(a, m) := add_vertex m (Q2Qc 1, Q2Qc 0, Q2Qc 0) None in
  let '(b, m) := add_vertex m (Q2Qc 0, Q2Qc (1 # 2), Q2Qc (1 # 2)) None in
  let '(c, m) := add_vertex m (Q2Qc 0, Q2Qc 0, Q2Qc 1) None in
  (Mesh.add_face m a b c None).2.

Definition boundary_cut : exn (bool * Mesh.t Qc) :=
  ManifoldBoolean.cut_rectangular_hole boundary_mesh
    (Q2Qc 0) (Q2Qc 0) (Q2Qc 2) (Q2Qc 2) (Q2Qc 0) (Q2Qc 1).

(** A point within the bounds of the volume, the bounds excluded. *)
Definition strictly_inside (vol : ManifoldBoolean.volume) (p : vec3) : bool :=
  bool_decide (ManifoldBoolean.x_min vol < p.1.1)%Qc
  && bool_decide (p.1.1 < ManifoldBoolean.x_max vol)%Qc
  && bool_decide (ManifoldBoolean.y_min vol < p.1.2)%Qc
  && bool_decide (p.1.2 < ManifoldBoolean.y_max vol)%Qc
  && bool_decide (ManifoldBoolean.z_bottom vol < p.2)%Qc
  && bool_decide (p.2 < ManifoldBoolean.z_top vol)%Qc.

Lemma boundary_mesh_well_indexed : well_indexed boundary_mesh.
Proof.
  unfold well_indexed. vm_compute. repeat constructor.
Qed.

Lemma cut_removes_faces_within_inclusive_bounds_witness :
  ∃ mesh',
    boundary_cut = Ret (true, mesh')
    ∧ Mesh.faces mesh'
      = filter (λ f, ¬ within_bounds (Mesh.vertices boundary_mesh)
                       (ManifoldBoolean.cut_volume (Q2Qc 0) (Q2Qc 0) (Q2Qc 2) (Q2Qc 2)
                          (Q2Qc 0) (Q2Qc 1)) f)
               (Mesh.faces boundary_mesh).
Proof.
  destruct (cut_removes_faces_within_inclusive_bounds boundary_mesh
              (Q2Qc 0) (Q2Qc 0) (Q2Qc 2) (Q2Qc 2) (Q2Qc 0) (Q2Qc 1)
              boundary_mesh_well_indexed) as (mesh' & Hcut & Hfaces & _).
  by exists mesh'.
Defined.

(** The face of [boundary_mesh] is removed although one of its vertices
    is not strictly inside the volume. *)
Lemma cut_removes_face_on_the_boundary :
  ∃ mesh',
    boundary_cut = Ret (true, mesh')
    ∧ length (Mesh.faces boundary_mesh) = 1%nat
    ∧ Mesh.faces mesh' = []
    ∧ forallb (strictly_inside
                 (ManifoldBoolean.cut_volume (Q2Qc 0) (Q2Qc 0) (Q2Qc 2) (Q2Qc 2)
                    (Q2Qc 0) (Q2Qc 1)))
              (Vertex.position <$> Mesh.vertices boundary_mesh) = false.
Proof.
  pose proof (cut_rectangular_hole_filter boundary_mesh
                (Q2Qc 0) (Q2Qc 0) (Q2Qc 2) (Q2Qc 2) (Q2Qc 0) (Q2Qc 1)
                boundary_mesh_well_indexed) as Hcut.
  eexists. split; [exact Hcut|]. split; [reflexivity|]. split.
  - vm_compute. reflexivity.
  - vm_compute. reflexivity.
Qed.

(** C9.  [cut_rectangular_hole] returns on every mesh whose faces refer
    to existing vertices, and whenever it returns, the vertex list of the
    mesh, with its positions and normals, the index of every vertex and
    the arrays of positions and normals the exporter reads are the same as
    before. *)
Theorem cut_leaves_vertices_unchanged
    (mesh : Mesh.t Qc) (center_x center_y width height z_bottom z_top : Qc) :
  (well_indexed mesh →
   ∃ mesh', ManifoldBoolean.cut_rectangular_hole mesh center_x center_y width height
              z_bottom z_top = Ret (true, mesh'))
  ∧ (∀ success mesh',
       ManifoldBoolean.cut_rectangular_hole mesh center_x center_y width height
         z_bottom z_top = Ret (success, mesh') →
       Mesh.vertices mesh' = Mesh.vertices mesh
       ∧ length (Mesh.vertices mesh') = length (Mesh.vertices mesh)
       ∧ (∀ i, Mesh.vertices mesh' !! i = Mesh.vertices mesh !! i)
       ∧ Mesh.vertex_hash_map mesh' = Mesh.vertex_hash_map mesh
       ∧ GLBExporter.positions mesh' = GLBExporter.positions mesh
       ∧ GLBExporter.normals mesh' = GLBExporter.normals mesh).
Proof.
  split.
  - intros Hidx. eexists. by apply cut_rectangular_hole_filter.
  - intros success mesh' Hcut.
    apply cut_rectangular_hole_frame in Hcut as (_ & Hv & Hmap & _). simpl in *.
    unfold GLBExporter.positions, GLBExporter.normals. rewrite Hv, Hmap. done.
Qed.

Lemma cut_leaves_vertices_unchanged_witness :
  ∃ mesh',
    boundary_cut = Ret (true, mesh')
    ∧ Mesh.faces mesh' = []
    ∧ Mesh.vertices mesh' = Mesh.vertices boundary_mesh
    ∧ length (Mesh.vertices mesh') = 3%nat.
Proof.
  destruct (cut_leaves_vertices_unchanged boundary_mesh
              (Q2Qc 0) (Q2Qc 0) (Q2Qc 2) (Q2Qc 2) (Q2Qc 0) (Q2Qc 1)) as [Hret Hframe].
  destruct (Hret boundary_mesh_well_indexed) as [mesh' Hcut].
  destruct (Hframe true mesh' Hcut) as (Hv & Hlen & _).
  exists mesh'. split; [exact Hcut|]. split; [|split; [exact Hv|]].
  - pose proof (cut_rectangular_hole_filter boundary_mesh
                  (Q2Qc 0) (Q2Qc 0) (Q2Qc 2) (Q2Qc 2) (Q2Qc 0) (Q2Qc 1)
                  boundary_mesh_well_indexed) as Hfilter.
    unfold boundary_cut in Hcut. rewrite Hfilter in Hcut.
    injection Hcut as <-. vm_compute. reflexivity.
  - rewrite Hlen. vm_compute. reflexivity.
Defined.

(** ** Facts on stage 8 *)

Section ValidatorFacts.

Context {F : Type} `{Countable F}.
Variable ops : float_ops F.

(** Two results with the same verdict, the same checks and the same
    errors: they can differ in their warnings only. *)
Definition agree (r1 r2 : ValidationResult.t) : Prop :=
  ValidationResult.passed r1 = ValidationResult.passed r2
  ∧ ValidationResult.checks r1 = ValidationResult.checks r2
  ∧ ValidationResult.errors r1 = ValidationResult.errors r2.

Lemma agree_refl r : agree r r.
Proof. by repeat split. Qed.

Lemma agree_trans r1 r2 r3 : agree r1 r2 → agree r2 r3 → agree r1 r3.
Proof. intros (? & ? & ?) (? & ? & ?). repeat split; congruence. Qed.

Lemma agree_sym r1 r2 : agree r1 r2 → agree r2 r1.
Proof. intros (? & ? & ?). by repeat split. Qed.

Lemma agree_add_check r1 r2 name passed message :
  agree r1 r2 →
  agree (ValidationResult.add_check r1 name passed message)
        (ValidationResult.add_check r2 name passed message).
Proof.
  intros (Hp & Hc & He). unfold ValidationResult.add_check.
  destruct passed; simpl; repeat split; simpl; congruence.
Qed.

Lemma agree_add_warning r message : agree (ValidationResult.add_warning r message) r.
Proof. by repeat split. Qed.

Lemma agree_warn_first_invalid vertices :
  ∀ i r, agree (MeshValidator.warn_first_invalid ops i vertices r) r.
Proof.
  induction vertices as [|v vs IH]; intros i r; simpl; [apply agree_refl|].
  destruct (MeshValidator.invalid_normal ops v); [apply agree_add_warning | apply IH].
Qed.

(** Meshes with the same vertex positions and the same faces; their
    normals may differ. *)
Definition same_geometry (m1 m2 : Mesh.t F) : Prop :=
  MeshValidator.positions m1 = MeshValidator.positions m2
  ∧ Mesh.faces m1 = Mesh.faces m2.

Lemma same_geometry_length m1 m2 :
  same_geometry m1 m2 → length (Mesh.vertices m1) = length (Mesh.vertices m2).
Proof.
  intros [Hpos _]. apply (f_equal length) in Hpos.
  unfold MeshValidator.positions in Hpos. by rewrite !length_fmap in Hpos.
Qed.

Lemma geometry_count_agree m1 m2 r1 r2 :
  same_geometry m1 m2 → agree r1 r2 →
  agree (MeshValidator._check_geometry_count m1 r1)
        (MeshValidator._check_geometry_count m2 r2).
Proof.
  intros Hgeo Hr. unfold MeshValidator._check_geometry_count.
  rewrite (same_geometry_length m1 m2 Hgeo). destruct Hgeo as [_ ->].
  by apply agree_add_check.
Qed.

Lemma manifold_agree m1 m2 r1 r2 :
  same_geometry m1 m2 → agree r1 r2 →
  agree (MeshValidator._check_manifold m1 r1) (MeshValidator._check_manifold m2 r2).
Proof.
  intros [_ Hfaces] Hr. unfold MeshValidator._check_manifold.
  assert (Mesh.validate_manifold m1 = Mesh.validate_manifold m2) as ->.
  { unfold Mesh.validate_manifold, Mesh.edge_count. by rewrite Hfaces. }
  destruct (Mesh.validate_manifold m2). by apply agree_add_check.
Qed.

Lemma dimensions_agree m1 m2 r1 r2 :
  same_geometry m1 m2 → agree r1 r2 →
  agree (MeshValidator._check_dimensions ops m1 r1)
        (MeshValidator._check_dimensions ops m2 r2).
Proof.
  intros Hgeo Hr. pose proof (same_geometry_length m1 m2 Hgeo) as Hlen.
  destruct Hgeo as [Hpos _]. unfold MeshValidator._check_dimensions.
  rewrite Hpos.
  destruct (Mesh.vertices m1) as [|v1 vs1], (Mesh.vertices m2) as [|v2 vs2];
    try discriminate Hlen.
  - by apply agree_add_check.
  - destruct (flt ops _ _).
    + eapply agree_trans; [apply agree_add_warning|].
      eapply agree_trans; [by apply agree_add_check|].
      apply agree_sym, agree_add_warning.
    + by apply agree_add_check.
Qed.

Lemma vertex_positions_agree m1 m2 r1 r2 :
  same_geometry m1 m2 → agree r1 r2 →
  agree (MeshValidator._check_vertex_positions ops m1 r1)
        (MeshValidator._check_vertex_positions ops m2 r2).
Proof.
  intros [Hpos _] Hr. unfold MeshValidator._check_vertex_positions.
  rewrite Hpos. by apply agree_add_check.
Qed.

Lemma numerical_validity_agree m1 m2 r1 r2 :
  agree r1 r2 →
  agree (MeshValidator._check_numerical_validity ops m1 r1)
        (MeshValidator._check_numerical_validity ops m2 r2).
Proof.
  intros Hr. unfold MeshValidator._check_numerical_validity.
  apply agree_add_check.
  eapply agree_trans; [apply agree_warn_first_invalid|].
  eapply agree_trans; [exact Hr|]. apply agree_sym, agree_warn_first_invalid.
Qed.

Lemma mesh_validate_agree m1 m2 :
  same_geometry m1 m2 →
  agree (MeshValidator.validate ops m1) (MeshValidator.validate ops m2).
Proof.
  intros Hgeo. unfold MeshValidator.validate.
  apply numerical_validity_agree, vertex_positions_agree, dimensions_agree,
    manifold_agree, geometry_count_agree; done.
Qed.

Lemma cutaway_validate_same m1 m2 :
  same_geometry m1 m2 →
  CutawayValidator.validate ops m1 = CutawayValidator.validate ops m2.
Proof.
  intros Hgeo. pose proof (same_geometry_length m1 m2 Hgeo) as Hlen.
  destruct Hgeo as [Hpos _].
  unfold CutawayValidator.validate, CutawayValidator._check_no_roof,
    CutawayValidator._check_open_top, CutawayValidator._check_floor_exists,
    CutawayValidator.z_values.
  rewrite Hpos, Hlen.
  by destruct (Mesh.vertices m1) as [|v1 vs1], (Mesh.vertices m2) as [|v2 vs2];
    try discriminate Hlen.
Qed.

Lemma merge_agree prefix c1 c2 s1 s2 :
  agree c1 c2 → agree s1 s2 →
  agree (ComprehensiveValidator.merge prefix c1 s1)
        (ComprehensiveValidator.merge prefix c2 s2).
Proof.
  intros Hc (_ & Hchecks & _). unfold ComprehensiveValidator.merge.
  rewrite Hchecks.
  assert (∀ ws r, agree (foldl (λ r w, ValidationResult.add_warning r (prefix +:+ w)) r ws) r)
    as Hwarn.
  { induction ws as [|w ws IH]; intros r; simpl; [apply agree_refl|].
    eapply agree_trans; [apply IH | apply agree_add_warning]. }
  eapply agree_trans; [apply Hwarn|].
  eapply agree_trans; [|apply agree_sym, Hwarn].
  clear Hchecks. revert c1 c2 Hc.
  induction (ValidationResult.checks s2) as [|[[name passed] msg] cs IH];
    intros c1 c2 Hc; simpl; [done|].
  by apply IH, agree_add_check.
Qed.

(** The verdict of stage 8 does not depend on the normals of the mesh. *)
Lemma stage8_verdict_same str_of_exception m1 m2 wall_graph room_set wall_count :
  same_geometry m1 m2 →
  (ComprehensiveValidator.stage8_validation ops str_of_exception m1
     wall_graph room_set wall_count).1
  = (ComprehensiveValidator.stage8_validation ops str_of_exception m2
       wall_graph room_set wall_count).1.
Proof.
  intros Hgeo.
  unfold ComprehensiveValidator.stage8_validation, ComprehensiveValidator.validate_all.
  destruct (ArchitectureValidator.validate _) as [arch|e]; simpl; [|done].
  rewrite (cutaway_validate_same m1 m2 Hgeo).
  apply merge_agree; [|apply agree_refl].
  apply merge_agree; [|apply agree_refl].
  apply merge_agree; [apply agree_refl|]. by apply mesh_validate_agree.
Qed.

End ValidatorFacts.

Lemma warn_first_invalid_fields {F} (ops : float_ops F) (vertices : list (Vertex.t F)) :
  ∀ i r,
    let r' := MeshValidator.warn_first_invalid ops i vertices r in
    ValidationResult.passed r' = ValidationResult.passed r
    ∧ ValidationResult.checks r' = ValidationResult.checks r
    ∧ ValidationResult.errors r' = ValidationResult.errors r
    ∧ ∃ ws, ValidationResult.warnings r' = ValidationResult.warnings r ++ ws
            ∧ (length ws ≤ 1)%nat.
Proof.
  induction vertices as [|v vs IH]; intros i r; simpl.
  - repeat split. exists []. split; [by rewrite app_nil_r | simpl; lia].
  - destruct (MeshValidator.invalid_normal ops v); [|apply IH].
    repeat split. eexists [_]. split; [reflexivity | simpl; lia].
Qed.

(** C10.  [_check_numerical_validity] records the check 'Numerical
    Validity' with [passed = True] whatever the normals are: it leaves the
    verdict and the error list of the result as they were and adds at most
    one warning; it is the last check of [MeshValidator.validate]; and the
    verdict of stage 8 is the same for two meshes that differ in their
    normals only. *)
Theorem numerical_validity_check_always_passes {F : Type} `{Countable F}
    (ops : float_ops F) (mesh : Mesh.t F) (result : ValidationResult.t) :
  let result' := MeshValidator._check_numerical_validity ops mesh result in
  ValidationResult.checks result'
  = ValidationResult.checks result
    ++ [("Numerical Validity", true, "No critical numerical errors")]
  ∧ ValidationResult.passed result' = ValidationResult.passed result
  ∧ ValidationResult.errors result' = ValidationResult.errors result
  ∧ (∃ ws, ValidationResult.warnings result' = ValidationResult.warnings result ++ ws
           ∧ (length ws ≤ 1)%nat)
  ∧ list.last (ValidationResult.checks (MeshValidator.validate ops mesh))
    = Some ("Numerical Validity", true, "No critical numerical errors")
  ∧ (∀ mesh2 str_of_exception wall_graph room_set wall_count,
       same_geometry mesh mesh2 →
       (ComprehensiveValidator.stage8_validation ops str_of_exception mesh
          wall_graph room_set wall_count).1
       = (ComprehensiveValidator.stage8_validation ops str_of_exception mesh2
            wall_graph room_set wall_count).1).
Proof.
  intros result'. subst result'.
  unfold MeshValidator.validate, MeshValidator._check_numerical_validity.
  split; [|split; [|split; [|split; [|split]]]].
  - destruct (warn_first_invalid_fields ops (Mesh.vertices mesh) 0 result)
      as (_ & Hchecks & _). simpl. by rewrite Hchecks.
  - by destruct (warn_first_invalid_fields ops (Mesh.vertices mesh) 0 result) as (Hp & _).
  - by destruct (warn_first_invalid_fields ops (Mesh.vertices mesh) 0 result)
      as (_ & _ & He & _).
  - by destruct (warn_first_invalid_fields ops (Mesh.vertices mesh) 0 result)
      as (_ & _ & _ & Hw).
  - simpl. apply last_snoc.
  - intros mesh2 str_of_exception wall_graph room_set wall_count Hgeo.
    by apply stage8_verdict_same.
Qed.

(** Floats as the rationals and one more value, the NaN; of the
    operations only the test for it matters here. *)
Definition nan_ops : float_ops (option Qc) :=
  {| isnan := λ x, bool_decide (x = None);
     isinf := λ _, false;
     fmax := λ _, None;
     fptp := λ _, None;
     fabs := λ x, x;
     flt := λ _ _, false;
     fgt := λ _ _, false;
     fge := λ _ _, false;
     fmt_2f := λ _, "nan" |}.

(** A mesh of one vertex whose normal is all NaN. *)
Definition nan_normal_mesh : Mesh.t (option Qc) :=
  {| Mesh.name := "mesh";
     Mesh.vertices := [ {| Vertex.position := (Some (Q2Qc 0), Some (Q2Qc 0), Some (Q2Qc 0));
                           Vertex.normal := (None, None, None) |} ];
     Mesh.faces := [];
     Mesh.vertex_hash_map := ∅ |}.

Lemma numerical_validity_check_always_passes_witness :
  let result :=
    MeshValidator._check_numerical_validity nan_ops nan_normal_mesh ValidationResult.init in
  ValidationResult.passed result = true
  ∧ ValidationResult.errors result = []
  ∧ ValidationResult.checks result
    = [("Numerical Validity", true, "No critical numerical errors")]
  ∧ ValidationResult.warnings result = ["Vertex 0 has invalid normal"].
Proof.
  destruct (numerical_validity_check_always_passes nan_ops nan_normal_mesh
              ValidationResult.init) as (Hchecks & Hpassed & Herrors & _).
  cbv zeta. rewrite Hpassed, Herrors, Hchecks.
  split; [reflexivity|]. split; [reflexivity|]. split; [reflexivity|].
  vm_compute. reflexivity.
Defined.

(** ** Facts on stage 9 *)

Section Bytes.

Lemma Z_of_byte_of_Z (z : Z) : Z_of_byte (byte_of_Z z) = z `mod` 256.
Proof.
  unfold Z_of_byte, byte_of_Z.
  pose proof (Z.mod_pos_bound z 256 eq_refl) as Hz.
  destruct (Byte.of_N (Z.to_N (z `mod` 256))) as [b|] eqn:Hb; simpl.
  - apply Byte.to_of_N in Hb. rewrite Hb. lia.
  - apply Byte.of_N_None_iff in Hb. lia.
Qed.

(** Reading back an unsigned 32-bit integer. *)
Lemma le32_decode_le32 (n : Z) : 0 ≤ n < 2 ^ 32 → le32_decode (le32 n) = n.
Proof.
  intros Hn. unfold le32_decode, le32.
  rewrite !Z_of_byte_of_Z, !Z.shiftr_div_pow2, !Z.shiftl_mul_pow2 by lia.
  change (2 ^ 8) with 256. change (2 ^ 16) with 65536. change (2 ^ 24) with 16777216.
  change (2 ^ 32) with 4294967296 in Hn.
  Z.to_euclidean_division_equations. lia.
Qed.

Lemma length_le32 (n : Z) : length (le32 n) = 4%nat.
Proof. reflexivity. Qed.

Definition uint32 (v : Z) : Prop := 0 ≤ v < 2 ^ 32.

Lemma struct_pack_I_spec (values : list Z) :
  struct_pack_I values
  = if bool_decide (Forall uint32 values) then Ret (values ≫= le32)
    else Raise StructError.
Proof.
  induction values as [|v rest IH]; cbn [struct_pack_I].
  - by rewrite bool_decide_eq_true_2.
  - rewrite IH. change (0 ≤ v < 2 ^ 32) with (uint32 v).
    destruct (decide (uint32 v)) as [Hv|Hv].
    + rewrite (bool_decide_eq_true_2 _ Hv).
      destruct (decide (Forall uint32 rest)) as [Hr|Hr].
      * rewrite (bool_decide_eq_true_2 _ Hr). simpl.
        by rewrite bool_decide_eq_true_2 by by constructor.
      * rewrite (bool_decide_eq_false_2 _ Hr). simpl.
        rewrite bool_decide_eq_false_2; [done|]. by intros [_ ?]%list.Forall_cons.
    + rewrite (bool_decide_eq_false_2 _ Hv).
      rewrite bool_decide_eq_false_2; [done|]. by intros [? _]%list.Forall_cons.
Qed.

Lemma padding_aligns (len : nat) :
  (padding len < 4)%nat ∧ ((len + padding len) `mod` 4 = 0)%nat.
Proof.
  unfold padding.
  assert (∀ r, (r < 4)%nat →
            ((4 - r) `mod` 4 < 4)%nat ∧ ((r + (4 - r) `mod` 4) `mod` 4 = 0)%nat) as Hr.
  { intros r Hlt. do 4 (destruct r as [|r]; [by split; [vm_compute; lia|]|]). lia. }
  destruct (Hr (len `mod` 4)%nat) as [Hlt Hmod]; [by apply Nat.mod_upper_bound|].
  split; [exact Hlt|]. by rewrite <- Nat.Div0.add_mod_idemp_l.
Qed.

End Bytes.

(** The file the exporter is to write, from the bytes of the JSON
    document and the bytes of the geometry buffer: a header of three
    little-endian unsigned 32-bit integers, then the JSON chunk and the
    binary chunk, each with its length, its type tag and its padded data. *)
Definition padded (data : list byte) (pad : byte) : list byte :=
  data ++ replicate (padding (length data)) pad.

Definition chunk (type_tag : Z) (data : list byte) : list byte :=
  le32 (Z.of_nat (length data)) ++ le32 type_tag ++ data.

Definition JSON_CHUNK : Z := 0x4E4F534A.
Definition BIN_CHUNK : Z := 0x004E4942.

Definition glb_file (json payload : list byte) : list byte :=
  let chunks := chunk JSON_CHUNK (padded json Byte.x20)
                ++ chunk BIN_CHUNK (padded payload Byte.x00) in
  le32 GLTF_MAGIC ++ le32 GLTF_VERSION ++ le32 (Z.of_nat (12 + length chunks)) ++ chunks.

Lemma length_chunk (type_tag : Z) (data : list byte) :
  length (chunk type_tag data) = (8 + length data)%nat.
Proof. unfold chunk. rewrite !length_app, !length_le32. lia. Qed.

Lemma length_glb_file (json payload : list byte) :
  length (glb_file json payload)
  = (12 + length (chunk JSON_CHUNK (padded json Byte.x20))
     + length (chunk BIN_CHUNK (padded payload Byte.x00)))%nat.
Proof. unfold glb_file. cbv zeta. rewrite !length_app, !length_le32. lia. Qed.

Lemma uint32_of_nat (n : nat) : Z.of_nat n < 2 ^ 32 → uint32 (Z.of_nat n).
Proof. unfold uint32. lia. Qed.

Lemma uint32_pair (a b : Z) : uint32 a → uint32 b → Forall uint32 [a; b].
Proof. intros Ha Hb. rewrite !list.Forall_cons, list.Forall_nil. tauto. Qed.

Lemma uint32_triple (a b c : Z) : uint32 a → uint32 b → uint32 c → Forall uint32 [a; b; c].
Proof. intros Ha Hb Hc. rewrite !list.Forall_cons, list.Forall_nil. tauto. Qed.

(** The three pieces [glb_chunks] returns are those of [glb_file]; packing
    fails exactly when the length of the file does not fit in 32 bits. *)
Lemma glb_chunks_spec {Metadata : Type} (json_dumps : GLBExporter.gltf Metadata → list byte)
    (self : GLBExporter.t) (gltf_dict : GLBExporter.gltf Metadata) :
  let json := json_dumps gltf_dict in
  let payload := GLBExporter.buffer_data self in
  GLBExporter.glb_chunks json_dumps self gltf_dict
  = if bool_decide (Z.of_nat (length (glb_file json payload)) < 2 ^ 32)
    then Ret (le32 GLTF_MAGIC ++ le32 GLTF_VERSION
                ++ le32 (Z.of_nat (length (glb_file json payload))),
              chunk JSON_CHUNK (padded json Byte.x20),
              chunk BIN_CHUNK (padded payload Byte.x00))
    else Raise StructError.
Proof.
  intros json payload. unfold GLBExporter.glb_chunks.
  fold json. fold payload. fold (padded json Byte.x20). fold (padded payload Byte.x00).
  rewrite !struct_pack_I_spec.
  pose proof (length_glb_file json payload) as Hlen.
  rewrite !length_chunk in Hlen.
  assert (uint32 JSON_CHUNK ∧ uint32 BIN_CHUNK ∧ uint32 GLTF_MAGIC ∧ uint32 GLTF_VERSION)
    as (Hj & Hb & Hm & Hv) by (unfold uint32; repeat split; by vm_compute).
  destruct (decide (Z.of_nat (length (glb_file json payload)) < 2 ^ 32)) as [Hfit|Hbig].
  - rewrite (bool_decide_eq_true_2 _ Hfit).
    rewrite (bool_decide_eq_true_2 (Forall uint32 [Z.of_nat (length (padded json Byte.x20)); _]))
      by (apply uint32_pair; [apply uint32_of_nat; lia | exact Hj]).
    cbn [mbind exn_bind]. 
    rewrite (bool_decide_eq_true_2
               (Forall uint32 [Z.of_nat (length (padded payload Byte.x00)); _]))
      by (apply uint32_pair; [apply uint32_of_nat; lia | exact Hb]).
    cbn [mbind exn_bind list_bind]. rewrite !app_nil_r.
    change (le32 (Z.of_nat (length (padded json Byte.x20))) ++ le32 1313821514)
      with (le32 (Z.of_nat (length (padded json Byte.x20))) ++ le32 JSON_CHUNK).
    change (le32 (Z.of_nat (length (padded payload Byte.x00))) ++ le32 5130562)
      with (le32 (Z.of_nat (length (padded payload Byte.x00))) ++ le32 BIN_CHUNK).
    rewrite <- !(assoc_L (++)).
    fold (chunk JSON_CHUNK (padded json Byte.x20)).
    fold (chunk BIN_CHUNK (padded payload Byte.x00)).
    rewrite <- length_glb_file, struct_pack_I_spec.
    rewrite bool_decide_eq_true_2
      by (apply uint32_triple; [exact Hm | exact Hv | by apply uint32_of_nat]).
    cbn [mbind exn_bind list_bind]. by rewrite app_nil_r.
  - rewrite (bool_decide_eq_false_2 _ Hbig).
    destruct (bool_decide (Forall uint32 [Z.of_nat (length (padded json Byte.x20)); _]));
      cbn [mbind exn_bind]; [|done].
    destruct (bool_decide (Forall uint32 [Z.of_nat (length (padded payload Byte.x00)); _]));
      cbn [mbind exn_bind]; [|done].
    rewrite struct_pack_I_spec, bool_decide_eq_false_2; [done|].
    rewrite !list.Forall_cons. intros (_ & _ & [_ Hsize] & _). apply Hbig.
    cbn [list_bind] in Hsize. rewrite !length_app, !length_le32 in Hsize.
    simpl in Hsize. lia.
Qed.

(** C8.  The file [_write_glb_file] writes is [glb_file] of the JSON
    bytes and the buffer: it starts with the 12-byte header made of the
    magic constant (the bytes "glTF"), the version 2 and the length of the
    whole file, each as a little-endian unsigned 32-bit integer; the JSON
    chunk follows, with its length, its type tag and the JSON padded with
    spaces to a multiple of four bytes, then the binary chunk padded with
    zero bytes; and the declared length is 12 plus the lengths of the two
    chunks.  The call returns [True] exactly when that length fits in 32
    bits and the file system accepts the file. *)
Theorem glb_file_has_header_and_two_chunks {Metadata FS : Type}
    (json_dumps : GLBExporter.gltf Metadata → list byte)
    (write_file : string → list byte → FS → option FS)
    (self : GLBExporter.t) (output_path : string)
    (gltf_dict : GLBExporter.gltf Metadata) (fs : FS) :
  let json := json_dumps gltf_dict in
  let payload := GLBExporter.buffer_data self in
  let file := glb_file json payload in
  (∀ fs', GLBExporter._write_glb_file json_dumps write_file self output_path gltf_dict fs
          = Ret (true, fs')
          ↔ Z.of_nat (length file) < 2 ^ 32 ∧ write_file output_path file fs = Some fs')
  ∧ file = (le32 GLTF_MAGIC ++ le32 GLTF_VERSION ++ le32 (Z.of_nat (length file)))
           ++ chunk JSON_CHUNK (padded json Byte.x20)
           ++ chunk BIN_CHUNK (padded payload Byte.x00)
  ∧ length file = (12 + length (chunk JSON_CHUNK (padded json Byte.x20))
                   + length (chunk BIN_CHUNK (padded payload Byte.x00)))%nat
  ∧ take 4 file = [Byte.x67; Byte.x6c; Byte.x54; Byte.x46]
  ∧ le32_decode (take 4 file) = GLTF_MAGIC
  ∧ le32_decode (take 4 (drop 4 file)) = 2
  ∧ (Z.of_nat (length file) < 2 ^ 32 →
     le32_decode (take 4 (drop 8 file)) = Z.of_nat (length file))
  ∧ (∃ n, padded json Byte.x20 = json ++ replicate n Byte.x20 ∧ (n < 4)%nat)
  ∧ (∃ n, padded payload Byte.x00 = payload ++ replicate n Byte.x00 ∧ (n < 4)%nat)
  ∧ (length (padded json Byte.x20) `mod` 4 = 0)%nat
  ∧ (length (padded payload Byte.x00) `mod` 4 = 0)%nat.
Proof.
  intros json payload file.
  assert (file = (le32 GLTF_MAGIC ++ le32 GLTF_VERSION ++ le32 (Z.of_nat (length file)))
                 ++ chunk JSON_CHUNK (padded json Byte.x20)
                 ++ chunk BIN_CHUNK (padded payload Byte.x00)) as Hfile.
  { unfold file at 1. unfold glb_file. cbv zeta.
    rewrite <- !(assoc_L (++)). reflexivity. }
  split; [|split; [exact Hfile|]].
  - intros fs'. unfold GLBExporter._write_glb_file.
    rewrite glb_chunks_spec. fold json. fold payload. fold file.
    destruct (decide (Z.of_nat (length file) < 2 ^ 32)) as [Hfit|Hbig].
    + rewrite (bool_decide_eq_true_2 _ Hfit). cbn [mbind exn_bind].
      rewrite <- Hfile.
      destruct (write_file output_path file fs) as [fs1|]; split.
      * intros [= <-]. by split.
      * by intros [_ [= <-]].
      * intros [=].
      * by intros [_ [=]].
    + rewrite (bool_decide_eq_false_2 _ Hbig). cbn [mbind exn_bind].
      split; [intros [=] | by intros [? _]].
  - split; [apply length_glb_file|].
    split; [reflexivity|]. split; [reflexivity|]. split; [reflexivity|].
    split.
    { intros Hfit.
      transitivity (le32_decode (le32 (Z.of_nat (length file)))); [reflexivity|].
      apply le32_decode_le32. lia. }
    pose proof (padding_aligns (length json)) as [Hj1 Hj2].
    pose proof (padding_aligns (length payload)) as [Hb1 Hb2].
    unfold padded. rewrite !length_app, !length_replicate.
    split; [by eexists|]. split; [by eexists|]. by split.
Qed.

(** A file system that keeps what was written last at each path, an
    exporter whose buffer holds three bytes, and a JSON document of two. *)
Definition recording_fs : Type := list (string * list byte).

Definition record_file (path : string) (content : list byte) (fs : recording_fs)
    : option recording_fs :=
  Some ((path, content) :: fs).

Definition three_byte_exporter : GLBExporter.t (Metadata := unit) :=
  {| GLBExporter.mesh := Mesh.init "mesh"; GLBExporter.metadata := None;
     GLBExporter.buffer_data := [Byte.x01; Byte.x02; Byte.x03];
     GLBExporter.buffer_views := []; GLBExporter.accessors_ := [];
     GLBExporter.materials_ := []; GLBExporter.primitives := [];
     GLBExporter.meshes_ := []; GLBExporter.nodes_ := [] |}.

Definition braces (_ : GLBExporter.gltf unit) : list byte := [Byte.x7b; Byte.x7d].

Lemma glb_file_has_header_and_two_chunks_witness :
  GLBExporter._write_glb_file braces record_file three_byte_exporter "out.glb"
    (GLBExporter._build_gltf_dict three_byte_exporter) []
  = Ret (true,
         [("out.glb",
           [ Byte.x67; Byte.x6c; Byte.x54; Byte.x46;  Byte.x02; Byte.x00; Byte.x00; Byte.x00;
             Byte.x24; Byte.x00; Byte.x00; Byte.x00;
             Byte.x04; Byte.x00; Byte.x00; Byte.x00;  Byte.x4a; Byte.x53; Byte.x4f; Byte.x4e;
             Byte.x7b; Byte.x7d; Byte.x20; Byte.x20;
             Byte.x04; Byte.x00; Byte.x00; Byte.x00;  Byte.x42; Byte.x49; Byte.x4e; Byte.x00;
             Byte.x01; Byte.x02; Byte.x03; Byte.x00 ])]).
Proof.
  destruct (glb_file_has_header_and_two_chunks braces record_file three_byte_exporter
              "out.glb" (GLBExporter._build_gltf_dict three_byte_exporter) [])
    as [Hwrite _].
  apply Hwrite. split; [vm_compute; reflexivity|].
  unfold record_file. do 3 f_equal.
Defined.

(** * Further properties of the pipeline

    ** The wall graph ([pipeline/stage3_topology_extraction.py]) *)

Section GraphEdges.

(** Some edge of the graph joins [u] and [v], in one direction or the
    other. *)
Definition joined (g : WallTopologyGraph.t) (u v : nat) : Prop :=
  ∃ k e, WallTopologyGraph.edges g !! k = Some e
         ∧ ((WallEdge.vertex_a e = u ∧ WallEdge.vertex_b e = v)
            ∨ (WallEdge.vertex_a e = v ∧ WallEdge.vertex_b e = u)).

Lemma neighbour_in_dom adj u v : neighbour adj u v → u ∈ dom adj.
Proof. intros (ns & Hu & _). apply elem_of_dom. eauto. Qed.

Lemma constructed_adjacency_edges (g : WallTopologyGraph.t) :
  WallTopologyGraph.constructed g →
  ∀ u v, neighbour (WallTopologyGraph.adjacency g) u v ↔ joined g u v.
Proof.
  induction 1 as [|g position is_junction is_corner Hg IH
                  |g a b len pts e g' Hg IH Hadd]; intros u v.
  - unfold neighbour, joined. simpl. split.
    + intros (ns & Hu & _). by rewrite lookup_empty in Hu.
    + intros (k & e & He & _). by rewrite lookup_empty in He.
  - pose proof (constructed_invariant g Hg) as Hinv.
    change (joined (WallTopologyGraph.add_vertex g position is_junction is_corner).2 u v)
      with (joined g u v).
    rewrite <- IH. unfold neighbour. simpl. split.
    + intros (ns & Hu & Hin). rewrite lookup_insert in Hu. case_decide as Hk.
      * injection Hu as <-. by apply not_elem_of_empty in Hin.
      * by exists ns.
    + intros (ns & Hu & Hin). exists ns. split; [|done].
      rewrite lookup_insert_ne; [done|]. intros <-.
      assert (WallTopologyGraph.vertex_counter g ∈ dom (WallTopologyGraph.adjacency g)) as Hd
        by (apply elem_of_dom; eauto).
      rewrite (inv_adjacency_dom g Hinv), (inv_vertices_dom g Hinv) in Hd. lia.
  - pose proof (constructed_invariant g Hg) as Hinv.
    destruct (add_edge_neighbour _ _ _ _ _ _ _ Hadd) as (_ & _ & _ & Hnb).
    destruct (add_edge_fields _ _ _ _ _ _ _ Hadd) as (_ & _ & _ & Hedges).
    rewrite Hnb, IH. unfold joined. rewrite Hedges.
    assert (WallTopologyGraph.edges g !! WallTopologyGraph.edge_counter g = None) as Hfresh.
    { apply not_elem_of_dom. rewrite (inv_edges_dom g Hinv). lia. }
    split.
    + intros [(k & e0 & He0 & Hends) | Hnew].
      * exists k, e0. split; [|done]. rewrite lookup_insert_ne; [done|]. congruence.
      * eexists _, _. split; [apply lookup_insert_eq|]. simpl.
        destruct Hnew as [[-> ->]|[-> ->]]; auto.
    + intros (k & e0 & He0 & Hends). rewrite lookup_insert in He0.
      case_decide as Hk.
      * injection He0 as <-. simpl in Hends. right.
        destruct Hends as [[<- <-]|[<- <-]]; auto.
      * left. by exists k, e0.
Qed.

End GraphEdges.

(** X1.  In a wall graph built by [add_vertex] and [add_edge], every
    vertex is stored under its own id, the ids are the numbers below the
    counter, the adjacency mapping has the same keys as the vertices, it is
    symmetric, and two vertices are adjacent exactly when some edge joins
    them. *)
Theorem wall_graph_adjacency_mirrors_edges (g : WallTopologyGraph.t) :
  WallTopologyGraph.constructed g →
  (∀ k, is_Some (WallTopologyGraph.vertices g !! k)
        ↔ (k < WallTopologyGraph.vertex_counter g)%nat)
  ∧ (∀ k v, WallTopologyGraph.vertices g !! k = Some v → WallVertex.id v = k)
  ∧ dom (WallTopologyGraph.adjacency g) = dom (WallTopologyGraph.vertices g)
  ∧ (∀ u v, neighbour (WallTopologyGraph.adjacency g) u v
            → neighbour (WallTopologyGraph.adjacency g) v u)
  ∧ (∀ u v, neighbour (WallTopologyGraph.adjacency g) u v ↔ joined g u v).
Proof.
  intros Hg. pose proof (constructed_invariant g Hg) as Hinv.
  split; [|split; [|split; [|split]]].
  - intros k. rewrite <- elem_of_dom. apply (inv_vertices_dom g Hinv).
  - apply (inv_vertex_id g Hinv).
  - apply (inv_adjacency_dom g Hinv).
  - apply (inv_symmetric g Hinv).
  - by apply constructed_adjacency_edges.
Qed.

Lemma wall_graph_adjacency_mirrors_edges_witness :
  ∃ g, three_vertex_graph = Ret g
       ∧ (∀ u v, neighbour (WallTopologyGraph.adjacency g) u v ↔ joined g u v)
       ∧ dom (WallTopologyGraph.adjacency g) = dom (WallTopologyGraph.vertices g).
Proof.
  assert (validates three_vertex_graph = true) as Hacc by (vm_compute; reflexivity).
  pose proof three_vertex_graph_constructed as Hcons.
  destruct three_vertex_graph as [g|]; [|discriminate Hacc].
  destruct (wall_graph_adjacency_mirrors_edges g (Hcons g eq_refl))
    as (_ & _ & Hdom & _ & Hjoined).
  by exists g.
Defined.

(** X2.  On such a graph [add_edge] returns exactly when both ends are
    vertices of the graph: the edge then gets the next edge id and
    the graph has one more edge; otherwise the lookup in the adjacency
    mapping raises [KeyError]. *)
Theorem add_edge_needs_both_vertices (g : WallTopologyGraph.t) (a b : nat)
    (length_px : Qc) (points : list (Qc * Qc)) :
  WallTopologyGraph.constructed g →
  ((a < WallTopologyGraph.vertex_counter g)%nat
   ∧ (b < WallTopologyGraph.vertex_counter g)%nat →
   ∃ e g', WallTopologyGraph.add_edge g a b length_px points = Ret (e, g')
           ∧ WallEdge.id e = WallTopologyGraph.edge_counter g
           ∧ WallTopologyGraph.edges g' !! WallEdge.id e = Some e
           ∧ size (WallTopologyGraph.edges g') = S (size (WallTopologyGraph.edges g))
           ∧ WallTopologyGraph.constructed g')
  ∧ (¬ ((a < WallTopologyGraph.vertex_counter g)%nat
        ∧ (b < WallTopologyGraph.vertex_counter g)%nat) →
     WallTopologyGraph.add_edge g a b length_px points = Raise KeyError).
Proof.
  intros Hg. pose proof (constructed_invariant g Hg) as Hinv. split.
  - intros [Ha Hb].
    destruct (add_edge_succeeds g a b length_px points) as (e & g' & Hadd).
    { rewrite (inv_adjacency_dom g Hinv). by apply (inv_vertices_dom g Hinv). }
    { rewrite (inv_adjacency_dom g Hinv). by apply (inv_vertices_dom g Hinv). }
    exists e, g'. split; [done|].
    destruct (add_edge_fields _ _ _ _ _ _ _ Hadd) as (_ & _ & _ & Hedges).
    assert (WallTopologyGraph.edges g !! WallTopologyGraph.edge_counter g = None) as Hfresh.
    { apply not_elem_of_dom. rewrite (inv_edges_dom g Hinv). lia. }
    assert (e = {| WallEdge.id := WallTopologyGraph.edge_counter g;
                   WallEdge.vertex_a := a; WallEdge.vertex_b := b;
                   WallEdge.length_px := length_px; WallEdge.points := points |}) as ->.
    { revert Hadd. unfold WallTopologyGraph.add_edge.
      destruct (WallTopologyGraph.adjacency_at _ a); simpl; [|done].
      destruct (WallTopologyGraph.adjacency_at _ b); simpl; [|done]. by intros [= <- _]. }
    simpl. rewrite Hedges. split; [done|]. split; [apply lookup_insert_eq|].
    split; [by rewrite map_size_insert_None|].
    by eapply WallTopologyGraph.constructed_add_edge.
  - intros Hout. unfold WallTopologyGraph.add_edge, WallTopologyGraph.adjacency_at.
    destruct (WallTopologyGraph.adjacency g !! a) as [adj_a|] eqn:Ha; simpl; [|done].
    destruct (<[a:=_]> (WallTopologyGraph.adjacency g) !! b) as [adj_b|] eqn:Hb;
      simpl; [|done].
    destruct Hout. split.
    + apply (inv_vertices_dom g Hinv). rewrite <- (inv_adjacency_dom g Hinv).
      apply elem_of_dom. eauto.
    + apply (inv_vertices_dom g Hinv). rewrite <- (inv_adjacency_dom g Hinv).
      rewrite lookup_insert in Hb. case_decide as Hab.
      * subst b. apply elem_of_dom. eauto.
      * apply elem_of_dom. eauto.
Qed.

Lemma add_edge_needs_both_vertices_witness :
  WallTopologyGraph.add_edge
    (with_vertices [(Q2Qc 0, Q2Qc 0, false, false); (Q2Qc 100, Q2Qc 0, false, false)])
    0 2 (Q2Qc 100) [] = Raise KeyError.
Proof.
  apply add_edge_needs_both_vertices; [apply with_vertices_constructed|].
  vm_compute. intros [_ Hlt]. by apply Nat.leb_le in Hlt.
Defined.

Section GraphDegrees.

Lemma omap_seq_lookup {A} (f : nat → option A) (n : nat) :
  (∀ k, (k < n)%nat → is_Some (f k)) →
  length (omap f (seq 0 n)) = n
  ∧ ∀ k, (k < n)%nat → omap f (seq 0 n) !! k = f k.
Proof.
  induction n as [|n IH]; intros Hf; [split; [done | intros; lia]|].
  destruct IH as [Hlen Hlook]; [intros; apply Hf; lia|].
  destruct (Hf n) as [x Hx]; [lia|].
  rewrite seq_S, omap_app. simpl. rewrite Hx. split.
  - rewrite length_app, Hlen. simpl. lia.
  - intros k Hk. destruct (decide (k = n)) as [->|Hne].
    + rewrite lookup_app_r by lia. rewrite Hlen, Nat.sub_diag. by rewrite Hx.
    + rewrite lookup_app_l by lia. apply Hlook. lia.
Qed.

(** On a graph that keeps its invariant the values of the vertices, in
    iteration order, are the vertices by increasing id. *)
Lemma vertex_values_lookup (g : WallTopologyGraph.t) :
  graph_invariant g →
  length (WallTopologyGraph.vertex_values g) = WallTopologyGraph.vertex_counter g
  ∧ ∀ k, WallTopologyGraph.vertex_values g !! k = WallTopologyGraph.vertices g !! k.
Proof.
  intros Hinv. unfold WallTopologyGraph.vertex_values.
  destruct (omap_seq_lookup (λ k, WallTopologyGraph.vertices g !! k)
              (WallTopologyGraph.vertex_counter g)) as [Hlen Hlook].
  { intros k Hk. apply elem_of_dom, (inv_vertices_dom g Hinv), Hk. }
  split; [done|]. intros k.
  destruct (decide (k < WallTopologyGraph.vertex_counter g)%nat) as [Hk|Hk];
    [by apply Hlook|].
  rewrite lookup_ge_None_2 by lia. symmetry.
  apply not_elem_of_dom. rewrite (inv_vertices_dom g Hinv). lia.
Qed.

Lemma vertex_values_unique (g : WallTopologyGraph.t) (l : list WallVertex.t) :
  graph_invariant g →
  (∀ k, l !! k = WallTopologyGraph.vertices g !! k) →
  WallTopologyGraph.vertex_values g = l.
Proof.
  intros Hinv Hl. apply list_eq. intros k.
  destruct (vertex_values_lookup g Hinv) as [_ ->]. by rewrite Hl.
Qed.

Lemma edge_values_lookup (g : WallTopologyGraph.t) :
  graph_invariant g →
  length (WallTopologyGraph.edge_values g) = WallTopologyGraph.edge_counter g
  ∧ ∀ k, WallTopologyGraph.edge_values g !! k = WallTopologyGraph.edges g !! k.
Proof.
  intros Hinv. unfold WallTopologyGraph.edge_values.
  destruct (omap_seq_lookup (λ k, WallTopologyGraph.edges g !! k)
              (WallTopologyGraph.edge_counter g)) as [Hlen Hlook].
  { intros k Hk. apply elem_of_dom, (inv_edges_dom g Hinv), Hk. }
  split; [done|]. intros k.
  destruct (decide (k < WallTopologyGraph.edge_counter g)%nat) as [Hk|Hk];
    [by apply Hlook|].
  rewrite lookup_ge_None_2 by lia. symmetry.
  apply not_elem_of_dom. rewrite (inv_edges_dom g Hinv). lia.
Qed.

(** The sum of the [degree] counters of the vertices. *)
Definition total_degree (g : WallTopologyGraph.t) : nat :=
  sum_list_with WallVertex.degree (WallTopologyGraph.vertex_values g).

Lemma sum_degree_alter (l : list WallVertex.t) (i : nat) :
  (i < length l)%nat →
  sum_list_with WallVertex.degree (list_alter WallVertex.incr_degree i l)
  = S (sum_list_with WallVertex.degree l).
Proof.
  revert i. induction l as [|v l IH]; intros i Hi; simpl in *; [lia|].
  destruct i as [|i]; simpl; [lia|]. rewrite IH by lia. lia.
Qed.

Lemma constructed_sizes (g : WallTopologyGraph.t) :
  WallTopologyGraph.constructed g →
  size (WallTopologyGraph.vertices g) = WallTopologyGraph.vertex_counter g
  ∧ size (WallTopologyGraph.edges g) = WallTopologyGraph.edge_counter g.
Proof.
  induction 1 as [|g position is_junction is_corner Hg [IHv IHe]
                  |g a b len pts e g' Hg [IHv IHe] Hadd].
  - simpl. by rewrite !map_size_empty.
  - pose proof (constructed_invariant g Hg) as Hinv. simpl.
    split; [|done]. rewrite map_size_insert_None, IHv; [done|].
    apply not_elem_of_dom. rewrite (inv_vertices_dom g Hinv). lia.
  - pose proof (constructed_invariant g Hg) as Hinv.
    destruct (add_edge_fields _ _ _ _ _ _ _ Hadd) as (-> & -> & -> & ->). split.
    + rewrite <- IHv, <- !size_dom. by rewrite !dom_alter_L.
    + rewrite map_size_insert_None, IHe; [done|].
      apply not_elem_of_dom. rewrite (inv_edges_dom g Hinv). lia.
Qed.

Lemma constructed_total_degree (g : WallTopologyGraph.t) :
  WallTopologyGraph.constructed g →
  total_degree g = (2 * WallTopologyGraph.edge_counter g)%nat.
Proof.
  induction 1 as [|g position is_junction is_corner Hg IH
                  |g a b len pts e g' Hg IH Hadd]; [done| |].
  - pose proof (constructed_invariant g Hg) as Hinv.
    pose proof (add_vertex_invariant g position is_junction is_corner Hinv) as Hinv'.
    destruct (vertex_values_lookup g Hinv) as [Hlen Hlook].
    unfold total_degree in *.
    rewrite (vertex_values_unique _
               (WallTopologyGraph.vertex_values g
                ++ [(WallTopologyGraph.add_vertex g position is_junction is_corner).1])
               Hinv').
    + rewrite sum_list_with_app, IH. simpl. lia.
    + intros k. simpl. rewrite lookup_insert. case_decide as Hk.
      * subst k. rewrite lookup_app_r by lia. by rewrite Hlen, Nat.sub_diag.
      * destruct (decide (k < WallTopologyGraph.vertex_counter g)%nat).
        -- rewrite lookup_app_l by lia. apply Hlook.
        -- rewrite lookup_ge_None_2 by (rewrite length_app; simpl; lia).
           symmetry. apply not_elem_of_dom. rewrite (inv_vertices_dom g Hinv). lia.
  - pose proof (constructed_invariant g Hg) as Hinv.
    pose proof (add_edge_invariant _ _ _ _ _ _ _ Hinv Hadd) as Hinv'.
    destruct (vertex_values_lookup g Hinv) as [Hlen Hlook].
    destruct (add_edge_neighbour _ _ _ _ _ _ _ Hadd) as (Ha & Hb & _).
    rewrite (inv_adjacency_dom g Hinv), (inv_vertices_dom g Hinv) in Ha, Hb.
    destruct (add_edge_fields _ _ _ _ _ _ _ Hadd) as (_ & Hcount & Hverts & _).
    unfold total_degree in *.
    rewrite (vertex_values_unique _
               (list_alter WallVertex.incr_degree b
                  (list_alter WallVertex.incr_degree a (WallTopologyGraph.vertex_values g)))
               Hinv').
    + assert (length (list_alter WallVertex.incr_degree a
                        (WallTopologyGraph.vertex_values g))
              = length (WallTopologyGraph.vertex_values g)) as Hlen'
        by apply length_alter.
      rewrite !sum_degree_alter, IH, Hcount; lia.
    + intros k. rewrite Hverts.
      change (list_alter WallVertex.incr_degree b
                (list_alter WallVertex.incr_degree a (WallTopologyGraph.vertex_values g)))
        with (alter WallVertex.incr_degree b
                (alter WallVertex.incr_degree a (WallTopologyGraph.vertex_values g))).
      assert (∀ j, alter WallVertex.incr_degree a (WallTopologyGraph.vertex_values g) !! j
                   = alter WallVertex.incr_degree a (WallTopologyGraph.vertices g) !! j)
        as Hinner.
      { intros j. destruct (decide (a = j)) as [->|Hne].
        - by rewrite lookup_alter_eq, list_lookup_alter_eq, Hlook.
        - by rewrite lookup_alter_ne, list_lookup_alter_ne, Hlook. }
      destruct (decide (b = k)) as [->|Hne].
      * by rewrite lookup_alter_eq, list_lookup_alter_eq, Hinner.
      * by rewrite lookup_alter_ne, list_lookup_alter_ne, Hinner.
Qed.

End GraphDegrees.

(** X3.  In a wall graph built by [add_vertex] and [add_edge] the
    [degree] counters of the vertices add up to twice the number of edges,
    and the two counters of the graph are the numbers of its vertices and
    of its edges. *)
Theorem wall_graph_degrees_count_edge_ends (g : WallTopologyGraph.t) :
  WallTopologyGraph.constructed g →
  total_degree g = (2 * size (WallTopologyGraph.edges g))%nat
  ∧ size (WallTopologyGraph.vertices g) = WallTopologyGraph.vertex_counter g
  ∧ size (WallTopologyGraph.edges g) = WallTopologyGraph.edge_counter g.
Proof.
  intros Hg. destruct (constructed_sizes g Hg) as [Hv He].
  rewrite (constructed_total_degree g Hg), He. done.
Qed.

Lemma wall_graph_degrees_count_edge_ends_witness :
  ∃ g, scenario_d_graph = Ret g
       ∧ total_degree g = 10%nat
       ∧ size (WallTopologyGraph.edges g) = 5%nat.
Proof.
  assert (has_edges scenario_d_graph 5 = true) as Hedges by (vm_compute; reflexivity).
  pose proof (λ g, with_edges_constructed _ _ g (with_vertices_constructed _)
              : scenario_d_graph = Ret g → WallTopologyGraph.constructed g) as Hcons.
  destruct scenario_d_graph as [g|]; [|discriminate Hedges].
  apply bool_decide_eq_true in Hedges.
  destruct (wall_graph_degrees_count_edge_ends g (Hcons g eq_refl)) as (Hdeg & _).
  exists g. split; [done|]. split; [|done]. rewrite Hdeg, Hedges. done.
Defined.

Section GraphValidate.

(** Every vertex of the graph can be reached from every other one. *)
Definition connected (g : WallTopologyGraph.t) : Prop :=
  ∀ u v, u ∈ dom (WallTopologyGraph.vertices g) →
         v ∈ dom (WallTopologyGraph.vertices g) →
         reachable (WallTopologyGraph.adjacency g) u v.

(** [_is_connected] never raises on a graph that keeps its invariant, and
    it answers whether the graph has a vertex and is connected. *)
Lemma is_connected_decides (g : WallTopologyGraph.t) :
  graph_invariant g →
  ∃ b, WallTopologyGraph._is_connected g = Ret b
       ∧ (b = true ↔ (0 < WallTopologyGraph.vertex_counter g)%nat ∧ connected g).
Proof.
  intros Hinv.
  destruct (WallTopologyGraph.vertex_counter g) as [|n] eqn:Hn.
  { exists false. unfold WallTopologyGraph._is_connected.
    rewrite vertex_ids_all, Hn by done. simpl. split; [done|].
    split; [done | intros [? _]; lia]. }
  assert (0%nat ∈ dom (WallTopologyGraph.vertices g)) as H0.
  { apply (inv_vertices_dom g Hinv). lia. }
  destruct (bfs_reachable g 0%nat Hinv H0) as (visited & Hbfs & Hvis).
  assert (visited ⊆ dom (WallTopologyGraph.vertices g)) as Hsub.
  { intros x Hx%Hvis. rewrite <- (inv_adjacency_dom g Hinv).
    eapply reachable_in_dom; [apply (inv_closed g Hinv) | | exact Hx].
    by rewrite (inv_adjacency_dom g Hinv). }
  eexists. split.
  { unfold WallTopologyGraph._is_connected. rewrite vertex_ids_all, Hn by done.
    simpl. rewrite Hbfs. simpl. reflexivity. }
  rewrite bool_decide_eq_true. split.
  - intros Hsize. split; [lia|].
    assert (visited ≡ dom (WallTopologyGraph.vertices g)) as Heq.
    { apply set_subseteq_size_equiv; [done|]. rewrite size_dom. lia. }
    intros u v Hu Hv. unfold reachable. etrans.
    + apply reachable_sym; [apply (inv_symmetric g Hinv)|]. by apply Hvis, Heq.
    + by apply Hvis, Heq.
  - intros [_ Hconn]. rewrite <- size_dom. f_equal. apply set_eq. intros x. split.
    + apply Hsub.
    + intros Hx. apply Hvis. by apply Hconn.
Qed.

Lemma mapM_vertex_at (g : WallTopologyGraph.t) (ks : list nat) :
  graph_invariant g →
  Forall (λ k, k ∈ dom (WallTopologyGraph.vertices g)) ks →
  ∃ l, mapM (WallTopologyGraph.vertex_at g) ks = Ret l
       ∧ WallVertex.id <$> l = ks
       ∧ Forall (λ w, WallTopologyGraph.vertices g !! WallVertex.id w = Some w) l.
Proof.
  intros Hinv. induction 1 as [|k ks [w Hw]%elem_of_dom _ (l & Hl & Hids & Hall)].
  - by exists [].
  - exists (w :: l).
    pose proof (inv_vertex_id g Hinv k w Hw) as Hid.
    assert (WallTopologyGraph.vertex_at g k = Ret w) as Hat
      by (unfold WallTopologyGraph.vertex_at; by rewrite Hw).
    split; [|split].
    + simpl. rewrite Hat. simpl. rewrite Hl. done.
    + rewrite fmap_cons. by rewrite Hid, Hids.
    + constructor; [by rewrite Hid | done].
Qed.

End GraphValidate.

(** X4.  On a wall graph built by [add_vertex] and [add_edge],
    [validate] never raises, and it answers [True] exactly when the graph
    has two vertices, one edge, and every vertex can be reached from every
    other; each of the three failures has its own message. *)
Theorem validate_accepts_exactly_connected_graphs (g : WallTopologyGraph.t) :
  WallTopologyGraph.constructed g →
  ((2 ≤ size (WallTopologyGraph.vertices g))%nat
   ∧ (1 ≤ size (WallTopologyGraph.edges g))%nat ∧ connected g →
   WallTopologyGraph.validate g = Ret (true, "Graph structure valid"))
  ∧ ((size (WallTopologyGraph.vertices g) < 2)%nat →
     WallTopologyGraph.validate g = Ret (false, "Graph has fewer than 2 vertices"))
  ∧ ((2 ≤ size (WallTopologyGraph.vertices g))%nat →
     (size (WallTopologyGraph.edges g) < 1)%nat →
     WallTopologyGraph.validate g = Ret (false, "Graph has no edges"))
  ∧ ((2 ≤ size (WallTopologyGraph.vertices g))%nat →
     (1 ≤ size (WallTopologyGraph.edges g))%nat →
     ¬ connected g →
     WallTopologyGraph.validate g
     = Ret (false, "Graph is not connected (broken wall topology)")).
Proof.
  intros Hg. pose proof (constructed_invariant g Hg) as Hinv.
  destruct (constructed_sizes g Hg) as [Hsize _].
  destruct (is_connected_decides g Hinv) as (b & Hb & Hiff).
  unfold WallTopologyGraph.validate. rewrite Hb. simpl.
  split; [|split; [|split]].
  - intros (Hv & He & Hconn).
    rewrite !bool_decide_eq_false_2 by lia.
    destruct b; [done|]. destruct Hiff as [_ Hiff].
    discriminate Hiff. split; [lia | done].
  - intros Hv. by rewrite bool_decide_eq_true_2.
  - intros Hv He. rewrite bool_decide_eq_false_2 by lia.
    by rewrite bool_decide_eq_true_2.
  - intros Hv He Hconn. rewrite !bool_decide_eq_false_2 by lia.
    destruct b; [|done]. destruct Hconn. by apply Hiff.
Qed.

Lemma validate_accepts_exactly_connected_graphs_witness :
  WallTopologyGraph.validate
    (with_vertices [(Q2Qc 0, Q2Qc 0, false, false); (Q2Qc 100, Q2Qc 0, false, false)])
  = Ret (false, "Graph has no edges").
Proof.
  apply validate_accepts_exactly_connected_graphs;
    [apply with_vertices_constructed | vm_compute; lia | vm_compute; lia].
Defined.

(** X5.  On such a graph [get_neighbors] of a vertex of the graph returns
    the vertices adjacent to it, each once, and the relation is symmetric:
    a vertex is among the neighbours of each of its neighbours.  For a
    vertex whose id the graph does not know it raises [KeyError]. *)
Theorem get_neighbors_lists_adjacent_vertices
    (g : WallTopologyGraph.t) (vertex : WallVertex.t) :
  WallTopologyGraph.constructed g →
  (WallTopologyGraph.vertices g !! WallVertex.id vertex = Some vertex →
   ∃ l, WallTopologyGraph.get_neighbors g vertex = Ret l
        ∧ NoDup l
        ∧ (∀ w, w ∈ l ↔ WallTopologyGraph.vertices g !! WallVertex.id w = Some w
                        ∧ neighbour (WallTopologyGraph.adjacency g)
                            (WallVertex.id vertex) (WallVertex.id w))
        ∧ (∀ w, w ∈ l →
                ∃ l', WallTopologyGraph.get_neighbors g w = Ret l' ∧ vertex ∈ l'))
  ∧ (WallTopologyGraph.vertices g !! WallVertex.id vertex = None →
     WallTopologyGraph.get_neighbors g vertex = Raise KeyError).
Proof.
  intros Hg. pose proof (constructed_invariant g Hg) as Hinv.
  assert (∀ v, WallTopologyGraph.vertices g !! WallVertex.id v = Some v →
            ∃ l, WallTopologyGraph.get_neighbors g v = Ret l
                 ∧ NoDup l
                 ∧ ∀ w, w ∈ l ↔ WallTopologyGraph.vertices g !! WallVertex.id w = Some w
                                ∧ neighbour (WallTopologyGraph.adjacency g)
                                    (WallVertex.id v) (WallVertex.id w)) as Hlist.
  { intros v Hv.
    assert (WallVertex.id v ∈ dom (WallTopologyGraph.adjacency g)) as [ns Hns]%elem_of_dom.
    { rewrite (inv_adjacency_dom g Hinv). apply elem_of_dom. eauto. }
    destruct (mapM_vertex_at g (elements ns) Hinv) as (l & Hl & Hids & Hall).
    { apply list.Forall_forall. intros k Hk%elem_of_elements.
      rewrite <- (inv_adjacency_dom g Hinv).
      apply (inv_closed g Hinv (WallVertex.id v) k). by exists ns. }
    exists l. split.
    { unfold WallTopologyGraph.get_neighbors, WallTopologyGraph.adjacency_at.
      rewrite Hns. simpl. exact Hl. }
    split.
    { apply (NoDup_fmap_1 WallVertex.id). rewrite Hids. apply NoDup_elements. }
    intros w. rewrite list.Forall_forall in Hall. split.
    - intros Hw. split; [by apply Hall|]. exists ns. split; [done|].
      apply elem_of_elements. rewrite <- Hids. by apply list_elem_of_fmap_2.
    - intros [Hw (ns' & Hns' & Hin)]. rewrite Hns in Hns'. injection Hns' as <-.
      apply elem_of_elements in Hin. rewrite <- Hids in Hin.
      apply list_elem_of_fmap in Hin as (w' & Hid & Hw').
      pose proof (Hall w' Hw') as Hlook. rewrite <- Hid, Hw in Hlook.
      by injection Hlook as ->. }
  split.
  - intros Hv. destruct (Hlist vertex Hv) as (l & Hl & Hnd & Hmem).
    exists l. split; [done|]. split; [done|]. split; [done|].
    intros w [Hw Hnb]%Hmem.
    destruct (Hlist w Hw) as (l' & Hl' & _ & Hmem').
    exists l'. split; [done|]. apply Hmem'. split; [done|].
    by apply (inv_symmetric g Hinv).
  - intros Hnone. unfold WallTopologyGraph.get_neighbors, WallTopologyGraph.adjacency_at.
    assert (WallTopologyGraph.adjacency g !! WallVertex.id vertex = None) as ->; [|done].
    apply not_elem_of_dom. rewrite (inv_adjacency_dom g Hinv). by apply not_elem_of_dom.
Qed.

Definition stray_vertex : WallVertex.t :=
  {| WallVertex.id := 7; WallVertex.position := (Q2Qc 0, Q2Qc 0);
     WallVertex.is_junction := false; WallVertex.is_corner := false;
     WallVertex.degree := 0 |}.

Lemma get_neighbors_lists_adjacent_vertices_witness :
  WallTopologyGraph.get_neighbors
    (with_vertices [(Q2Qc 0, Q2Qc 0, false, false); (Q2Qc 100, Q2Qc 0, false, false)])
    stray_vertex = Raise KeyError.
Proof.
  apply get_neighbors_lists_adjacent_vertices; [apply with_vertices_constructed|].
  vm_compute. reflexivity.
Defined.

(** ** Rooms ([pipeline/stage4_room_detection.py]) *)

Section RoomFacts.

Lemma foldl_min_spec (l : list Z) (a : Z) :
  (foldl (λ m y : Z, if m <=? y then m else y) a l = a
   ∨ foldl (λ m y : Z, if m <=? y then m else y) a l ∈ l)
  ∧ foldl (λ m y : Z, if m <=? y then m else y) a l ≤ a
  ∧ ∀ x, x ∈ l → foldl (λ m y : Z, if m <=? y then m else y) a l ≤ x.
Proof.
  revert a. induction l as [|y l IH]; intros a; simpl.
  - split; [by left|]. split; [lia|]. intros x Hx. by apply elem_of_nil in Hx.
  - specialize (IH (if a <=? y then a else y)).
    destruct IH as (Hmem & Hle & Hall).
    destruct (Z.leb_spec a y) as [Hay|Hay].
    + split; [destruct Hmem as [->|?]; [by left | right; by right]|].
      split; [done|]. intros x [->|Hx]%elem_of_cons; [lia | by apply Hall].
    + split; [right; destruct Hmem as [->|?]; [left | by right]|].
      split; [lia|]. intros x [->|Hx]%elem_of_cons; [lia | by apply Hall].
Qed.

Lemma foldl_max_spec (l : list Z) (a : Z) :
  (foldl (λ m y : Z, if y <=? m then m else y) a l = a
   ∨ foldl (λ m y : Z, if y <=? m then m else y) a l ∈ l)
  ∧ a ≤ foldl (λ m y : Z, if y <=? m then m else y) a l
  ∧ ∀ x, x ∈ l → x ≤ foldl (λ m y : Z, if y <=? m then m else y) a l.
Proof.
  revert a. induction l as [|y l IH]; intros a; simpl.
  - split; [by left|]. split; [lia|]. intros x Hx. by apply elem_of_nil in Hx.
  - specialize (IH (if y <=? a then a else y)).
    destruct IH as (Hmem & Hle & Hall).
    destruct (Z.leb_spec y a) as [Hay|Hay].
    + split; [destruct Hmem as [->|?]; [by left | right; by right]|].
      split; [done|]. intros x [->|Hx]%elem_of_cons; [lia | by apply Hall].
    + split; [right; destruct Hmem as [->|?]; [left | by right]|].
      split; [lia|]. intros x [->|Hx]%elem_of_cons; [lia | by apply Hall].
Qed.

(** Python's [min] and [max] on a non-empty list of integers. *)
Lemma py_min_spec (l : list Z) :
  l ≠ [] → ∃ m, py_min l = Ret m ∧ m ∈ l ∧ ∀ x, x ∈ l → m ≤ x.
Proof.
  destruct l as [|a l]; [done|]. intros _. simpl.
  destruct (foldl_min_spec l a) as (Hmem & Hle & Hall).
  eexists. split; [reflexivity|]. split.
  - destruct Hmem as [->|?]; [left | by right].
  - intros x [->|Hx]%elem_of_cons; [done | by apply Hall].
Qed.

Lemma py_max_spec (l : list Z) :
  l ≠ [] → ∃ m, py_max l = Ret m ∧ m ∈ l ∧ ∀ x, x ∈ l → x ≤ m.
Proof.
  destruct l as [|a l]; [done|]. intros _. simpl.
  destruct (foldl_max_spec l a) as (Hmem & Hle & Hall).
  eexists. split; [reflexivity|]. split.
  - destruct Hmem as [->|?]; [left | by right].
  - intros x [->|Hx]%elem_of_cons; [done | by apply Hall].
Qed.

Lemma elements_nonempty (pixels : gset (Z * Z)) :
  pixels ≠ ∅ → (elements pixels).*1 ≠ [] ∧ (elements pixels).*2 ≠ [].
Proof.
  intros Hne.
  destruct (elements pixels) as [|p l] eqn:Hel; [|done].
  destruct Hne. by apply elements_empty_inv, leibniz_equiv in Hel.
Qed.

End RoomFacts.

(** X6.  [RoomSet.add_room] on a non-empty set of pixels appends a room
    that carries the next id, the pixels themselves and their number as
    its area; its bounding box contains every pixel and each of its four
    sides passes through a pixel; its perimeter counts at most the pixels.
    On an empty set [min] raises [ValueError]. *)
Theorem add_room_records_area_and_bounds (rs : RoomSet.t Z) (pixels : gset (Z * Z)) :
  (pixels ≠ ∅ →
   ∃ room rs' x_min y_min x_max y_max,
     RoomSet.add_room rs pixels = Ret (room, rs')
     ∧ RoomSet.rooms rs' = RoomSet.rooms rs ++ [room]
     ∧ RoomSet.room_counter rs' = S (RoomSet.room_counter rs)
     ∧ Room.id room = RoomSet.room_counter rs
     ∧ Room.pixels room = pixels
     ∧ Room.area_px room = size pixels
     ∧ (Room.perimeter_px room ≤ size pixels)%nat
     ∧ Room.bounds room = (x_min, y_min, x_max, y_max)
     ∧ (∀ p, p ∈ pixels → x_min ≤ p.1 ≤ x_max ∧ y_min ≤ p.2 ≤ y_max)
     ∧ (∃ p, p ∈ pixels ∧ p.1 = x_min) ∧ (∃ p, p ∈ pixels ∧ p.1 = x_max)
     ∧ (∃ p, p ∈ pixels ∧ p.2 = y_min) ∧ (∃ p, p ∈ pixels ∧ p.2 = y_max))
  ∧ (pixels = ∅ → RoomSet.add_room rs pixels = Raise ValueError).
Proof.
  split.
  - intros Hne. destruct (elements_nonempty pixels Hne) as [Hxs Hys].
    destruct (py_min_spec _ Hxs) as (x_min & Hx_min & Hx_min_in & Hx_min_le).
    destruct (py_max_spec _ Hxs) as (x_max & Hx_max & Hx_max_in & Hx_max_le).
    destruct (py_min_spec _ Hys) as (y_min & Hy_min & Hy_min_in & Hy_min_le).
    destruct (py_max_spec _ Hys) as (y_max & Hy_max & Hy_max_in & Hy_max_le).
    unfold RoomSet.add_room. rewrite Hx_min, Hx_max, Hy_min, Hy_max. simpl.
    eexists _, _, x_min, y_min, x_max, y_max. split; [reflexivity|]. simpl.
    do 5 (split; [done|]).
    split; [apply length_filter|]. split; [done|].
    assert (∀ p, p ∈ pixels → p.1 ∈ (elements pixels).*1 ∧ p.2 ∈ (elements pixels).*2)
      as Hproj.
    { intros p Hp%elem_of_elements. split; by apply list_elem_of_fmap_2. }
    assert (∀ x, x ∈ (elements pixels).*1 → ∃ p, p ∈ pixels ∧ p.1 = x) as Hfst.
    { intros x (p & -> & Hp%elem_of_elements)%list_elem_of_fmap. by exists p. }
    assert (∀ y, y ∈ (elements pixels).*2 → ∃ p, p ∈ pixels ∧ p.2 = y) as Hsnd.
    { intros y (p & -> & Hp%elem_of_elements)%list_elem_of_fmap. by exists p. }
    split.
    { intros p [Hp1 Hp2]%Hproj. repeat split; auto. }
    repeat split; auto.
  - intros ->. unfold RoomSet.add_room. by rewrite elements_empty.
Qed.

Definition two_pixels : gset (Z * Z) := {[ (3, 7); (5, 4) ]}.

Definition room_has (r : exn (Room.t Z * RoomSet.t Z)) (bounds : Z * Z * Z * Z) : bool :=
  match r with
  | Ret (room, _) => bool_decide (Room.bounds room = bounds)
  | Raise _ => false
  end.

Lemma add_room_records_area_and_bounds_witness :
  ∃ room rs',
    RoomSet.add_room (RoomSet.init (10, 10)%nat) two_pixels = Ret (room, rs')
    ∧ Room.area_px room = 2%nat
    ∧ Room.bounds room = (3, 4, 5, 7).
Proof.
  destruct (add_room_records_area_and_bounds (RoomSet.init (10, 10)%nat) two_pixels)
    as [Hadd _].
  destruct Hadd as (room & rs' & x_min & y_min & x_max & y_max & Hret & _ & _ & _ & _
                    & Harea & _).
  { intros Hempty. apply (f_equal size) in Hempty. vm_compute in Hempty.
    discriminate Hempty. }
  assert (room_has (RoomSet.add_room (RoomSet.init (10, 10)%nat) two_pixels) (3, 4, 5, 7)
          = true) as Hhas by (vm_compute; reflexivity).
  rewrite Hret in Hhas. apply bool_decide_eq_true in Hhas.
  exists room, rs'. split; [exact Hret|]. split; [|exact Hhas].
  rewrite Harea. vm_compute. reflexivity.
Defined.
Section RoomValidate.

Lemma float_of_int_Z2Qc (z : Z) : float_of_int z = Qc_of_Z z.
Proof. apply Qc_is_canon. simpl. apply Qred_correct. Qed.

(** The test [max_area / min_area > 100] of [validate], on integers. *)
Lemma ratio_above_100 (a b : Z) :
  0 < b →
  (float_of_int 100 < float_of_int a / float_of_int b)%Qc ↔ 100 * b < a.
Proof.
  intros Hb. rewrite !float_of_int_Z2Qc.
  pose proof (proj1 (Z2Qc_inj_lt 0 b) Hb) as Hpos. rewrite Z2Qc_inj_0 in Hpos.
  assert (Qc_of_Z b ≠ Q2Qc 0) as Hnz.
  { intros Hz. rewrite Hz in Hpos. by apply Qclt_not_le in Hpos. }
  rewrite (Qcmult_lt_mono_pos_r _ _ _ Hpos).
  replace (Qc_of_Z a / Qc_of_Z b * Qc_of_Z b)%Qc with (Qc_of_Z a)
    by (symmetry; by apply test_field).
  rewrite <- Z2Qc_inj_mul. symmetry. apply Z2Qc_inj_lt.
Qed.

Lemma foldr_min_spec (l : list nat) (d : nat) :
  (foldr Nat.min d l = d ∨ foldr Nat.min d l ∈ l)
  ∧ (foldr Nat.min d l ≤ d)%nat
  ∧ ∀ x, x ∈ l → (foldr Nat.min d l ≤ x)%nat.
Proof.
  induction l as [|y l (Hmem & Hle & Hall)]; simpl.
  - split; [by left|]. split; [done|]. intros x Hx. by apply elem_of_nil in Hx.
  - destruct (Nat.min_spec y (foldr Nat.min d l)) as [[Hlt ->]|[Hge ->]].
    + split; [right; left|]. split; [lia|].
      intros x [->|Hx]%elem_of_cons; [lia|]. specialize (Hall x Hx). lia.
    + split; [destruct Hmem as [?|?]; [by left | right; by right]|].
      split; [done|]. intros x [->|Hx]%elem_of_cons; [lia | by apply Hall].
Qed.

Lemma foldr_max_spec (l : list nat) :
  (l = [] ∨ foldr Nat.max 0%nat l ∈ l)
  ∧ ∀ x, x ∈ l → (x ≤ foldr Nat.max 0%nat l)%nat.
Proof.
  induction l as [|y l (Hmem & Hall)]; simpl.
  - split; [by left|]. intros x Hx. by apply elem_of_nil in Hx.
  - destruct (Nat.max_spec y (foldr Nat.max 0%nat l)) as [[Hlt ->]|[Hge ->]].
    + split.
      * right. destruct Hmem as [->|?]; [simpl in Hlt; lia | by right].
      * intros x [->|Hx]%elem_of_cons; [lia | by apply Hall].
    + split; [right; left|].
      intros x [->|Hx]%elem_of_cons; [lia|]. specialize (Hall x Hx). lia.
Qed.

Lemma list_min_spec (l : list nat) :
  l ≠ [] → RoomSet.list_min l ∈ l ∧ ∀ x, x ∈ l → (RoomSet.list_min l ≤ x)%nat.
Proof.
  unfold RoomSet.list_min. destruct l as [|a l]; [done|]. intros _. cbn [hd].
  destruct (foldr_min_spec (a :: l) a) as (Hmem & _ & Hall).
  split; [|exact Hall]. destruct Hmem as [->|?]; [left | done].
Qed.

Lemma list_max_spec (l : list nat) :
  l ≠ [] → RoomSet.list_max l ∈ l ∧ ∀ x, x ∈ l → (x ≤ RoomSet.list_max l)%nat.
Proof.
  unfold RoomSet.list_max. intros Hne.
  destruct (foldr_max_spec l) as ([?|Hmem] & Hall); done.
Qed.

End RoomValidate.

(** X7.  [RoomSet.validate] answers [True] exactly when the set has a
    room, no two rooms share a pixel, every room has an area of at least 20
    pixels and no room is more than 100 times as large as another one. *)
Theorem room_set_validate_accepts_exactly (rs : RoomSet.t Z) :
  (RoomSet.validate rs).1 = true
  ↔ RoomSet.rooms rs ≠ []
    ∧ pairwise_disjoint (RoomSet.rooms rs)
    ∧ (∀ room, room ∈ RoomSet.rooms rs → (20 ≤ Room.area_px room)%nat)
    ∧ (∀ room1 room2, room1 ∈ RoomSet.rooms rs → room2 ∈ RoomSet.rooms rs →
                      (Room.area_px room1 ≤ 100 * Room.area_px room2)%nat).
Proof.
  unfold RoomSet.validate.
  destruct (RoomSet.rooms rs) as [|r0 rest] eqn:Hrooms.
  { simpl. split; [done | by intros [? _]]. }
  rewrite bool_decide_eq_false_2 by (simpl; lia).
  pose proof (check_overlap_true rs) as Hoverlap. rewrite Hrooms in Hoverlap.
  destruct (RoomSet.check_overlap rs) as [no_overlap msg]. simpl in Hoverlap.
  destruct no_overlap; cbn [negb fst].
  2:{ split; [done|]. intros (_ & Hdis & _). apply Hoverlap in Hdis. discriminate Hdis. }
  cbv zeta. set (areas := Room.area_px <$> r0 :: rest).
  assert (areas ≠ []) as Hne by done.
  destruct (list_min_spec areas Hne) as [Hmin_in Hmin].
  destruct (list_max_spec areas Hne) as [Hmax_in Hmax].
  assert (∀ room, room ∈ r0 :: rest → Room.area_px room ∈ areas) as Hin.
  { intros room Hroom. by apply list_elem_of_fmap_2. }
  apply list_elem_of_fmap in Hmin_in as (rmin & Hrmin & Hrmin_in).
  apply list_elem_of_fmap in Hmax_in as (rmax & Hrmax & Hrmax_in).
  clearbody areas.
  destruct (decide (RoomSet.list_min areas < 20)%nat) as [Hsmall|Hbig].
  { rewrite (bool_decide_eq_true_2 _ Hsmall). cbn [fst]. split; [done|].
    intros (_ & _ & Harea & _). specialize (Harea rmin Hrmin_in). lia. }
  rewrite (bool_decide_eq_false_2 _ Hbig).
  destruct (decide (100 * Z.of_nat (RoomSet.list_min areas)
                    < Z.of_nat (RoomSet.list_max areas))) as [Hratio|Hratio].
  { rewrite bool_decide_eq_true_2 by (apply ratio_above_100; [lia | done]).
    cbn [fst]. split; [done|].
    intros (_ & _ & _ & Hall). specialize (Hall rmax rmin Hrmax_in Hrmin_in). lia. }
  rewrite bool_decide_eq_false_2 by (rewrite ratio_above_100; [done | lia]).
  cbn [fst]. split; [|done]. intros _. split; [done|]. split; [by apply Hoverlap|].
  split.
  - intros room Hroom. specialize (Hmin _ (Hin room Hroom)). lia.
  - intros room1 room2 H1 H2.
    specialize (Hmin _ (Hin room2 H2)). specialize (Hmax _ (Hin room1 H1)). lia.
Qed.

(** ** Metric normalization ([pipeline/stage5_metric_normalization.py]) *)

Section NormalizerTopology.

Variable scale_factor : Qc.
Hypothesis scale_nonzero : scale_factor ≠ Q2Qc 0.

(** What [_transform_wall_graph] makes of a vertex and of an edge stored
    under the key [k]. *)
Definition scaled_vertex (k : nat) (v : WallVertex.t) : WallVertex.t :=
  {| WallVertex.id := k;
     WallVertex.position := scaled scale_factor (WallVertex.position v);
     WallVertex.is_junction := WallVertex.is_junction v;
     WallVertex.is_corner := WallVertex.is_corner v;
     WallVertex.degree := 0 |}.

Definition scaled_edge (k : nat) (e : WallEdge.t) : WallEdge.t :=
  {| WallEdge.id := k;
     WallEdge.vertex_a := WallEdge.vertex_a e;
     WallEdge.vertex_b := WallEdge.vertex_b e;
     WallEdge.length_px := (WallEdge.length_px e / scale_factor)%Qc;
     WallEdge.points := scaled scale_factor <$> WallEdge.points e |}.

(** A vertex without its [degree] counter. *)
Definition vertex_core (v : WallVertex.t) : nat * (Qc * Qc) * bool * bool :=
  (WallVertex.id v, WallVertex.position v, WallVertex.is_junction v,
   WallVertex.is_corner v).

Lemma transform_points_scaled (points : list (Qc * Qc)) :
  MetricNormalizer.transform_points scale_factor points
  = Ret (scaled scale_factor <$> points).
Proof.
  induction points as [|p rest IH]; simpl; [done|].
  rewrite !(py_div_nonzero scale_factor scale_nonzero). simpl. rewrite IH. done.
Qed.

Lemma add_edge_vertex_core g a b len pts e g' k :
  WallTopologyGraph.add_edge g a b len pts = Ret (e, g') →
  vertex_core <$> WallTopologyGraph.vertices g' !! k
  = vertex_core <$> WallTopologyGraph.vertices g !! k.
Proof.
  intros (_ & _ & Hvs & _)%add_edge_fields. rewrite Hvs, !lookup_alter.
  repeat case_decide; subst;
    match goal with
    | |- context [WallTopologyGraph.vertices g !! ?x] =>
        by destruct (WallTopologyGraph.vertices g !! x) as [[]|]
    end.
Qed.

Lemma transform_vertices_exact (g : WallTopologyGraph.t) (n : nat) :
  graph_invariant g →
  (n ≤ WallTopologyGraph.vertex_counter g)%nat →
  ∃ ng m,
    foldl (MetricNormalizer.transform_vertex scale_factor)
          (Ret (WallTopologyGraph.init, ∅)) (items_upto g n) = Ret (ng, m)
    ∧ WallTopologyGraph.constructed ng
    ∧ WallTopologyGraph.vertex_counter ng = n
    ∧ WallTopologyGraph.edge_counter ng = 0%nat
    ∧ WallTopologyGraph.edges ng = ∅
    ∧ (∀ k, (k < n)%nat → m !! k = Some k)
    ∧ (∀ k, (k < n)%nat →
            WallTopologyGraph.vertices ng !! k
            = scaled_vertex k <$> WallTopologyGraph.vertices g !! k).
Proof.
  intros Hinv. induction n as [|n IH]; intros Hn.
  - exists WallTopologyGraph.init, ∅. simpl.
    repeat split; [constructor | intros; lia | intros; lia].
  - destruct IH as (ng & m & Hfold & Hcons & Hcount & Hec & Hedges & Hm & Hvs); [lia|].
    assert (n ∈ dom (WallTopologyGraph.vertices g)) as [v Hv]%elem_of_dom.
    { apply (inv_vertices_dom g Hinv). lia. }
    unfold items_upto in *. rewrite seq_S, omap_app, foldl_app, Hfold. simpl.
    rewrite Hv. simpl. rewrite !(py_div_nonzero scale_factor scale_nonzero). simpl.
    eexists _, _. split; [reflexivity|].
    split; [exact (WallTopologyGraph.constructed_add_vertex ng _ _ _ Hcons)|].
    simpl. rewrite Hcount. split; [done|]. split; [done|]. split; [done|]. split.
    + intros k Hk. destruct (decide (k = n)) as [->|Hne].
      * by rewrite lookup_insert_eq.
      * rewrite lookup_insert_ne by done. apply Hm. lia.
    + intros k Hk. destruct (decide (k = n)) as [->|Hne].
      * by rewrite lookup_insert_eq, Hv.
      * rewrite lookup_insert_ne by done. apply Hvs. lia.
Qed.

(** The edges with a key below [n], as [edges.values()] lists them. *)
Definition edges_upto (g : WallTopologyGraph.t) (n : nat) : list WallEdge.t :=
  omap (λ k, WallTopologyGraph.edges g !! k) (seq 0 n).

Lemma transform_edges_exact (g ng0 : WallTopologyGraph.t) (m : gmap nat nat) (n : nat) :
  graph_invariant g →
  WallTopologyGraph.constructed ng0 →
  WallTopologyGraph.vertex_counter ng0 = WallTopologyGraph.vertex_counter g →
  WallTopologyGraph.edge_counter ng0 = 0%nat →
  WallTopologyGraph.edges ng0 = ∅ →
  (∀ k, (k < WallTopologyGraph.vertex_counter g)%nat → m !! k = Some k) →
  (n ≤ WallTopologyGraph.edge_counter g)%nat →
  ∃ ng,
    foldl (MetricNormalizer.transform_edge scale_factor m) (Ret ng0) (edges_upto g n)
    = Ret ng
    ∧ WallTopologyGraph.constructed ng
    ∧ WallTopologyGraph.vertex_counter ng = WallTopologyGraph.vertex_counter g
    ∧ WallTopologyGraph.edge_counter ng = n
    ∧ (∀ k, WallTopologyGraph.edges ng !! k
            = if decide (k < n)%nat
              then scaled_edge k <$> WallTopologyGraph.edges g !! k else None)
    ∧ (∀ k, vertex_core <$> WallTopologyGraph.vertices ng !! k
            = vertex_core <$> WallTopologyGraph.vertices ng0 !! k).
Proof.
  intros Hinv Hcons0 Hvc0 Hec0 Hedges0 Hm. induction n as [|n IH]; intros Hn.
  - exists ng0. simpl. repeat split; try done.
    intros k. by rewrite Hedges0, lookup_empty.
  - destruct IH as (ng & Hfold & Hcons & Hvc & Hec & Hedges & Hcore); [lia|].
    assert (n ∈ dom (WallTopologyGraph.edges g)) as [e He]%elem_of_dom.
    { apply (inv_edges_dom g Hinv). lia. }
    destruct (inv_endpoints g Hinv n e He) as
      [Ha%(inv_vertices_dom g Hinv) Hb%(inv_vertices_dom g Hinv)].
    pose proof (constructed_invariant ng Hcons) as Hinv'.
    unfold edges_upto in *. rewrite seq_S, omap_app, foldl_app, Hfold. simpl.
    rewrite He. simpl.
    unfold MetricNormalizer.transform_edge, MetricNormalizer.mapping_at. simpl.
    rewrite (Hm _ Ha), (Hm _ Hb). simpl.
    rewrite (py_div_nonzero scale_factor scale_nonzero). simpl.
    rewrite transform_points_scaled. simpl.
    destruct (add_edge_succeeds ng (WallEdge.vertex_a e) (WallEdge.vertex_b e)
                (WallEdge.length_px e / scale_factor)%Qc
                (scaled scale_factor <$> WallEdge.points e)) as (e' & ng1 & Hadd).
    { rewrite (inv_adjacency_dom ng Hinv'). apply (inv_vertices_dom ng Hinv'). lia. }
    { rewrite (inv_adjacency_dom ng Hinv'). apply (inv_vertices_dom ng Hinv'). lia. }
    rewrite Hadd. simpl.
    destruct (add_edge_fields _ _ _ _ _ _ _ Hadd) as (Hvc1 & Hec1 & _ & Hedges1).
    exists ng1. split; [done|].
    split; [by eapply WallTopologyGraph.constructed_add_edge|].
    split; [congruence|]. split; [congruence|]. split.
    + intros k. rewrite Hedges1, Hec. destruct (decide (k = n)) as [->|Hne].
      * rewrite lookup_insert_eq, decide_True by lia. by rewrite He.
      * rewrite lookup_insert_ne, Hedges by done.
        repeat case_decide; try done; lia.
    + intros k. rewrite <- Hcore. by eapply add_edge_vertex_core.
Qed.

(** [_transform_wall_graph] in full: the same vertex and edge keys, every
    vertex and edge rescaled, the vertices up to their [degree] counter. *)
Lemma transform_wall_graph_exact (g : WallTopologyGraph.t) :
  graph_invariant g →
  ∃ ng,
    MetricNormalizer._transform_wall_graph g scale_factor = Ret ng
    ∧ WallTopologyGraph.constructed ng
    ∧ WallTopologyGraph.vertex_counter ng = WallTopologyGraph.vertex_counter g
    ∧ WallTopologyGraph.edge_counter ng = WallTopologyGraph.edge_counter g
    ∧ (∀ k, WallTopologyGraph.edges ng !! k
            = scaled_edge k <$> WallTopologyGraph.edges g !! k)
    ∧ (∀ k, vertex_core <$> WallTopologyGraph.vertices ng !! k
            = vertex_core <$> (scaled_vertex k <$> WallTopologyGraph.vertices g !! k)).
Proof.
  intros Hinv.
  destruct (transform_vertices_exact g (WallTopologyGraph.vertex_counter g) Hinv)
    as (ng0 & m & Hfold & Hcons0 & Hvc0 & Hec0 & Hedges0 & Hm & Hvs); [lia|].
  destruct (transform_edges_exact g ng0 m (WallTopologyGraph.edge_counter g)
              Hinv Hcons0 Hvc0 Hec0 Hedges0 Hm)
    as (ng & Hfold' & Hcons & Hvc & Hec & Hedges & Hcore); [lia|].
  exists ng. split.
  { unfold MetricNormalizer._transform_wall_graph.
    change (WallTopologyGraph.vertex_items g)
      with (items_upto g (WallTopologyGraph.vertex_counter g)).
    rewrite Hfold. simpl. exact Hfold'. }
  split; [done|]. split; [done|]. split; [done|]. split.
  - intros k. rewrite Hedges. case_decide as Hk; [done|].
    symmetry. assert (WallTopologyGraph.edges g !! k = None) as ->; [|done].
    apply not_elem_of_dom. rewrite (inv_edges_dom g Hinv). lia.
  - intros k. rewrite Hcore.
    destruct (decide (k < WallTopologyGraph.vertex_counter g)%nat) as [Hk|Hk].
    + by rewrite Hvs.
    + pose proof (constructed_invariant ng0 Hcons0) as Hinv0.
      assert (WallTopologyGraph.vertices ng0 !! k = None) as ->.
      { apply not_elem_of_dom. rewrite (inv_vertices_dom ng0 Hinv0). lia. }
      assert (WallTopologyGraph.vertices g !! k = None) as ->; [|done].
      apply not_elem_of_dom. rewrite (inv_vertices_dom g Hinv). lia.
Qed.

End NormalizerTopology.

Section NormalizedGraphs.

Lemma reachable_same_neighbours (adj1 adj2 : gmap nat (gset nat)) :
  (∀ u v, neighbour adj1 u v ↔ neighbour adj2 u v) →
  ∀ u v, reachable adj1 u v ↔ reachable adj2 u v.
Proof.
  intros Hnb u v. unfold reachable.
  split; apply rtc_subrel; intros x y; apply Hnb.
Qed.

Lemma same_vertex_keys (g1 g2 : WallTopologyGraph.t) :
  graph_invariant g1 → graph_invariant g2 →
  WallTopologyGraph.vertex_counter g1 = WallTopologyGraph.vertex_counter g2 →
  dom (WallTopologyGraph.vertices g1) = dom (WallTopologyGraph.vertices g2).
Proof.
  intros H1 H2 Hc. apply set_eq. intros k.
  by rewrite (inv_vertices_dom g1 H1), (inv_vertices_dom g2 H2), Hc.
Qed.

(** Two graphs with the same counters and the same neighbours get the
    same answer from [validate]. *)
Lemma validate_same_topology (g1 g2 : WallTopologyGraph.t) :
  WallTopologyGraph.constructed g1 → WallTopologyGraph.constructed g2 →
  WallTopologyGraph.vertex_counter g1 = WallTopologyGraph.vertex_counter g2 →
  WallTopologyGraph.edge_counter g1 = WallTopologyGraph.edge_counter g2 →
  (∀ u v, neighbour (WallTopologyGraph.adjacency g1) u v
          ↔ neighbour (WallTopologyGraph.adjacency g2) u v) →
  WallTopologyGraph.validate g1 = WallTopologyGraph.validate g2.
Proof.
  intros Hc1 Hc2 Hvc Hec Hnb.
  pose proof (constructed_invariant g1 Hc1) as Hinv1.
  pose proof (constructed_invariant g2 Hc2) as Hinv2.
  destruct (constructed_sizes g1 Hc1) as [Hv1 He1].
  destruct (constructed_sizes g2 Hc2) as [Hv2 He2].
  destruct (is_connected_decides g1 Hinv1) as (b1 & Hb1 & Hiff1).
  destruct (is_connected_decides g2 Hinv2) as (b2 & Hb2 & Hiff2).
  assert (connected g1 ↔ connected g2) as Hconn.
  { unfold connected. rewrite (same_vertex_keys g1 g2 Hinv1 Hinv2 Hvc).
    split; intros H u v Hu Hv; apply (reachable_same_neighbours _ _ Hnb); by apply H. }
  assert (b1 = b2) as ->.
  { destruct b1, b2; try done.
    - destruct Hiff2 as [_ Hiff2]. symmetry. apply Hiff2.
      destruct Hiff1 as [[? ?] _]; [done|]. split; [lia | by apply Hconn].
    - destruct Hiff1 as [_ Hiff1]. apply Hiff1.
      destruct Hiff2 as [[? ?] _]; [done|]. split; [lia | by apply Hconn]. }
  unfold WallTopologyGraph.validate. by rewrite Hb1, Hb2, Hv1, Hv2, He1, He2, Hvc, Hec.
Qed.

End NormalizedGraphs.

(** X8.  For a wall graph built by [add_vertex] and [add_edge] and a
    scale factor other than zero, [_transform_wall_graph] returns a graph
    with the same vertex and edge ids in which every edge joins the same
    two vertices, with its length and its points divided by the scale
    factor, every vertex keeps its flags, two vertices are neighbours
    exactly when they were, and [validate] gives the answer it gave on the
    pixel graph. *)
Theorem normalization_preserves_wall_topology
    (g : WallTopologyGraph.t) (scale_factor : Qc) :
  WallTopologyGraph.constructed g →
  scale_factor ≠ Q2Qc 0 →
  ∃ ng,
    MetricNormalizer._transform_wall_graph g scale_factor = Ret ng
    ∧ WallTopologyGraph.vertex_counter ng = WallTopologyGraph.vertex_counter g
    ∧ (∀ k, WallTopologyGraph.edges ng !! k
            = scaled_edge scale_factor k <$> WallTopologyGraph.edges g !! k)
    ∧ (∀ k, vertex_core <$> WallTopologyGraph.vertices ng !! k
            = vertex_core <$> (scaled_vertex scale_factor k
                                 <$> WallTopologyGraph.vertices g !! k))
    ∧ (∀ u v, neighbour (WallTopologyGraph.adjacency ng) u v
              ↔ neighbour (WallTopologyGraph.adjacency g) u v)
    ∧ WallTopologyGraph.validate ng = WallTopologyGraph.validate g.
Proof.
  intros Hg Hs. pose proof (constructed_invariant g Hg) as Hinv.
  destruct (transform_wall_graph_exact scale_factor Hs g Hinv)
    as (ng & Hng & Hcons & Hvc & Hec & Hedges & Hcore).
  assert (∀ u v, neighbour (WallTopologyGraph.adjacency ng) u v
                 ↔ neighbour (WallTopologyGraph.adjacency g) u v) as Hnb.
  { intros u v. rewrite !constructed_adjacency_edges by done. unfold joined. split.
    - intros (k & e & He & Hends). rewrite Hedges in He.
      destruct (WallTopologyGraph.edges g !! k) as [e0|] eqn:He0; [|done].
      injection He as <-. by exists k, e0.
    - intros (k & e & He & Hends). exists k, (scaled_edge scale_factor k e).
      by rewrite Hedges, He. }
  exists ng. repeat (split; [done|]). by apply validate_same_topology.
Qed.

Lemma normalization_preserves_wall_topology_witness :
  ∃ g ng,
    scenario_d_graph = Ret g
    ∧ MetricNormalizer._transform_wall_graph g (Q2Qc (1000 # 12)) = Ret ng
    ∧ WallTopologyGraph.validate ng = WallTopologyGraph.validate g.
Proof.
  assert (has_edges scenario_d_graph 5 = true) as Hedges by (vm_compute; reflexivity).
  pose proof (λ g, with_edges_constructed _ _ g (with_vertices_constructed _)
              : scenario_d_graph = Ret g → WallTopologyGraph.constructed g) as Hcons.
  destruct scenario_d_graph as [g|]; [|discriminate Hedges].
  destruct (normalization_preserves_wall_topology g (Q2Qc (1000 # 12)) (Hcons g eq_refl))
    as (ng & Hng & _ & _ & _ & _ & Hval).
  { intros Hz. apply (f_equal this) in Hz. discriminate Hz. }
  by exists g, ng.
Defined.

Section NormalizedBox.

Variable s : Qc.
Hypothesis s_positive : (Q2Qc 0 < s)%Qc.

Lemma div_le_mono (a b : Qc) : (a / s ≤ b / s)%Qc ↔ (a ≤ b)%Qc.
Proof.
  unfold Qcdiv. symmetry. apply Qcmult_le_mono_pos_r. by apply Qcinv_pos.
Qed.

Lemma div_lt_mono (a b : Qc) : (a / s < b / s)%Qc ↔ (a < b)%Qc.
Proof.
  unfold Qcdiv. symmetry. apply Qcmult_lt_mono_pos_r. by apply Qcinv_pos.
Qed.

Lemma max_list_div (l : list Qc) :
  ∀ x, MetricNormalizer.max_list (x / s) ((λ y, y / s)%Qc <$> l)
       = (MetricNormalizer.max_list x l / s)%Qc.
Proof.
  unfold MetricNormalizer.max_list.
  induction l as [|y l IH]; intros x; simpl; [done|].
  rewrite (bool_decide_ext _ _ (div_le_mono y x)).
  case_bool_decide; apply IH.
Qed.

Lemma min_list_div (l : list Qc) :
  ∀ x, MetricNormalizer.min_list (x / s) ((λ y, y / s)%Qc <$> l)
       = (MetricNormalizer.min_list x l / s)%Qc.
Proof.
  unfold MetricNormalizer.min_list.
  induction l as [|y l IH]; intros x; simpl; [done|].
  rewrite (bool_decide_ext _ _ (div_le_mono x y)).
  case_bool_decide; apply IH.
Qed.

Lemma max2_div (a b : Qc) :
  MetricNormalizer.max2 (a / s) (b / s) = (MetricNormalizer.max2 a b / s)%Qc.
Proof.
  unfold MetricNormalizer.max2. rewrite (bool_decide_ext _ _ (div_lt_mono a b)).
  by case_bool_decide.
Qed.

(** The coordinates of the vertices of two graphs whose positions differ
    by the factor [s]. *)
Lemma scaled_vertex_coordinates (g ng : WallTopologyGraph.t) :
  graph_invariant g → graph_invariant ng →
  (∀ k, vertex_core <$> WallTopologyGraph.vertices ng !! k
        = vertex_core <$> (scaled_vertex s k <$> WallTopologyGraph.vertices g !! k)) →
  MetricNormalizer.vertex_xs ng = (λ x, x / s)%Qc <$> MetricNormalizer.vertex_xs g
  ∧ MetricNormalizer.vertex_ys ng = (λ y, y / s)%Qc <$> MetricNormalizer.vertex_ys g.
Proof.
  intros Hinv Hinv' Hcore.
  destruct (vertex_values_lookup g Hinv) as [_ Hlook].
  destruct (vertex_values_lookup ng Hinv') as [_ Hlook'].
  unfold MetricNormalizer.vertex_xs, MetricNormalizer.vertex_ys.
  split; apply list_eq; intros k; rewrite !list_lookup_fmap, Hlook, Hlook';
    specialize (Hcore k);
    destruct (WallTopologyGraph.vertices ng !! k) as [v'|],
             (WallTopologyGraph.vertices g !! k) as [v|]; try discriminate Hcore;
    try done; simpl in *; injection Hcore as _ Hpos _ _; by rewrite Hpos.
Qed.

End NormalizedBox.

(** X9.  When the guards of [normalize] pass, the wall graph it returns
    has a bounding box whose sides are those of the pixel graph divided by
    the scale factor, and the larger side measures the reference building
    width of 12 m. *)
Theorem normalized_building_measures_reference_width (g ng : WallTopologyGraph.t) :
  WallTopologyGraph.constructed g →
  WallTopologyGraph.vertices g ≠ ∅ →
  normalizable g →
  MetricNormalizer._transform_wall_graph g (metric_scale g) = Ret ng →
  bounding_box_width ng = (bounding_box_width g / metric_scale g)%Qc
  ∧ bounding_box_height ng = (bounding_box_height g / metric_scale g)%Qc
  ∧ detected_dimension ng = REFERENCE_BUILDING_WIDTH.
Proof.
  intros Hg Hne Hok Hng. pose proof (constructed_invariant g Hg) as Hinv.
  pose proof (normalizable_scale_nonzero g Hok) as Hnz.
  assert (Q2Qc 0 < metric_scale g)%Qc as Hpos.
  { destruct Hok as (_ & Hlo & _). eapply Qclt_le_trans; [|exact Hlo]. by vm_compute. }
  destruct (transform_wall_graph_exact (metric_scale g) Hnz g Hinv)
    as (ng' & Hng' & Hcons & _ & _ & _ & Hcore).
  rewrite Hng in Hng'. injection Hng' as <-.
  destruct (scaled_vertex_coordinates (metric_scale g) g ng Hinv
              (constructed_invariant ng Hcons) Hcore) as [Hxs Hys].
  destruct (vertex_values_nonempty g Hinv Hne) as (v & vs & Hvs).
  assert (bounding_box_width ng = (bounding_box_width g / metric_scale g)%Qc) as Hw.
  { unfold bounding_box_width. rewrite Hxs. unfold MetricNormalizer.vertex_xs.
    rewrite Hvs. rewrite !fmap_cons.
    rewrite (max_list_div _ Hpos), (min_list_div _ Hpos). unfold Qcdiv. ring. }
  assert (bounding_box_height ng = (bounding_box_height g / metric_scale g)%Qc) as Hh.
  { unfold bounding_box_height. rewrite Hys. unfold MetricNormalizer.vertex_ys.
    rewrite Hvs. rewrite !fmap_cons.
    rewrite (max_list_div _ Hpos), (min_list_div _ Hpos). unfold Qcdiv. ring. }
  split; [done|]. split; [done|].
  unfold detected_dimension at 1. rewrite Hw, Hh, (max2_div _ Hpos).
  fold (detected_dimension g).
  assert (detected_dimension g ≠ Q2Qc 0) as Hd.
  { intros Hz. apply Hnz. unfold metric_scale. rewrite Hz. apply Qc_is_canon. reflexivity. }
  unfold metric_scale in *. unfold REFERENCE_BUILDING_WIDTH.
  field. split; [|done]. intros H12. apply (f_equal this) in H12. discriminate H12.
Qed.

Lemma normalized_building_measures_reference_width_witness :
  ∃ g ng,
    scenario_d_graph = Ret g
    ∧ MetricNormalizer._transform_wall_graph g (metric_scale g) = Ret ng
    ∧ detected_dimension ng = Q2Qc 12.
Proof.
  assert (has_box scenario_d_graph (Q2Qc 1000) (Q2Qc 800) 4 (Q2Qc 500, Q2Qc 400) = true)
    as Hbox by (vm_compute; reflexivity).
  pose proof (λ g, with_edges_constructed _ _ g (with_vertices_constructed _)
              : scenario_d_graph = Ret g → WallTopologyGraph.constructed g) as Hcons.
  destruct scenario_d_graph as [g|]; [|discriminate Hbox].
  unfold has_box in Hbox.
  apply andb_prop in Hbox as [[Hw%bool_decide_eq_true Hh%bool_decide_eq_true]%andb_prop
                              Hp%bool_decide_eq_true].
  assert (WallTopologyGraph.vertices g ≠ ∅) as Hne.
  { intros Hempty. unfold position_at in Hp. rewrite Hempty, lookup_empty in Hp.
    discriminate Hp. }
  assert (metric_scale g = Q2Qc (1000 # 12)) as Hscale.
  { unfold metric_scale, detected_dimension. rewrite Hw, Hh.
    apply Qc_is_canon. vm_compute. reflexivity. }
  assert (normalizable g) as Hok.
  { unfold normalizable. rewrite Hh, Hscale. repeat split; by vm_compute. }
  destruct (transform_wall_graph_exact (metric_scale g)
              (normalizable_scale_nonzero g Hok) g
              (constructed_invariant g (Hcons g eq_refl))) as (ng & Hng & _).
  exists g, ng. split; [done|]. split; [done|].
  by apply (normalized_building_measures_reference_width g ng (Hcons g eq_refl) Hne Hok).
Defined.

(** ** The mesh ([pipeline/stage6_3d_construction.py]) *)

Section MeshInvariant.

Variable sqrt : Qc → Qc.

(** The three indices of a face are indices of vertices. *)
Definition face_in_range (n : nat) (f : Face.t Qc) : Prop :=
  let '(vi0, vi1, vi2) := Face.vertex_indices f in
  (vi0 < n)%nat ∧ (vi1 < n)%nat ∧ (vi2 < n)%nat.

(** What [add_vertex] and [add_face] keep when faces are added over
    indices that [add_vertex] returned: the hash map points at vertices of
    the mesh that carry the rounded position it is stored under, and the
    faces refer to vertices of the mesh. *)
Record mesh_invariant (m : Mesh.t Qc) : Prop := {
  inv_hash_range : ∀ key idx, Mesh.vertex_hash_map m !! key = Some idx →
                     ∃ v, Mesh.vertices m !! idx = Some v
                          ∧ position_key (Vertex.position v) = key;
  inv_faces_range : Forall (face_in_range (length (Mesh.vertices m))) (Mesh.faces m)
}.

Lemma face_in_range_mono n n' f : (n ≤ n')%nat → face_in_range n f → face_in_range n' f.
Proof.
  unfold face_in_range. destruct (Face.vertex_indices f) as [[vi0 vi1] vi2]. lia.
Qed.

Lemma mesh_invariant_well_indexed m : mesh_invariant m → well_indexed m.
Proof. intros [_ Hfaces]. exact Hfaces. Qed.

Lemma init_mesh_invariant name : mesh_invariant (Mesh.init name).
Proof.
  split; simpl.
  - intros key idx Hk. by rewrite lookup_empty in Hk.
  - constructor.
Qed.

(** [add_vertex] returns the index of a vertex of the new mesh whose
    rounded position is that of the position given. *)
Lemma add_vertex_invariant_index m p n :
  mesh_invariant m →
  mesh_invariant (add_vertex m p n).2
  ∧ (∃ v, Mesh.vertices (add_vertex m p n).2 !! (add_vertex m p n).1 = Some v
          ∧ position_key (Vertex.position v) = position_key p)
  ∧ Mesh.vertex_hash_map (add_vertex m p n).2 !! position_key p
    = Some (add_vertex m p n).1.
Proof.
  intros [Hhash Hfaces]. unfold add_vertex.
  destruct (Mesh.vertex_hash_map m !! position_key p) as [idx|] eqn:Hkey;
    cbn [fst snd Mesh.vertices Mesh.faces Mesh.vertex_hash_map].
  - split; [by split|]. split; [by apply Hhash | done].
  - split; [split; cbn [fst snd Mesh.vertices Mesh.faces Mesh.vertex_hash_map]|].
    + intros key idx Hk. rewrite lookup_insert in Hk. case_decide as Heq.
      * injection Hk as <-. subst key.
        exists {| Vertex.position := p; Vertex.normal := default default_normal n |}.
        split; [|reflexivity]. rewrite lookup_app_r by lia. by rewrite Nat.sub_diag.
      * destruct (Hhash key idx Hk) as (v & Hv & Hpos).
        exists v. split; [|done]. by apply lookup_app_l_Some.
    + eapply list.Forall_impl; [exact Hfaces|]. intros f.
      apply face_in_range_mono. rewrite length_app. lia.
    + split; [|apply lookup_insert_eq].
      exists {| Vertex.position := p; Vertex.normal := default default_normal n |}.
      split; [|reflexivity]. rewrite lookup_app_r by lia. by rewrite Nat.sub_diag.
Qed.

Lemma add_vertex_keeps_vertices m p n i v :
  Mesh.vertices m !! i = Some v → Mesh.vertices (add_vertex m p n).2 !! i = Some v.
Proof.
  intros Hv. unfold add_vertex.
  destruct (Mesh.vertex_hash_map m !! position_key p); cbn [snd Mesh.vertices]; [done|].
  by apply lookup_app_l_Some.
Qed.

Lemma add_vertices_invariant ps :
  ∀ m, mesh_invariant m →
       mesh_invariant (add_vertices m ps).2
       ∧ Forall (λ i, i < length (Mesh.vertices (add_vertices m ps).2))%nat
                (add_vertices m ps).1
       ∧ ∀ i v, Mesh.vertices m !! i = Some v →
                Mesh.vertices (add_vertices m ps).2 !! i = Some v.
Proof.
  induction ps as [|p ps IH]; intros m Hm; simpl.
  - split; [done|]. split; [constructor | auto].
  - destruct (add_vertex_invariant_index m p None Hm) as (Hm1 & (v & Hv & _) & _).
    pose proof (add_vertex_keeps_vertices m p None) as Hkeep1.
    destruct (add_vertex m p None) as [i m1]. simpl in *.
    destruct (IH m1 Hm1) as (Hm2 & Hidx & Hkeep).
    destruct (add_vertices m1 ps) as [rest m2]. simpl in *.
    split; [done|]. split.
    + constructor; [|done]. apply lookup_lt_is_Some. exists v. by apply Hkeep.
    + intros j w Hw. by apply Hkeep, Hkeep1.
Qed.

Lemma add_faces_invariant fs :
  ∀ m, mesh_invariant m →
       Forall (λ '(a, b, c), (a < length (Mesh.vertices m))%nat
                             ∧ (b < length (Mesh.vertices m))%nat
                             ∧ (c < length (Mesh.vertices m))%nat) fs →
       mesh_invariant (add_faces m fs).
Proof.
  unfold add_faces.
  induction fs as [|[[a b] c] fs IH]; intros m Hm Hfs; simpl; [done|].
  apply list.Forall_cons in Hfs as [Habc Hfs].
  apply IH; [|exact Hfs].
  destruct Hm as [Hhash Hfaces]. split; simpl; [done|].
  apply Forall_app. split; [done|]. apply list.Forall_singleton. exact Habc.
Qed.

Lemma add_box_invariant m corners :
  mesh_invariant m →
  mesh_invariant (add_box m corners).2
  ∧ ∀ i v, Mesh.vertices m !! i = Some v →
           Mesh.vertices (add_box m corners).2 !! i = Some v.
Proof.
  intros Hm. unfold add_box.
  destruct (add_vertices_invariant corners m Hm) as (Hm1 & Hidx & Hkeep).
  destruct (add_vertices m corners) as [vi m1]. cbn [fst snd] in *.
  do 8 (destruct vi as [|? vi]; [by split|]).
  destruct vi; [|by split]. cbn [snd]. split.
  - apply add_faces_invariant; [done|].
    rewrite !list.Forall_cons in Hidx.
    destruct Hidx as (? & ? & ? & ? & ? & ? & ? & ? & _).
    unfold box_faces. rewrite !list.Forall_cons, list.Forall_nil. tauto.
  - intros i v Hv. rewrite add_faces_vertices. by apply Hkeep.
Qed.

Lemma extrude_wall_edge_invariant p_start p_end thickness height m :
  mesh_invariant m →
  mesh_invariant (extrude_wall_edge sqrt p_start p_end thickness height m).2.
Proof.
  intros Hm. unfold extrude_wall_edge. case_bool_decide; [done|].
  by apply add_box_invariant.
Qed.

(** [recalculate_normals] changes normals only. *)
Lemma accumulate_faces_indices vs fs :
  ∀ acc, Face.vertex_indices <$> (foldl (accumulate_face sqrt vs) acc fs).1
         = (Face.vertex_indices <$> acc.1) ++ (Face.vertex_indices <$> fs).
Proof.
  intros [done vn]. rewrite accumulate_faces_skip. cbn [fst]. by rewrite fmap_app.
Qed.

Lemma recalculate_normals_geometry m :
  Vertex.position <$> Mesh.vertices (recalculate_normals sqrt m)
  = Vertex.position <$> Mesh.vertices m
  ∧ Face.vertex_indices <$> Mesh.faces (recalculate_normals sqrt m)
    = Face.vertex_indices <$> Mesh.faces m
  ∧ Mesh.vertex_hash_map (recalculate_normals sqrt m) = Mesh.vertex_hash_map m
  ∧ Mesh.name (recalculate_normals sqrt m) = Mesh.name m.
Proof. by rewrite recalculate_normals_unchanged. Qed.

Lemma recalculate_normals_invariant m :
  mesh_invariant m → mesh_invariant (recalculate_normals sqrt m).
Proof. by rewrite recalculate_normals_unchanged. Qed.

End MeshInvariant.

(** X10.  Adding a position to a mesh a second time, or any position with
    the same coordinates after rounding to six decimals, returns the index
    of the first one and leaves the mesh as it is; a position that rounds
    differently gets another index.  The index returned is always that
    of a vertex of the mesh. *)
Theorem add_vertex_merges_equal_rounded_positions
    (m : Mesh.t Qc) (p q : vec3) (n n' : option vec3) :
  mesh_invariant m →
  let '(i, m1) := add_vertex m p n in
  (i < length (Mesh.vertices m1))%nat
  ∧ (position_key q = position_key p → add_vertex m1 q n' = (i, m1))
  ∧ (position_key q ≠ position_key p → (add_vertex m1 q n').1 ≠ i).
Proof.
  intros Hm.
  destruct (add_vertex_invariant_index m p n Hm) as (Hm1 & (v & Hv & Hkey) & Hhash).
  destruct (add_vertex m p n) as [i m1]. cbn [fst snd] in *.
  split; [apply lookup_lt_is_Some; eauto|]. split.
  - intros Heq. unfold add_vertex. by rewrite Heq, Hhash.
  - intros Hne Hsame.
    destruct (add_vertex_invariant_index m1 q n' Hm1) as (_ & (w & Hw & Hkey') & _).
    rewrite Hsame in Hw.
    assert (Mesh.vertices (add_vertex m1 q n').2 !! i = Some v) as Hv'
      by by apply add_vertex_keeps_vertices.
    rewrite Hv' in Hw. injection Hw as <-. congruence.
Qed.

Lemma add_vertex_merges_equal_rounded_positions_witness :
  let m1 := (add_vertex (Mesh.init "mesh") (Q2Qc 1, Q2Qc 2, Q2Qc 3) None).2 in
  add_vertex m1 (Q2Qc (10000001 # 10000000), Q2Qc 2, Q2Qc 3) None = (0%nat, m1).
Proof.
  pose proof (add_vertex_merges_equal_rounded_positions (Mesh.init "mesh")
                (Q2Qc 1, Q2Qc 2, Q2Qc 3) (Q2Qc (10000001 # 10000000), Q2Qc 2, Q2Qc 3)
                None None (init_mesh_invariant "mesh")) as Hmerge.
  change (add_vertex (Mesh.init "mesh") (Q2Qc 1, Q2Qc 2, Q2Qc 3) None)
    with (0%nat, (add_vertex (Mesh.init "mesh") (Q2Qc 1, Q2Qc 2, Q2Qc 3) None).2)
    in Hmerge.
  destruct Hmerge as (_ & Hsame & _). apply Hsame.
  unfold position_key. cbn [fst snd].
  f_equal; try (f_equal; apply Qc_is_canon; vm_compute; reflexivity).
Defined.

(** X11.  [recalculate_normals] changes normals only: the positions of
    the vertices, the vertex indices of the faces, the hash map and the name
    of the mesh stay as they are, and a mesh without faces is returned
    unchanged. *)
Theorem recalculate_normals_keeps_geometry (sqrt : Qc → Qc) (m : Mesh.t Qc) :
  Vertex.position <$> Mesh.vertices (recalculate_normals sqrt m)
  = Vertex.position <$> Mesh.vertices m
  ∧ Face.vertex_indices <$> Mesh.faces (recalculate_normals sqrt m)
    = Face.vertex_indices <$> Mesh.faces m
  ∧ Mesh.vertex_hash_map (recalculate_normals sqrt m) = Mesh.vertex_hash_map m
  ∧ Mesh.name (recalculate_normals sqrt m) = Mesh.name m
  ∧ (Mesh.faces m = [] → recalculate_normals sqrt m = m).
Proof.
  destruct (recalculate_normals_geometry sqrt m) as (Hpos & Hidx & Hmap & Hname).
  repeat (split; [done|]).
  intros Hfaces. unfold recalculate_normals. by rewrite Hfaces.
Qed.

(** X12.  Every mesh [CutawayBuilder.build] returns refers, in each of
    its faces, to vertices it has, and its hash map sends a rounded
    position to a vertex at that position; so [cut_rectangular_hole] never
    raises on it, whatever the cut volume is. *)
Theorem built_mesh_faces_refer_to_vertices
    (sqrt : Qc → Qc) (self : CutawayBuilder.t) (mesh : Mesh.t Qc) :
  (CutawayBuilder.build sqrt self).1 = Some mesh →
  well_indexed mesh
  ∧ (∀ key idx, Mesh.vertex_hash_map mesh !! key = Some idx →
                ∃ v, Mesh.vertices mesh !! idx = Some v
                     ∧ position_key (Vertex.position v) = key)
  ∧ ∀ center_x center_y width height z_bottom z_top,
      ∃ mesh', ManifoldBoolean.cut_rectangular_hole mesh center_x center_y width height
                 z_bottom z_top = Ret (true, mesh')
               ∧ well_indexed mesh'.
Proof.
  intros Hbuild.
  assert (mesh_invariant mesh) as Hinv.
  { revert Hbuild. unfold CutawayBuilder.build, CutawayBuilder._build_walls.
    assert (mesh_invariant
              (CutawayBuilder._build_floor_slab self (Mesh.init "cutaway_model")))
      as Hslab.
    { unfold CutawayBuilder._build_floor_slab.
      destruct (CutawayBuilder.wall_graph self) as [g|]; [|apply init_mesh_invariant].
      destruct (MetricNormalizer.vertex_xs g), (MetricNormalizer.vertex_ys g);
        try apply init_mesh_invariant.
      apply add_box_invariant, init_mesh_invariant. }
    revert Hslab.
    generalize (CutawayBuilder._build_floor_slab self (Mesh.init "cutaway_model")).
    intros m0 Hm0.
    destruct (CutawayBuilder.wall_graph self) as [g|]; [|done].
    case_bool_decide; [done|].
    assert (∀ es acc m',
              (∀ m, acc = Ret m → mesh_invariant m) →
              foldl (λ acc edge,
                       mesh ← acc;
                       p_start ← CutawayBuilder.endpoint g (WallEdge.vertex_a edge);
                       p_end ← CutawayBuilder.endpoint g (WallEdge.vertex_b edge);
                       Ret (extrude_wall_edge sqrt p_start p_end
                              WALL_THICKNESS WALL_HEIGHT mesh).2) acc es = Ret m' →
              mesh_invariant m') as Hfold.
    { induction es as [|e es IH]; intros acc m' Hacc; simpl; [by apply Hacc|].
      apply IH. intros m. destruct acc as [m1|]; simpl; [|done].
      destruct (CutawayBuilder.endpoint g (WallEdge.vertex_a e)); simpl; [|done].
      destruct (CutawayBuilder.endpoint g (WallEdge.vertex_b e)); simpl; [|done].
      intros [= <-]. by apply extrude_wall_edge_invariant, Hacc. }
    destruct (foldl _ (Ret m0) (WallTopologyGraph.edge_values g)) as [m'|] eqn:Hwalls;
      simpl; [|done].
    intros [= <-]. apply recalculate_normals_invariant.
    eapply Hfold; [|exact Hwalls]. by intros m [= <-]. }
  split; [by apply mesh_invariant_well_indexed|].
  split; [apply (inv_hash_range mesh Hinv)|].
  intros center_x center_y width height z_bottom z_top. eexists. split.
  - apply cut_rectangular_hole_filter. by apply mesh_invariant_well_indexed.
  - unfold well_indexed. simpl. apply list.Forall_forall. intros f [_ Hf]%list_elem_of_filter.
    pose proof (mesh_invariant_well_indexed mesh Hinv) as Hidx.
    unfold well_indexed in Hidx. rewrite list.Forall_forall in Hidx. by apply Hidx.
Qed.

Definition builds (r : exn WallTopologyGraph.t) : bool :=
  match r with
  | Ret g =>
      counts_at_least
        (CutawayBuilder.build (λ q, q) (CutawayBuilder.init (Some g) None)).1 8 12
  | Raise _ => false
  end.

Lemma built_mesh_faces_refer_to_vertices_witness :
  ∃ g mesh mesh',
    horizontal_wall_graph = Ret g
    ∧ (CutawayBuilder.build (λ q, q) (CutawayBuilder.init (Some g) None)).1 = Some mesh
    ∧ ManifoldBoolean.cut_rectangular_hole mesh (Q2Qc 50) (Q2Qc 0) (Q2Qc 1) (Q2Qc 1)
        (Q2Qc 0) (Q2Qc 1) = Ret (true, mesh').
Proof.
  assert (builds horizontal_wall_graph = true) as Hbuilt by (vm_compute; reflexivity).
  destruct horizontal_wall_graph as [g|]; [|discriminate Hbuilt].
  unfold builds in Hbuilt.
  destruct (CutawayBuilder.build (λ q, q) (CutawayBuilder.init (Some g) None)).1
    as [mesh|] eqn:Hmesh; [|discriminate Hbuilt].
  destruct (built_mesh_faces_refer_to_vertices (λ q, q)
              (CutawayBuilder.init (Some g) None) mesh Hmesh) as (_ & _ & Hcut).
  destruct (Hcut (Q2Qc 50) (Q2Qc 0) (Q2Qc 1) (Q2Qc 1) (Q2Qc 0) (Q2Qc 1))
    as (mesh' & Hmesh' & _).
  by exists g, mesh, mesh'.
Defined.
Section WallFaces.

Variable sqrt : Qc → Qc.

(** The length [extrude_wall_edge] computes for a wall from [p] to [q],
    and whether the wall between the ends of an edge is long enough to be
    extruded. *)
Definition wall_length (p q : Qc * Qc) : Qc :=
  sqrt ((q.1 - p.1) * (q.1 - p.1) + (q.2 - p.2) * (q.2 - p.2))%Qc.

Definition extruded (g : WallTopologyGraph.t) (e : WallEdge.t) : bool :=
  match WallTopologyGraph.vertices g !! WallEdge.vertex_a e,
        WallTopologyGraph.vertices g !! WallEdge.vertex_b e with
  | Some va, Some vb =>
      negb (bool_decide (wall_length (WallVertex.position va) (WallVertex.position vb)
                         < Q2Qc (1 # 1000000))%Qc)
  | _, _ => false
  end.

Lemma add_vertices_upper ps :
  ∀ m, (length (Mesh.vertices (add_vertices m ps).2)
        ≤ length (Mesh.vertices m) + length ps)%nat.
Proof.
  induction ps as [|p ps IH]; intros m; simpl; [lia|].
  assert (length (Mesh.vertices (add_vertex m p None).2)
          ≤ S (length (Mesh.vertices m)))%nat as H1.
  { unfold add_vertex.
    destruct (Mesh.vertex_hash_map m !! position_key p); cbn [snd Mesh.vertices]; [lia|].
    rewrite length_app. simpl. lia. }
  destruct (add_vertex m p None) as [i m1]. specialize (IH m1).
  destruct (add_vertices m1 ps) as [rest m2]. cbn [snd] in *. lia.
Qed.

Lemma extrude_wall_edge_counts p_start p_end m :
  let long := negb (bool_decide (wall_length p_start p_end < Q2Qc (1 # 1000000))%Qc) in
  let m' := (extrude_wall_edge sqrt p_start p_end WALL_THICKNESS WALL_HEIGHT m).2 in
  length (Mesh.faces m') = (length (Mesh.faces m) + if long then 12 else 0)%nat
  ∧ (length (Mesh.vertices m')
     ≤ length (Mesh.vertices m) + if long then 8 else 0)%nat.
Proof.
  unfold extrude_wall_edge, wall_length. cbn [fst snd].
  case_bool_decide; cbn [negb snd]; [lia|].
  match goal with
  | |- context [add_box m ?cs] =>
      destruct (add_box_eight m cs eq_refl) as [Hverts Hfaces];
      pose proof (add_vertices_upper cs m) as Hupper
  end.
  rewrite Hverts, Hfaces. cbn [length] in Hupper. lia.
Qed.

Lemma walls_counts (g : WallTopologyGraph.t) (es : list WallEdge.t) :
  Forall (λ e, WallEdge.vertex_a e ∈ dom (WallTopologyGraph.vertices g)
               ∧ WallEdge.vertex_b e ∈ dom (WallTopologyGraph.vertices g)) es →
  ∀ m, ∃ m',
    foldl (λ acc edge,
             mesh ← acc;
             p_start ← CutawayBuilder.endpoint g (WallEdge.vertex_a edge);
             p_end ← CutawayBuilder.endpoint g (WallEdge.vertex_b edge);
             Ret (extrude_wall_edge sqrt p_start p_end WALL_THICKNESS WALL_HEIGHT mesh).2)
          (Ret m) es = Ret m'
    ∧ length (Mesh.faces m')
      = (length (Mesh.faces m) + 12 * length (filter (λ e, extruded g e = true) es))%nat
    ∧ (length (Mesh.vertices m')
       ≤ length (Mesh.vertices m) + 8 * length (filter (λ e, extruded g e = true) es))%nat.
Proof.
  induction 1 as [|e es [[va Hva]%elem_of_dom [vb Hvb]%elem_of_dom] _ IH]; intros m.
  - exists m. simpl. split; [done|]. split; lia.
  - assert (CutawayBuilder.endpoint g (WallEdge.vertex_a e)
            = Ret (WallVertex.position va)) as Ha
      by (unfold CutawayBuilder.endpoint; by rewrite Hva).
    assert (CutawayBuilder.endpoint g (WallEdge.vertex_b e)
            = Ret (WallVertex.position vb)) as Hb
      by (unfold CutawayBuilder.endpoint; by rewrite Hvb).
    cbn [foldl mbind exn_bind]. rewrite Ha. cbn [mbind exn_bind]. rewrite Hb.
    cbn [mbind exn_bind].
    destruct (extrude_wall_edge_counts (WallVertex.position va) (WallVertex.position vb) m)
      as [Hf Hv].
    destruct (IH (extrude_wall_edge sqrt (WallVertex.position va) (WallVertex.position vb)
                    WALL_THICKNESS WALL_HEIGHT m).2) as (m' & Hfold & Hf' & Hv').
    exists m'. split; [exact Hfold|].
    assert (extruded g e
            = negb (bool_decide (wall_length (WallVertex.position va)
                                   (WallVertex.position vb) < Q2Qc (1 # 1000000))%Qc))
      as Hlong by (unfold extruded; by rewrite Hva, Hvb).
    rewrite filter_cons. rewrite <- Hlong in Hf, Hv.
    destruct (extruded g e).
    + rewrite decide_True by done. cbn [length]. lia.
    + rewrite decide_False by done. lia.
Qed.

End WallFaces.

(** X13.  For a wall graph built by [add_vertex] and [add_edge] that has
    an edge, the mesh [CutawayBuilder.build] returns has exactly twelve
    faces for the floor slab and twelve for every edge whose wall is not
    shorter than a thousandth of a millimetre, and at most eight vertices
    for each of them. *)
Theorem build_adds_twelve_faces_per_wall
    (sqrt : Qc → Qc) (g : WallTopologyGraph.t) (rs : option (RoomSet.t Qc)) :
  WallTopologyGraph.constructed g →
  WallTopologyGraph.edges g ≠ ∅ →
  let walls := length (filter (λ e, extruded sqrt g e = true)
                              (WallTopologyGraph.edge_values g)) in
  ∃ mesh,
    (CutawayBuilder.build sqrt (CutawayBuilder.init (Some g) rs)).1 = Some mesh
    ∧ length (Mesh.faces mesh) = (12 + 12 * walls)%nat
    ∧ (length (Mesh.vertices mesh) ≤ 8 + 8 * walls)%nat.
Proof.
  intros Hcons Hedges walls.
  pose proof (constructed_invariant g Hcons) as Hinv.
  destruct (floor_slab_counts (CutawayBuilder.init (Some g) rs) g "cutaway_model"
              eq_refl Hinv (edges_need_vertices g Hinv Hedges)) as [Hv Hf].
  unfold CutawayBuilder.build, CutawayBuilder._build_walls.
  cbn [CutawayBuilder.wall_graph CutawayBuilder.init].
  rewrite (bool_decide_eq_false_2 _ Hedges).
  destruct (walls_counts sqrt g _ (edges_have_endpoints g Hinv)
              (CutawayBuilder._build_floor_slab
                 (CutawayBuilder.init (Some g) rs) (Mesh.init "cutaway_model")))
    as (m' & -> & Hfaces & Hverts).
  cbn [mbind exn_bind fst]. eexists. split; [reflexivity|].
  destruct (recalculate_normals_lengths sqrt m') as [-> ->]. fold walls in Hfaces, Hverts.
  lia.
Qed.

Lemma build_adds_twelve_faces_per_wall_witness :
  ∃ g mesh,
    horizontal_wall_graph = Ret g
    ∧ (CutawayBuilder.build (λ q, q) (CutawayBuilder.init (Some g) None)).1 = Some mesh
    ∧ length (Mesh.faces mesh)
      = (12 + 12 * length (filter (λ e, extruded (λ q, q) g e = true)
                                  (WallTopologyGraph.edge_values g)))%nat.
Proof.
  assert (has_edges horizontal_wall_graph 1 = true) as Hedges by (vm_compute; reflexivity).
  pose proof (λ g, with_edges_constructed _ _ g (with_vertices_constructed _)
              : horizontal_wall_graph = Ret g → WallTopologyGraph.constructed g) as Hcons.
  destruct horizontal_wall_graph as [g|]; [|discriminate Hedges].
  apply bool_decide_eq_true in Hedges.
  destruct (build_adds_twelve_faces_per_wall (λ q, q) g None (Hcons g eq_refl))
    as (mesh & Hmesh & Hfaces & _).
  { intros Hempty. rewrite Hempty, map_size_empty in Hedges. discriminate Hedges. }
  by exists g, mesh.
Defined.

(** X14.  In binary64 arithmetic, the floor slab [_build_floor_slab]
    builds into an empty mesh, for a wall graph that has a vertex, is a
    closed box when its eight corners have pairwise different positions
    after rounding to six decimals: [validate_manifold] then finds every
    edge of it in exactly two faces. *)
Theorem floor_slab_is_manifold_while_corners_stay_apart
    (g : Binary64.wall_graph) (name : string) :
  Binary64.vertex_positions g ≠ [] →
  keys_apart (floor_corners g) →
  Binary64.validate_manifold (Binary64._build_floor_slab (Some g) (Binary64.init name))
  = (true, "Mesh is manifold").
Proof.
  intros Hne Hapart.
  destruct (float_floor_slab_counts g name Hne) as (_ & _ & Hfaces).
  unfold Binary64.validate_manifold, Binary64.edge_count. rewrite (Hfaces Hapart).
  vm_compute. reflexivity.
Qed.

Lemma floor_slab_is_manifold_while_corners_stay_apart_witness :
  Binary64.validate_manifold
    (Binary64._build_floor_slab (Some rectangle_graph) (Binary64.init "floor"))
  = (true, "Mesh is manifold").
Proof.
  apply floor_slab_is_manifold_while_corners_stay_apart.
  - discriminate.
  - apply (bool_decide_unpack _). vm_compute. reflexivity.
Defined.
(** ** Stage 7: the openings cut into a mesh *)

Section OpeningFacts.

Import ManifoldBoolean.

(** The mesh with other faces. *)
Definition with_faces (mesh : Mesh.t Qc) (faces : list (Face.t Qc)) : Mesh.t Qc :=
  {| Mesh.name := Mesh.name mesh; Mesh.vertices := Mesh.vertices mesh;
     Mesh.faces := faces; Mesh.vertex_hash_map := Mesh.vertex_hash_map mesh |}.

(** The volume [generate_doors] cuts for a door, and the one
    [generate_windows] cuts for a window. *)
Definition door_volume (door_info : Opening.t) : volume :=
  let '(x, y) := Opening.position door_info in
  let spec := DEFAULT_DOOR_SPEC in
  cut_volume x y (DoorSpec.width spec) (DoorSpec.height spec)
             (DoorSpec.z_bottom spec) (DoorSpec.height spec).

Definition window_volume (window_info : Opening.t) : volume :=
  let '(x, y) := Opening.position window_info in
  let spec := DEFAULT_WINDOW_SPEC in
  cut_volume x y (WindowSpec.width spec) (WindowSpec.height spec)
             (WindowSpec.sill_height spec)
             (WindowSpec.sill_height spec + WindowSpec.height spec)%Qc.

(** A face that is within the bounds of none of the volumes. *)
Definition outside_all (vs : list (Vertex.t Qc)) (vols : list volume)
    (f : Face.t Qc) : Prop :=
  Forall (λ vol, ¬ within_bounds vs vol f) vols.

#[global] Instance outside_all_dec vs vols f : Decision (outside_all vs vols f).
Proof. unfold outside_all. apply _. Defined.

(** A face with an index that is no index of a vertex. *)
Definition dangling (vs : list (Vertex.t Qc)) (f : Face.t Qc) : Prop :=
  let '(vi0, vi1, vi2) := Face.vertex_indices f in
  (length vs ≤ vi0)%nat ∨ (length vs ≤ vi1)%nat ∨ (length vs ≤ vi2)%nat.

#[global] Instance dangling_dec vs f : Decision (dangling vs f).
Proof. unfold dangling. destruct (Face.vertex_indices f) as [[vi0 vi1] vi2]. apply _. Defined.

Lemma with_faces_well_indexed mesh faces :
  well_indexed mesh → faces ⊆ Mesh.faces mesh → well_indexed (with_faces mesh faces).
Proof.
  unfold well_indexed. cbn [with_faces Mesh.vertices Mesh.faces].
  rewrite !list.Forall_forall. intros Hidx Hsub f Hf. apply Hidx, Hsub, Hf.
Qed.

Lemma filter_subseteq {A} (P : A → Prop) `{!∀ x, Decision (P x)} (l : list A) :
  filter P l ⊆ l.
Proof. intros x Hx. by apply list_elem_of_filter in Hx as [_ Hx]. Qed.

Lemma cut_rectangular_hole_with_faces mesh center_x center_y width height z_bottom z_top :
  well_indexed mesh →
  cut_rectangular_hole mesh center_x center_y width height z_bottom z_top
  = Ret (true,
         with_faces mesh
           (filter (λ f, ¬ within_bounds (Mesh.vertices mesh)
                           (cut_volume center_x center_y width height z_bottom z_top) f)
                   (Mesh.faces mesh))).
Proof. apply cut_rectangular_hole_filter. Qed.

(** A sequence of cuts, each one made on the mesh the cut before has
    left: the faces that remain are those within none of the volumes. *)
Lemma fold_cuts {A} (vol_of : A → volume)
    (step : OpeningGenerator.t → A → exn OpeningGenerator.t) :
  (∀ self a,
     well_indexed (OpeningGenerator.mesh self) →
     step self a
     = Ret {| OpeningGenerator.mesh :=
                with_faces (OpeningGenerator.mesh self)
                  (filter (λ f, ¬ within_bounds
                                    (Mesh.vertices (OpeningGenerator.mesh self))
                                    (vol_of a) f)
                          (Mesh.faces (OpeningGenerator.mesh self))) |}) →
  ∀ items self,
    well_indexed (OpeningGenerator.mesh self) →
    foldl (λ acc a, self ← acc; step self a) (Ret self) items
    = Ret {| OpeningGenerator.mesh :=
               with_faces (OpeningGenerator.mesh self)
                 (filter (outside_all (Mesh.vertices (OpeningGenerator.mesh self))
                                      (vol_of <$> items))
                         (Mesh.faces (OpeningGenerator.mesh self))) |}.
Proof.
  intros Hstep items. induction items as [|a items IH]; intros [mesh] Hidx.
  - cbn [foldl fmap list_fmap OpeningGenerator.mesh]. do 2 f_equal.
    destruct mesh as [name vs faces hash]. unfold with_faces.
    cbn [Mesh.name Mesh.vertices Mesh.faces Mesh.vertex_hash_map]. f_equal.
    symmetry. apply filter_all. apply list.Forall_forall. intros f _. constructor.
  - cbn [foldl]. cbn [mbind exn_bind]. rewrite (Hstep _ _ Hidx).
    cbn [OpeningGenerator.mesh] in *.
    rewrite IH.
    2:{ cbn [OpeningGenerator.mesh]. apply with_faces_well_indexed; [done|].
        apply filter_subseteq. }
    do 2 f_equal. unfold with_faces.
    cbn [OpeningGenerator.mesh Mesh.name Mesh.vertices Mesh.faces Mesh.vertex_hash_map].
    f_equal. rewrite list_filter_filter. apply list_filter_iff.
    intros f. unfold outside_all. cbn [fmap list_fmap].
    rewrite list.Forall_cons. tauto.
Qed.

Lemma generate_doors_filter self door_list :
  well_indexed (OpeningGenerator.mesh self) →
  OpeningGenerator.generate_doors self door_list
  = Ret (true,
         {| OpeningGenerator.mesh :=
              with_faces (OpeningGenerator.mesh self)
                (filter (outside_all (Mesh.vertices (OpeningGenerator.mesh self))
                                     (door_volume <$> door_list))
                        (Mesh.faces (OpeningGenerator.mesh self))) |}).
Proof.
  intros Hidx. unfold OpeningGenerator.generate_doors.
  rewrite (fold_cuts door_volume
             (λ self door_info,
                let '(x, y) := Opening.position door_info in
                let spec := DEFAULT_DOOR_SPEC in
                '(_, mesh) ← cut_rectangular_hole (OpeningGenerator.mesh self) x y
                                (DoorSpec.width spec) (DoorSpec.height spec)
                                (DoorSpec.z_bottom spec) (DoorSpec.height spec);
                Ret {| OpeningGenerator.mesh := mesh |})); [done| |done].
  intros self' a Hidx'. unfold door_volume.
  destruct (Opening.position a) as [x y]. cbv zeta.
  by rewrite (cut_rectangular_hole_with_faces _ _ _ _ _ _ _ Hidx').
Qed.

Lemma generate_windows_filter self window_list :
  well_indexed (OpeningGenerator.mesh self) →
  OpeningGenerator.generate_windows self window_list
  = Ret (true,
         {| OpeningGenerator.mesh :=
              with_faces (OpeningGenerator.mesh self)
                (filter (outside_all (Mesh.vertices (OpeningGenerator.mesh self))
                                     (window_volume <$> window_list))
                        (Mesh.faces (OpeningGenerator.mesh self))) |}).
Proof.
  intros Hidx. unfold OpeningGenerator.generate_windows.
  rewrite (fold_cuts window_volume
             (λ self window_info,
                let '(x, y) := Opening.position window_info in
                let spec := DEFAULT_WINDOW_SPEC in
                '(_, mesh) ← cut_rectangular_hole (OpeningGenerator.mesh self) x y
                                (WindowSpec.width spec) (WindowSpec.height spec)
                                (WindowSpec.sill_height spec)
                                (WindowSpec.sill_height spec + WindowSpec.height spec)%Qc;
                Ret {| OpeningGenerator.mesh := mesh |})); [done| |done].
  intros self' a Hidx'. unfold window_volume.
  destruct (Opening.position a) as [x y]. cbv zeta.
  by rewrite (cut_rectangular_hole_with_faces _ _ _ _ _ _ _ Hidx').
Qed.

(** The cuts of [generate_all], before the normals are recalculated. *)
Lemma generate_all_filter (sqrt : Qc → Qc) self doors windows :
  well_indexed (OpeningGenerator.mesh self) →
  OpeningGenerator.generate_all sqrt self doors windows
  = Ret (true,
         {| OpeningGenerator.mesh :=
              recalculate_normals sqrt
                (with_faces (OpeningGenerator.mesh self)
                   (filter (outside_all (Mesh.vertices (OpeningGenerator.mesh self))
                                        ((door_volume <$> doors)
                                         ++ (window_volume <$> windows)))
                           (Mesh.faces (OpeningGenerator.mesh self)))) |}).
Proof.
  intros Hidx. unfold OpeningGenerator.generate_all.
  assert (match doors with
          | [] => Ret (true, self)
          | _ => OpeningGenerator.generate_doors self doors
          end
          = Ret (true,
                 {| OpeningGenerator.mesh :=
                      with_faces (OpeningGenerator.mesh self)
                        (filter (outside_all (Mesh.vertices (OpeningGenerator.mesh self))
                                             (door_volume <$> doors))
                                (Mesh.faces (OpeningGenerator.mesh self))) |})) as ->.
  { rewrite <- (generate_doors_filter self doors Hidx).
    destruct doors; [|done]. by unfold OpeningGenerator.generate_doors. }
  cbn [mbind exn_bind].
  set (self1 := {| OpeningGenerator.mesh := with_faces _ _ |}).
  assert (well_indexed (OpeningGenerator.mesh self1)) as Hidx1.
  { apply with_faces_well_indexed; [done|]. apply filter_subseteq. }
  assert (match windows with
          | [] => Ret (true, self1)
          | _ => OpeningGenerator.generate_windows self1 windows
          end
          = Ret (true,
                 {| OpeningGenerator.mesh :=
                      with_faces (OpeningGenerator.mesh self1)
                        (filter (outside_all (Mesh.vertices (OpeningGenerator.mesh self1))
                                             (window_volume <$> windows))
                                (Mesh.faces (OpeningGenerator.mesh self1))) |})) as ->.
  { rewrite <- (generate_windows_filter self1 windows Hidx1).
    destruct windows; [|done]. by unfold OpeningGenerator.generate_windows. }
  cbn [mbind exn_bind andb OpeningGenerator.mesh]. do 4 f_equal.
  unfold self1, with_faces.
  cbn [OpeningGenerator.mesh Mesh.name Mesh.vertices Mesh.faces Mesh.vertex_hash_map].
  f_equal. rewrite list_filter_filter. apply list_filter_iff.
  intros f. unfold outside_all. rewrite list.Forall_app. tauto.
Qed.

(** A face with an index out of range makes the search for the faces to
    remove raise. *)
Lemma faces_to_remove_dangling vs vol faces :
  Exists (dangling vs) faces →
  ∀ k, faces_to_remove vs vol k faces = Raise IndexError.
Proof.
  induction faces as [|[[[vi0 vi1] vi2] normal] rest IH]; intros Hex k.
  { by apply Exists_nil in Hex. }
  cbn [faces_to_remove Face.vertex_indices]. unfold position_at.
  destruct (vs !! vi0) as [v0|] eqn:H0; [|done].
  destruct (vs !! vi1) as [v1|] eqn:H1; [|done].
  destruct (vs !! vi2) as [v2|] eqn:H2; [|done].
  cbn [mbind exn_bind].
  apply Exists_cons in Hex as [Hhere|Hlater].
  - unfold dangling in Hhere. cbn [Face.vertex_indices] in Hhere.
    apply lookup_lt_Some in H0, H1, H2. lia.
  - by rewrite (IH Hlater).
Qed.

Lemma cut_rectangular_hole_dangling mesh center_x center_y width height z_bottom z_top :
  Exists (dangling (Mesh.vertices mesh)) (Mesh.faces mesh) →
  cut_rectangular_hole mesh center_x center_y width height z_bottom z_top
  = Raise IndexError.
Proof.
  intros Hex. unfold cut_rectangular_hole.
  by rewrite (faces_to_remove_dangling _ _ _ Hex).
Qed.

Lemma foldl_raise {A B} (step : B → A → exn B) (e : exception) (items : list A) :
  foldl (λ acc a, self ← acc; step self a) (Raise e) items = Raise e.
Proof. induction items as [|a items IH]; [done|]. exact IH. Qed.

End OpeningFacts.
(** The volumes stage 7 cuts for the doors and the windows that
    [OpeningDetector.detect] finds in the masks. *)
Definition opening_volumes (cv : cv2.api) (door_mask window_mask wall_mask : np.ndarray)
    (scale_factor : Qc) : list ManifoldBoolean.volume :=
  let detector := OpeningDetector.init door_mask window_mask wall_mask scale_factor in
  let '(doors, windows, _) := OpeningDetector.detect cv detector in
  (door_volume <$> doors) ++ (window_volume <$> windows).

(** X15.  On a mesh whose faces refer to vertices it has, two cuts can be
    made in either order with the same result, and making a cut a second
    time changes nothing. *)
Theorem cuts_commute_and_repeat_harmlessly (mesh : Mesh.t Qc)
    (x1 y1 w1 h1 b1 t1 x2 y2 w2 h2 b2 t2 : Qc) :
  well_indexed mesh →
  ∃ m1 m2 m12,
    ManifoldBoolean.cut_rectangular_hole mesh x1 y1 w1 h1 b1 t1 = Ret (true, m1)
    ∧ ManifoldBoolean.cut_rectangular_hole mesh x2 y2 w2 h2 b2 t2 = Ret (true, m2)
    ∧ ManifoldBoolean.cut_rectangular_hole m1 x2 y2 w2 h2 b2 t2 = Ret (true, m12)
    ∧ ManifoldBoolean.cut_rectangular_hole m2 x1 y1 w1 h1 b1 t1 = Ret (true, m12)
    ∧ ManifoldBoolean.cut_rectangular_hole m1 x1 y1 w1 h1 b1 t1 = Ret (true, m1).
Proof.
  intros Hidx.
  set (vol1 := ManifoldBoolean.cut_volume x1 y1 w1 h1 b1 t1).
  set (vol2 := ManifoldBoolean.cut_volume x2 y2 w2 h2 b2 t2).
  set (keep1 := λ f, ¬ within_bounds (Mesh.vertices mesh) vol1 f).
  set (keep2 := λ f, ¬ within_bounds (Mesh.vertices mesh) vol2 f).
  assert (well_indexed (with_faces mesh (filter keep1 (Mesh.faces mesh)))) as Hidx1.
  { apply with_faces_well_indexed; [done|]. apply filter_subseteq. }
  assert (well_indexed (with_faces mesh (filter keep2 (Mesh.faces mesh)))) as Hidx2.
  { apply with_faces_well_indexed; [done|]. apply filter_subseteq. }
  exists (with_faces mesh (filter keep1 (Mesh.faces mesh))),
         (with_faces mesh (filter keep2 (Mesh.faces mesh))),
         (with_faces mesh (filter (λ f, keep1 f ∧ keep2 f) (Mesh.faces mesh))).
  split; [by apply cut_rectangular_hole_with_faces|].
  split; [by apply cut_rectangular_hole_with_faces|].
  split; [|split].
  - rewrite (cut_rectangular_hole_with_faces _ _ _ _ _ _ _ Hidx1).
    do 2 f_equal. unfold with_faces.
    cbn [Mesh.name Mesh.vertices Mesh.faces Mesh.vertex_hash_map]. f_equal.
    fold vol2. fold keep2. rewrite list_filter_filter.
    apply list_filter_iff. intros f. tauto.
  - rewrite (cut_rectangular_hole_with_faces _ _ _ _ _ _ _ Hidx2).
    do 2 f_equal. unfold with_faces.
    cbn [Mesh.name Mesh.vertices Mesh.faces Mesh.vertex_hash_map]. f_equal.
    fold vol1. fold keep1. by rewrite list_filter_filter.
  - rewrite (cut_rectangular_hole_with_faces _ _ _ _ _ _ _ Hidx1).
    do 2 f_equal. unfold with_faces.
    cbn [Mesh.name Mesh.vertices Mesh.faces Mesh.vertex_hash_map]. f_equal.
    fold vol1. fold keep1. rewrite list_filter_filter.
    apply list_filter_iff. intros f. tauto.
Qed.

Lemma cuts_commute_and_repeat_harmlessly_witness :
  well_indexed boundary_mesh
  ∧ ∃ m1 m2 m12,
      ManifoldBoolean.cut_rectangular_hole boundary_mesh
        (Q2Qc 0) (Q2Qc 0) (Q2Qc 2) (Q2Qc 2) (Q2Qc 0) (Q2Qc 1) = Ret (true, m1)
      ∧ ManifoldBoolean.cut_rectangular_hole boundary_mesh
          (Q2Qc 5) (Q2Qc 5) (Q2Qc 1) (Q2Qc 1) (Q2Qc 0) (Q2Qc 1) = Ret (true, m2)
      ∧ ManifoldBoolean.cut_rectangular_hole m1
          (Q2Qc 5) (Q2Qc 5) (Q2Qc 1) (Q2Qc 1) (Q2Qc 0) (Q2Qc 1) = Ret (true, m12)
      ∧ ManifoldBoolean.cut_rectangular_hole m2
          (Q2Qc 0) (Q2Qc 0) (Q2Qc 2) (Q2Qc 2) (Q2Qc 0) (Q2Qc 1) = Ret (true, m12)
      ∧ ManifoldBoolean.cut_rectangular_hole m1
          (Q2Qc 0) (Q2Qc 0) (Q2Qc 2) (Q2Qc 2) (Q2Qc 0) (Q2Qc 1) = Ret (true, m1).
Proof.
  split; [exact boundary_mesh_well_indexed|].
  apply cuts_commute_and_repeat_harmlessly. exact boundary_mesh_well_indexed.
Defined.

(** X16.  On a mesh whose faces refer to vertices it has, and with a scale
    factor that is not zero, stage 7 succeeds; the mesh it returns has the
    vertices at their positions, the same hash map, and as faces exactly
    the faces within the bounds of none of the door and window volumes, in
    their order. *)
Theorem stage7_removes_exactly_the_faces_within_openings
    (cv : cv2.api) (sqrt : Qc → Qc) (mesh : Mesh.t Qc)
    (door_mask window_mask wall_mask : np.ndarray) (scale_factor : Qc) :
  well_indexed mesh →
  scale_factor ≠ Q2Qc 0 →
  ∃ mesh',
    stage7_openings_generation cv sqrt mesh door_mask window_mask wall_mask scale_factor
    = (true, Some mesh')
    ∧ Vertex.position <$> Mesh.vertices mesh' = Vertex.position <$> Mesh.vertices mesh
    ∧ Face.vertex_indices <$> Mesh.faces mesh'
      = Face.vertex_indices
          <$> filter (outside_all (Mesh.vertices mesh)
                        (opening_volumes cv door_mask window_mask wall_mask scale_factor))
                     (Mesh.faces mesh)
    ∧ Mesh.vertex_hash_map mesh' = Mesh.vertex_hash_map mesh
    ∧ well_indexed mesh'.
Proof.
  intros Hidx _. unfold stage7_openings_generation, opening_volumes.
  destruct (OpeningDetector.detect cv _) as [[doors windows] detector].
  rewrite (generate_all_filter sqrt {| OpeningGenerator.mesh := mesh |} doors windows Hidx).
  cbn [OpeningGenerator.mesh].
  set (cut := with_faces mesh _).
  exists (recalculate_normals sqrt cut). split; [done|].
  destruct (recalculate_normals_geometry sqrt cut) as (Hpos & Hfaces & Hmap & _).
  split; [exact Hpos|]. split; [exact Hfaces|]. split; [exact Hmap|].
  assert (well_indexed cut) as Hcut.
  { apply with_faces_well_indexed; [done|]. apply filter_subseteq. }
  unfold well_indexed in *.
  apply (f_equal length) in Hpos. rewrite !length_fmap in Hpos. rewrite Hpos.
  apply list.Forall_forall. intros f Hf.
  apply (list_elem_of_fmap_2 Face.vertex_indices) in Hf. rewrite Hfaces in Hf.
  apply list_elem_of_fmap in Hf as (f0 & Heq & Hf0).
  rewrite list.Forall_forall in Hcut. specialize (Hcut f0 Hf0).
  by rewrite Heq.
Qed.

(** A door mask with one door, at the pixels [(0, 0)] and [(1, 0)]. *)
Definition one_door_labels : np.ndarray :=
  {| np.shape0 := 2; np.shape1 := 3;
     np.item := λ y x, if bool_decide (y = 0%nat ∧ (x ≤ 1)%nat) then 1 else 0 |}.

Lemma stage7_removes_exactly_the_faces_within_openings_witness :
  well_indexed boundary_mesh
  ∧ Q2Qc 1 ≠ Q2Qc 0
  ∧ ∃ mesh',
      stage7_openings_generation (scripted_cv 2 one_door_labels) (λ x, x) boundary_mesh
        one_door_labels (np.zeros 2 3) (np.zeros 2 3) (Q2Qc 1)
      = (true, Some mesh')
      ∧ Vertex.position <$> Mesh.vertices mesh'
        = Vertex.position <$> Mesh.vertices boundary_mesh
      ∧ Face.vertex_indices <$> Mesh.faces mesh'
        = Face.vertex_indices
            <$> filter (outside_all (Mesh.vertices boundary_mesh)
                          (opening_volumes (scripted_cv 2 one_door_labels) one_door_labels
                             (np.zeros 2 3) (np.zeros 2 3) (Q2Qc 1)))
                       (Mesh.faces boundary_mesh)
      ∧ Mesh.vertex_hash_map mesh' = Mesh.vertex_hash_map boundary_mesh
      ∧ well_indexed mesh'.
Proof.
  assert (Q2Qc 1 ≠ Q2Qc 0) as Hscale.
  { intros H. apply (f_equal this) in H. discriminate H. }
  split; [exact boundary_mesh_well_indexed|]. split; [exact Hscale|].
  apply stage7_removes_exactly_the_faces_within_openings;
    [exact boundary_mesh_well_indexed|exact Hscale].
Defined.

(** X17.  On a mesh with a face that names a vertex index the mesh does
    not have, stage 7 fails with [(False, None)] as soon as a door or a
    window is detected; when none is detected no cut is made and the stage
    returns the mesh with its normals recalculated. *)
Theorem stage7_fails_on_a_dangling_face_index
    (cv : cv2.api) (sqrt : Qc → Qc) (mesh : Mesh.t Qc)
    (door_mask window_mask wall_mask : np.ndarray) (scale_factor : Qc) :
  Exists (dangling (Mesh.vertices mesh)) (Mesh.faces mesh) →
  stage7_openings_generation cv sqrt mesh door_mask window_mask wall_mask scale_factor
  = match opening_volumes cv door_mask window_mask wall_mask scale_factor with
    | [] => (true, Some (recalculate_normals sqrt mesh))
    | _ => (false, None)
    end.
Proof.
  intros Hex. unfold stage7_openings_generation, opening_volumes.
  destruct (OpeningDetector.detect cv _) as [[doors windows] detector].
  unfold OpeningGenerator.generate_all.
  destruct doors as [|door doors].
  - cbn [mbind exn_bind fmap list_fmap app].
    destruct windows as [|window windows]; [done|].
    cbn [fmap list_fmap].
    unfold OpeningGenerator.generate_windows. cbn [foldl mbind exn_bind].
    destruct (Opening.position window) as [x y]. cbv zeta.
    cbn [OpeningGenerator.mesh].
    rewrite (cut_rectangular_hole_dangling _ _ _ _ _ _ _ Hex).
    cbn [mbind exn_bind]. by rewrite foldl_raise.
  - cbn [fmap list_fmap app].
    unfold OpeningGenerator.generate_doors. cbn [foldl mbind exn_bind].
    destruct (Opening.position door) as [x y]. cbv zeta.
    cbn [OpeningGenerator.mesh].
    rewrite (cut_rectangular_hole_dangling _ _ _ _ _ _ _ Hex).
    cbn [mbind exn_bind]. by rewrite foldl_raise.
Qed.

(** A triangle whose third index is one past the last vertex. *)
Definition dangling_mesh : Mesh.t Qc :=
  let m := Mesh.init "wall" in
  let '(a, m) := add_vertex m (Q2Qc 1, Q2Qc 0, Q2Qc 0) None in
  let '(b, m) := add_vertex m (Q2Qc 0, Q2Qc 1, Q2Qc 0) None in
  (Mesh.add_face m a b 2 None).2.

Lemma stage7_fails_on_a_dangling_face_index_witness :
  Exists (dangling (Mesh.vertices dangling_mesh)) (Mesh.faces dangling_mesh)
  ∧ stage7_openings_generation (scripted_cv 2 one_door_labels) (λ x, x) dangling_mesh
      one_door_labels (np.zeros 2 3) (np.zeros 2 3) (Q2Qc 1)
    = (false, None).
Proof.
  assert (Exists (dangling (Mesh.vertices dangling_mesh)) (Mesh.faces dangling_mesh))
    as Hex.
  { apply Exists_cons_hd. unfold dangling. vm_compute. right. right. constructor. }
  split; [exact Hex|].
  rewrite (stage7_fails_on_a_dangling_face_index _ _ _ _ _ _ _ Hex).
  reflexivity.
Defined.
(** ** Stage 8: what a result records *)

(** The messages of the checks that failed, in their order. *)
Definition failed_messages (checks : list (string * bool * string)) : list string :=
  (λ c, c.2) <$> filter (λ c : string * bool * string, c.1.2 = false) checks.

(** A result whose verdict and error list are those of its checks. *)
Record result_invariant (r : ValidationResult.t) : Prop := {
  inv_passed :
    ValidationResult.passed r = forallb (λ c, c.1.2) (ValidationResult.checks r);
  inv_errors :
    ValidationResult.errors r = failed_messages (ValidationResult.checks r)
}.

Lemma init_result_invariant : result_invariant ValidationResult.init.
Proof. by split. Qed.

Lemma failed_messages_snoc checks name passed message :
  failed_messages (checks ++ [(name, passed, message)])
  = failed_messages checks ++ (if passed then [] else [message]).
Proof.
  unfold failed_messages. rewrite list.filter_app, fmap_app. f_equal.
  rewrite filter_cons, filter_nil. cbn [fst snd].
  destruct passed.
  - by rewrite decide_False.
  - by rewrite decide_True.
Qed.

Lemma add_check_invariant r name passed message :
  result_invariant r →
  result_invariant (ValidationResult.add_check r name passed message).
Proof.
  intros [Hp He]. unfold ValidationResult.add_check.
  destruct passed; cbn [negb]; split;
    cbn [ValidationResult.passed ValidationResult.checks ValidationResult.errors];
    rewrite ?forallb_app, ?failed_messages_snoc, ?app_nil_r; cbn [forallb fst snd];
    rewrite ?andb_true_r, ?andb_false_r; congruence.
Qed.

Lemma add_check_checks r name passed message :
  ValidationResult.checks (ValidationResult.add_check r name passed message)
  = ValidationResult.checks r ++ [(name, passed, message)].
Proof. unfold ValidationResult.add_check. by destruct passed. Qed.

Lemma add_warning_invariant r message :
  result_invariant r → result_invariant (ValidationResult.add_warning r message).
Proof. by intros [Hp He]. Qed.

Section ResultFacts.

Context {F : Type} `{Countable F}.
Variable ops : float_ops F.

(** The checks of a stage result under their prefix. *)
Definition prefixed (prefix : string) (checks : list (string * bool * string))
    : list (string * bool * string) :=
  (λ '(name, passed, msg), (prefix +:+ name, passed, msg)) <$> checks.

Lemma merge_spec prefix combined stage :
  result_invariant combined →
  result_invariant (ComprehensiveValidator.merge prefix combined stage)
  ∧ ValidationResult.checks (ComprehensiveValidator.merge prefix combined stage)
    = ValidationResult.checks combined
      ++ prefixed prefix (ValidationResult.checks stage).
Proof.
  unfold ComprehensiveValidator.merge.
  assert (∀ ws r,
            result_invariant r →
            result_invariant
              (foldl (λ r w, ValidationResult.add_warning r (prefix +:+ w)) r ws)
            ∧ ValidationResult.checks
                (foldl (λ r w, ValidationResult.add_warning r (prefix +:+ w)) r ws)
              = ValidationResult.checks r) as Hwarn.
  { induction ws as [|w ws IH]; intros r Hr; cbn [foldl]; [done|].
    destruct (IH (ValidationResult.add_warning r (prefix +:+ w))) as [Hinv Hchecks];
      [by apply add_warning_invariant|].
    split; [exact Hinv|]. by rewrite Hchecks. }
  intros Hinv.
  assert (∀ cs r,
            result_invariant r →
            result_invariant
              (foldl (λ r '(name, passed, msg),
                        ValidationResult.add_check r (prefix +:+ name) passed msg) r cs)
            ∧ ValidationResult.checks
                (foldl (λ r '(name, passed, msg),
                          ValidationResult.add_check r (prefix +:+ name) passed msg) r cs)
              = ValidationResult.checks r ++ prefixed prefix cs) as Hchecks.
  { induction cs as [|[[name passed] msg] cs IH]; intros r Hr; cbn [foldl].
    - split; [done|]. unfold prefixed. cbn [fmap list_fmap]. by rewrite app_nil_r.
    - destruct (IH (ValidationResult.add_check r (prefix +:+ name) passed msg))
        as [Hinv' Heq]; [by apply add_check_invariant|].
      split; [exact Hinv'|]. rewrite Heq, add_check_checks.
      unfold prefixed. cbn [fmap list_fmap]. by rewrite <- (assoc_L (++)). }
  destruct (Hchecks (ValidationResult.checks stage) combined Hinv) as [Hinv1 Heq1].
  destruct (Hwarn (ValidationResult.warnings stage) _ Hinv1) as [Hinv2 Heq2].
  split; [exact Hinv2|]. by rewrite Heq2, Heq1.
Qed.

Lemma add_warning_checks r message :
  ValidationResult.checks (ValidationResult.add_warning r message)
  = ValidationResult.checks r.
Proof. done. Qed.

Lemma geometry_count_checks (mesh : Mesh.t F) r :
  length (ValidationResult.checks (MeshValidator._check_geometry_count mesh r))
  = S (length (ValidationResult.checks r)).
Proof.
  unfold MeshValidator._check_geometry_count.
  rewrite add_check_checks, length_app. cbn [length]. lia.
Qed.

Lemma manifold_checks (mesh : Mesh.t F) r :
  length (ValidationResult.checks (MeshValidator._check_manifold mesh r))
  = S (length (ValidationResult.checks r)).
Proof.
  unfold MeshValidator._check_manifold. destruct (Mesh.validate_manifold mesh).
  rewrite add_check_checks, length_app. cbn [length]. lia.
Qed.

Lemma dimensions_checks mesh r :
  length (ValidationResult.checks (MeshValidator._check_dimensions ops mesh r))
  = S (length (ValidationResult.checks r)).
Proof.
  unfold MeshValidator._check_dimensions. destruct (Mesh.vertices mesh).
  - rewrite add_check_checks, length_app. cbn [length]. lia.
  - destruct (flt ops _ _);
      rewrite ?add_warning_checks, add_check_checks, length_app; cbn [length]; lia.
Qed.

Lemma vertex_positions_checks mesh r :
  length (ValidationResult.checks (MeshValidator._check_vertex_positions ops mesh r))
  = S (length (ValidationResult.checks r)).
Proof.
  unfold MeshValidator._check_vertex_positions.
  rewrite add_check_checks, length_app. cbn [length]. lia.
Qed.

Lemma numerical_validity_checks mesh r :
  length (ValidationResult.checks (MeshValidator._check_numerical_validity ops mesh r))
  = S (length (ValidationResult.checks r)).
Proof.
  unfold MeshValidator._check_numerical_validity.
  rewrite add_check_checks, length_app.
  pose proof (warn_first_invalid_fields ops (Mesh.vertices mesh) 0 r) as Hwarn.
  cbv zeta in Hwarn. destruct Hwarn as (_ & -> & _). cbn [length]. lia.
Qed.

Lemma mesh_validate_checks mesh :
  length (ValidationResult.checks (MeshValidator.validate ops mesh)) = 5%nat.
Proof.
  unfold MeshValidator.validate.
  by rewrite numerical_validity_checks, vertex_positions_checks, dimensions_checks,
    manifold_checks, geometry_count_checks.
Qed.

Lemma cutaway_validate_checks mesh :
  length (ValidationResult.checks (CutawayValidator.validate ops mesh)) = 3%nat.
Proof.
  unfold CutawayValidator.validate, CutawayValidator._check_floor_exists,
    CutawayValidator._check_open_top, CutawayValidator._check_no_roof.
  destruct (Mesh.vertices mesh); case_bool_decide; by rewrite !add_check_checks.
Qed.

Lemma architecture_validate_checks self r :
  ArchitectureValidator.validate self = Ret r →
  length (ValidationResult.checks r) = 4%nat.
Proof.
  unfold ArchitectureValidator.validate, ArchitectureValidator._check_graph_connectivity,
    ArchitectureValidator._check_room_separation, ArchitectureValidator._check_room_count,
    ArchitectureValidator._check_wall_count.
  destruct (ArchitectureValidator.wall_graph self) as [g|].
  - destruct (WallTopologyGraph.validate g) as [[is_connected msg]|]; [|done].
    cbn [mbind exn_bind]. intros [= <-].
    destruct (ArchitectureValidator.room_set self) as [rs|].
    + destruct (RoomSet.check_overlap rs). by rewrite !add_check_checks.
    + by rewrite !add_check_checks.
  - intros [= <-].
    destruct (ArchitectureValidator.room_set self) as [rs|].
    + destruct (RoomSet.check_overlap rs). by rewrite !add_check_checks.
    + by rewrite !add_check_checks.
Qed.

Lemma prefixed_length prefix checks : length (prefixed prefix checks) = length checks.
Proof. unfold prefixed. by rewrite length_fmap. Qed.

Lemma failed_messages_nil checks :
  failed_messages checks = [] ↔ forallb (λ c, c.1.2) checks = true.
Proof.
  induction checks as [|[[name passed] msg] cs IH]; [done|].
  unfold failed_messages in *. rewrite filter_cons. cbn [fst snd forallb].
  destruct passed.
  - rewrite decide_False by done. by rewrite IH.
  - rewrite decide_True by done. done.
Qed.

End ResultFacts.

(** X18.  Stage 8 answers with the verdict of the result it returns.  When
    no validator raises, the result holds twelve checks, the verdict is
    [True] exactly when every one of them passed, and the errors are the
    messages of the failed checks in their order; when one raises, the
    result has no check, the verdict [False] and the exception as its only
    error. *)
Theorem stage8_passes_exactly_when_no_check_failed {F : Type} `{Countable F}
    (ops : float_ops F) (str_of_exception : exception → string) (mesh : Mesh.t F)
    (wall_graph : option WallTopologyGraph.t) (room_set : option (RoomSet.t Qc))
    (wall_count : option Z) :
  let '(ok, r) :=
    ComprehensiveValidator.stage8_validation ops str_of_exception mesh
      wall_graph room_set wall_count in
  ok = ValidationResult.passed r
  ∧ (ok = true ↔ ValidationResult.checks r ≠ []
                 ∧ Forall (λ c, c.1.2 = true) (ValidationResult.checks r))
  ∧ (ok = true ↔ ValidationResult.errors r = [])
  ∧ ((length (ValidationResult.checks r) = 12%nat
      ∧ ValidationResult.errors r = failed_messages (ValidationResult.checks r))
     ∨ (ValidationResult.checks r = []
        ∧ ∃ e, ComprehensiveValidator.validate_all ops mesh wall_graph room_set wall_count
               = Raise e
               ∧ ValidationResult.errors r = [str_of_exception e])).
Proof.
  unfold ComprehensiveValidator.stage8_validation.
  destruct (ComprehensiveValidator.validate_all ops mesh wall_graph room_set wall_count)
    as [[ok r]|e] eqn:Hall.
  2:{ cbn [ValidationResult.passed ValidationResult.checks ValidationResult.errors].
      split; [done|]. split; [split; [done|by intros [? _]]|].
      split; [done|]. right. split; [done|]. by exists e. }
  unfold ComprehensiveValidator.validate_all in Hall.
  destruct (ArchitectureValidator.validate _) as [arch|] eqn:Harch; [|done].
  cbn [mbind exn_bind] in Hall. injection Hall as <- <-.
  destruct (merge_spec "Mesh: " ValidationResult.init (MeshValidator.validate ops mesh)
              init_result_invariant) as [Hinv1 Hc1].
  destruct (merge_spec "Architecture: " _ arch Hinv1) as [Hinv2 Hc2].
  destruct (merge_spec "Cutaway: " _ (CutawayValidator.validate ops mesh) Hinv2)
    as [[Hp He] Hc3].
  set (r := ComprehensiveValidator.merge "Cutaway: " _ _) in *.
  assert (length (ValidationResult.checks r) = 12%nat) as Hlen.
  { rewrite Hc3, Hc2, Hc1. rewrite !length_app, !prefixed_length.
    rewrite mesh_validate_checks, cutaway_validate_checks.
    by rewrite (architecture_validate_checks _ _ Harch). }
  split; [done|]. split; [|split].
  - rewrite Hp, forallb_forall, list.Forall_forall.
    split.
    + intros Hall. split; [by destruct (ValidationResult.checks r)|].
      intros c Hc. apply Hall. by apply list_elem_of_In.
    + intros [_ Hall] c Hc. apply Hall. by apply list_elem_of_In.
  - by rewrite Hp, He, failed_messages_nil.
  - left. by split.
Qed.
(** ** Stage 8: the architecture checks *)

Section ArchitectureFacts.

Context {K : Type} `{Countable K}.

(** No two rooms of the list share a pixel, whatever the coordinates
    are. *)
Definition rooms_disjoint (l : list (Room.t K)) : Prop :=
  ∀ i j room1 room2, i ≠ j → l !! i = Some room1 → l !! j = Some room2 →
    Room.pixels room1 ∩ Room.pixels room2 = ∅.

Lemma first_overlap_disjoint (l : list (Room.t K)) :
  RoomSet.first_overlap l = None ↔ rooms_disjoint l.
Proof.
  rewrite (ordered_scan_None
             (λ room1 room2, bool_decide (RoomSet.overlap room1 room2 ≠ ∅))
             RoomSet.first_overlap); [|done|done].
  unfold rooms_disjoint, RoomSet.overlap. split.
  - intros Hall i j room1 room2 Hne Hi Hj.
    destruct (decide (i < j)%nat) as [Hlt|Hge].
    + specialize (Hall i j room1 room2 Hlt Hi Hj).
      apply bool_decide_eq_false in Hall. by apply dec_stable.
    + assert (j < i)%nat as Hlt by lia.
      specialize (Hall j i room2 room1 Hlt Hj Hi).
      apply bool_decide_eq_false in Hall. apply dec_stable in Hall.
      set_solver.
  - intros Hall i j room1 room2 Hlt Hi Hj.
    apply bool_decide_eq_false. intros Hne. apply Hne.
    apply (Hall i j); [lia | done | done].
Qed.

Lemma check_overlap_disjoint (rs : RoomSet.t K) :
  (RoomSet.check_overlap rs).1 = true ↔ rooms_disjoint (RoomSet.rooms rs).
Proof.
  rewrite <- first_overlap_disjoint. unfold RoomSet.check_overlap.
  destruct (RoomSet.first_overlap (RoomSet.rooms rs)) as [[room1 room2]|]; simpl;
    split; congruence.
Qed.

End ArchitectureFacts.

(** [validate] on a graph built by [add_vertex] and [add_edge]: it
    returns, and its answer is whether the graph has two vertices, an edge
    and is connected. *)
Lemma validate_decides (g : WallTopologyGraph.t) :
  WallTopologyGraph.constructed g →
  ∃ b msg,
    WallTopologyGraph.validate g = Ret (b, msg)
    ∧ (b = true ↔ (2 ≤ size (WallTopologyGraph.vertices g))%nat
                  ∧ (1 ≤ size (WallTopologyGraph.edges g))%nat ∧ connected g).
Proof.
  intros Hg. pose proof (constructed_invariant g Hg) as Hinv.
  destruct (constructed_sizes g Hg) as [Hsize _].
  destruct (is_connected_decides g Hinv) as (b & Hb & Hiff).
  unfold WallTopologyGraph.validate. rewrite Hb. cbn [mbind exn_bind].
  case_bool_decide as Hv.
  { eexists _, _. split; [reflexivity|]. split; [done|]. intros (? & _). lia. }
  case_bool_decide as He.
  { eexists _, _. split; [reflexivity|]. split; [done|]. intros (_ & ? & _). lia. }
  destruct b; cbn [negb]; eexists _, _; (split; [reflexivity|]).
  - split; [|done]. intros _. split; [lia|]. split; [lia|]. by apply Hiff.
  - split; [done|]. intros (_ & _ & Hconn).
    destruct Hiff as [_ Hiff]. apply Hiff. split; [lia|done].
Qed.

(** X19.  For a wall graph built by [add_vertex] and [add_edge] and a room
    set, the architecture validator returns a result, and the result passes
    exactly when the wall count, which is the explicit count when one is
    given and the number of edges otherwise, is at least one, there is a
    room, no two rooms share a pixel, and the graph has two vertices, an
    edge and is connected. *)
Theorem architecture_validation_accepts_exactly
    (g : WallTopologyGraph.t) (rs : RoomSet.t Qc) (wall_count : option Z) :
  WallTopologyGraph.constructed g →
  ∃ r,
    ArchitectureValidator.validate
      {| ArchitectureValidator.wall_graph := Some g;
         ArchitectureValidator.room_set := Some rs;
         ArchitectureValidator.explicit_wall_count := wall_count |} = Ret r
    ∧ length (ValidationResult.checks r) = 4%nat
    ∧ (ValidationResult.passed r = true
       ↔ 1 ≤ default (Z.of_nat (size (WallTopologyGraph.edges g))) wall_count
         ∧ (1 ≤ length (RoomSet.rooms rs))%nat
         ∧ rooms_disjoint (RoomSet.rooms rs)
         ∧ (2 ≤ size (WallTopologyGraph.vertices g))%nat
         ∧ (1 ≤ size (WallTopologyGraph.edges g))%nat
         ∧ connected g).
Proof.
  intros Hg. destruct (validate_decides g Hg) as (b & msg & Hvalidate & Hb).
  unfold ArchitectureValidator.validate, ArchitectureValidator._check_graph_connectivity.
  cbn [ArchitectureValidator.wall_graph]. rewrite Hvalidate. cbn [mbind exn_bind].
  eexists. split; [reflexivity|].
  unfold ArchitectureValidator._check_room_separation,
    ArchitectureValidator._check_room_count, ArchitectureValidator._check_wall_count.
  cbn [ArchitectureValidator.wall_graph ArchitectureValidator.room_set
       ArchitectureValidator.explicit_wall_count].
  pose proof (check_overlap_disjoint rs) as Hoverlap.
  destruct (RoomSet.check_overlap rs) as [no_overlap overlap_msg].
  cbn [fst] in Hoverlap.
  match goal with
  | |- context [ValidationResult.add_check ?r0 "Graph Connectivity" b msg] =>
      assert (result_invariant (ValidationResult.add_check r0 "Graph Connectivity" b msg))
        as [Hp _]
  end.
  { do 4 apply add_check_invariant. apply init_result_invariant. }
  split; [by rewrite !add_check_checks|].
  rewrite Hp, !add_check_checks. cbn [ValidationResult.checks ValidationResult.init app].
  cbn [forallb fst snd]. rewrite !andb_true_iff, bool_decide_eq_true, bool_decide_eq_true.
  unfold MIN_WALL_COUNT, MIN_ROOM_COUNT. rewrite Hoverlap, Hb. tauto.
Qed.

(** A room set of a 9 by 15 image in which no room has been added. *)
Definition no_rooms : RoomSet.t Qc := RoomSet.init (9%nat, 15%nat).

Lemma architecture_validation_accepts_exactly_witness :
  ∃ g, three_vertex_graph = Ret g
       ∧ WallTopologyGraph.constructed g
       ∧ ∃ r,
           ArchitectureValidator.validate
             {| ArchitectureValidator.wall_graph := Some g;
                ArchitectureValidator.room_set :=
                  Some (no_rooms);
                ArchitectureValidator.explicit_wall_count := None |} = Ret r
           ∧ length (ValidationResult.checks r) = 4%nat
           ∧ (ValidationResult.passed r = true
              ↔ 1 ≤ default (Z.of_nat (size (WallTopologyGraph.edges g))) None
                ∧ (1 ≤ length (RoomSet.rooms (no_rooms)))%nat
                ∧ rooms_disjoint (RoomSet.rooms (no_rooms))
                ∧ (2 ≤ size (WallTopologyGraph.vertices g))%nat
                ∧ (1 ≤ size (WallTopologyGraph.edges g))%nat
                ∧ connected g).
Proof.
  assert (validates three_vertex_graph = true) as Hacc by (vm_compute; reflexivity).
  destruct three_vertex_graph as [g|] eqn:Hgraph; [|discriminate Hacc].
  exists g. split; [reflexivity|].
  pose proof (three_vertex_graph_constructed g Hgraph) as Hg.
  split; [exact Hg|].
  exact (architecture_validation_accepts_exactly g no_rooms None Hg).
Defined.
(** ** Stage 9: the geometry buffer and the exported file *)

(** The bytes of a list of indices, each an unsigned 32-bit integer in
    little-endian order. *)
Definition index_bytes (l : list nat) : list byte := l ≫= (λ i, le32 (Z.of_nat i)).

Lemma uint32_tobytes_spec (l : list nat) :
  Forall (λ i, Z.of_nat i < 2 ^ 32) l →
  GLBExporter.uint32_tobytes l = Ret (index_bytes l).
Proof.
  induction 1 as [|i l Hi _ IH]; [done|].
  cbn [GLBExporter.uint32_tobytes]. rewrite (bool_decide_eq_true_2 _ Hi), IH. done.
Qed.

Lemma uint32_tobytes_overflow (l : list nat) :
  Exists (λ i, 2 ^ 32 ≤ Z.of_nat i) l →
  GLBExporter.uint32_tobytes l = Raise OverflowError.
Proof.
  induction l as [|i l IH]; intros Hex; [by apply Exists_nil in Hex|].
  cbn [GLBExporter.uint32_tobytes]. case_bool_decide as Hi; [|done].
  apply Exists_cons in Hex as [Hhere|Hlater]; [lia|]. by rewrite (IH Hlater).
Qed.

Lemma length_index_bytes (l : list nat) : length (index_bytes l) = (4 * length l)%nat.
Proof.
  unfold index_bytes. induction l as [|i l IH]; [done|].
  cbn [mbind list_bind]. rewrite length_app, length_le32.
  change (length (l ≫= λ i, le32 (Z.of_nat i))) with (length (mbind (λ i, le32 (Z.of_nat i)) l)) in IH.
  cbn [length]. lia.
Qed.

Lemma length_indices_list (m : Mesh.t Qc) :
  length (GLBExporter.indices_list m) = (3 * length (Mesh.faces m))%nat.
Proof.
  unfold GLBExporter.indices_list.
  induction (Mesh.faces m) as [|[[[a b] c] normal] fs IH]; [done|].
  cbn [mbind list_bind Face.vertex_indices]. rewrite length_app. cbn [length].
  change (length (mbind (λ f : Face.t Qc, let '(a, b, c) := Face.vertex_indices f in [a; b; c]) fs))
    with (length (fs ≫= λ f : Face.t Qc, let '(a, b, c) := Face.vertex_indices f in [a; b; c])).
  lia.
Qed.

(** The file [_write_glb_file] writes, and what it returns. *)
Lemma write_glb_file_spec {Metadata FS : Type}
    (json_dumps : GLBExporter.gltf Metadata → list byte)
    (write_file : string → list byte → FS → option FS)
    (self : GLBExporter.t) (output_path : string)
    (gltf_dict : GLBExporter.gltf Metadata) (fs : FS) :
  let file := glb_file (json_dumps gltf_dict) (GLBExporter.buffer_data self) in
  GLBExporter._write_glb_file json_dumps write_file self output_path gltf_dict fs
  = if bool_decide (Z.of_nat (length file) < 2 ^ 32)
    then match write_file output_path file fs with
         | Some fs' => Ret (true, fs')
         | None => Ret (false, fs)
         end
    else Raise StructError.
Proof.
  intros file. unfold GLBExporter._write_glb_file. rewrite glb_chunks_spec.
  fold file. case_bool_decide; [|done]. cbn [mbind exn_bind].
  assert (file = (le32 GLTF_MAGIC ++ le32 GLTF_VERSION ++ le32 (Z.of_nat (length file)))
                 ++ chunk JSON_CHUNK (padded (json_dumps gltf_dict) Byte.x20)
                 ++ chunk BIN_CHUNK (padded (GLBExporter.buffer_data self) Byte.x00))
    as <-; [|done].
  unfold file at 1. unfold glb_file. cbv zeta. by rewrite <- !(assoc_L (++)).
Qed.

Section ExportFacts.

Context {Metadata FS : Type}.
Variable metadata_nonempty : Metadata → bool.
Variable json_dumps : GLBExporter.gltf Metadata → list byte.
Variable float32_tobytes : list vec3 → list byte.
Variable write_file : string → list byte → FS → option FS.

(** The exporter before [_prepare_geometry]: a new one with its two
    materials. *)
Definition with_materials (mesh : Mesh.t Qc) (metadata : option Metadata)
    : GLBExporter.t (Metadata := Metadata) :=
  GLBExporter._prepare_materials (GLBExporter.init metadata_nonempty mesh metadata).

(** The geometry buffer of a mesh: the positions, the normals and the
    indices one after the other; nothing for a mesh without vertices or
    without faces. *)
Definition geometry_payload (mesh : Mesh.t Qc) : list byte :=
  match Mesh.vertices mesh, Mesh.faces mesh with
  | [], _ | _, [] => []
  | _, _ =>
      float32_tobytes (GLBExporter.positions mesh)
      ++ float32_tobytes (GLBExporter.normals mesh)
      ++ index_bytes (GLBExporter.indices_list mesh)
  end.

Lemma prepare_geometry_empty (mesh : Mesh.t Qc) (metadata : option Metadata) :
  Mesh.vertices mesh = [] ∨ Mesh.faces mesh = [] →
  GLBExporter._prepare_geometry float32_tobytes (with_materials mesh metadata)
  = Ret (with_materials mesh metadata).
Proof.
  intros Hempty. unfold GLBExporter._prepare_geometry, with_materials.
  cbn [GLBExporter.mesh GLBExporter._prepare_materials GLBExporter.init].
  destruct Hempty as [-> | ->]; [done|]. by destruct (Mesh.vertices mesh).
Qed.

End ExportFacts.
(** X20.  For a mesh with vertices and faces whose indices fit in 32
    bits, [_prepare_geometry] on a new exporter fills the buffer with the
    position bytes, the normal bytes and the index bytes, in that order;
    its three buffer views follow one another from offset 0 and cover the
    buffer; the three accessors refer to the views 0, 1 and 2 and count
    the vertices, the vertices and three indices per face; and the one
    primitive reads positions, normals and indices from the accessors 0, 1
    and 2 with the first material. *)
Theorem prepare_geometry_lays_out_the_buffer {Metadata : Type}
    (metadata_nonempty : Metadata → bool) (float32_tobytes : list vec3 → list byte)
    (mesh : Mesh.t Qc) (metadata : option Metadata) :
  Mesh.vertices mesh ≠ [] →
  Mesh.faces mesh ≠ [] →
  Forall (λ i, Z.of_nat i < 2 ^ 32) (GLBExporter.indices_list mesh) →
  let pos_len := length (float32_tobytes (GLBExporter.positions mesh)) in
  let norm_len := length (float32_tobytes (GLBExporter.normals mesh)) in
  let idx_len := (12 * length (Mesh.faces mesh))%nat in
  ∃ self',
    GLBExporter._prepare_geometry float32_tobytes
      (with_materials metadata_nonempty mesh metadata) = Ret self'
    ∧ GLBExporter.buffer_data self' = geometry_payload float32_tobytes mesh
    ∧ length (GLBExporter.buffer_data self') = (pos_len + norm_len + idx_len)%nat
    ∧ (λ v, (GLTFBufferView.byteOffset v, GLTFBufferView.byteLength v))
        <$> GLBExporter.buffer_views self'
      = [ (0, pos_len); (pos_len, norm_len); (pos_len + norm_len, idx_len) ]%nat
    ∧ (λ a, (GLTFAccessor.bufferView a, GLTFAccessor.count a))
        <$> GLBExporter.accessors_ self'
      = [ (0, length (Mesh.vertices mesh)); (1, length (Mesh.vertices mesh));
          (2, 3 * length (Mesh.faces mesh)) ]%nat
    ∧ GLBExporter.primitives self'
      = [ {| GLTFPrimitive.POSITION := 0; GLTFPrimitive.NORMAL := 1;
             GLTFPrimitive.indices := 2; GLTFPrimitive.material := Some 0%nat;
             GLTFPrimitive.mode := 4 |} ].
Proof.
  intros Hvs Hfs Hfit pos_len norm_len idx_len.
  assert (length (index_bytes (GLBExporter.indices_list mesh)) = idx_len) as Hidx.
  { rewrite length_index_bytes, length_indices_list. unfold idx_len. lia. }
  unfold GLBExporter._prepare_geometry, with_materials, geometry_payload.
  cbn [GLBExporter.mesh GLBExporter._prepare_materials GLBExporter.init
       GLBExporter.buffer_data GLBExporter.buffer_views GLBExporter.accessors_
       GLBExporter.materials_ GLBExporter.primitives].
  rewrite (uint32_tobytes_spec _ Hfit).
  destruct (Mesh.vertices mesh) as [|v vs] eqn:Hv; [done|].
  destruct (Mesh.faces mesh) as [|f fs] eqn:Hf; [done|].
  cbn [mbind exn_bind]. eexists. split; [reflexivity|].
  cbn [GLBExporter.buffer_data GLBExporter.buffer_views GLBExporter.accessors_
       GLBExporter.primitives app length fmap list_fmap
       GLTFBufferView.byteOffset GLTFBufferView.byteLength
       GLTFAccessor.bufferView GLTFAccessor.count].
  fold pos_len. fold norm_len. rewrite !length_app. fold pos_len. fold norm_len.
  rewrite Hidx.
  assert (length (GLBExporter.positions mesh) = length (Mesh.vertices mesh)) as ->
    by (unfold GLBExporter.positions; apply length_fmap).
  assert (length (GLBExporter.normals mesh) = length (Mesh.vertices mesh)) as ->
    by (unfold GLBExporter.normals; apply length_fmap).
  rewrite length_indices_list, Hv, Hf.
  split; [by rewrite <- (assoc_L (++))|].
  split; [done|]. split; [done|]. split; [done|]. done.
Qed.

(** The positions as one zero byte each, and no metadata. *)
Definition one_byte_each (ps : list vec3) : list byte := replicate (length ps) Byte.x00.

Lemma boundary_mesh_indices_fit :
  Forall (λ i, Z.of_nat i < 2 ^ 32) (GLBExporter.indices_list boundary_mesh).
Proof.
  assert (GLBExporter.indices_list boundary_mesh = [0; 1; 2]%nat) as ->
    by (vm_compute; reflexivity).
  repeat constructor.
Qed.

Lemma prepare_geometry_lays_out_the_buffer_witness :
  ∃ self',
    GLBExporter._prepare_geometry one_byte_each
      (with_materials (λ _ : unit, false) boundary_mesh None) = Ret self'
    ∧ length (GLBExporter.buffer_data self') = 18%nat
    ∧ (λ v, (GLTFBufferView.byteOffset v, GLTFBufferView.byteLength v))
        <$> GLBExporter.buffer_views self'
      = [ (0, 3); (3, 3); (6, 12) ]%nat.
Proof.
  destruct (prepare_geometry_lays_out_the_buffer (λ _ : unit, false) one_byte_each
              boundary_mesh None) as (self' & Hret & _ & Hlen & Hviews & _).
  - intros Hnil. apply (f_equal length) in Hnil. vm_compute in Hnil. discriminate Hnil.
  - intros Hnil. apply (f_equal length) in Hnil. vm_compute in Hnil. discriminate Hnil.
  - exact boundary_mesh_indices_fit.
  - exists self'. split; [exact Hret|]. rewrite Hlen, Hviews.
    split; vm_compute; reflexivity.
Defined.

(** X21.  For a mesh whose indices fit in 32 bits, stage 9 answers
    [(True, output_path)] exactly when the file, which is the glTF header,
    the JSON chunk of the document and the binary chunk of the geometry
    buffer, is shorter than 2^32 bytes and the file system accepts it at
    the output path; every failure is reported as 'Export failed'.  A
    mesh without vertices or without faces is exported as well, with an
    empty buffer and a document without meshes and nodes. *)
Theorem stage9_writes_the_glb_file_or_reports_failure {Metadata FS : Type}
    (metadata_nonempty : Metadata → bool)
    (json_dumps : GLBExporter.gltf Metadata → list byte)
    (float32_tobytes : list vec3 → list byte)
    (write_file : string → list byte → FS → option FS)
    (mesh : Mesh.t Qc) (output_path : string) (metadata : option Metadata) (fs : FS) :
  Forall (λ i, Z.of_nat i < 2 ^ 32) (GLBExporter.indices_list mesh) →
  let result :=
    GLBExporter.stage9_export metadata_nonempty json_dumps float32_tobytes write_file
      mesh output_path metadata fs in
  ∃ self',
    GLBExporter._prepare_geometry float32_tobytes
      (with_materials metadata_nonempty mesh metadata) = Ret self'
    ∧ GLBExporter.buffer_data self' = geometry_payload float32_tobytes mesh
    ∧ (Mesh.vertices mesh = [] ∨ Mesh.faces mesh = [] →
       geometry_payload float32_tobytes mesh = []
       ∧ GLBExporter.meshes _ (GLBExporter._build_gltf_dict self') = []
       ∧ GLBExporter.nodes _ (GLBExporter._build_gltf_dict self') = [])
    ∧ (let file := glb_file (json_dumps (GLBExporter._build_gltf_dict self'))
                            (geometry_payload float32_tobytes mesh) in
       ∀ fs', result = (true, output_path, fs')
              ↔ Z.of_nat (length file) < 2 ^ 32
                ∧ write_file output_path file fs = Some fs')
    ∧ (result.1.1 = false → result.1.2 = "Export failed").
Proof.
  intros Hfit result.
  assert (∃ self',
            GLBExporter._prepare_geometry float32_tobytes
              (with_materials metadata_nonempty mesh metadata) = Ret self'
            ∧ GLBExporter.buffer_data self' = geometry_payload float32_tobytes mesh
            ∧ (Mesh.vertices mesh = [] ∨ Mesh.faces mesh = [] →
               geometry_payload float32_tobytes mesh = []
               ∧ GLBExporter.meshes _ (GLBExporter._build_gltf_dict self') = []
               ∧ GLBExporter.nodes _ (GLBExporter._build_gltf_dict self') = []))
    as (self' & Hret & Hbuf & Hempty).
  { destruct (decide (Mesh.vertices mesh = [] ∨ Mesh.faces mesh = [])) as [He|Hne].
    - exists (with_materials metadata_nonempty mesh metadata).
      split; [by apply prepare_geometry_empty|].
      assert (geometry_payload float32_tobytes mesh = []) as Hpay.
      { unfold geometry_payload. destruct He as [-> | ->]; [done|].
        by destruct (Mesh.vertices mesh). }
      split; [by rewrite Hpay|]. intros _. by split.
    - assert (Mesh.vertices mesh ≠ []) as Hvs by tauto.
      assert (Mesh.faces mesh ≠ []) as Hfs by tauto.
      unfold GLBExporter._prepare_geometry, with_materials, geometry_payload.
      cbn [GLBExporter.mesh GLBExporter._prepare_materials GLBExporter.init
           GLBExporter.buffer_data].
      rewrite (uint32_tobytes_spec _ Hfit).
      destruct (Mesh.vertices mesh) as [|v vs]; [done|].
      destruct (Mesh.faces mesh) as [|f fs0]; [done|].
      cbn [mbind exn_bind]. eexists. split; [reflexivity|].
      cbn [GLBExporter.buffer_data app]. split; [by rewrite <- (assoc_L (++))|].
      intros [?|?]; done. }
  exists self'. split; [exact Hret|]. split; [exact Hbuf|]. split; [exact Hempty|].
  assert (result
          = let file := glb_file (json_dumps (GLBExporter._build_gltf_dict self'))
                                 (geometry_payload float32_tobytes mesh) in
            if bool_decide (Z.of_nat (length file) < 2 ^ 32)
            then match write_file output_path file fs with
                 | Some fs' => (true, output_path, fs')
                 | None => (false, "Export failed", fs)
                 end
            else (false, "Export failed", fs)) as ->.
  { unfold result, GLBExporter.stage9_export, GLBExporter.export.
    fold (with_materials metadata_nonempty mesh metadata).
    rewrite Hret. cbn [mbind exn_bind].
    rewrite write_glb_file_spec, Hbuf. cbv zeta.
    case_bool_decide; [|done].
    by destruct (write_file output_path _ fs). }
  cbv zeta. split.
  - intros fs'. case_bool_decide as Hlen.
    + destruct (write_file output_path _ fs) as [fs1|]; split.
      * intros [= <-]. by split.
      * by intros [_ [= <-]].
      * intros [=].
      * by intros [_ [=]].
    + split; [intros [=] | by intros [? _]].
  - case_bool_decide; [|done]. by destruct (write_file output_path _ fs).
Qed.

Lemma stage9_writes_the_glb_file_or_reports_failure_witness :
  Forall (λ i, Z.of_nat i < 2 ^ 32) (GLBExporter.indices_list boundary_mesh)
  ∧ GLBExporter.stage9_export (λ _ : unit, false) braces one_byte_each record_file
      boundary_mesh "out.glb" None []
    = (true, "out.glb",
       [("out.glb",
         glb_file [Byte.x7b; Byte.x7d]
           (replicate 6 Byte.x00
            ++ le32 0 ++ le32 1 ++ le32 2))]).
Proof.
  split; [exact boundary_mesh_indices_fit|].
  destruct (stage9_writes_the_glb_file_or_reports_failure (λ _ : unit, false) braces
              one_byte_each record_file boundary_mesh "out.glb" None []
              boundary_mesh_indices_fit) as (self' & _ & _ & _ & Hfile & _).
  apply Hfile. split; [vm_compute; reflexivity|].
  unfold record_file. do 3 f_equal.
Defined.
(** ** The orchestrator: what a run leaves behind *)

Section RunFacts.
Context {Image Sem Mask Graph Rooms NGraph NRooms Ctx MeshT VResult Metadata : Type}.
Let env := BlueprintPipeline.env Image Sem Mask Graph Rooms NGraph NRooms Ctx MeshT
                                 VResult Metadata.
Let state := BlueprintPipeline.t Image Sem Mask Graph Rooms NGraph NRooms Ctx MeshT VResult.
Variable E : env.

Definition present {A} (o : option A) : bool :=
  match o with Some _ => true | None => false end.

(** Which results the pipeline object holds, in the order of the steps
    that assign them: the image, then the results of the stages 1 to 9. *)
Definition artifacts (s : state) : list bool :=
  [ present (BlueprintPipeline.image s);
    present (BlueprintPipeline.semantic_output s);
    present (BlueprintPipeline.refined_wall_mask s);
    present (BlueprintPipeline.wall_graph s);
    present (BlueprintPipeline.room_set s);
    present (BlueprintPipeline.normalization_context s);
    present (BlueprintPipeline.blender_model s);
    present (BlueprintPipeline.model_with_openings s);
    present (BlueprintPipeline.validation_results s);
    present (BlueprintPipeline.glb_path s) ].

(** The message [run_full_pipeline] returns when the step [k] fails. *)
Definition failure_messages : list string :=
  [ "Failed to load image";
    "Stage 1 failed (Semantic Understanding)";
    "Stage 2 failed (Wall Mask Refinement)";
    "Stage 3 failed (Topology Extraction)";
    "Stage 4 failed (Room Detection - FAIL FAST)";
    "Stage 5 failed (Metric Normalization)";
    "Stage 6 failed (3D Cutaway Construction)";
    "Stage 7 failed (Openings Generation)";
    "Stage 8 failed (Validation)";
    "Stage 9 failed (Export)" ].

(** The results of the first [k] steps are there, and no other. *)
Definition progress (k : nat) (s : state) : Prop :=
  artifacts s = replicate k true ++ replicate (10 - k) false.

(** Stage 5 stores two more results, the normalized wall graph and the
    normalized room set, before it reads the scale factor of the context,
    which can fail.  They are unset, or they are what [normalize] returned
    with the answer [True] for the image shape, the wall graph and the room
    set of the object, stored together with the context it returned. *)
Definition normalized_unset (s : state) : Prop :=
  BlueprintPipeline.normalized_wall_graph s = None
  ∧ BlueprintPipeline.normalized_room_set s = None.

Definition normalized_stored (s : state) : Prop :=
  ∃ sh,
    BlueprintPipeline.image_shape s = Some sh
    ∧ BlueprintPipeline.normalize E sh (BlueprintPipeline.wall_graph s)
                                  (BlueprintPipeline.room_set s)
      = Ret (true, BlueprintPipeline.normalization_context s,
             BlueprintPipeline.normalized_wall_graph s,
             BlueprintPipeline.normalized_room_set s).

(** The object when the step [k] is entered, and when it has failed. *)
Definition entered (k : nat) (s : state) : Prop :=
  progress k s
  ∧ ((k ≤ 5)%nat → normalized_unset s)
  ∧ ((5 < k)%nat → normalized_stored s).

Definition stopped (k : nat) (s : state) : Prop :=
  progress k s
  ∧ ((k < 5)%nat → normalized_unset s)
  ∧ (k = 5%nat → normalized_unset s ∨ normalized_stored s)
  ∧ ((5 < k)%nat → normalized_stored s).

(** A step that, entered with the results of the steps before it, leaves
    them and adds its own exactly when it answers [True]. *)
Definition advances (k : nat) (stage : state → bool * state) : Prop :=
  ∀ s, entered k s →
       if (stage s).1 then entered (S k) (stage s).2 else stopped k (stage s).2.

Ltac run_stage :=
  cbv [BlueprintPipeline.bind BlueprintPipeline.get BlueprintPipeline.guarded
       BlueprintPipeline._log_stage BlueprintPipeline._log BlueprintPipeline.modify
       BlueprintPipeline.ret fst snd].

Ltac project_state :=
  cbn [BlueprintPipeline.image BlueprintPipeline.image_shape
       BlueprintPipeline.semantic_output
       BlueprintPipeline.refined_wall_mask BlueprintPipeline.wall_graph
       BlueprintPipeline.room_set BlueprintPipeline.normalization_context
       BlueprintPipeline.normalized_wall_graph BlueprintPipeline.normalized_room_set
       BlueprintPipeline.blender_model BlueprintPipeline.model_with_openings
       BlueprintPipeline.validation_results BlueprintPipeline.glb_path
       BlueprintPipeline.set_log BlueprintPipeline.set_image
       BlueprintPipeline.set_semantic_output BlueprintPipeline.set_refined_wall_mask
       BlueprintPipeline.set_wall_graph BlueprintPipeline.set_room_set
       BlueprintPipeline.set_normalized BlueprintPipeline.set_blender_model
       BlueprintPipeline.set_model_with_openings BlueprintPipeline.set_validation_results
       BlueprintPipeline.set_glb_path present fst snd
       replicate app Nat.sub] in *.

Ltac close_artifacts H :=
  unfold progress, artifacts in *; project_state;
  injection H as ? ? ? ? ? ? ? ? ? ?;
  repeat match goal with
         | |- _ :: _ = _ :: _ => f_equal
         end;
  try done; try congruence.

(** Closes a goal [entered] or [stopped] about the state a step leaves,
    from the hypotheses [entered] of the state it was entered in, for a
    step that does not touch what stage 5 stores. *)
Ltac close_norm Hunset Hstored :=
  intros;
  first [ lia | left; apply Hunset; lia | apply Hunset; lia | apply Hstored; lia ].

Ltac close_step H :=
  let Hp := fresh "Hp" in
  let Hunset := fresh "Hunset" in
  let Hstored := fresh "Hstored" in
  destruct H as (Hp & Hunset & Hstored);
  unfold entered, stopped, normalized_unset, normalized_stored in *;
  project_state;
  match goal with
  | |- _ ∧ _ ∧ _ ∧ _ =>
      split; [close_artifacts Hp
             | split; [close_norm Hunset Hstored
                      | split; close_norm Hunset Hstored]]
  | |- _ ∧ _ ∧ _ =>
      split; [close_artifacts Hp | split; close_norm Hunset Hstored]
  end.

Lemma banner_entered k (s : state) :
  entered k s → entered k (BlueprintPipeline.banner s).2.
Proof. intros Hs. exact Hs. Qed.

Lemma load_image_advances : advances 0 (BlueprintPipeline._load_image E).
Proof.
  intros s Hs. unfold BlueprintPipeline._load_image. run_stage.
  destruct (negb _); [close_step Hs|].
  destruct (BlueprintPipeline.imread E _); close_step Hs.
Qed.

Lemma stage1_advances : advances 1 (BlueprintPipeline._stage1_semantic_understanding E).
Proof.
  intros s Hs. unfold BlueprintPipeline._stage1_semantic_understanding. run_stage.
  destruct (BlueprintPipeline.stage1_semantic_segmentation E _ _) as [[out|]|];
    close_step Hs.
Qed.

Lemma stage2_advances : advances 2 (BlueprintPipeline._stage2_wall_refinement E).
Proof.
  intros s Hs. unfold BlueprintPipeline._stage2_wall_refinement. run_stage.
  destruct (BlueprintPipeline.stage2_wall_mask_refinement E _) as [[out|]|];
    close_step Hs.
Qed.

Lemma stage3_advances : advances 3 (BlueprintPipeline._stage3_topology E).
Proof.
  intros s Hs. unfold BlueprintPipeline._stage3_topology. run_stage.
  destruct (BlueprintPipeline.stage3_topology_extraction E _) as [[out|]|];
    close_step Hs.
Qed.

Lemma stage4_advances : advances 4 (BlueprintPipeline._stage4_room_detection E).
Proof.
  intros s Hs. unfold BlueprintPipeline._stage4_room_detection. run_stage.
  destruct (BlueprintPipeline.stage4_room_detection E _ _) as [[out|]|];
    close_step Hs.
Qed.

Lemma stage5_advances : advances 5 (BlueprintPipeline._stage5_metric_normalization E).
Proof.
  intros s Hs. unfold BlueprintPipeline._stage5_metric_normalization. run_stage.
  destruct (BlueprintPipeline.image_shape s) as [sh|] eqn:Hsh; [|close_step Hs].
  destruct (BlueprintPipeline.normalize E _ _ _) as [[[[success ctx] g] r]|] eqn:Hcall;
    [|close_step Hs].
  destruct success; cbn [negb]; [|close_step Hs].
  destruct Hs as (Hp & _ & _).
  destruct ctx as [c|]; cbv beta iota; unfold entered, stopped.
  - split; [close_artifacts Hp|]. split; [intros; lia|].
    intros _. exists sh. split; [exact Hsh | exact Hcall].
  - split; [close_artifacts Hp|]. split; [intros; lia|]. split; [|intros; lia].
    intros _. right. exists sh. split; [exact Hsh | exact Hcall].
Qed.

Lemma stage6_advances : advances 6 (BlueprintPipeline._stage6_3d_construction E).
Proof.
  intros s Hs. unfold BlueprintPipeline._stage6_3d_construction. run_stage.
  destruct (BlueprintPipeline.normalization_context s) as [ctx|] eqn:Hctx;
    [|close_step Hs].
  destruct (BlueprintPipeline.create_cutaway_mesh E _ _ _) as [[m|]|];
    close_step Hs.
Qed.

Lemma stage7_advances : advances 7 (BlueprintPipeline._stage7_openings E).
Proof.
  intros s Hs. unfold BlueprintPipeline._stage7_openings. run_stage.
  destruct (match BlueprintPipeline.semantic_output s with
            | Some sem => BlueprintPipeline.masks E sem
            | None => None
            end) as [dict|];
    run_stage; project_state;
    (destruct (BlueprintPipeline.image_shape s) as [[[h w] c]|] eqn:Hsh;
     [|close_step Hs]);
    run_stage; project_state;
    (destruct (BlueprintPipeline.normalization_context s) as [ctx|] eqn:Hctx;
     [|close_step Hs]);
    (destruct (BlueprintPipeline.stage7_openings_generation E _ _ _ _ _ _)
       as [[[|] [m|]]|]);
    close_step Hs.
Qed.

Lemma foldr_keeps_state {A} (P : state → Prop)
    (g : A → (state → unit * state) → state → unit * state)
    (base : state → unit * state) (cs : list A) :
  (∀ s, P s → P (base s).2) →
  (∀ c rest, (∀ s, P s → P (rest s).2) → ∀ s, P s → P (g c rest s).2) →
  ∀ s, P s → P (foldr g base cs s).2.
Proof.
  intros Hbase Hg. induction cs as [|c cs IH]; [exact Hbase|].
  cbn [foldr]. by apply Hg.
Qed.

Lemma log_entered k (s : state) (l : list string) :
  entered k s → entered k (BlueprintPipeline.set_log l s).
Proof. intros Hs. exact Hs. Qed.

Lemma stage8_advances : advances 8 (BlueprintPipeline._stage8_validation E).
Proof.
  intros s Hs. unfold BlueprintPipeline._stage8_validation. run_stage.
  destruct (BlueprintPipeline.stage8_validation E _ _ _ _) as [[passed result]|];
    [|close_step Hs].
  match goal with
  | |- context [foldr ?g ?b ?cs ?s0] =>
      assert (entered 8 (foldr g b cs s0).2) as Hlogs;
        [ apply (foldr_keeps_state (entered 8));
          [ done
          | intros [[name ok] msg] rest Hrest s3 Hs3; apply Hrest; exact Hs3
          | exact Hs ]
        | destruct (foldr g b cs s0) as [[] s2] ]
  end.
  cbn [snd] in Hlogs. clear Hs.
  destruct passed; cbn [negb]; close_step Hlogs.
Qed.

Lemma stage9_advances : advances 9 (BlueprintPipeline._stage9_export E).
Proof.
  intros s Hs. unfold BlueprintPipeline._stage9_export. run_stage.
  destruct (BlueprintPipeline.makedirs E _) as [[]|]; [|close_step Hs].
  destruct (BlueprintPipeline.normalization_context s) as [ctx|] eqn:Hctx;
    [|close_step Hs].
  run_stage.
  destruct (BlueprintPipeline.stage9_export E _ _ _) as [[[|] result]|];
    cbn [negb]; close_step Hs.
Qed.

End RunFacts.
Ltac pipeline_step lem Hp :=
  unfold BlueprintPipeline.or_fail at 1;
  unfold BlueprintPipeline.bind at 1;
  let H := fresh "Hp" in
  pose proof (lem _ Hp) as H;
  match type of H with
  | if (?call).1 then _ else _ => destruct call as [[|] ?s]
  end;
  cbn [fst snd] in H; clear Hp; cbv beta iota;
  [ rename H into Hp
  | let Hprog := fresh "Hprog" in
    let Hlt := fresh "Hlt" in
    let Heq := fresh "Heq" in
    let Hgt := fresh "Hgt" in
    destruct H as (Hprog & Hlt & Heq & Hgt);
    unfold BlueprintPipeline.ret, progress in *; eexists;
    split; [|split; [exact Hprog|]];
    [ lia
    | split; [split; [done|lia]|];
      split; [intros _; reflexivity|];
      split; [lia|];
      split; [exact Hlt|]; split; [exact Heq | exact Hgt] ] ].

(** X22.  A run of the pipeline on a new pipeline object keeps the
    results of the steps before the first one that fails: with [k] the
    number of steps that succeeded, among loading the image and the stages
    1 to 9 in their order, the object holds the first [k] of the image, the
    semantic output, the refined wall mask, the wall graph, the room set,
    the normalization context, the model, the model with openings, the
    validation results and the path of the exported file, and none of the
    others; the run answers [True] exactly when all ten succeeded, with the
    path of the exported file in its message, and otherwise answers with
    the message of the step [k].  The normalized wall graph and the
    normalized room set are unset when a step before stage 5 failed, and
    are what [normalize] returned when stage 5 succeeded; a stage 5 that
    fails leaves them unset, or, when it fails on reading the scale factor
    of the context, leaves what [normalize] returned. *)
Theorem run_keeps_the_results_up_to_the_first_failure
    {Image Sem Mask Graph Rooms NGraph NRooms Ctx MeshT VResult Metadata : Type}
    (E : BlueprintPipeline.env Image Sem Mask Graph Rooms NGraph NRooms Ctx MeshT
                               VResult Metadata)
    (image_path device : string) (verbose : bool) :
  let '(ok, message, s') :=
    BlueprintPipeline.run_full_pipeline E
      (BlueprintPipeline.init image_path device verbose) in
  ∃ k, (k ≤ 10)%nat
       ∧ artifacts s' = replicate k true ++ replicate (10 - k) false
       ∧ (ok = true ↔ k = 10%nat)
       ∧ ((k < 10)%nat → failure_messages !! k = Some message)
       ∧ (k = 10%nat →
          ∃ path, BlueprintPipeline.glb_path s' = Some path
                  ∧ message = "Pipeline complete: " +:+ path)
       ∧ ((k < 5)%nat → normalized_unset s')
       ∧ (k = 5%nat → normalized_unset s' ∨ normalized_stored E s')
       ∧ ((5 < k)%nat → normalized_stored E s').
Proof.
  assert (entered E 0 (BlueprintPipeline.init (Image := Image) (Sem := Sem) (Mask := Mask)
                         (Graph := Graph) (Rooms := Rooms) (NGraph := NGraph)
                         (NRooms := NRooms) (Ctx := Ctx) (MeshT := MeshT)
                         (VResult := VResult) image_path device verbose)) as Hp.
  { split; [reflexivity|]. split; [by intros _ | intros; lia]. }
  revert Hp. generalize (BlueprintPipeline.init (Image := Image) (Sem := Sem)
                           (Mask := Mask) (Graph := Graph) (Rooms := Rooms)
                           (NGraph := NGraph) (NRooms := NRooms) (Ctx := Ctx)
                           (MeshT := MeshT) (VResult := VResult)
                           image_path device verbose).
  intros s0 Hp. unfold BlueprintPipeline.run_full_pipeline.
  unfold BlueprintPipeline.bind at 1.
  apply (banner_entered E 0 s0) in Hp.
  destruct (BlueprintPipeline.banner s0) as [[] sb]. cbn [snd] in Hp.
  pipeline_step (load_image_advances E) Hp.
  pipeline_step (stage1_advances E) Hp.
  pipeline_step (stage2_advances E) Hp.
  pipeline_step (stage3_advances E) Hp.
  pipeline_step (stage4_advances E) Hp.
  pipeline_step (stage5_advances E) Hp.
  pipeline_step (stage6_advances E) Hp.
  pipeline_step (stage7_advances E) Hp.
  pipeline_step (stage8_advances E) Hp.
  pipeline_step (stage9_advances E) Hp.
  cbv [BlueprintPipeline.bind BlueprintPipeline.get BlueprintPipeline._log
       BlueprintPipeline.modify BlueprintPipeline.ret].
  destruct Hp as (Hp & _ & Hstored).
  exists 10%nat. split; [lia|]. split; [exact Hp|].
  split; [done|]. split; [lia|]. split.
  - intros _.
    unfold progress, artifacts in Hp. cbn [replicate app Nat.sub] in Hp.
    injection Hp as _ _ _ _ _ _ _ _ _ Hglb.
    cbn [BlueprintPipeline.glb_path BlueprintPipeline.set_log].
    destruct (BlueprintPipeline.glb_path _) as [path|]; [|discriminate Hglb].
    by exists path.
  - split; [lia|]. split; [lia|]. intros _. apply Hstored. lia.
Qed.
(** ** Stage 5: the rooms in metric coordinates *)

(** A pixel in metric coordinates. *)
Definition scaled_pixel (scale_factor : Qc) (p : Z * Z) : Qc * Qc :=
  (float_of_int p.1 / scale_factor, float_of_int p.2 / scale_factor)%Qc.

(** What [_transform_room_set] keeps of a room: its pixels, scaled, and
    their number as its area. *)
Definition room_scaled (scale_factor : Qc) (room : Room.t Z) (room' : Room.t Qc) : Prop :=
  Room.pixels room' = set_map (scaled_pixel scale_factor) (Room.pixels room)
  ∧ Room.area_px room' = size (Room.pixels room).

Section NormalizedRooms.

Variable scale_factor : Qc.
Hypothesis scale_nonzero : scale_factor ≠ Q2Qc 0.

Lemma scaled_pixel_inj : Inj (=) (=) (scaled_pixel scale_factor).
Proof.
  intros [x1 y1] [x2 y2]. unfold scaled_pixel. cbn [fst snd]. intros Heq.
  pose proof (f_equal fst Heq) as Hx. pose proof (f_equal snd Heq) as Hy.
  cbn [fst snd] in Hx, Hy. clear Heq.
  f_equal; apply float_of_int_inj.
  - rewrite <- (Qcmult_div_r (float_of_int x1) scale_factor scale_nonzero).
    rewrite Hx. apply Qcmult_div_r, scale_nonzero.
  - rewrite <- (Qcmult_div_r (float_of_int y1) scale_factor scale_nonzero).
    rewrite Hy. apply Qcmult_div_r, scale_nonzero.
Qed.

Lemma transform_pixels_spec (pixels : list (Z * Z)) :
  MetricNormalizer.transform_pixels scale_factor pixels
  = Ret (list_to_set (scaled_pixel scale_factor <$> pixels)).
Proof.
  induction pixels as [|[x y] rest IH]; [done|].
  cbn [MetricNormalizer.transform_pixels].
  unfold py_div. rewrite !bool_decide_eq_false_2 by done.
  cbn [mbind exn_bind]. rewrite IH. cbn [mbind exn_bind]. done.
Qed.

Lemma size_scaled (pixels : gset (Z * Z)) :
  size (set_map (D := gset (Qc * Qc)) (scaled_pixel scale_factor) pixels) = size pixels.
Proof.
  unfold set_map. rewrite size_list_to_set.
  - rewrite length_fmap. done.
  - apply NoDup_fmap_2; [apply scaled_pixel_inj | apply NoDup_elements].
Qed.

Lemma scaled_nonempty (pixels : gset (Z * Z)) :
  pixels ≠ ∅ →
  (elements (set_map (D := gset (Qc * Qc)) (scaled_pixel scale_factor) pixels)).*1 ≠ []
  ∧ (elements (set_map (D := gset (Qc * Qc)) (scaled_pixel scale_factor) pixels)).*2 ≠ [].
Proof.
  intros Hne.
  destruct (elements (set_map (D := gset (Qc * Qc)) (scaled_pixel scale_factor) pixels))
    as [|p l] eqn:Hel; [|done].
  apply elements_empty_inv, leibniz_equiv in Hel.
  apply (f_equal size) in Hel. rewrite size_scaled, size_empty in Hel.
  by apply size_empty_inv, leibniz_equiv in Hel.
Qed.

Lemma py_min_returns (l : list Qc) : l ≠ [] → ∃ m, py_min l = Ret m.
Proof. destruct l; [done|]. intros _. by eexists. Qed.

Lemma py_max_returns (l : list Qc) : l ≠ [] → ∃ m, py_max l = Ret m.
Proof. destruct l; [done|]. intros _. by eexists. Qed.

(** One room of the loop: the room set gets one more room, which carries
    the next id. *)
Lemma transform_room_spec (acc : RoomSet.t Qc) (old_room : Room.t Z) :
  Room.pixels old_room ≠ ∅ →
  ∃ room',
    MetricNormalizer.transform_room scale_factor (Ret acc) old_room
    = Ret {| RoomSet.rooms := RoomSet.rooms acc ++ [room'];
             RoomSet.room_counter := S (RoomSet.room_counter acc);
             RoomSet.height := RoomSet.height acc;
             RoomSet.width := RoomSet.width acc |}
    ∧ Room.id room' = RoomSet.room_counter acc
    ∧ room_scaled scale_factor old_room room'.
Proof.
  intros Hne. unfold MetricNormalizer.transform_room. cbn [mbind exn_bind].
  rewrite transform_pixels_spec. cbn [mbind exn_bind].
  change (list_to_set (scaled_pixel scale_factor <$> elements (Room.pixels old_room)))
    with (set_map (D := gset (Qc * Qc)) (scaled_pixel scale_factor) (Room.pixels old_room)).
  destruct (scaled_nonempty _ Hne) as [Hxs Hys].
  set (new_pixels := set_map (D := gset (Qc * Qc)) (scaled_pixel scale_factor)
                       (Room.pixels old_room)) in *.
  destruct (py_min_returns _ Hxs) as [x_min Hx_min].
  destruct (py_max_returns _ Hxs) as [x_max Hx_max].
  destruct (py_min_returns _ Hys) as [y_min Hy_min].
  destruct (py_max_returns _ Hys) as [y_max Hy_max].
  unfold RoomSet.add_room. rewrite Hx_min, Hx_max, Hy_min, Hy_max.
  cbn [mbind exn_bind RoomSet.rooms RoomSet.room_counter RoomSet.height RoomSet.width
       Room.id Room.pixels Room.perimeter_px].
  rewrite length_app. cbn [length].
  replace (length (RoomSet.rooms acc) + 1 - 1)%nat with (length (RoomSet.rooms acc)) by lia.
  rewrite take_app_length.
  eexists. split; [reflexivity|].
  split; [done|]. split; [done|]. cbn [Room.area_px]. apply size_scaled.
Qed.

Lemma transform_rooms_spec (rooms : list (Room.t Z)) :
  Forall (λ room, Room.pixels room ≠ ∅) rooms →
  ∀ acc : RoomSet.t Qc,
    ∃ new_rooms,
      foldl (MetricNormalizer.transform_room scale_factor) (Ret acc) rooms
      = Ret {| RoomSet.rooms := RoomSet.rooms acc ++ new_rooms;
               RoomSet.room_counter := (RoomSet.room_counter acc + length rooms)%nat;
               RoomSet.height := RoomSet.height acc;
               RoomSet.width := RoomSet.width acc |}
      ∧ Forall2 (room_scaled scale_factor) rooms new_rooms
      ∧ Room.id <$> new_rooms = seq (RoomSet.room_counter acc) (length rooms).
Proof.
  induction 1 as [|room rooms Hroom _ IH]; intros acc.
  - exists []. cbn [foldl length seq fmap list_fmap]. rewrite app_nil_r, Nat.add_0_r.
    split; [by destruct acc|]. by split.
  - cbn [foldl]. destruct (transform_room_spec acc room Hroom) as (room' & -> & Hid & Hsc).
    destruct (IH {| RoomSet.rooms := RoomSet.rooms acc ++ [room'];
                    RoomSet.room_counter := S (RoomSet.room_counter acc);
                    RoomSet.height := RoomSet.height acc;
                    RoomSet.width := RoomSet.width acc |})
      as (new_rooms & -> & Hall & Hids).
    cbn [RoomSet.rooms RoomSet.room_counter RoomSet.height RoomSet.width] in *.
    exists (room' :: new_rooms). split; [|split].
    + rewrite <- (assoc_L (++)). cbn [app length]. do 2 f_equal. lia.
    + by constructor.
    + cbn [fmap list_fmap length seq]. by rewrite Hid, <- Hids.
Qed.

Lemma scaled_disjoint (a b : gset (Z * Z)) :
  a ∩ b = ∅ →
  set_map (D := gset (Qc * Qc)) (scaled_pixel scale_factor) a
  ∩ set_map (D := gset (Qc * Qc)) (scaled_pixel scale_factor) b = ∅.
Proof.
  intros Hdis. apply leibniz_equiv. apply elem_of_equiv_empty. intros q.
  rewrite elem_of_intersection, !elem_of_map.
  intros [(p1 & -> & Hp1) (p2 & Heq & Hp2)].
  apply scaled_pixel_inj in Heq as <-.
  assert (p1 ∈ a ∩ b) as Hin by set_solver. rewrite Hdis in Hin. set_solver.
Qed.

End NormalizedRooms.

(** X23.  With a scale factor that is not zero and rooms that have
    pixels, [_transform_room_set] returns a room set of the same image
    shape with one room for each room, in the same order and with the ids
    0, 1, 2, ...; each room holds the scaled pixels of its original and
    their number as its area; and rooms that shared no pixel share none
    after the scaling. *)
Theorem room_normalization_keeps_rooms_apart (room_set : RoomSet.t Z) (scale_factor : Qc) :
  scale_factor ≠ Q2Qc 0 →
  Forall (λ room, Room.pixels room ≠ ∅) (RoomSet.rooms room_set) →
  ∃ new_room_set,
    MetricNormalizer._transform_room_set room_set scale_factor = Ret new_room_set
    ∧ RoomSet.height new_room_set = RoomSet.height room_set
    ∧ RoomSet.width new_room_set = RoomSet.width room_set
    ∧ Forall2 (room_scaled scale_factor)
              (RoomSet.rooms room_set) (RoomSet.rooms new_room_set)
    ∧ Room.id <$> RoomSet.rooms new_room_set = seq 0 (length (RoomSet.rooms room_set))
    ∧ (rooms_disjoint (RoomSet.rooms room_set) →
       rooms_disjoint (RoomSet.rooms new_room_set)).
Proof.
  intros Hscale Hrooms. unfold MetricNormalizer._transform_room_set.
  destruct (transform_rooms_spec scale_factor Hscale (RoomSet.rooms room_set) Hrooms
              (RoomSet.init (RoomSet.height room_set, RoomSet.width room_set)))
    as (new_rooms & -> & Hall & Hids).
  eexists. split; [reflexivity|].
  cbn [RoomSet.rooms RoomSet.height RoomSet.width RoomSet.init RoomSet.room_counter
       fst snd app] in *.
  split; [done|]. split; [done|]. split; [exact Hall|]. split; [exact Hids|].
  intros Hdis i j room1' room2' Hne Hi Hj.
  destruct (Forall2_lookup_r _ _ _ _ _ Hall Hi) as (room1 & Hi0 & Hpix1 & _).
  destruct (Forall2_lookup_r _ _ _ _ _ Hall Hj) as (room2 & Hj0 & Hpix2 & _).
  rewrite Hpix1, Hpix2. apply scaled_disjoint; [done|].
  exact (Hdis i j room1 room2 Hne Hi0 Hj0).
Qed.

(** Two rooms of two pixels each, in an image of 9 rows and 15 columns. *)
Definition two_rooms : RoomSet.t Z :=
  {| RoomSet.rooms := [room_of 0 {[ (3, 3); (4, 3) ]}; room_of 1 {[ (8, 3); (8, 4) ]}];
     RoomSet.room_counter := 2; RoomSet.height := 9; RoomSet.width := 15 |}.

Lemma room_normalization_keeps_rooms_apart_witness :
  ∃ new_room_set,
    MetricNormalizer._transform_room_set two_rooms (Q2Qc 2) = Ret new_room_set
    ∧ Forall2 (room_scaled (Q2Qc 2))
              (RoomSet.rooms two_rooms) (RoomSet.rooms new_room_set)
    ∧ Room.id <$> RoomSet.rooms new_room_set = [0; 1]%nat.
Proof.
  destruct (room_normalization_keeps_rooms_apart two_rooms (Q2Qc 2))
    as (new_room_set & Hret & _ & _ & Hall & Hids & _).
  - intros H. apply (f_equal this) in H. discriminate H.
  - unfold two_rooms. cbn [RoomSet.rooms].
    rewrite !list.Forall_cons, list.Forall_nil. cbn [room_of Room.pixels].
    split; [|split; [|done]]; intros Hempty; apply (f_equal size) in Hempty;
      vm_compute in Hempty; discriminate Hempty.
  - exists new_room_set. split; [exact Hret|]. split; [exact Hall | exact Hids].
Defined.
(** ** Stage 3: the graph built from the key points *)

Section BuildGraph.

Variable sqrt : Qc → Qc.

(** The distance [_build_graph] computes between two positions. *)
Definition key_distance (p q : Qc * Qc) : Qc :=
  sqrt ((p.1 - q.1) * (p.1 - q.1) + (p.2 - q.2) * (p.2 - q.2))%Qc.

(** Two vertices less than 50 pixels apart. *)
Definition close (v1 v2 : WallVertex.t) : Prop :=
  (key_distance (WallVertex.position v1) (WallVertex.position v2) < float_of_int 50)%Qc.

(** The vertex [_build_graph] makes of a key point. *)
Definition key_vertex (junctions corners : list (Z * Z)) (id : nat) (p : Z * Z)
    : WallVertex.t :=
  {| WallVertex.id := id;
     WallVertex.position := (float_of_int p.1, float_of_int p.2);
     WallVertex.is_junction := bool_decide (p ∈ junctions);
     WallVertex.is_corner := bool_decide (p ∈ corners);
     WallVertex.degree := 0 |}.

(** The loop that creates the vertices, from a graph [g0] on. *)
Lemma add_points_spec (junctions corners points : list (Z * Z)) :
  ∀ g0,
    WallTopologyGraph.constructed g0 →
    let g := foldl (λ graph '(x, y),
                      (WallTopologyGraph.add_vertex graph (float_of_int x, float_of_int y)
                         (bool_decide ((x, y) ∈ junctions))
                         (bool_decide ((x, y) ∈ corners))).2) g0 points in
    WallTopologyGraph.constructed g
    ∧ WallTopologyGraph.vertex_counter g
      = (WallTopologyGraph.vertex_counter g0 + length points)%nat
    ∧ (∀ k, (k < WallTopologyGraph.vertex_counter g0)%nat →
            WallTopologyGraph.vertices g !! k = WallTopologyGraph.vertices g0 !! k)
    ∧ (∀ i p, points !! i = Some p →
              WallTopologyGraph.vertices g !! (WallTopologyGraph.vertex_counter g0 + i)%nat
              = Some (key_vertex junctions corners
                        (WallTopologyGraph.vertex_counter g0 + i) p))
    ∧ (∀ u w, neighbour (WallTopologyGraph.adjacency g) u w
              ↔ neighbour (WallTopologyGraph.adjacency g0) u w).
Proof.
  induction points as [|[x y] points IH]; intros g0 Hg0; cbn [foldl].
  - split; [done|]. split; [cbn [length]; lia|]. split; [done|].
    split; [|done]. intros i p Hi. by rewrite lookup_nil in Hi.
  - set (g1 := (WallTopologyGraph.add_vertex g0 (float_of_int x, float_of_int y)
                  (bool_decide ((x, y) ∈ junctions))
                  (bool_decide ((x, y) ∈ corners))).2).
    assert (WallTopologyGraph.constructed g1) as Hg1
      by (by apply WallTopologyGraph.constructed_add_vertex).
    destruct (IH g1 Hg1) as (Hcons & Hcount & Hframe & Hnew & Hnb).
    assert (WallTopologyGraph.vertex_counter g1
            = S (WallTopologyGraph.vertex_counter g0)) as Hc1 by done.
    pose proof (constructed_invariant g0 Hg0) as Hinv0.
    split; [exact Hcons|]. split; [rewrite Hcount, Hc1; cbn [length]; lia|].
    split; [|split].
    + intros k Hk. rewrite Hframe by lia. unfold g1.
      cbn [WallTopologyGraph.add_vertex snd WallTopologyGraph.vertices WallVertex.id].
      apply lookup_insert_ne. lia.
    + intros [|i] p Hi.
      * injection Hi as <-. rewrite Nat.add_0_r, Hframe by lia. unfold g1.
        cbn [WallTopologyGraph.add_vertex snd WallTopologyGraph.vertices WallVertex.id].
        by rewrite lookup_insert_eq.
      * cbn [lookup list_lookup] in Hi. specialize (Hnew i p Hi).
        rewrite Hc1 in Hnew.
        replace (WallTopologyGraph.vertex_counter g0 + S i)%nat
          with (S (WallTopologyGraph.vertex_counter g0) + i)%nat by lia.
        exact Hnew.
    + intros u w. rewrite Hnb. unfold g1, neighbour.
      cbn [WallTopologyGraph.add_vertex snd WallTopologyGraph.adjacency WallVertex.id].
      destruct (decide (u = WallTopologyGraph.vertex_counter g0)) as [->|Hne].
      * rewrite lookup_insert_eq.
        assert (WallTopologyGraph.adjacency g0 !! WallTopologyGraph.vertex_counter g0
                = None) as ->.
        { apply not_elem_of_dom. rewrite (inv_adjacency_dom g0 Hinv0).
          rewrite (inv_vertices_dom g0 Hinv0). lia. }
        split; intros (ns & Hns & Hin); [|done].
        injection Hns as <-. set_solver.
      * by rewrite lookup_insert_ne.
Qed.

(** One pair of the double loop. *)
Lemma connect_pair_spec g v1 v2 :
  WallVertex.id v1 ∈ dom (WallTopologyGraph.adjacency g) →
  WallVertex.id v2 ∈ dom (WallTopologyGraph.adjacency g) →
  ∃ g',
    TopologyExtractor.connect_pair sqrt g v1 v2 = Ret g'
    ∧ dom (WallTopologyGraph.adjacency g') = dom (WallTopologyGraph.adjacency g)
    ∧ (∀ k, vertex_core <$> WallTopologyGraph.vertices g' !! k
            = vertex_core <$> WallTopologyGraph.vertices g !! k)
    ∧ ∀ u w, neighbour (WallTopologyGraph.adjacency g') u w
             ↔ neighbour (WallTopologyGraph.adjacency g) u w
               ∨ (close v1 v2
                  ∧ ((u = WallVertex.id v1 ∧ w = WallVertex.id v2)
                     ∨ (u = WallVertex.id v2 ∧ w = WallVertex.id v1))).
Proof.
  intros H1 H2. unfold TopologyExtractor.connect_pair.
  fold (key_distance (WallVertex.position v1) (WallVertex.position v2)).
  cbv zeta. case_bool_decide as Hclose.
  - unfold TopologyExtractor._trace_skeleton_path.
    destruct (add_edge_succeeds g (WallVertex.id v1) (WallVertex.id v2)
                (key_distance (WallVertex.position v1) (WallVertex.position v2))
                [(float_of_int (int_of_float (WallVertex.position v1).1),
                  float_of_int (int_of_float (WallVertex.position v1).2));
                 (float_of_int (int_of_float (WallVertex.position v2).1),
                  float_of_int (int_of_float (WallVertex.position v2).2))] H1 H2)
      as (e & g' & Hadd).
    cbn [fst snd]. rewrite Hadd. cbn [mbind exn_bind].
    exists g'. split; [done|].
    destruct (add_edge_neighbour _ _ _ _ _ _ _ Hadd) as (_ & _ & Hdom & Hnb).
    split; [exact Hdom|]. split.
    + intros k. by eapply add_edge_vertex_core.
    + intros u w. rewrite Hnb. unfold close. tauto.
  - exists g. split; [done|]. split; [done|]. split; [done|].
    intros u w. unfold close. tauto.
Qed.

(** The inner loop: [v1] against the vertices after it. *)
Lemma connect_row_spec v1 rest :
  ∀ g,
    WallVertex.id v1 ∈ dom (WallTopologyGraph.adjacency g) →
    Forall (λ v, WallVertex.id v ∈ dom (WallTopologyGraph.adjacency g)) rest →
    ∃ g',
      foldl (λ acc v2, g ← acc; TopologyExtractor.connect_pair sqrt g v1 v2) (Ret g) rest
      = Ret g'
      ∧ dom (WallTopologyGraph.adjacency g') = dom (WallTopologyGraph.adjacency g)
      ∧ (∀ k, vertex_core <$> WallTopologyGraph.vertices g' !! k
              = vertex_core <$> WallTopologyGraph.vertices g !! k)
      ∧ ∀ u w, neighbour (WallTopologyGraph.adjacency g') u w
               ↔ neighbour (WallTopologyGraph.adjacency g) u w
                 ∨ ∃ v2, v2 ∈ rest ∧ close v1 v2
                         ∧ ((u = WallVertex.id v1 ∧ w = WallVertex.id v2)
                            ∨ (u = WallVertex.id v2 ∧ w = WallVertex.id v1)).
Proof.
  induction rest as [|v2 rest IH]; intros g H1 Hrest; cbn [foldl].
  - exists g. split; [done|]. split; [done|]. split; [done|].
    intros u w. split; [by left|]. intros [?|(v2 & Hin & _)]; [done|].
    by apply elem_of_nil in Hin.
  - apply list.Forall_cons in Hrest as [H2 Hrest].
    destruct (connect_pair_spec g v1 v2 H1 H2) as (g1 & Hpair & Hdom1 & Hcore1 & Hnb1).
    cbn [mbind exn_bind]. rewrite Hpair.
    destruct (IH g1) as (g' & Hrow & Hdom & Hcore & Hnb).
    { by rewrite Hdom1. }
    { eapply list.Forall_impl; [exact Hrest|]. intros v Hv. by rewrite Hdom1. }
    exists g'. split; [exact Hrow|]. split; [by rewrite Hdom, Hdom1|]. split.
    + intros k. by rewrite Hcore, Hcore1.
    + intros u w. rewrite Hnb, Hnb1. split.
      * intros [[Hold | [Hclose Hends]] | (v & Hin & Hclose & Hends)].
        -- by left.
        -- right. exists v2. split; [left|]. done.
        -- right. exists v. split; [by right|]. done.
      * intros [Hold | (v & [->|Hin]%elem_of_cons & Hclose & Hends)].
        -- left. by left.
        -- left. right. done.
        -- right. exists v. done.
Qed.

(** The double loop over the pairs of a list of vertices. *)
Lemma connect_pairs_spec vs :
  ∀ g,
    Forall (λ v, WallVertex.id v ∈ dom (WallTopologyGraph.adjacency g)) vs →
    ∃ g',
      TopologyExtractor.connect_pairs sqrt g vs = Ret g'
      ∧ dom (WallTopologyGraph.adjacency g') = dom (WallTopologyGraph.adjacency g)
      ∧ (∀ k, vertex_core <$> WallTopologyGraph.vertices g' !! k
              = vertex_core <$> WallTopologyGraph.vertices g !! k)
      ∧ ∀ u w, neighbour (WallTopologyGraph.adjacency g') u w
               ↔ neighbour (WallTopologyGraph.adjacency g) u w
                 ∨ ∃ i j v1 v2, (i < j)%nat ∧ vs !! i = Some v1 ∧ vs !! j = Some v2
                                ∧ close v1 v2
                                ∧ ((u = WallVertex.id v1 ∧ w = WallVertex.id v2)
                                   ∨ (u = WallVertex.id v2 ∧ w = WallVertex.id v1)).
Proof.
  induction vs as [|v1 rest IH]; intros g Hvs; cbn [TopologyExtractor.connect_pairs].
  - exists g. split; [done|]. split; [done|]. split; [done|].
    intros u w. split; [by left|]. intros [?|(i & j & v1 & v2 & _ & Hi & _)]; [done|].
    by rewrite lookup_nil in Hi.
  - apply list.Forall_cons in Hvs as [H1 Hrest].
    destruct (connect_row_spec v1 rest g H1 Hrest) as (g1 & Hrow & Hdom1 & Hcore1 & Hnb1).
    rewrite Hrow. cbn [mbind exn_bind].
    destruct (IH g1) as (g' & Hpairs & Hdom & Hcore & Hnb).
    { eapply list.Forall_impl; [exact Hrest|]. intros v Hv. by rewrite Hdom1. }
    exists g'. split; [exact Hpairs|]. split; [by rewrite Hdom, Hdom1|]. split.
    + intros k. by rewrite Hcore, Hcore1.
    + intros u w. rewrite Hnb, Hnb1. split.
      * intros [[Hold | (v2 & Hin & Hclose & Hends)]
               | (i & j & va & vb & Hlt & Hi & Hj & Hclose & Hends)].
        -- by left.
        -- right. apply list_elem_of_lookup in Hin as [j Hj].
           exists 0%nat, (S j), v1, v2. split; [lia|]. done.
        -- right. exists (S i), (S j), va, vb. split; [lia|]. done.
      * intros [Hold | (i & j & va & vb & Hlt & Hi & Hj & Hclose & Hends)];
          [left; by left|].
        destruct i as [|i].
        -- injection Hi as <-. destruct j as [|j]; [lia|].
           cbn [lookup list_lookup] in Hj. left. right. exists vb.
           split; [by eapply list_elem_of_lookup_2|]. done.
        -- destruct j as [|j]; [lia|]. cbn [lookup list_lookup] in Hi, Hj.
           right. exists i, j, va, vb. split; [lia|]. done.
Qed.

End BuildGraph.

(** X24.  [_build_graph] never raises.  The graph it returns has one
    vertex for each key point, the junctions first, then the corners,
    then the endpoints, with ids in that order, the position of the point
    and the flags telling whether the point is among the junctions and
    among the corners; and two vertices are joined exactly when the
    distance computed for them is below 50 pixels, whatever lies between
    them on the skeleton. *)
Theorem build_graph_joins_key_points_closer_than_50
    (sqrt : Qc → Qc) (junctions corners endpoints : list (Z * Z)) :
  let points := junctions ++ corners ++ endpoints in
  ∃ g,
    TopologyExtractor._build_graph sqrt junctions corners endpoints = Ret g
    ∧ WallTopologyGraph.constructed g
    ∧ size (WallTopologyGraph.vertices g) = length points
    ∧ (∀ i p, points !! i = Some p →
              vertex_core <$> WallTopologyGraph.vertices g !! i
              = Some (vertex_core (key_vertex junctions corners i p)))
    ∧ (∀ i j p q, (i < j)%nat → points !! i = Some p → points !! j = Some q →
         let near :=
           (key_distance sqrt (float_of_int p.1, float_of_int p.2)
                              (float_of_int q.1, float_of_int q.2)
            < float_of_int 50)%Qc in
         (neighbour (WallTopologyGraph.adjacency g) i j ↔ near)
         ∧ (neighbour (WallTopologyGraph.adjacency g) j i ↔ near)).
Proof.
  intros points. unfold TopologyExtractor._build_graph. fold points.
  destruct (add_points_spec junctions corners points WallTopologyGraph.init)
    as (Hcons0 & Hcount0 & _ & Hnew0 & Hnb0); [constructor|].
  set (g0 := foldl _ WallTopologyGraph.init points) in *.
  cbn [WallTopologyGraph.vertex_counter WallTopologyGraph.init Nat.add] in Hcount0, Hnew0.
  pose proof (constructed_invariant g0 Hcons0) as Hinv0.
  destruct (vertex_values_lookup g0 Hinv0) as [Hlen Hvalues].
  assert (∀ i v, WallTopologyGraph.vertex_values g0 !! i = Some v →
                 ∃ p, points !! i = Some p ∧ v = key_vertex junctions corners i p)
    as Hvs.
  { intros i v Hi. pose proof (lookup_lt_Some _ _ _ Hi) as Hlt.
    rewrite Hlen, Hcount0 in Hlt.
    destruct (lookup_lt_is_Some_2 points i Hlt) as [p Hp].
    exists p. split; [done|]. rewrite Hvalues, (Hnew0 i p Hp) in Hi. by injection Hi. }
  destruct (connect_pairs_spec sqrt (WallTopologyGraph.vertex_values g0) g0)
    as (g & Hret & Hdom & Hcore & Hnb).
  { apply list.Forall_forall. intros v [i Hi]%list_elem_of_lookup.
    destruct (Hvs i v Hi) as (p & Hp & ->). cbn [key_vertex WallVertex.id].
    rewrite (inv_adjacency_dom g0 Hinv0), (inv_vertices_dom g0 Hinv0), Hcount0.
    by eapply lookup_lt_Some. }
  exists g. split; [exact Hret|].
  assert (WallTopologyGraph.constructed g) as Hcons
    by (by eapply connect_pairs_constructed).
  split; [exact Hcons|].
  pose proof (constructed_invariant g Hcons) as Hinv.
  split.
  { rewrite <- size_dom, <- (inv_adjacency_dom g Hinv), Hdom,
      (inv_adjacency_dom g0 Hinv0), size_dom.
    destruct (constructed_sizes g0 Hcons0) as [-> _]. exact Hcount0. }
  split.
  { intros i p Hp. by rewrite Hcore, (Hnew0 i p Hp). }
  assert (∀ u w, ¬ neighbour (WallTopologyGraph.adjacency g0) u w) as Hnone.
  { intros u w [ns [Hns _]]%Hnb0.
    cbn [WallTopologyGraph.adjacency WallTopologyGraph.init] in Hns.
    by rewrite lookup_empty in Hns. }
  intros i j p q Hlt Hp Hq.
  set (near := (key_distance sqrt (float_of_int p.1, float_of_int p.2)
                                  (float_of_int q.1, float_of_int q.2)
                < float_of_int 50)%Qc).
  assert (WallTopologyGraph.vertex_values g0 !! i
          = Some (key_vertex junctions corners i p)) as Hvi
    by (by rewrite Hvalues, (Hnew0 i p Hp)).
  assert (WallTopologyGraph.vertex_values g0 !! j
          = Some (key_vertex junctions corners j q)) as Hvj
    by (by rewrite Hvalues, (Hnew0 j q Hq)).
  assert (near → ∀ u w, (u = i ∧ w = j) ∨ (u = j ∧ w = i) →
                        neighbour (WallTopologyGraph.adjacency g) u w) as Hyes.
  { intros Hnear u w Hends. apply Hnb. right.
    exists i, j, (key_vertex junctions corners i p), (key_vertex junctions corners j q).
    split; [done|]. split; [done|]. split; [done|]. split; [exact Hnear|].
    cbn [key_vertex WallVertex.id]. exact Hends. }
  assert (∀ u w, (u = i ∧ w = j) ∨ (u = j ∧ w = i) →
                 neighbour (WallTopologyGraph.adjacency g) u w → near) as Hno.
  { intros u w Hends [Hold | (i' & j' & va & vb & Hlt' & Hi' & Hj' & Hclose & Hends')]%Hnb;
      [by apply Hnone in Hold|].
    destruct (Hvs i' va Hi') as (p' & Hp' & ->).
    destruct (Hvs j' vb Hj') as (q' & Hq' & ->).
    cbn [key_vertex WallVertex.id] in Hends'.
    assert (i' = i ∧ j' = j) as [-> ->] by lia.
    rewrite Hp in Hp'. rewrite Hq in Hq'. injection Hp' as <-. injection Hq' as <-.
    exact Hclose. }
  split; split.
  - apply Hno. by left.
  - intros Hnear. apply Hyes; [done|]. by left.
  - apply Hno. by right.
  - intros Hnear. apply Hyes; [done|]. by right.
Qed.
(** ** Stage 3: the key points of a skeleton *)

Section KeyPoints.

Variable skeleton : np.ndarray.

(** The sum over the window of three by three pixels around [(x, y)],
    clipped to the image. *)
Definition window_sum (x y : Z) : Z :=
  np.slice_sum skeleton (Z.max 0 (y - 1)) (y + 2) (Z.max 0 (x - 1)) (x + 2).

(** The three kinds of key points. *)
Inductive key_kind := Junction | Corner | Endpoint.

#[global] Instance key_kind_eq_dec : EqDecision key_kind.
Proof. solve_decision. Defined.

(** The branch the loop of [_detect_key_points] takes at a pixel. *)
Definition kind_at (y x : nat) : option key_kind :=
  let neighbor_count := window_sum (Z.of_nat x) (Z.of_nat y) - 1 in
  if bool_decide (neighbor_count = 1) then Some Endpoint
  else if bool_decide (neighbor_count = 2)
  then if TopologyExtractor._is_corner
            (TopologyExtractor._get_neighbor_directions skeleton (Z.of_nat x) (Z.of_nat y))
       then Some Corner else None
  else if bool_decide (neighbor_count >= 3) then Some Junction
  else None.

(** The pixels of a list that are of one kind, as [(x, y)]. *)
Definition of_kind (k : key_kind) (l : list (nat * nat)) : list (Z * Z) :=
  omap (λ '(y, x), if decide (kind_at y x = Some k)
                   then Some (Z.of_nat x, Z.of_nat y) else None) l.

Lemma detect_fold (l : list (nat * nat)) :
  ∀ junctions corners endpoints,
    foldl (λ '(junctions, corners, endpoints) '(y, x),
             let y := Z.of_nat y in
             let x := Z.of_nat x in
             let neighbor_count :=
               np.slice_sum skeleton (Z.max 0 (y - 1)) (y + 2) (Z.max 0 (x - 1)) (x + 2) - 1 in
             if bool_decide (neighbor_count = 1)
             then (junctions, corners, endpoints ++ [(x, y)])
             else if bool_decide (neighbor_count = 2)
             then if TopologyExtractor._is_corner
                       (TopologyExtractor._get_neighbor_directions skeleton x y)
                  then (junctions, corners ++ [(x, y)], endpoints)
                  else (junctions, corners, endpoints)
             else if bool_decide (neighbor_count >= 3)
             then (junctions ++ [(x, y)], corners, endpoints)
             else (junctions, corners, endpoints))
          (junctions, corners, endpoints) l
    = (junctions ++ of_kind Junction l, corners ++ of_kind Corner l,
       endpoints ++ of_kind Endpoint l).
Proof.
  induction l as [|[y x] l IH]; intros junctions corners endpoints.
  - cbn [foldl of_kind omap list_omap]. by rewrite !app_nil_r.
  - cbn [foldl]. cbv zeta. unfold of_kind. cbn [omap list_omap].
    fold (of_kind Junction l). fold (of_kind Corner l). fold (of_kind Endpoint l).
    unfold kind_at, window_sum. cbv zeta.
    case_bool_decide as H1.
    { rewrite IH. rewrite decide_False, decide_False, decide_True by done.
      by rewrite <- (assoc_L (++)). }
    case_bool_decide as H2.
    { destruct (TopologyExtractor._is_corner _).
      - rewrite IH. rewrite decide_False, decide_True, decide_False by done.
        by rewrite <- (assoc_L (++)).
      - rewrite IH. by rewrite !decide_False by done. }
    case_bool_decide as H3.
    { rewrite IH. rewrite decide_True, decide_False, decide_False by done.
      by rewrite <- (assoc_L (++)). }
    rewrite IH. by rewrite !decide_False by done.
Qed.

Lemma elem_of_of_kind (k : key_kind) (l : list (nat * nat)) (p : Z * Z) :
  p ∈ of_kind k l
  ↔ ∃ y x, (y, x) ∈ l ∧ kind_at y x = Some k ∧ p = (Z.of_nat x, Z.of_nat y).
Proof.
  unfold of_kind. rewrite list_elem_of_omap. split.
  - intros ([y x] & Hin & Hsel). case_decide as Hk; [|done].
    injection Hsel as <-. by exists y, x.
  - intros (y & x & Hin & Hk & ->). exists (y, x). split; [done|].
    by rewrite decide_True.
Qed.

Lemma NoDup_of_kind (k : key_kind) (l : list (nat * nat)) :
  NoDup l → NoDup (of_kind k l).
Proof.
  induction 1 as [|[y x] l Hnotin Hnodup IH]; [constructor|].
  unfold of_kind. cbn [omap list_omap]. fold (of_kind k l).
  case_decide as Hk; [|exact IH].
  constructor; [|exact IH].
  intros (y' & x' & Hin & _ & Heq)%elem_of_of_kind.
  injection Heq as Hx Hy. apply Nat2Z.inj in Hx, Hy. by subst.
Qed.

Lemma of_kind_disjoint (k1 k2 : key_kind) (l : list (nat * nat)) (p : Z * Z) :
  k1 ≠ k2 → p ∈ of_kind k1 l → p ∉ of_kind k2 l.
Proof.
  intros Hne (y & x & _ & Hk1 & ->)%elem_of_of_kind
         (y' & x' & _ & Hk2 & Heq)%elem_of_of_kind.
  injection Heq as Hx Hy. apply Nat2Z.inj in Hx, Hy. subst. congruence.
Qed.

Lemma elem_of_argwhere_positive (a : np.ndarray) (y x : nat) :
  (y, x) ∈ TopologyExtractor.argwhere_positive a
  ↔ (y < np.shape0 a)%nat ∧ (x < np.shape1 a)%nat ∧ np.item a y x > 0.
Proof.
  unfold TopologyExtractor.argwhere_positive.
  rewrite list_elem_of_bind. split.
  - intros (y' & Hin & Hy). apply list_elem_of_bind in Hin as (x' & Hin & Hx).
    case_bool_decide as Hpos; [|by apply elem_of_nil in Hin].
    apply list_elem_of_singleton in Hin as [= -> ->].
    apply elem_of_seq in Hy, Hx. split; [lia|]. split; [lia|done].
  - intros (Hy & Hx & Hpos). exists y. split; [|apply elem_of_seq; lia].
    apply list_elem_of_bind. exists x. split; [|apply elem_of_seq; lia].
    rewrite bool_decide_eq_true_2 by done. by apply list_elem_of_singleton.
Qed.

Lemma elem_of_cell (a : np.ndarray) (y x : nat) (p : nat * nat) :
  p ∈ (if bool_decide (np.item a y x > 0) then [(y, x)] else []) → p = (y, x).
Proof.
  case_bool_decide; [|by intros ?%elem_of_nil]. by intros ?%list_elem_of_singleton.
Qed.

Lemma NoDup_argwhere_positive (a : np.ndarray) :
  NoDup (TopologyExtractor.argwhere_positive a).
Proof.
  unfold TopologyExtractor.argwhere_positive. apply NoDup_bind; [| |apply NoDup_seq].
  - intros y1 y2 p _ _ Hin1 Hin2.
    apply list_elem_of_bind in Hin1 as (x1 & Hin1%elem_of_cell & _).
    apply list_elem_of_bind in Hin2 as (x2 & Hin2%elem_of_cell & _).
    congruence.
  - intros y _. apply NoDup_bind; [| |apply NoDup_seq].
    + intros x1 x2 p _ _ Hin1%elem_of_cell Hin2%elem_of_cell. congruence.
    + intros x _. case_bool_decide; [apply NoDup_singleton | constructor].
Qed.

(** Two integer directions pass the test of [_is_corner] exactly when
    their dot product is zero. *)
Lemma is_corner_perpendicular (directions : list (Z * Z)) :
  TopologyExtractor._is_corner directions = true
  ↔ ∃ d1 d2, directions = [d1; d2] ∧ d1.1 * d2.1 + d1.2 * d2.2 = 0.
Proof.
  unfold TopologyExtractor._is_corner.
  destruct directions as [|[dx1 dy1] [|[dx2 dy2] [|d3 rest]]].
  - split; [done | by intros (? & ? & [=] & _)].
  - split; [done | by intros (? & ? & [=] & _)].
  - rewrite bool_decide_eq_true. cbn [fst snd].
    assert ((float_of_int (Z.abs (dx1 * dx2 + dy1 * dy2)) < Q2Qc (1 # 2))%Qc
            ↔ dx1 * dx2 + dy1 * dy2 = 0) as ->.
    { unfold float_of_int, Qclt, Q2Qc. cbn [this].
      rewrite Qred_lt. unfold Qlt. cbn [Qnum Qden inject_Z]. lia. }
    split.
    + intros Hdot. by exists (dx1, dy1), (dx2, dy2).
    + by intros ([a1 b1] & [a2 b2] & [= -> -> -> ->] & Hdot).
  - split; [done | by intros (? & ? & [=] & _)].
Qed.

End KeyPoints.

(** X25.  The key points [_detect_key_points] reports are pixels of the
    skeleton with a positive value, and no pixel is reported twice, in one
    list or in two.  An endpoint has a window sum of 2, a junction of at
    least 4, and a corner a window sum of 3 and exactly two neighbour
    directions, which are perpendicular. *)
Theorem key_points_are_distinct_skeleton_pixels (skeleton : np.ndarray) :
  let '(junctions, corners, endpoints) := TopologyExtractor._detect_key_points skeleton in
  NoDup (junctions ++ corners ++ endpoints)
  ∧ (∀ x y, (x, y) ∈ junctions ++ corners ++ endpoints →
            0 ≤ x < Z.of_nat (np.shape1 skeleton)
            ∧ 0 ≤ y < Z.of_nat (np.shape0 skeleton)
            ∧ np.item skeleton (Z.to_nat y) (Z.to_nat x) > 0)
  ∧ (∀ x y, (x, y) ∈ endpoints → window_sum skeleton x y = 2)
  ∧ (∀ x y, (x, y) ∈ junctions → 4 ≤ window_sum skeleton x y)
  ∧ (∀ x y, (x, y) ∈ corners →
            window_sum skeleton x y = 3
            ∧ ∃ d1 d2, TopologyExtractor._get_neighbor_directions skeleton x y = [d1; d2]
                       ∧ d1.1 * d2.1 + d1.2 * d2.2 = 0).
Proof.
  unfold TopologyExtractor._detect_key_points. rewrite (detect_fold skeleton).
  cbn [app].
  set (l := TopologyExtractor.argwhere_positive skeleton).
  pose proof (NoDup_argwhere_positive skeleton) as Hl. fold l in Hl.
  assert (∀ k x y, (x, y) ∈ of_kind skeleton k l →
            ∃ y0 x0, x = Z.of_nat x0 ∧ y = Z.of_nat y0
                     ∧ (y0, x0) ∈ l ∧ kind_at skeleton y0 x0 = Some k) as Hkind.
  { intros k x y (y0 & x0 & Hin & Hk & [= -> ->])%elem_of_of_kind. by exists y0, x0. }
  split; [|split; [|split; [|split]]].
  - apply list.NoDup_app. split; [by apply NoDup_of_kind|]. split.
    + intros p Hp [Hc|He]%elem_of_app.
      * by apply (of_kind_disjoint skeleton Junction Corner l p).
      * by apply (of_kind_disjoint skeleton Junction Endpoint l p).
    + apply list.NoDup_app. split; [by apply NoDup_of_kind|].
      split; [|by apply NoDup_of_kind].
      intros p Hp He. by apply (of_kind_disjoint skeleton Corner Endpoint l p).
  - intros x y Hin.
    assert (∃ k, (x, y) ∈ of_kind skeleton k l) as [k Hk].
    { apply elem_of_app in Hin as [?|[?|?]%elem_of_app]; by eexists. }
    destruct (Hkind k x y Hk) as (y0 & x0 & -> & -> & Hpos & _).
    apply elem_of_argwhere_positive in Hpos as (Hy & Hx & Hpos).
    rewrite !Nat2Z.id. split; [lia|]. split; [lia|done].
  - intros x y (y0 & x0 & -> & -> & _ & Hk)%Hkind. revert Hk.
    unfold kind_at. cbv zeta. repeat case_bool_decide; try done; try lia.
    by destruct (TopologyExtractor._is_corner _).
  - intros x y (y0 & x0 & -> & -> & _ & Hk)%Hkind. revert Hk.
    unfold kind_at. cbv zeta. repeat case_bool_decide; try done; try lia.
    by destruct (TopologyExtractor._is_corner _).
  - intros x y (y0 & x0 & -> & -> & _ & Hk)%Hkind. revert Hk.
    unfold kind_at. cbv zeta. repeat case_bool_decide; try done.
    destruct (TopologyExtractor._is_corner _) eqn:Hcorner; [|done].
    intros _. split; [lia|]. by apply is_corner_perpendicular.
Qed.
(** ** Stage 2: the components removed from a mask *)

Section SmallComponents.

Variable labels : np.ndarray.
Variable min_size : Z.

(** A component with fewer pixels than [min_size]. *)
Definition small (label_id : nat) : Prop :=
  WallMaskRefinement.component_size labels label_id < min_size.

#[global] Instance small_dec label_id : Decision (small label_id).
Proof. unfold small. apply _. Defined.

(** The pixel [(x, y)] carries one of the labels of the list, and that
    component is small. *)
Definition in_small_component (ls : list nat) (y x : nat) : Prop :=
  Exists (λ label_id, np.item labels y x = Z.of_nat label_id ∧ small label_id) ls.

#[global] Instance in_small_component_dec ls y x : Decision (in_small_component ls y x).
Proof. unfold in_small_component. apply _. Defined.

Lemma remove_small_fold (ls : list nat) :
  ∀ (result : np.ndarray) (removed_count : nat),
    let '(result', removed_count') :=
      foldl (λ '(result, removed_count) label_id,
               if bool_decide (WallMaskRefinement.component_size labels label_id < min_size)
               then (WallMaskRefinement.zero_where_label result labels label_id,
                     S removed_count)
               else (result, removed_count))
            (result, removed_count) ls in
    np.shape0 result' = np.shape0 result
    ∧ np.shape1 result' = np.shape1 result
    ∧ removed_count' = (removed_count + length (filter small ls))%nat
    ∧ ∀ y x, np.item result' y x
             = if decide (in_small_component ls y x) then 0 else np.item result y x.
Proof.
  induction ls as [|label_id ls IH]; intros result removed_count.
  - cbn [foldl]. split; [done|]. split; [done|].
    split; [rewrite filter_nil; cbn [length]; lia|]. intros y x.
    rewrite decide_False; [done|]. unfold in_small_component. rewrite Exists_nil. tauto.
  - cbn [foldl]. rewrite filter_cons. fold (small label_id).
    destruct (decide (small label_id)) as [Hsmall|Hbig].
    + rewrite (bool_decide_eq_true_2 _ Hsmall).
      specialize (IH (WallMaskRefinement.zero_where_label result labels label_id)
                     (S removed_count)).
      destruct (foldl _ _ ls) as [result' removed_count'].
      destruct IH as (H0 & H1 & Hcount & Hitem).
      split; [done|]. split; [done|]. split; [cbn [length]; lia|].
      intros y x. rewrite Hitem. unfold in_small_component.
      cbn [WallMaskRefinement.zero_where_label np.item].
      destruct (decide (Exists _ ls)) as [Hlater|Hlater].
      * rewrite decide_True; [done|]. by apply Exists_cons_tl.
      * case_bool_decide as Hhere.
        -- rewrite decide_True; [done|]. by apply Exists_cons_hd.
        -- rewrite decide_False; [done|].
           intros [[? _]|?]%Exists_cons; done.
    + rewrite (bool_decide_eq_false_2 _ Hbig).
      specialize (IH result removed_count).
      destruct (foldl _ _ ls) as [result' removed_count'].
      destruct IH as (H0 & H1 & Hcount & Hitem).
      split; [done|]. split; [done|]. split; [done|].
      intros y x. rewrite Hitem. unfold in_small_component.
      destruct (decide (Exists _ ls)) as [Hlater|Hlater].
      * rewrite decide_True; [done|]. by apply Exists_cons_tl.
      * rewrite decide_False; [done|].
        intros [[_ ?]|?]%Exists_cons; done.
Qed.

Lemma some_small (ls : list nat) :
  (0 < length (filter small ls))%nat ↔ ¬ Forall (λ label_id, ¬ small label_id) ls.
Proof.
  induction ls as [|l ls IH].
  - rewrite filter_nil. cbn [length]. split; [lia|]. intros Hn. destruct Hn. constructor.
  - rewrite filter_cons. destruct (decide (small l)) as [Hs|Hs].
    + cbn [length]. split; [|lia]. intros _ Hall.
      by apply list.Forall_cons in Hall as [? _].
    + rewrite IH. rewrite list.Forall_cons. tauto.
Qed.

End SmallComponents.

(** X26.  [_remove_small_components] returns a mask of the same shape in
    which a pixel is zero when OpenCV labelled it with one of the labels
    1, ..., [num_labels - 1] and fewer than [min_size] pixels carry that
    label, and is the pixel of the mask otherwise; the background label 0
    is never removed.  A line is added to the log exactly when a component
    was removed. *)
Theorem remove_small_components_zeroes_small_components
    (cv : cv2.api) (self : WallMaskRefinement.t) (mask : np.ndarray) (min_size : Z) :
  let '(num_labels, labels) := cv2.connectedComponents cv mask in
  let '(result, self') :=
    WallMaskRefinement._remove_small_components cv self mask min_size in
  np.shape0 result = np.shape0 mask
  ∧ np.shape1 result = np.shape1 mask
  ∧ (∀ y x,
       np.item result y x
       = if bool_decide (1 ≤ np.item labels y x < Z.of_nat num_labels
                         ∧ small labels min_size (Z.to_nat (np.item labels y x)))
         then 0 else np.item mask y x)
  ∧ (WallMaskRefinement.log_info self' = WallMaskRefinement.log_info self
     ↔ Forall (λ label_id, ¬ small labels min_size label_id) (seq 1 (num_labels - 1))).
Proof.
  unfold WallMaskRefinement._remove_small_components.
  destruct (cv2.connectedComponents cv mask) as [num_labels labels].
  pose proof (remove_small_fold labels min_size (seq 1 (num_labels - 1)) mask 0%nat)
    as Hfold.
  destruct (foldl _ _ (seq 1 (num_labels - 1))) as [result removed_count].
  destruct Hfold as (H0 & H1 & Hcount & Hitem).
  split; [done|]. split; [done|]. split.
  - intros y x. rewrite Hitem. unfold in_small_component.
    destruct (decide (Exists _ (seq 1 (num_labels - 1)))) as [Hex|Hex].
    + rewrite bool_decide_eq_true_2; [done|].
      apply list.Exists_exists in Hex as (label_id & Hin & -> & Hsmall).
      apply elem_of_seq in Hin. rewrite Nat2Z.id. split; [lia|done].
    + rewrite bool_decide_eq_false_2; [done|].
      intros [Hrange Hsmall]. apply Hex. apply list.Exists_exists.
      exists (Z.to_nat (np.item labels y x)). split; [apply elem_of_seq; lia|].
      split; [lia|done].
  - assert ((0 < removed_count)%nat
            ↔ ¬ Forall (λ label_id, ¬ small labels min_size label_id)
                  (seq 1 (num_labels - 1))) as Hremoved.
    { rewrite Hcount. cbn [Nat.add]. apply some_small. }
    case_bool_decide as Hpos.
    + split.
      * intros Hlog. apply (f_equal length) in Hlog.
        cbn [WallMaskRefinement.append_log WallMaskRefinement.log_info] in Hlog.
        rewrite length_app in Hlog. cbn [length] in Hlog. lia.
      * intros Hall. by apply Hremoved in Hpos.
    + split; [|done]. intros _.
      destruct (decide (Forall (λ label_id, ¬ small labels min_size label_id)
                          (seq 1 (num_labels - 1)))) as [?|Hn]; [done|].
      apply Hremoved in Hn. lia.
Qed.
